(** * stutter / gc.c : a mark-and-sweep collector, embedded at the level of
      its pointers

    The registry of gc.c is a chained hash table whose records are
    separately allocated [Allocation] structs linked through [next].
    The functions below follow gc.c statement by statement over an
    explicit heap of such records, so that in-place relinking, release of
    a record and later reads of it are all visible.

    Conventions of the embedding.
    - [size_t] values are integers in [Z]; arithmetic that the source does
      on [size_t] is reduced modulo [2^64] ([wrap]).
    - [double] load factors are rationals in [Q]; conversion of a product
      to an integer truncates towards zero ([Qtrunc]).
    - An address of an [Allocation] is an index into [heap]; [None] is the
      null pointer.  A released record keeps the fields it had when it was
      released; every access to one is recorded in [uaf] together with the
      place of the access.
    - A result [None] stands for an execution without a defined outcome:
      a null or wild dereference, a division by zero, or a loop that does
      not come to an end.  Loops over chains run on fuel, the number of
      records of the heap, which no chain without a cycle exhausts.
    - The system allocator is an oracle ([sys]); the memory of the
      mutator is a function from addresses to the words read there.
    [gc_strdup] is left out: it copies bytes into the block it allocates,
    and the memory of the mutator is read here in words only. *)

From Stdlib Require Import ZArith QArith Qround Znumtheory Lia List Bool.
From stdpp Require Import base option list.

Local Open Scope Z_scope.

(** ** Machine integers and rationals *)

Definition wrap (z : Z) : Z := z mod 2 ^ 64.

Definition Qtrunc (q : Q) : Z := Z.quot (Qnum q) (Zpos (Qden q)).

Definition Qgtb (a b : Q) : bool := negb (Qle_bool a b).
Definition Qltb (a b : Q) : bool := negb (Qle_bool b a).

(** ** primes.h *)

Definition is_prime (n : Z) : bool :=
  (1 <? n) &&
  forallb (fun d => negb (n mod d =? 0)) (map Z.of_nat (seq 2 (Z.to_nat n - 2))).

(** [search fuel n] inspects the [fuel] candidates [n, n+1, ...] in order
    and stops at the first prime. *)
Fixpoint search (fuel : positive) (n : Z) : Z + Z :=
  match fuel with
  | xH => if is_prime n then inl n else inr (n + 1)
  | xO f =>
      match search f n with
      | inl p => inl p
      | inr m => search f m
      end
  | xI f =>
      match search f n with
      | inl p => inl p
      | inr m =>
          match search f m with
          | inl p => inl p
          | inr m' => if is_prime m' then inl m' else inr (m' + 1)
          end
      end
  end.

Fixpoint fact_pos (n : nat) : positive :=
  match n with
  | O => 1%positive
  | S k => (Pos.of_succ_nat k * fact_pos k)%positive
  end.

(** Modelled from the spec: [next_prime] of primes.h, which is not part of
    the sources at hand.  The spec gives "next_prime(n) -> prime >= n, used
    for every capacity computation"; the model returns the least such
    prime.  The search range ends beyond [n! + 1], below which a prime is
    always found. *)
Definition next_prime (n : Z) : Z :=
  let m := Z.max n 2 in
  match search (fact_pos (Z.to_nat m) + 1) m with
  | inl p => p
  | inr _ => 2
  end.

Arguments next_prime : simpl never.

(** ** Tags and records *)

Definition GC_TAG_NONE : Z := 0.
Definition GC_TAG_ROOT : Z := 1.
Definition GC_TAG_MARK : Z := 2.

(** Addresses of [Allocation] records. *)
Abbreviation addr := nat (only parsing).

Record Allocation := mkAllocation {
  ptr : Z;               (* mem pointer *)
  size : Z;              (* allocated size in bytes *)
  tag : Z;
  dtor : option Z;       (* destructor: address of the function, if any *)
  next : option addr     (* separate chaining *)
}.

Record AllocationMap := mkAllocationMap {
  capacity : Z;
  min_capacity : Z;
  downsize_factor : Q;
  upsize_factor : Q;
  sweep_factor : Q;
  sweep_limit : Z;
  am_size : Z;
  allocs : list (option addr)
}.

Definition set_next (n : option addr) (a : Allocation) : Allocation :=
  mkAllocation (ptr a) (size a) (tag a) (dtor a) n.
Definition set_tag (t : Z) (a : Allocation) : Allocation :=
  mkAllocation (ptr a) (size a) t (dtor a) (next a).
Definition set_size (n : Z) (a : Allocation) : Allocation :=
  mkAllocation (ptr a) n (tag a) (dtor a) (next a).

(** ** The heap of records *)

Record cell := Cell { live : bool; content : Allocation }.

(** Places in gc.c where a record is read or written. *)
Inductive site :=
  | InGet | InPut | InRemove | RemoveAdvance | InResize
  | InMark | InSweep | SweepAdvance | InAllocate | InRealloc | ReallocDtor
  | InFree.

Record Store := mkStore {
  heap : list cell;
  amap : AllocationMap;
  uaf : list (site * addr)
}.

Definition set_heap (h : list cell) (s : Store) : Store :=
  mkStore h (amap s) (uaf s).
Definition set_amap (m : AllocationMap) (s : Store) : Store :=
  mkStore (heap s) m (uaf s).
Definition log_uaf (w : site) (a : addr) (s : Store) : Store :=
  mkStore (heap s) (amap s) (uaf s ++ [(w, a)]).

Definition set_allocs (l : list (option addr)) (m : AllocationMap) : AllocationMap :=
  mkAllocationMap (capacity m) (min_capacity m) (downsize_factor m)
    (upsize_factor m) (sweep_factor m) (sweep_limit m) (am_size m) l.
Definition set_am_size (n : Z) (m : AllocationMap) : AllocationMap :=
  mkAllocationMap (capacity m) (min_capacity m) (downsize_factor m)
    (upsize_factor m) (sweep_factor m) (sweep_limit m) n (allocs m).

(** [am->allocs[i] = v] *)
Definition set_bucket (i : nat) (v : option addr) (s : Store) : Store :=
  set_amap (set_allocs (<[i := v]> (allocs (amap s))) (amap s)) s.

(** Reading a field of the record at [a]. *)
Definition read (w : site) (s : Store) (a : addr) : option (Allocation * Store) :=
  c ← heap s !! a;
  Some (content c, if live c then s else log_uaf w a s).

(** Assigning to a field of the record at [a]. *)
Definition write (w : site) (s : Store) (a : addr)
    (f : Allocation -> Allocation) : option Store :=
  c ← heap s !! a;
  let s' := set_heap (<[a := Cell (live c) (f (content c))]> (heap s)) s in
  Some (if live c then s' else log_uaf w a s').

Definition gc_allocation_new (p sz : Z) (d : option Z) (s : Store) : addr * Store :=
  (length (heap s),
   set_heap (heap s ++ [Cell true (mkAllocation p sz GC_TAG_NONE d None)]) s).

Definition gc_allocation_delete (s : Store) (a : addr) : option Store :=
  c ← heap s !! a;
  Some (set_heap (<[a := Cell false (content c)]> (heap s)) s).

(** ** The allocation map *)

Definition gc_allocation_map_load_factor (m : AllocationMap) : Q :=
  inject_Z (am_size m) / inject_Z (capacity m).

Definition gc_allocation_map_new (min_cap cap : Z)
    (sweep_f downsize_f upsize_f : Q) : AllocationMap :=
  let minc := next_prime min_cap in
  let cap0 := next_prime cap in
  let cap1 := if cap0 <? minc then minc else cap0 in
  {| capacity := cap1;
     min_capacity := minc;
     downsize_factor := downsize_f;
     upsize_factor := upsize_f;
     sweep_factor := sweep_f;
     sweep_limit := Qtrunc (sweep_f * inject_Z cap1);
     am_size := 0;
     allocs := replicate (Z.to_nat cap1) None |}.

Definition gc_hash (p : Z) : Z := Z.shiftr p 3.

(** The bucket of [p]: [gc_hash(ptr) % am->capacity]. *)
Definition bucket_index (m : AllocationMap) (p : Z) : nat :=
  Z.to_nat (gc_hash p mod capacity m).

(** The inner [while (alloc)] of [gc_allocation_map_resize]: every record
    of one old chain is pushed on the front of its new chain. *)
Fixpoint resize_chain (fuel : nat) (new_capacity : Z) (s : Store)
    (resized : list (option addr)) (alloc : option addr)
    : option (Store * list (option addr)) :=
  match alloc with
  | None => Some (s, resized)
  | Some a =>
      match fuel with
      | O => None
      | S fuel' =>
          '(c, s1) ← read InResize s a;
          let next_alloc := next c in
          let new_index := Z.to_nat (gc_hash (ptr c) mod new_capacity) in
          hd ← resized !! new_index;
          s2 ← write InResize s1 a (set_next hd);
          resize_chain fuel' new_capacity s2 (<[new_index := Some a]> resized) next_alloc
      end
  end.

(** The outer [for (i = 0; i < am->capacity; ++i)]; [n] counts the
    iterations that remain. *)
Fixpoint resize_buckets (n : nat) (i : nat) (new_capacity : Z) (s : Store)
    (resized : list (option addr)) : option (Store * list (option addr)) :=
  match n with
  | O => Some (s, resized)
  | S n' =>
      alloc ← allocs (amap s) !! i;
      '(s1, resized1) ← resize_chain (length (heap s)) new_capacity s resized alloc;
      resize_buckets n' (S i) new_capacity s1 resized1
  end.

Definition gc_allocation_map_resize (s : Store) (new_capacity : Z) : option Store :=
  let m := amap s in
  if new_capacity <=? min_capacity m then Some s
  else
    let resized_allocs := replicate (Z.to_nat new_capacity) None in
    '(s1, resized) ← resize_buckets (Z.to_nat (capacity m)) 0 new_capacity s resized_allocs;
    let m1 := amap s1 in
    Some (set_amap
      {| capacity := new_capacity;
         min_capacity := min_capacity m1;
         downsize_factor := downsize_factor m1;
         upsize_factor := upsize_factor m1;
         sweep_factor := sweep_factor m1;
         sweep_limit :=
           Qtrunc (inject_Z (am_size m1)
                   + sweep_factor m1 * inject_Z (wrap (new_capacity - am_size m1)));
         am_size := am_size m1;
         allocs := resized |} s1).

(** The upsert loop of [gc_allocation_map_put]; the boolean tells whether
    the key was found (and the function returned from inside the loop). *)
Fixpoint put_loop (fuel : nat) (s : Store) (index : nat) (alloc : addr)
    (cur prev : option addr) (p : Z) : option (bool * Store) :=
  match cur with
  | None => Some (false, s)
  | Some c =>
      match fuel with
      | O => None
      | S fuel' =>
          '(r, s1) ← read InPut s c;
          if ptr r =? p then
            s2 ← write InPut s1 alloc (set_next (next r));
            s3 ← match prev with
                 | None => Some (set_bucket index (Some alloc) s2)
                 | Some pv => write InPut s2 pv (set_next (Some alloc))
                 end;
            s4 ← gc_allocation_delete s3 c;
            Some (true, s4)
          else put_loop fuel' s1 index alloc (next r) (Some c) p
      end
  end.

Definition gc_allocation_map_put (s : Store) (p sz : Z) (d : option Z)
    : option (addr * Store) :=
  if capacity (amap s) <=? 0 then None
  else
    let index := bucket_index (amap s) p in
    let '(alloc, s0) := gc_allocation_new p sz d s in
    cur ← allocs (amap s0) !! index;
    '(found, s1) ← put_loop (length (heap s0)) s0 index alloc cur None p;
    if (found : bool) then Some (alloc, s1)
    else
      cur1 ← allocs (amap s1) !! index;
      s2 ← write InPut s1 alloc (set_next cur1);
      let s3 := set_bucket index (Some alloc) s2 in
      let s4 := set_amap (set_am_size (wrap (am_size (amap s3) + 1)) (amap s3)) s3 in
      let load_factor := gc_allocation_map_load_factor (amap s4) in
      if Qgtb load_factor (upsize_factor (amap s4)) then
        s5 ← gc_allocation_map_resize s4 (next_prime (wrap (capacity (amap s4) * 2)));
        Some (alloc, s5)
      else Some (alloc, s4).

Fixpoint get_loop (fuel : nat) (s : Store) (cur : option addr) (p : Z)
    : option (option addr * Store) :=
  match cur with
  | None => Some (None, s)
  | Some c =>
      match fuel with
      | O => None
      | S fuel' =>
          '(r, s1) ← read InGet s c;
          if ptr r =? p then Some (Some c, s1)
          else get_loop fuel' s1 (next r) p
      end
  end.

Definition gc_allocation_map_get (s : Store) (p : Z) : option (option addr * Store) :=
  if capacity (amap s) <=? 0 then None
  else
    cur ← allocs (amap s) !! bucket_index (amap s) p;
    get_loop (length (heap s)) s cur p.

(** The loop of [gc_allocation_map_remove].  The last statement of its
    body, [cur = cur->next], is executed after [cur] may have been
    released by [gc_allocation_delete]. *)
Fixpoint remove_loop (fuel : nat) (s : Store) (index : nat)
    (cur prev : option addr) (p : Z) : option Store :=
  match cur with
  | None => Some s
  | Some c =>
      match fuel with
      | O => None
      | S fuel' =>
          '(r, s1) ← read InRemove s c;
          '(prev1, s2) ←
            (if ptr r =? p then
               s' ← match prev with
                    | None => Some (set_bucket index (next r) s1)
                    | Some pv => write InRemove s1 pv (set_next (next r))
                    end;
               s'' ← gc_allocation_delete s' c;
               Some (prev,
                     set_amap (set_am_size (wrap (am_size (amap s'') - 1)) (amap s'')) s'')
             else Some (Some c, s1));
          '(r1, s3) ← read RemoveAdvance s2 c;
          remove_loop fuel' s3 index (next r1) prev1 p
      end
  end.

Definition gc_allocation_map_remove (s : Store) (p : Z) : option Store :=
  if capacity (amap s) <=? 0 then None
  else
    let index := bucket_index (amap s) p in
    cur ← allocs (amap s) !! index;
    s1 ← remove_loop (length (heap s)) s index cur None p;
    let load_factor := gc_allocation_map_load_factor (amap s1) in
    if Qltb load_factor (downsize_factor (amap s1)) then
      gc_allocation_map_resize s1 (next_prime (capacity (amap s1) / 2))
    else Some s1.

(** ** The collector and its environment *)

Definition EAGAIN : Z := 11.
Definition ENOMEM : Z := 12.
Definition EINVAL : Z := 22.

(** What the collector does to the outside: finalizer calls, client memory
    handed back to the system allocator, collections started, warnings. *)
Inductive event :=
  | EvDtor (f : Z) (p : Z)
  | EvFree (p : Z)
  | EvRun
  | EvWarn (p : Z).

(** Modelled from the spec: [struct GarbageCollector] is declared in gc.h,
    which is not part of the sources at hand.  The spec gives its fields
    as the registry, the recorded bottom of stack and the paused flag;
    gc.c uses them as [gc->allocs], [gc->bos] and [gc->paused]. *)
Record GarbageCollector := mkGarbageCollector {
  gc_allocs : Store;     (* gc->allocs and the records it links *)
  paused : bool;
  bos : Z
}.

(** The process around the collector.  [mem a] is the pointer-sized word
    found at byte address [a] (stack and client memory alike); [tos] is
    the address of the local of [gc_mark_stack]; [sys] lists the outcomes
    of the coming calls to malloc/calloc/realloc as the pointer returned
    and the [errno] of a failure. *)
Record World := mkWorld {
  gc : GarbageCollector;
  errno : Z;
  mem : Z -> Z;
  tos : Z;
  sys : list (Z * Z);
  events : list event
}.

Definition store (w : World) : Store := gc_allocs (gc w).

Definition set_store (s : Store) (w : World) : World :=
  mkWorld (mkGarbageCollector s (paused (gc w)) (bos (gc w)))
    (errno w) (mem w) (tos w) (sys w) (events w).
Definition set_paused (b : bool) (w : World) : World :=
  mkWorld (mkGarbageCollector (gc_allocs (gc w)) b (bos (gc w)))
    (errno w) (mem w) (tos w) (sys w) (events w).
Definition set_errno (e : Z) (w : World) : World :=
  mkWorld (gc w) e (mem w) (tos w) (sys w) (events w).
Definition set_sys (l : list (Z * Z)) (w : World) : World :=
  mkWorld (gc w) (errno w) (mem w) (tos w) l (events w).
Definition add_event (e : event) (w : World) : World :=
  mkWorld (gc w) (errno w) (mem w) (tos w) (sys w) (events w ++ [e]).

(** One call to the system allocator (malloc, calloc or realloc). *)
Definition sys_alloc (w : World) : Z * World :=
  match sys w with
  | [] => (0, set_errno ENOMEM w)
  | (p, e) :: rest =>
      (p, if p =? 0 then set_errno e (set_sys rest w) else set_sys rest w)
  end.

Definition gc_mcalloc (count sz : Z) (w : World) : Z * World := sys_alloc w.

(** ** Mark *)

(** The byte-wise walks of gc.c: for each of the [n] addresses from [p]
    on, the word found there is handed to [mark]. *)
Fixpoint scan (mark : Store -> Z -> option Store) (m : Z -> Z)
    (n : nat) (p : Z) (s : Store) : option Store :=
  match n with
  | O => Some s
  | S n' => s1 ← mark s (m p); scan mark m n' (p + 1) s1
  end.

(** [depth] bounds the number of nested activations that get past the test
    on the MARK bit. *)
Fixpoint gc_mark_alloc (depth : nat) (m : Z -> Z) (s : Store) (p : Z)
    : option Store :=
  '(alloc, s1) ← gc_allocation_map_get s p;
  match alloc with
  | None => Some s1
  | Some a =>
      '(c, s2) ← read InMark s1 a;
      if Z.land (tag c) GC_TAG_MARK =? 0 then
        match depth with
        | O => None
        | S d =>
            s3 ← write InMark s2 a (set_tag (Z.lor (tag c) GC_TAG_MARK));
            scan (gc_mark_alloc d m) m (Z.to_nat (size c)) (ptr c) s3
        end
      else Some s2
  end.

Definition gc_mark_stack (w : World) : option World :=
  let t := tos w in
  let b := bos (gc w) in
  let '(t, b) := if t >? b then (b, t) else (t, b) in
  s ← scan (gc_mark_alloc (length (heap (store w))) (mem w)) (mem w)
        (Z.to_nat (b - t)) t (store w);
  Some (set_store s w).

Fixpoint mark_roots_chain (fuel : nat) (m : Z -> Z) (s : Store)
    (chunk : option addr) : option Store :=
  match chunk with
  | None => Some s
  | Some a =>
      match fuel with
      | O => None
      | S fuel' =>
          '(c, s1) ← read InMark s a;
          s2 ← (if Z.land (tag c) GC_TAG_ROOT =? 0 then Some s1
                else gc_mark_alloc (length (heap s1)) m s1 (ptr c));
          '(c1, s3) ← read InMark s2 a;
          mark_roots_chain fuel' m s3 (next c1)
      end
  end.

Fixpoint mark_roots_buckets (n : nat) (i : nat) (m : Z -> Z) (s : Store)
    : option Store :=
  match n with
  | O => Some s
  | S n' =>
      chunk ← allocs (amap s) !! i;
      s1 ← mark_roots_chain (length (heap s)) m s chunk;
      mark_roots_buckets n' (S i) m s1
  end.

Definition gc_mark_roots (w : World) : option World :=
  s ← mark_roots_buckets (Z.to_nat (capacity (amap (store w)))) 0 (mem w) (store w);
  Some (set_store s w).

Definition gc_mark (w : World) : option World :=
  w1 ← gc_mark_roots w;
  gc_mark_stack w1.

(** ** Sweep *)

(** The [while (chunk)] of [gc_sweep].  Its last statement,
    [chunk = chunk->next], follows the call of [gc_allocation_map_remove]
    for a chunk that was not marked. *)
Fixpoint sweep_chain (fuel : nat) (w : World) (total : Z)
    (chunk : option addr) : option (World * Z) :=
  match chunk with
  | None => Some (w, total)
  | Some a =>
      match fuel with
      | O => None
      | S fuel' =>
          '(c, s1) ← read InSweep (store w) a;
          '(w1, total1) ←
            (if Z.land (tag c) GC_TAG_MARK =? 0 then
               let total' := wrap (total + size c) in
               let w' := match dtor c with
                         | Some f => add_event (EvDtor f (ptr c)) (set_store s1 w)
                         | None => set_store s1 w
                         end in
               let w'' := add_event (EvFree (ptr c)) w' in
               s2 ← gc_allocation_map_remove (store w'') (ptr c);
               Some (set_store s2 w'', total')
             else
               s2 ← write InSweep s1 a (set_tag (Z.land (tag c) (Z.lnot GC_TAG_MARK)));
               Some (set_store s2 w, total));
          '(c1, s3) ← read SweepAdvance (store w1) a;
          sweep_chain fuel' (set_store s3 w1) total1 (next c1)
      end
  end.

(** The [for (i = 0; i < gc->allocs->capacity; ++i)] of [gc_sweep]: the
    bound and the bucket array are read anew in each iteration. *)
Fixpoint sweep_buckets (fuel : nat) (i : nat) (w : World) (total : Z)
    : option (World * Z) :=
  if Z.of_nat i <? capacity (amap (store w)) then
    match fuel with
    | O => None
    | S fuel' =>
        chunk ← allocs (amap (store w)) !! i;
        '(w1, total1) ← sweep_chain (2 * length (heap (store w))) w total chunk;
        sweep_buckets fuel' (S i) w1 total1
    end
  else Some (w, total).

Definition gc_sweep (w : World) : option (World * Z) :=
  sweep_buckets (Z.to_nat (capacity (amap (store w)))) 0 w 0.

Definition gc_run (w : World) : option (World * Z) :=
  w1 ← gc_mark (add_event EvRun w);
  gc_sweep w1.

(** ** The allocation interface *)

(** [gc_allocation_map_put] never returns a null record (gc.c does not
    test the result of the [malloc] in [gc_allocation_new]), so the branch
    of [gc_allocate] for [alloc == NULL] is never taken and is left out. *)
Definition gc_allocate (w : World) (count sz : Z) (d : option Z)
    : option (Z * World) :=
  let '(p, w1) := gc_mcalloc count sz w in
  let alloc_size := if count =? 0 then sz else wrap (count * sz) in
  '(p1, w2) ←
    (if (p =? 0) && ((errno w1 =? EAGAIN) || (errno w1 =? ENOMEM)) then
       '(w', _) ← gc_run w1;
       Some (gc_mcalloc count sz w')
     else Some (p, w1));
  if p1 =? 0 then Some (p1, w2)
  else
    '(alloc, s1) ← gc_allocation_map_put (store w2) p1 alloc_size d;
    let w3 := set_store s1 w2 in
    w4 ← (if am_size (amap (store w3)) >? sweep_limit (amap (store w3)) then
            '(w', _) ← gc_run w3; Some w'
          else Some w3);
    '(c, s2) ← read InAllocate (store w4) alloc;
    Some (ptr c, set_store s2 w4).

Definition gc_malloc_ext (w : World) (sz : Z) (d : option Z) : option (Z * World) :=
  gc_allocate w 0 sz d.

Definition gc_malloc (w : World) (sz : Z) : option (Z * World) :=
  gc_malloc_ext w sz None.

Definition gc_calloc_ext (w : World) (count sz : Z) (d : option Z)
    : option (Z * World) :=
  gc_allocate w count sz d.

Definition gc_calloc (w : World) (count sz : Z) : option (Z * World) :=
  gc_calloc_ext w count sz None.

Definition gc_realloc (w : World) (p sz : Z) : option (Z * World) :=
  '(alloc, s0) ← gc_allocation_map_get (store w) p;
  let w0 := set_store s0 w in
  if negb (p =? 0) && negb (bool_decide (is_Some alloc)) then
    Some (0, set_errno EINVAL w0)
  else
    let '(q, w1) := sys_alloc w0 in
    if q =? 0 then Some (0, w1)
    else if p =? 0 then
      '(a, s1) ← gc_allocation_map_put (store w1) q sz None;
      '(c, s2) ← read InRealloc s1 a;
      Some (ptr c, set_store s2 w1)
    else
      a ← alloc;
      if p =? q then
        s1 ← write InRealloc (store w1) a (set_size sz);
        Some (q, set_store s1 w1)
      else
        s1 ← gc_allocation_map_remove (store w1) p;
        '(c, s2) ← read ReallocDtor s1 a;
        '(_, s3) ← gc_allocation_map_put s2 p sz (dtor c);
        Some (q, set_store s3 w1).

Definition gc_free (w : World) (p : Z) : option World :=
  '(alloc, s0) ← gc_allocation_map_get (store w) p;
  let w0 := set_store s0 w in
  match alloc with
  | Some a =>
      '(c, s1) ← read InFree (store w0) a;
      let w1 := match dtor c with
                | Some f => add_event (EvDtor f p) (set_store s1 w0)
                | None => set_store s1 w0
                end in
      let w2 := add_event (EvFree p) w1 in
      s2 ← gc_allocation_map_remove (store w2) p;
      Some (set_store s2 w2)
  | None => Some (add_event (EvWarn p) w0)
  end.

Definition gc_start_ext (w : World) (b : Z) (initial_capacity min_cap : Z)
    (downsize_load_factor upsize_load_factor sweep_f : Q) : World :=
  let downsize_limit := if Qgtb downsize_load_factor 0 then downsize_load_factor else 2 # 10 in
  let upsize_limit := if Qgtb upsize_load_factor 0 then upsize_load_factor else 8 # 10 in
  let sweep_f := if Qgtb sweep_f 0 then sweep_f else 5 # 10 in
  let initial_capacity :=
    if initial_capacity <? min_cap then min_cap else initial_capacity in
  mkWorld
    (mkGarbageCollector
       (mkStore (heap (store w))
          (gc_allocation_map_new min_cap initial_capacity sweep_f downsize_limit upsize_limit)
          (uaf (store w)))
       false b)
    (errno w) (mem w) (tos w) (sys w) (events w).

Definition gc_start (w : World) (b : Z) : World :=
  gc_start_ext w b 1024 1024 (2 # 10) (8 # 10) (5 # 10).

Definition gc_pause (w : World) : World := set_paused true w.

Definition gc_resume (w : World) : World := set_paused false w.


(* ===================================================================== *)
(** * Stopping the collector *)

(** The [while (alloc)] of [gc_allocation_map_delete]: the next pointer is
    read into [alloc] before the record [tmp] is released.  In this
    function a record that has been released already cannot be read: the
    outcome is undefined. *)
Fixpoint delete_chain (fuel : nat) (s : Store) (alloc : option addr) : option Store :=
  match alloc with
  | None => Some s
  | Some tmp =>
      match fuel with
      | O => None
      | S fuel' =>
          c ← heap s !! tmp;
          if live c then
            s1 ← gc_allocation_delete s tmp;
            delete_chain fuel' s1 (next (content c))
          else None
      end
  end.

(** The [for (i = 0; i < am->capacity; ++i)] of
    [gc_allocation_map_delete]; [n] counts the iterations that remain. *)
Fixpoint delete_buckets (n : nat) (i : nat) (s : Store) : option Store :=
  match n with
  | O => Some s
  | S n' =>
      alloc ← allocs (amap s) !! i;
      s1 ← delete_chain (length (heap s)) s alloc;
      delete_buckets n' (S i) s1
  end.

(** After [free(am->allocs); free(am)] the map is gone: what is left is
    the heap of records and the log of accesses to released records. *)
Definition gc_allocation_map_delete (s : Store)
    : option (list cell * list (site * addr)) :=
  s1 ← delete_buckets (Z.to_nat (capacity (amap s))) 0 s;
  Some (heap s1, uaf s1).

(** What is left of a process after [gc_stop]: [gc->allocs] dangles. *)
Record Stopped := mkStopped {
  records : list cell;
  accesses : list (site * addr);
  calls : list event
}.

Definition gc_stop (w : World) : option Stopped :=
  '(w1, _) ← gc_run w;
  '(h, u) ← gc_allocation_map_delete (store w1);
  Some (mkStopped h u (events w1)).
(* ===================================================================== *)
(** * Well-formed registries *)

(** [lseg h x l y]: following [next] from the pointer [x] one meets the
    live records at the addresses [l], in that order, and then the
    pointer [y]. *)
Inductive lseg (h : list cell) : option addr -> list addr -> option addr -> Prop :=
  | lseg_nil x : lseg h x [] x
  | lseg_cons a c l y :
      h !! a = Some (Cell true c) ->
      lseg h (next c) l y ->
      lseg h (Some a) (a :: l) y.

(** A null-terminated chain. *)
Definition chain (h : list cell) (x : option addr) (l : list addr) : Prop :=
  lseg h x l None.

(** The record stored at an address (whether released or not). *)
Definition rec_at (h : list cell) (a : addr) : Allocation :=
  match h !! a with
  | Some c => content c
  | None => mkAllocation 0 0 0 None None
  end.

Definition ptr_at (h : list cell) (a : addr) : Z := ptr (rec_at h a).

(** The fields of the records other than [next]. *)
Definition fields (h : list cell) : list Allocation :=
  (fun c => set_next None (content c)) <$> h.

(** First record of a chain whose [ptr] is [p]. *)
Definition lookup_chain (h : list cell) (p : Z) (l : list addr) : option addr :=
  find (fun a => ptr_at h a =? p) l.

(** [rep s G]: the bucket array of [s] heads the chains [G], one list of
    addresses per bucket, no record being linked twice. *)
Record rep (s : Store) (G : list (list addr)) : Prop := mkRep {
  rep_chains : Forall2 (chain (heap s)) (allocs (amap s)) G;
  rep_nodup : NoDup (concat G);
  rep_len : length (allocs (amap s)) = Z.to_nat (capacity (amap s));
  rep_cap : 0 < capacity (amap s)
}.

(** Every record sits in the bucket of its [ptr]. *)
Definition index_ok (s : Store) (G : list (list addr)) : Prop :=
  forall i l a, G !! i = Some l -> a ∈ l ->
    bucket_index (amap s) (ptr_at (heap s) a) = i.

(** No two records share a [ptr]. *)
Definition keys_ok (s : Store) (G : list (list addr)) : Prop :=
  NoDup (ptr_at (heap s) <$> concat G).

(** A well-formed registry: null-terminated chains without sharing, each
    record in the bucket of its key, keys unique. *)
Definition wf (s : Store) (G : list (list addr)) : Prop :=
  rep s G /\ index_ok s G /\ keys_ok s G.

Definition well_formed (s : Store) : Prop := exists G, wf s G.

(** The invariant of the registry: the chains are well formed, [size]
    counts the records linked from the bucket array (and fits a [size_t]),
    [capacity] is a prime not below [min_capacity]. *)
Definition Inv (s : Store) : Prop :=
  exists G,
    wf s G /\
    am_size (amap s) = Z.of_nat (length (concat G)) /\
    am_size (amap s) < 2 ^ 64 /\
    prime (capacity (amap s)) /\
    min_capacity (amap s) <= capacity (amap s).

(** The stores met along a sequence of puts and removes on a fresh map
    (resizes happen inside them), as long as neither [size + 1] nor
    [capacity * 2] leaves the range of [size_t]. *)
Inductive reachable : Store -> Prop :=
  | reach_new h u min_cap cap sweep_f downsize_f upsize_f :
      reachable (mkStore h (gc_allocation_map_new min_cap cap sweep_f downsize_f upsize_f) u)
  | reach_put s p sz d a s' :
      reachable s ->
      am_size (amap s) + 1 < 2 ^ 64 ->
      capacity (amap s) * 2 < 2 ^ 64 ->
      gc_allocation_map_put s p sz d = Some (a, s') ->
      reachable s'
  | reach_remove s p s' :
      reachable s ->
      gc_allocation_map_remove s p = Some s' ->
      reachable s'.

(** Number of records of the chains that do not carry the MARK bit. *)
Definition unmarked (h : list cell) (l : list addr) : nat :=
  length (filter (fun a => Z.land (tag (rec_at h a)) GC_TAG_MARK = 0) l).

(** The chains built by [gc_allocation_map_resize]: each record of the
    old chains, taken in order, goes to the front of its new chain. *)
Definition push (new_capacity : Z) (h : list cell) (N : list (list addr))
    (a : addr) : list (list addr) :=
  alter (cons a) (Z.to_nat (gc_hash (ptr_at h a) mod new_capacity)) N.

Definition rehash (new_capacity : Z) (h : list cell) (l : list addr)
    (N : list (list addr)) : list (list addr) :=
  foldl (push new_capacity h) N l.

(** Every record of the chains [N] sits in the bucket of its [ptr], for
    [n] buckets. *)
Definition placed (n : Z) (h : list cell) (N : list (list addr)) : Prop :=
  forall j lj a, N !! j = Some lj -> a ∈ lj ->
    Z.to_nat (gc_hash (ptr_at h a) mod n) = j.

(** The settings of a map that no operation changes. *)
Definition same_config (m m' : AllocationMap) : Prop :=
  min_capacity m' = min_capacity m /\
  downsize_factor m' = downsize_factor m /\
  upsize_factor m' = upsize_factor m /\
  sweep_factor m' = sweep_factor m.

(** Capacity of the map after a key that was not present has been put. *)
Definition put_capacity (m : AllocationMap) : Z :=
  let c' := next_prime (wrap (capacity m * 2)) in
  if Qgtb (inject_Z (wrap (am_size m + 1)) / inject_Z (capacity m)) (upsize_factor m)
     && (min_capacity m <? c')
  then c' else capacity m.

(** Capacity of the map after a removal that leaves [n] records. *)
Definition remove_capacity (m : AllocationMap) (n : Z) : Z :=
  let c' := next_prime (capacity m / 2) in
  if Qltb (inject_Z n / inject_Z (capacity m)) (downsize_factor m)
     && (min_capacity m <? c')
  then c' else capacity m.

(** The records of a chain that survive the removal of the key [p]. *)
Definition keep (h : list cell) (p : Z) (l : list addr) : list addr :=
  filter (fun a => ptr_at h a <> p) l.

(** [am->size--], [k] times. *)
Definition decr (k : nat) (n : Z) : Z := Nat.iter k (fun z => wrap (z - 1)) n.

(* ===================================================================== *)
(** * Concrete registries and processes used below *)

(** A fresh map of capacity 11 and minimal capacity 2 with the default
    factors, as [gc_start_ext(gc, bos, 11, 2, 0.2, 0.8, 0.5)] creates it. *)
Definition small_map : Store :=
  mkStore [] (gc_allocation_map_new 2 11 (5 # 10) (2 # 10) (8 # 10)) [].

(** [small_map] after the key 184 has been put. *)
Definition one_record : Store :=
  Eval vm_compute in
    match gc_allocation_map_put small_map 184 8 None with
    | Some (_, s) => s
    | None => small_map
    end.

(** Two records in bucket 1 of [small_map] (keys 184 and 272): the store
    reached by putting 184 and then 272. *)
Definition two_records : Store :=
  mkStore
    [Cell true (mkAllocation 184 8 GC_TAG_NONE None None);
     Cell true (mkAllocation 272 8 GC_TAG_NONE None (Some 0%nat))]
    (mkAllocationMap 11 2 (2 # 10) (8 # 10) (5 # 10) 5 2
       [None; Some 1%nat; None; None; None; None; None; None; None; None; None])
    [].

Definition two_records_chains : list (list addr) :=
  [[]; [1%nat; 0%nat]; []; []; []; []; []; []; []; []; []].

(** A map whose upsize factor is 3: it is allowed to hold three records
    per bucket before it grows. *)
Definition loose_map : Store :=
  mkStore [] (gc_allocation_map_new 2 2 (5 # 10) (2 # 10) 3) [].

(** [loose_map] after the keys 8, 16 and 24 have been put. *)
Definition loose_1 : Store :=
  Eval vm_compute in
    match gc_allocation_map_put loose_map 8 1 None with
    | Some (_, s) => s
    | None => loose_map
    end.
Definition loose_2 : Store :=
  Eval vm_compute in
    match gc_allocation_map_put loose_1 16 1 None with
    | Some (_, s) => s
    | None => loose_map
    end.
Definition loose_3 : Store :=
  Eval vm_compute in
    match gc_allocation_map_put loose_2 24 1 None with
    | Some (_, s) => s
    | None => loose_map
    end.

(** A map of capacity 11 whose minimal capacity is 5. *)
Definition floor_map : Store :=
  mkStore [] (gc_allocation_map_new 5 11 (5 # 10) (2 # 10) (8 # 10)) [].

(** Number of records after [gc_allocation_map_remove s p]. *)
Definition size_after_remove (s : Store) (p : Z) : Z :=
  match gc_allocation_map_get s p with
  | Some (Some _, _) => wrap (am_size (amap s) - 1)
  | _ => am_size (amap s)
  end.

(** A process before [gc_start]: no record allocated, memory [m], the
    scanner's local at [t], and the coming answers [q] of the system
    allocator. *)
Definition blank (m : Z -> Z) (t : Z) (q : list (Z * Z)) : World :=
  mkWorld
    (mkGarbageCollector (mkStore [] (mkAllocationMap 0 0 0 0 0 0 0 []) []) false 0)
    0 m t q [].

Definition after {A} (r : option (A * World)) (w : World) : World :=
  match r with
  | Some (_, w') => w'
  | None => w
  end.

(** The stack between [tos = 1000] and [bos = 1016] holds the pointers 184
    and 48; client memory holds no pointers. *)
Definition stack_184_48 (a : Z) : Z :=
  if a =? 1000 then 184 else if a =? 1008 then 48 else 0.

(** [gc_start_ext(gc, bos, 11, 2, 0.2, 0.8, 0.5)] followed by three
    [gc_malloc(gc, 8)] that return 184, 16 and 48. *)
Definition started : World :=
  gc_start_ext (blank stack_184_48 1000 [(184, 0); (16, 0); (48, 0)])
    1016 11 2 (2 # 10) (8 # 10) (5 # 10).
Definition three_allocs : World :=
  Eval vm_compute in
    after (gc_malloc (after (gc_malloc (after (gc_malloc started 8) started) 8) started) 8)
      started.

(** [three_allocs] once the mark phase of a collection has run. *)
Definition three_marked : World :=
  Eval vm_compute in
    match gc_mark (add_event EvRun three_allocs) with
    | Some w => w
    | None => three_allocs
    end.

(** [three_allocs] after [gc_run]. *)
Definition three_swept : World :=
  Eval vm_compute in
    match gc_run three_allocs with
    | Some (w, _) => w
    | None => three_allocs
    end.

(** One allocation with a finalizer, then the system reallocator will move
    it from 184 to 48. *)
Definition one_alloc : World :=
  Eval vm_compute in
    after (gc_malloc_ext
             (gc_start_ext (blank (fun _ => 0) 1000 [(184, 0); (48, 0)])
                1016 11 2 (2 # 10) (8 # 10) (5 # 10))
             8 (Some 7777))
      (blank (fun _ => 0) 1000 []).
Definition one_realloc : World :=
  Eval vm_compute in after (gc_realloc one_alloc 184 16) one_alloc.

(** The stack holds the pointer 16 only. *)
Definition stack_16 (a : Z) : Z := if a =? 1000 then 16 else 0.

(** A collector with capacity 3 (sweep limit 1) that manages one
    allocation to which nothing points. *)
Definition one_garbage : World :=
  Eval vm_compute in
    after (gc_malloc
             (gc_start_ext (blank stack_16 1000 [(184, 0); (16, 0)])
                1016 3 3 (2 # 10) (8 # 10) (5 # 10))
             8)
      (blank stack_16 1000 []).

(** The same, after [gc_pause]. *)
Definition paused_one : World := Eval vm_compute in gc_pause one_garbage.

(** A paused collector whose system allocator fails once with ENOMEM. *)
Definition paused_oom : World :=
  gc_pause
    (gc_start_ext (blank (fun _ => 0) 1000 [(0, ENOMEM); (16, 0)])
       1016 3 3 (2 # 10) (8 # 10) (5 # 10)).

(** Memory in which the blocks at 184 and 272 point at each other. *)
Definition cyclic_mem (a : Z) : Z :=
  if a =? 184 then 272 else if a =? 272 then 184 else 0.

(** [two_records] inside a process whose system allocator is exhausted. *)
Definition two_world : World :=
  mkWorld (mkGarbageCollector two_records false 1016) 0 cyclic_mem 1000 [] [].

(** The outcome of an operation, with the paused flag of the resulting
    process set to [b]. *)
Definition with_paused {A} (b : bool) (r : option (A * World)) : option (A * World) :=
  (fun x => (fst x, set_paused b (snd x))) <$> r.

Definition with_paused_l {A} (b : bool) (r : option (World * A)) : option (World * A) :=
  (fun x => (set_paused b (fst x), snd x)) <$> r.

(** A collector at its minimal capacity 11, managing 184, 272 (with a
    finalizer) and 360 in one chain of bucket 1; the stack holds 184 and
    360. *)
Definition stack_184_360 (a : Z) : Z :=
  if a =? 1000 then 184 else if a =? 1008 then 360 else 0.

Definition one_chain : World :=
  Eval vm_compute in
    let w0 := gc_start_ext (blank stack_184_360 1000 [(184, 0); (272, 0); (360, 0)])
                1016 11 11 (2 # 10) (8 # 10) (5 # 10) in
    after (gc_malloc (after (gc_malloc_ext (after (gc_malloc w0 8) w0) 8 (Some 7777)) w0) 8) w0.


(* ===================================================================== *)
(** * Observations on a registry *)

(** What a caller of [gc_allocation_map_get] finds under the key [p]: the
    fields, other than [next], of the record returned, or nothing when the
    result is null. *)
Definition entry (s : Store) (p : Z) : option (option Allocation) :=
  '(r, _) ← gc_allocation_map_get s p;
  match r with
  | None => Some None
  | Some a => c ← heap s !! a; Some (Some (set_next None (content c)))
  end.

(** The events of releasing the client block of a record: its finalizer,
    if it has one, and then [free]. *)
Definition release_events (r : Allocation) : list event :=
  match dtor r with
  | Some f => [EvDtor f (ptr r); EvFree (ptr r)]
  | None => [EvFree (ptr r)]
  end.

(** [two_records] inside a process whose system allocator will answer
    with [q]. *)
Definition two_world_with (q : list (Z * Z)) : World :=
  mkWorld (mkGarbageCollector two_records false 1016) 0 cyclic_mem 1000 q [].

(* ===================================================================== *)
(** * What the mark phase is to compute *)

(** The record at [a] carries the MARK bit. *)
Definition marked (h : list cell) (a : addr) : Prop :=
  Z.land (tag (rec_at h a)) GC_TAG_MARK <> 0.

(** [h'] differs from [h] by MARK bits that have been set, and by nothing
    else. *)
Definition only_marks (h h' : list cell) : Prop :=
  length h' = length h /\
  forall a lv c, h !! a = Some (Cell lv c) ->
    exists t, h' !! a = Some (Cell lv (set_tag t c)) /\
              (t = tag c \/ t = Z.lor (tag c) GC_TAG_MARK).

(** The block of the record at [a] holds, at one of its byte offsets, the
    key of the record at [b]. *)
Definition points (m : Z -> Z) (h : list cell) (a b : addr) : Prop :=
  exists k, 0 <= k < size (rec_at h a) /\ ptr_at h b = m (ptr_at h a + k).

(** The records of [L] that the marker gets to from the words [roots]. *)
Inductive reach_from (m : Z -> Z) (h : list cell) (L : list addr)
    (roots : Z -> Prop) : addr -> Prop :=
  | rf_root a : a ∈ L -> roots (ptr_at h a) -> reach_from m h L roots a
  | rf_step a b :
      reach_from m h L roots a -> b ∈ L -> points m h a b ->
      reach_from m h L roots b.

(** A run of the marker from [s] to [s'] that was handed the words
    [roots]: it sets MARK bits only; it marks the records of the roots;
    and each record it marks anew is reached from a root and has the
    records its block points to marked as well. *)
Definition mark_spec (m : Z -> Z) (G : list (list addr)) (roots : Z -> Prop)
    (s s' : Store) : Prop :=
  amap s' = amap s /\ uaf s' = uaf s /\
  only_marks (heap s) (heap s') /\
  (forall a, a ∈ concat G -> roots (ptr_at (heap s) a) -> marked (heap s') a) /\
  (forall a, a ∈ concat G -> marked (heap s') a -> ~ marked (heap s) a ->
     (forall b, b ∈ concat G -> points m (heap s) a b -> marked (heap s') b) /\
     reach_from m (heap s) (concat G) roots a).

(** The calls of [gc_mark_alloc] that a loop makes, in order. *)
Fixpoint mark_list (depth : nat) (m : Z -> Z) (s : Store) (ps : list Z)
    : option Store :=
  match ps with
  | [] => Some s
  | p :: ps' => s1 ← gc_mark_alloc depth m s p; mark_list depth m s1 ps'
  end.

(** The words at the [n] byte addresses from [p] on. *)
Definition words (m : Z -> Z) (p : Z) (n : nat) : list Z :=
  (fun k => m (p + Z.of_nat k)) <$> seq 0 n.

(** The same notions in terms of keys and lookups. *)
Definition marked_key (s : Store) (q : Z) : Prop :=
  exists r, entry s q = Some (Some r) /\ Z.land (tag r) GC_TAG_MARK <> 0.

Definition root_key (s : Store) (q : Z) : Prop :=
  exists r, entry s q = Some (Some r) /\ Z.land (tag r) GC_TAG_ROOT <> 0.

(** [p] is a word found at a byte address of the stack between its top
    and the recorded bottom. *)
Definition stack_word (w : World) (p : Z) : Prop :=
  exists k, Z.min (tos w) (bos (gc w)) <= k < Z.max (tos w) (bos (gc w)) /\
            p = mem w k.

(** The registered pointers that are reached from the words [roots]
    through the words stored in registered blocks. *)
Inductive reaches (m : Z -> Z) (s : Store) (roots : Z -> Prop) : Z -> Prop :=
  | reaches_root q r :
      roots q -> entry s q = Some (Some r) -> reaches m s roots q
  | reaches_word q r k r' :
      reaches m s roots q -> entry s q = Some (Some r) ->
      0 <= k < size r -> entry s (m (q + k)) = Some (Some r') ->
      reaches m s roots (m (q + k)).

(** The roots of a collection: the words of the stack and the keys of
    the records tagged ROOT. *)
Definition gc_roots (w : World) (p : Z) : Prop :=
  stack_word w p \/ root_key (store w) p.

(** The record at [a] carries the ROOT bit. *)
Definition rooted (h : list cell) (a : addr) : Prop :=
  Z.land (tag (rec_at h a)) GC_TAG_ROOT <> 0.

(** The keys of the records of [l] that are tagged ROOT. *)
Definition root_ptrs (h : list cell) (l : list addr) (p : Z) : Prop :=
  exists a, a ∈ l /\ rooted h a /\ p = ptr_at h a.

(** [two_records] in a process whose stack holds the pointer 184 and
    whose blocks 184 and 272 point at each other. *)
Definition stack_184_cyclic (a : Z) : Z :=
  if a =? 1000 then 184 else cyclic_mem a.

Definition two_on_stack : World :=
  mkWorld (mkGarbageCollector two_records false 1016) 0 stack_184_cyclic 1000 [] [].

(* ===================================================================== *)
(** * What the sweep phase is to compute *)

(** The map is at its floor: the capacity that a downsize would ask for is
    not above the minimal capacity, so that [gc_allocation_map_resize]
    returns at its guard whatever the load factor is. *)
Definition at_floor (m : AllocationMap) : Prop :=
  next_prime (capacity m / 2) <= min_capacity m.

(** [chunk->tag &= ~GC_TAG_MARK] *)
Definition clear_mark (r : Allocation) : Allocation :=
  set_tag (Z.land (tag r) (Z.lnot GC_TAG_MARK)) r.

(** The records of [l] that the sweep removes, and those it keeps. *)
Definition dead (h : list cell) (l : list addr) : list addr :=
  filter (fun a => Z.land (tag (rec_at h a)) GC_TAG_MARK = 0) l.

Definition alive (h : list cell) (l : list addr) : list addr :=
  filter (fun a => Z.land (tag (rec_at h a)) GC_TAG_MARK <> 0) l.

(** The heap [h] once the sweep has visited the records [D] of the heap
    [h0]: the records visited have lost their MARK bit; no other field but
    [next] has changed anywhere. *)
Definition swept_to (h0 h : list cell) (D : list addr) : Prop :=
  length h = length h0 /\
  forall a, set_next None (rec_at h a) =
            set_next None (if decide (a ∈ D) then clear_mark (rec_at h0 a)
                           else rec_at h0 a).

(** The sum that [gc_sweep] returns for the records [l]. *)
Definition freed_bytes (h : list cell) (total : Z) (l : list addr) : Z :=
  foldl (fun t a => wrap (t + size (rec_at h a))) total l.

(** The calls that [gc_sweep] makes for the records [l]. *)
Definition freed_events (h : list cell) (l : list addr) : list event :=
  l ≫= (fun a => release_events (rec_at h a)).

(** The process [w] after the calls [evs] have been made. *)
Definition emit (evs : list event) (w : World) : World :=
  mkWorld (gc w) (errno w) (mem w) (tos w) (sys w) (events w ++ evs).

(** The stores of [one_chain] as its three allocations are registered. *)
Definition chain_0 : Store :=
  mkStore [] (gc_allocation_map_new 11 11 (5 # 10) (2 # 10) (8 # 10)) [].
Definition chain_1 : Store :=
  Eval vm_compute in
    match gc_allocation_map_put chain_0 184 8 None with
    | Some (_, s) => s
    | None => chain_0
    end.
Definition chain_2 : Store :=
  Eval vm_compute in
    match gc_allocation_map_put chain_1 272 8 (Some 7777) with
    | Some (_, s) => s
    | None => chain_0
    end.

(** [one_chain] once the mark phase has run: 184 and 360 are marked. *)
Definition one_chain_marked : World :=
  Eval vm_compute in
    match gc_mark one_chain with
    | Some w => w
    | None => one_chain
    end.

(** [one_chain] when the system allocator is about to fail twice. *)
Definition one_chain_oom : World :=
  set_sys [(0, ENOMEM); (0, EAGAIN)] one_chain.

(* ===================================================================== *)
(** * lexer.c : the tokenizer

    [lexer_get_token] reads characters from a [FILE*] and returns the next
    token, or null at the end of the input.  The stream is the list of the
    characters still to be read, as [fgetc] returns them (integers from 0
    to 255); [ungetc] puts one character back in front of it.  A result
    [None] stands for an execution without a defined outcome: a write
    beyond [buf], or [strlen] on a [buf] that holds no terminator.

    lexer.h is not part of the sources at hand: the enumerators and the
    fields below are those that lexer.c uses.  [malloc] is taken to
    succeed, as lexer.c does (it never tests the result). *)

From Stdlib Require Ascii String.
Import Ascii.AsciiSyntax String.StringSyntax.
Delimit Scope string_scope with string.
Delimit Scope char_scope with char.

Definition ch (c : Ascii.ascii) : Z := Z.of_N (Ascii.N_of_ascii c).

Inductive token_type_t :=
  | INT | FLOAT | STRING | ERROR | SYMBOL | LPAREN | RPAREN | QUOTE.

(** [LEXER_STATE_OTHER] stands for any value of the state that is none of
    the five that lexer.c names (the [default] of its outer switch). *)
Inductive lexer_state_t :=
  | LEXER_STATE_ZERO | LEXER_STATE_STRING | LEXER_STATE_NUMBER
  | LEXER_STATE_FLOAT | LEXER_STATE_SYMBOL | LEXER_STATE_OTHER.

(** A token as [lexer_make_token] leaves it.  [value] is the text found in
    the block that [tok->value] points to; [value_size] is the size that
    was asked of [malloc] for that block and [written] the number of bytes
    that [strcpy] wrote to it; [lost] lists the sizes of the blocks that
    were allocated for [tok->value] before and to which no pointer is
    left. *)
Record lexer_token_t := mkToken {
  type : token_type_t;
  value : list Z;
  value_size : Z;
  written : Z;
  lost : list Z
}.

Record lexer_t := mkLexer {
  fp : list Z;
  state : lexer_state_t;
  line_no : Z;
  char_no : Z
}.

Definition sizeof_int : Z := 4.
Definition sizeof_double : Z := 8.
Definition BUFSIZE : Z := 1024.

(** [symbol_chars] *)
Definition symbol_chars : list Z :=
  map ch (String.list_ascii_of_string
    "!*+-0123456789<=>?@ABCDEFGHIJKLMNOPQRSTUVWXYZabcdefghijklmnopqrstuvwxyz"%string).

Definition lexer_new (f : list Z) : lexer_t :=
  {| fp := f; state := LEXER_STATE_ZERO; line_no := 1; char_no := 0 |}.

(** The string that a [char*] to the bytes [b], followed by a zero byte,
    denotes: the bytes before the first zero. *)
Fixpoint c_string (b : list Z) : list Z :=
  match b with
  | [] => []
  | c :: b' => if c =? 0 then [] else c :: c_string b'
  end.

(** [strchr(s, c) != NULL]: the terminating zero of [s] counts as part of
    the string. *)
Definition strchr (s : list Z) (c : Z) : bool :=
  (c =? 0) || existsb (Z.eqb c) s.

(** The cases of the [switch] of [lexer_make_token] have no [break]: an
    [INT] allocates an [int], then a [double], then the copy of the text;
    a [FLOAT] a [double], then the copy; [tok->value] ends as the copy of
    the text for every type.  The copy is made by [strcpy] into a block of
    [strlen(buf)] bytes.  [buf] is the array of [lexer_get_token], given
    here by the bytes written to it; the rest of the array is zero, so
    that [strlen] ends within the array unless all of its 1024 bytes have
    been written and none is zero.  [atoi] and [atof] are taken to return;
    what they return goes to the blocks that are lost. *)
Definition lexer_make_token (token_type : token_type_t) (buf : list Z)
    : option lexer_token_t :=
  if (Z.of_nat (length buf) <? BUFSIZE) || existsb (Z.eqb 0) buf then
    let text := c_string buf in
    Some {| type := token_type;
            value := text;
            value_size := Z.of_nat (length text);
            written := Z.of_nat (length text) + 1;
            lost := match token_type with
                    | INT => [sizeof_int; sizeof_double]
                    | FLOAT => [sizeof_double]
                    | _ => []
                    end |}
  else None.

(** [buf[bufpos++] = c] *)
Definition put_char (buf : list Z) (c : Z) : option (list Z) :=
  if Z.of_nat (length buf) <? BUFSIZE then Some (buf ++ [c]) else None.

Definition is_digit (c : Z) : bool := (ch "0"%char <=? c) && (c <=? ch "9"%char).
Definition is_letter (c : Z) : bool :=
  ((ch "a"%char <=? c) && (c <=? ch "z"%char)) || ((ch "A"%char <=? c) && (c <=? ch "Z"%char)).
Definition is_paren (c : Z) : bool := (c =? ch "("%char) || (c =? ch ")"%char).
Definition is_blank (c : Z) : bool :=
  (c =? ch " "%char) || (c =? 13) || (c =? 9).
Definition NEWLINE : Z := 10.

(** A [return lexer_make_token(t, buf)] that leaves the stream [input], the
    state [st] and the line number [line]. *)
Definition ret (t : token_type_t) (buf : list Z)
    (input : list Z) (st : lexer_state_t) (line : Z)
    : option (option lexer_token_t * (list Z * lexer_state_t * Z)) :=
  tok ← lexer_make_token t buf;
  Some (Some tok, (input, st, line)).

(** The [while ((c = fgetc(l->fp)) != EOF)] of [lexer_get_token] and the
    test that follows it. *)
Fixpoint lexer_loop (input : list Z) (st : lexer_state_t) (line : Z)
    (buf : list Z)
    : option (option lexer_token_t * (list Z * lexer_state_t * Z)) :=
  match input with
  | [] =>
      match st with
      | LEXER_STATE_ZERO => Some (None, ([], st, line))
      | _ => ret ERROR buf [] st line
      end
  | c :: rest =>
      match st with
      | LEXER_STATE_ZERO =>
          if c =? ch "("%char then
            buf1 ← put_char buf c; ret LPAREN buf1 rest st line
          else if c =? ch ")"%char then
            buf1 ← put_char buf c; ret RPAREN buf1 rest st line
          else if c =? ch "'"%char then
            buf1 ← put_char buf c; ret QUOTE buf1 rest st line
          else if c =? 34 then
            lexer_loop rest LEXER_STATE_STRING line buf
          else if is_digit c then
            buf1 ← put_char buf c; lexer_loop rest LEXER_STATE_NUMBER line buf1
          else if is_letter c then
            buf1 ← put_char buf c; lexer_loop rest LEXER_STATE_SYMBOL line buf1
          else if is_blank c then
            lexer_loop rest st line buf
          else if c =? NEWLINE then
            lexer_loop rest st (line + 1) buf
          else
            buf1 ← put_char buf c; ret ERROR buf1 rest st line
      | LEXER_STATE_STRING =>
          if negb (c =? 34) then
            buf1 ← put_char buf c;
            lexer_loop rest st (if c =? NEWLINE then line + 1 else line) buf1
          else
            ret STRING buf rest LEXER_STATE_ZERO line
      | LEXER_STATE_NUMBER =>
          if is_paren c then
            ret INT buf (c :: rest) LEXER_STATE_ZERO line
          else if c =? NEWLINE then
            ret INT buf (c :: rest) LEXER_STATE_ZERO line
          else if is_blank c then
            ret INT buf rest LEXER_STATE_ZERO line
          else if c =? ch "."%char then
            buf1 ← put_char buf c; lexer_loop rest LEXER_STATE_FLOAT line buf1
          else if is_digit c then
            buf1 ← put_char buf c; lexer_loop rest st line buf1
          else
            buf1 ← put_char buf c; ret ERROR buf1 rest st line
      | LEXER_STATE_FLOAT =>
          if is_paren c then
            ret FLOAT buf (c :: rest) LEXER_STATE_ZERO line
          else if c =? NEWLINE then
            ret FLOAT buf (c :: rest) LEXER_STATE_ZERO line
          else if is_blank c then
            ret FLOAT buf rest LEXER_STATE_ZERO line
          else if is_digit c then
            buf1 ← put_char buf c; lexer_loop rest st line buf1
          else
            ret ERROR buf rest LEXER_STATE_ZERO line
      | LEXER_STATE_SYMBOL =>
          if strchr symbol_chars c then
            buf1 ← put_char buf c; lexer_loop rest st line buf1
          else
            ret SYMBOL buf (c :: rest) LEXER_STATE_ZERO line
      | LEXER_STATE_OTHER =>
          buf1 ← put_char buf c; ret ERROR buf1 rest st line
      end
  end.

Definition lexer_get_token (l : lexer_t) : option (option lexer_token_t * lexer_t) :=
  '(tok, (input, st, line)) ← lexer_loop (fp l) (state l) (line_no l) [];
  Some (tok, {| fp := input; state := st; line_no := line; char_no := char_no l |}).

(** ** Notions used to state what the tokenizer does *)

(** The token that [lexer_make_token] builds for the text [text]. *)
Definition token (t : token_type_t) (text : list Z) : lexer_token_t :=
  {| type := t;
     value := text;
     value_size := Z.of_nat (length text);
     written := Z.of_nat (length text) + 1;
     lost := match t with
             | INT => [sizeof_int; sizeof_double]
             | FLOAT => [sizeof_double]
             | _ => []
             end |}.

Definition newlines (l : list Z) : Z :=
  Z.of_nat (length (filter (fun c => c = NEWLINE) l)).

(** The characters that end a number and are left in the stream, and
    those that end it and are consumed. *)
Definition ends_number_kept (c : Z) : bool := is_paren c || (c =? NEWLINE).

(** [n] calls of [lexer_get_token] in a row that all return the token
    [tok] and leave the lexer as it was. *)
Fixpoint stuck (n : nat) (l : lexer_t) (tok : lexer_token_t) : Prop :=
  match n with
  | O => True
  | S n' => lexer_get_token l = Some (Some tok, l) /\ stuck n' l tok
  end.
(* ===================================================================== *)
(** * Properties *)

(** ** next_prime returns a prime that is not below its argument *)

Lemma is_prime_sound n : is_prime n = true -> prime n.
Proof.
  unfold is_prime. intros H. apply andb_true_iff in H as [H1 H2].
  apply Z.ltb_lt in H1. apply prime_alt. split; [exact H1|].
  intros d Hd Hdiv. rewrite forallb_forall in H2.
  assert (Hin : In d (map Z.of_nat (seq 2 (Z.to_nat n - 2)))).
  { apply in_map_iff. exists (Z.to_nat d). split; [lia|].
    apply in_seq. lia. }
  apply H2 in Hin. apply negb_true_iff, Z.eqb_neq in Hin.
  apply Hin. apply Z.mod_divide; [lia | exact Hdiv].
Qed.

Lemma is_prime_complete n : prime n -> is_prime n = true.
Proof.
  intros Hp. unfold is_prime. apply andb_true_iff. split.
  - apply Z.ltb_lt. destruct Hp as [Hp _]. lia.
  - apply forallb_forall. intros d Hin.
    apply in_map_iff in Hin as (k & <- & Hk). apply in_seq in Hk.
    apply negb_true_iff, Z.eqb_neq. intros Hmod.
    apply Z.mod_divide in Hmod; [|lia].
    apply prime_alt in Hp. destruct Hp as [_ Hp].
    apply (Hp (Z.of_nat k)); [lia | exact Hmod].
Qed.

Lemma search_spec fuel : forall n,
  match search fuel n with
  | inl p => n <= p < n + Zpos fuel /\ is_prime p = true
  | inr m => m = n + Zpos fuel /\ forall k, n <= k < m -> is_prime k = false
  end.
Proof.
  induction fuel as [f IH | f IH |]; intros n; simpl.
  - specialize (IH n) as H1. destruct (search f n) as [p | m].
    + split; [lia | tauto].
    + destruct H1 as [-> H1]. specialize (IH (n + Zpos f)) as H2.
      destruct (search f (n + Zpos f)) as [p | m'].
      * split; [lia | tauto].
      * destruct H2 as [-> H2].
        destruct (is_prime (n + Zpos f + Zpos f)) eqn:E.
        -- split; [lia | exact E].
        -- split; [lia|]. intros k Hk.
           destruct (Z_lt_le_dec k (n + Zpos f)); [apply H1; lia|].
           destruct (Z_lt_le_dec k (n + Zpos f + Zpos f)); [apply H2; lia|].
           replace k with (n + Zpos f + Zpos f) by lia. exact E.
  - specialize (IH n) as H1. destruct (search f n) as [p | m].
    + split; [lia | tauto].
    + destruct H1 as [-> H1]. specialize (IH (n + Zpos f)) as H2.
      destruct (search f (n + Zpos f)) as [p | m'].
      * split; [lia | tauto].
      * destruct H2 as [-> H2]. split; [lia|]. intros k Hk.
        destruct (Z_lt_le_dec k (n + Zpos f)); [apply H1; lia | apply H2; lia].
  - destruct (is_prime n) eqn:E.
    + split; [lia | exact E].
    + split; [lia|]. intros k Hk. replace k with n by lia. exact E.
Qed.

Lemma prime_divisor n : 2 <= n -> exists p, prime p /\ (p | n).
Proof.
  intros Hn. assert (H0 : 0 <= n) by lia. revert Hn.
  pattern n. apply Z_lt_induction; [|exact H0]. clear n H0.
  intros n IH Hn. destruct (prime_dec n) as [Hp | Hnp].
  - exists n. split; [exact Hp | apply Z.divide_refl].
  - destruct (not_prime_divide n) as (d & Hd & Hdiv); [lia | exact Hnp |].
    destruct (IH d) as (p & Hp & Hpd); [lia | lia |].
    exists p. split; [exact Hp | eapply Z.divide_trans; eassumption].
Qed.

Lemma divide_fact_pos n : forall k : nat,
  (1 <= k <= n)%nat -> (Z.of_nat k | Zpos (fact_pos n)).
Proof.
  induction n as [|n IH]; intros k Hk; [lia|].
  simpl. rewrite Pos2Z.inj_mul.
  destruct (Nat.eq_dec k (S n)) as [-> | Hne].
  - rewrite Zpos_P_of_succ_nat, <- Nat2Z.inj_succ. apply Z.divide_factor_l.
  - apply Z.divide_mul_r. apply IH. lia.
Qed.

Lemma fact_pos_ge n : Z.of_nat n <= Zpos (fact_pos n).
Proof.
  induction n as [|n IH]; [simpl; lia|].
  simpl fact_pos. rewrite Pos2Z.inj_mul, Zpos_P_of_succ_nat.
  pose proof (Pos2Z.is_pos (fact_pos n)). nia.
Qed.

Lemma prime_above (m : nat) :
  exists p, prime p /\ Z.of_nat m < p <= Zpos (fact_pos m) + 1.
Proof.
  destruct (prime_divisor (Zpos (fact_pos m) + 1)) as (p & Hp & Hdiv); [lia|].
  exists p. split; [exact Hp|]. assert (H2 : 1 < p) by (destruct Hp; assumption). split.
  - destruct (Z_lt_le_dec (Z.of_nat m) p) as [|Hle]; [assumption|].
    exfalso. assert (Hd : (p | Zpos (fact_pos m))).
    { replace p with (Z.of_nat (Z.to_nat p)) by lia.
      apply divide_fact_pos. lia. }
    assert (H1 : (p | 1)).
    { eapply Z.divide_add_cancel_r; [exact Hd | exact Hdiv]. }
    apply Z.divide_1_r_nonneg in H1; lia.
  - apply Z.divide_pos_le; [lia | exact Hdiv].
Qed.

Lemma next_prime_spec n : prime (next_prime n) /\ n <= next_prime n.
Proof.
  unfold next_prime. set (m := Z.max n 2).
  pose proof (search_spec (fact_pos (Z.to_nat m) + 1) m) as Hs.
  destruct (search (fact_pos (Z.to_nat m) + 1) m) as [p | q].
  - destruct Hs as [Hr Hp]. split; [apply is_prime_sound; exact Hp | lia].
  - exfalso. destruct Hs as [-> Hnone].
    destruct (prime_above (Z.to_nat m)) as (p & Hp & Hlo & Hhi).
    pose proof (fact_pos_ge (Z.to_nat m)) as Hf.
    apply is_prime_complete in Hp. rewrite Hnone in Hp by lia. discriminate.
Qed.

Lemma next_prime_pos n : 0 < next_prime n.
Proof.
  destruct (next_prime_spec n) as [Hp _]. destruct Hp as [Hp _]. lia.
Qed.

(** ** List segments in the heap *)

Lemma lseg_ext h h' x l y :
  lseg h x l y ->
  (forall a c, a ∈ l -> h !! a = Some (Cell true c) ->
     exists c', h' !! a = Some (Cell true c') /\ next c' = next c) ->
  lseg h' x l y.
Proof.
  induction 1 as [x | a c l y Ha Hl IH]; intros Hext; [constructor|].
  destruct (Hext a c) as (c' & Hc' & Hn); [left | exact Ha |].
  econstructor; [exact Hc'|]. rewrite Hn. apply IH.
  intros b cb Hb. apply Hext. right. exact Hb.
Qed.

Lemma lseg_frame h h' x l y :
  lseg h x l y ->
  (forall a, a ∈ l -> h' !! a = h !! a) ->
  lseg h' x l y.
Proof.
  intros H Hf. eapply lseg_ext; [exact H|].
  intros a c Ha Hc. exists c. rewrite Hf by exact Ha. auto.
Qed.

Lemma lseg_app h x l1 y l2 z :
  lseg h x l1 y -> lseg h y l2 z -> lseg h x (l1 ++ l2) z.
Proof.
  induction 1; intros H2; simpl; [exact H2|].
  econstructor; eauto.
Qed.

Lemma lseg_app_inv h l1 : forall x l2 z,
  lseg h x (l1 ++ l2) z -> exists y, lseg h x l1 y /\ lseg h y l2 z.
Proof.
  induction l1 as [|a l1 IH]; intros x l2 z H; simpl in H.
  - exists x. split; [constructor | exact H].
  - inversion H as [| a' c l' y' Ha Hl]; subst.
    destruct (IH _ _ _ Hl) as (y & H1 & H2).
    exists y. split; [econstructor; eauto | exact H2].
Qed.

Lemma lseg_lt h x l y a : lseg h x l y -> a ∈ l -> (a < length h)%nat.
Proof.
  induction 1 as [| b c l y Hb Hl IH]; intros Ha.
  - inversion Ha.
  - apply elem_of_cons in Ha as [-> | Ha]; [|auto].
    eapply lookup_lt_Some; eauto.
Qed.

Lemma lseg_live h x l y a :
  lseg h x l y -> a ∈ l -> exists c, h !! a = Some (Cell true c).
Proof.
  induction 1 as [| b c l y Hb Hl IH]; intros Ha.
  - inversion Ha.
  - apply elem_of_cons in Ha as [-> | Ha]; eauto.
Qed.

Lemma lseg_inj h x l1 : forall l2,
  lseg h x l1 None -> lseg h x l2 None -> l1 = l2.
Proof.
  intros l2 H1. revert l2.
  remember None as y eqn:Hy. induction H1 as [x | a c l y Ha Hl IH]; intros l2 H2.
  - subst. inversion H2. reflexivity.
  - inversion H2; simplify_eq. f_equal. apply IH; auto.
Qed.

(** Redirecting the [next] of the last record of a segment. *)
Lemma lseg_snoc_set h x l a c y z :
  lseg h x (l ++ [a]) y -> a ∉ l ->
  h !! a = Some (Cell true c) ->
  lseg (<[a := Cell true (set_next z c)]> h) x (l ++ [a]) z.
Proof.
  intros H Hni Ha.
  apply lseg_app_inv in H as (m & H1 & H2).
  eapply lseg_app.
  - eapply lseg_frame; [exact H1|]. intros b Hb.
    apply list_lookup_insert_ne. intros ->. contradiction.
  - inversion H2; simplify_eq.
    econstructor.
    + apply list_lookup_insert_eq. eapply lookup_lt_Some; eauto.
    + simpl. constructor.
Qed.

Lemma lseg_last_next h x l a y c :
  lseg h x (l ++ [a]) y -> h !! a = Some (Cell true c) -> next c = y.
Proof.
  intros H Ha. apply lseg_app_inv in H as (m & _ & H2).
  inversion H2; simplify_eq.
  match goal with H : lseg _ _ [] _ |- _ => inversion H end. reflexivity.
Qed.

(** ** Reading and writing records *)

Lemma read_live w s a c :
  heap s !! a = Some (Cell true c) -> read w s a = Some (c, s).
Proof. unfold read. intros ->. reflexivity. Qed.

Lemma write_live w s a c f :
  heap s !! a = Some (Cell true c) ->
  write w s a f = Some (set_heap (<[a := Cell true (f c)]> (heap s)) s).
Proof. unfold write. intros ->. reflexivity. Qed.

Lemma delete_live s a c :
  heap s !! a = Some (Cell true c) ->
  gc_allocation_delete s a = Some (set_heap (<[a := Cell false c]> (heap s)) s).
Proof. unfold gc_allocation_delete. intros ->. reflexivity. Qed.

Lemma fields_insert_next h a lv c z :
  h !! a = Some (Cell lv c) ->
  fields (<[a := Cell lv (set_next z c)]> h) = fields h.
Proof.
  intros Ha. unfold fields. rewrite list_fmap_insert. simpl.
  apply list_insert_id. rewrite list_lookup_fmap, Ha. reflexivity.
Qed.

Lemma fields_insert_live h a lv lv' c :
  h !! a = Some (Cell lv c) ->
  fields (<[a := Cell lv' c]> h) = fields h.
Proof.
  intros Ha. unfold fields. rewrite list_fmap_insert. simpl.
  apply list_insert_id. rewrite list_lookup_fmap, Ha. reflexivity.
Qed.

Lemma ptr_at_fields h h' a : fields h = fields h' -> ptr_at h a = ptr_at h' a.
Proof.
  intros Hf. unfold ptr_at, rec_at.
  assert (H : fields h !! a = fields h' !! a) by (rewrite Hf; reflexivity).
  unfold fields in H. rewrite !list_lookup_fmap in H.
  destruct (h !! a) as [[lv c]|], (h' !! a) as [[lv' c']|];
    simpl in H; try congruence.
  unfold set_next in H. simpl in H. inversion H. simpl. assumption.
Qed.

Lemma ptr_at_lookup h a lv c : h !! a = Some (Cell lv c) -> ptr_at h a = ptr c.
Proof. unfold ptr_at, rec_at. intros ->. reflexivity. Qed.

(** ** gc_allocation_map_get *)

Lemma get_loop_spec p : forall l fuel s x,
  chain (heap s) x l -> (length l <= fuel)%nat ->
  get_loop fuel s x p = Some (lookup_chain (heap s) p l, s).
Proof.
  induction l as [|a l IH]; intros fuel s x Hc Hf.
  - inversion Hc; subst. destruct fuel; reflexivity.
  - inversion Hc as [| a' c l' y' Ha Hl]; subst.
    destruct fuel as [|fuel]; [simpl in Hf; lia|].
    simpl. rewrite (read_live _ _ _ _ Ha). simpl.
    unfold lookup_chain. simpl. rewrite (ptr_at_lookup _ _ _ _ Ha).
    destruct (ptr c =? p) eqn:E; [reflexivity|].
    apply IH; [exact Hl | simpl in Hf; lia].
Qed.

(** ** Buckets as lists of chains *)

Lemma concat_insert_perm {A} (G : list (list A)) i l l' :
  G !! i = Some l ->
  exists rest, concat G ≡ₚ l ++ rest /\ concat (<[i := l']> G) ≡ₚ l' ++ rest.
Proof.
  intros Hi. exists (concat (take i G) ++ concat (drop (S i) G)).
  assert (Hlt : (i < length G)%nat) by (eapply lookup_lt_Some; eauto).
  split.
  - rewrite <- (take_drop_middle G i l Hi) at 1.
    rewrite concat_app. simpl. rewrite Permutation_app_swap_app. reflexivity.
  - rewrite (insert_take_drop G i l' Hlt).
    rewrite concat_app. simpl. rewrite Permutation_app_swap_app. reflexivity.
Qed.

Lemma elem_of_concat_lookup {A} (G : list (list A)) i l a :
  G !! i = Some l -> a ∈ l -> a ∈ concat G.
Proof.
  intros Hi Ha. destruct (concat_insert_perm G i l l Hi) as (rest & Hp & _).
  rewrite Hp. apply elem_of_app. left. exact Ha.
Qed.

Lemma elem_of_concat_inv {A} (G : list (list A)) a :
  a ∈ concat G -> exists i l, G !! i = Some l /\ a ∈ l.
Proof.
  induction G as [|l0 G IH]; simpl; intros Ha; [inversion Ha|].
  apply elem_of_app in Ha as [Ha | Ha].
  - exists 0%nat, l0. auto.
  - destruct (IH Ha) as (i & l & Hi & Hl). exists (S i), l. auto.
Qed.

Lemma NoDup_concat_lookup {A} (G : list (list A)) i l :
  NoDup (concat G) -> G !! i = Some l -> NoDup l.
Proof.
  intros Hnd Hi. destruct (concat_insert_perm G i l l Hi) as (rest & Hp & _).
  rewrite Hp in Hnd. apply NoDup_app in Hnd. tauto.
Qed.

Lemma NoDup_concat_disjoint {A} (G : list (list A)) i j li lj a :
  NoDup (concat G) -> G !! i = Some li -> G !! j = Some lj ->
  a ∈ li -> a ∈ lj -> i = j.
Proof.
  intros Hnd Hi Hj Hai Haj.
  destruct (decide (i = j)) as [|Hne]; [assumption|exfalso].
  destruct (concat_insert_perm G i li [] Hi) as (rest & Hp & Hp').
  rewrite Hp in Hnd. apply NoDup_app in Hnd as (_ & Hdis & _).
  apply (Hdis a Hai). simpl in Hp'. rewrite <- Hp'.
  eapply elem_of_concat_lookup; [|exact Haj].
  rewrite list_lookup_insert_ne by exact Hne. exact Hj.
Qed.

Lemma length_concat_insert {A} (G : list (list A)) i l l' :
  G !! i = Some l ->
  (length (concat (<[i := l']> G)) + length l = length (concat G) + length l')%nat.
Proof.
  intros Hi. destruct (concat_insert_perm G i l l' Hi) as (rest & Hp & Hp').
  rewrite Hp, Hp', !length_app. lia.
Qed.

Lemma NoDup_bounded_length (l : list nat) n :
  NoDup l -> (forall a, a ∈ l -> (a < n)%nat) -> (length l <= n)%nat.
Proof.
  intros Hnd Hlt.
  assert (Hs : l ⊆+ seq 0 n).
  { apply NoDup_submseteq; [exact Hnd|].
    intros a Ha. apply elem_of_seq. specialize (Hlt a Ha). lia. }
  apply submseteq_length in Hs. rewrite length_seq in Hs. exact Hs.
Qed.

Lemma chain_length h x l : chain h x l -> NoDup l -> (length l <= length h)%nat.
Proof.
  intros Hc Hnd. apply NoDup_bounded_length; [exact Hnd|].
  intros a Ha. eapply lseg_lt; eauto.
Qed.

(** ** The bucket of a key *)

Lemma bucket_index_lt m p :
  0 < capacity m -> (bucket_index m p < Z.to_nat (capacity m))%nat.
Proof.
  intros Hc. unfold bucket_index.
  pose proof (Z.mod_pos_bound (gc_hash p) (capacity m) Hc). lia.
Qed.

Lemma rep_bucket s G p :
  rep s G ->
  exists x l,
    allocs (amap s) !! bucket_index (amap s) p = Some x /\
    G !! bucket_index (amap s) p = Some l /\
    chain (heap s) x l /\ NoDup l /\ (length l <= length (heap s))%nat.
Proof.
  intros [Hch Hnd Hlen Hcap].
  pose proof (bucket_index_lt (amap s) p Hcap) as Hlt.
  rewrite <- Hlen in Hlt. apply lookup_lt_is_Some in Hlt as [x Hx].
  destruct (Forall2_lookup_l _ _ _ _ _ Hch Hx) as (l & Hl & Hc).
  exists x, l. repeat split; try assumption.
  - eapply NoDup_concat_lookup; eauto.
  - eapply chain_length; [exact Hc|]. eapply NoDup_concat_lookup; eauto.
Qed.

Lemma get_spec s G p :
  rep s G ->
  exists l, G !! bucket_index (amap s) p = Some l /\
    gc_allocation_map_get s p = Some (lookup_chain (heap s) p l, s).
Proof.
  intros Hrep. destruct (rep_bucket s G p Hrep) as (x & l & Hx & Hl & Hc & Hnd & Hlen).
  exists l. split; [exact Hl|]. unfold gc_allocation_map_get.
  destruct (Z.leb_spec (capacity (amap s)) 0) as [Hle|_];
    [pose proof (rep_cap _ _ Hrep); lia|].
  rewrite Hx. simpl. apply get_loop_spec; assumption.
Qed.

Lemma lookup_chain_Some h p l a :
  lookup_chain h p l = Some a -> a ∈ l /\ ptr_at h a = p.
Proof.
  unfold lookup_chain. intros H. apply find_some in H as [Hin He].
  split; [apply list_elem_of_In; exact Hin | apply Z.eqb_eq; exact He].
Qed.

Lemma lookup_chain_None h p l a :
  lookup_chain h p l = None -> a ∈ l -> ptr_at h a <> p.
Proof.
  unfold lookup_chain. intros H Ha. apply list_elem_of_In in Ha.
  apply (find_none _ _ H) in Ha. apply Z.eqb_neq. exact Ha.
Qed.

Lemma lookup_chain_split h p l a :
  lookup_chain h p l = Some a ->
  exists l1 l2, l = l1 ++ a :: l2 /\ ptr_at h a = p /\
    forall b, b ∈ l1 -> ptr_at h b <> p.
Proof.
  unfold lookup_chain. induction l as [|b l IH]; simpl; [discriminate|].
  destruct (ptr_at h b =? p) eqn:E.
  - intros [= ->]. exists [], l. split; [reflexivity|].
    split; [apply Z.eqb_eq; exact E | intros b Hb; inversion Hb].
  - intros H. destruct (IH H) as (l1 & l2 & -> & Hp & Hn).
    exists (b :: l1), l2. split; [reflexivity|]. split; [exact Hp|].
    intros b' Hb'. apply elem_of_cons in Hb' as [-> | Hb'];
      [apply Z.eqb_neq; exact E | auto].
Qed.

Lemma lookup_chain_fields h h' p l :
  fields h = fields h' -> lookup_chain h p l = lookup_chain h' p l.
Proof.
  intros Hf. unfold lookup_chain. induction l as [|a l IH]; simpl; [reflexivity|].
  rewrite (ptr_at_fields h h' a Hf), IH. reflexivity.
Qed.

(** Chains of the other buckets are untouched by writes within one
    bucket and to fresh records. *)
Lemma rep_frame h h' (A : list (option addr)) G i l x' l' :
  Forall2 (chain h) A G -> NoDup (concat G) ->
  G !! i = Some l ->
  (forall a, (a < length h)%nat -> a ∉ l -> h' !! a = h !! a) ->
  chain h' x' l' ->
  Forall2 (chain h') (<[i := x']> A) (<[i := l']> G).
Proof.
  intros Hch Hnd Hi Hfr Hc'.
  apply Forall2_lookup. intros j.
  destruct (decide (i = j)) as [<- | Hne].
  - assert (Hlt : (i < length G)%nat) by (eapply lookup_lt_Some; eauto).
    rewrite !list_lookup_insert_eq; [constructor; exact Hc' | exact Hlt |].
    rewrite (Forall2_length _ _ _ Hch). exact Hlt.
  - rewrite !list_lookup_insert_ne by exact Hne.
    pose proof (proj1 (Forall2_lookup _ _ _) Hch j) as Hj.
    destruct (G !! j) as [lj|] eqn:EG; destruct (A !! j) as [x|] eqn:EA;
      inversion Hj as [? ? Hxl|]; subst; constructor.
    eapply lseg_frame; [exact Hxl|]. intros a Ha. apply Hfr.
    + eapply lseg_lt; eauto.
    + intros Hal. apply Hne.
      eapply (NoDup_concat_disjoint G i j l lj a); eauto.
Qed.

(** The chains are determined by the store. *)
Lemma rep_unique s G G' : rep s G -> rep s G' -> G = G'.
Proof.
  intros [Hch _ _ _] [Hch' _ _ _].
  revert G' Hch'. induction Hch as [|x l A G Hxl HAG IH]; intros G' Hch'.
  - inversion Hch'. reflexivity.
  - inversion Hch' as [|x' l' A' G'' Hxl' HAG']; subst.
    f_equal; [eapply lseg_inj; eauto | apply IH; assumption].
Qed.

(** ** gc_allocation_map_put: the upsert loop *)

Lemma set_allocs_id m x i :
  allocs m !! i = Some x -> set_allocs (<[i := x]> (allocs m)) m = m.
Proof.
  intros H. unfold set_allocs. rewrite (list_insert_id _ _ _ H).
  destruct m; reflexivity.
Qed.

Lemma put_loop_none p i alloc : forall l fuel s x prev,
  chain (heap s) x l -> (length l <= fuel)%nat ->
  lookup_chain (heap s) p l = None ->
  put_loop fuel s i alloc x prev p = Some (false, s).
Proof.
  induction l as [|a l IH]; intros fuel s x prev Hc Hf Hn.
  - inversion Hc; subst. destruct fuel; reflexivity.
  - inversion Hc as [| a' c l' y' Ha Hl]; subst.
    destruct fuel as [|fuel]; [simpl in Hf; lia|].
    simpl. rewrite (read_live _ _ _ _ Ha). simpl.
    unfold lookup_chain in Hn. simpl in Hn.
    rewrite (ptr_at_lookup _ _ _ _ Ha) in Hn.
    destruct (ptr c =? p) eqn:E; [discriminate|].
    apply IH; [exact Hl | simpl in Hf; lia | exact Hn].
Qed.

Lemma put_loop_some p i alloc c0 : forall l fuel s x prev pre hd c,
  allocs (amap s) !! i = Some hd ->
  lseg (heap s) hd pre x -> chain (heap s) x l ->
  prev = last pre -> NoDup (pre ++ l) -> alloc ∉ pre ++ l ->
  heap s !! alloc = Some (Cell true c0) ->
  (length l <= fuel)%nat ->
  lookup_chain (heap s) p l = Some c ->
  exists s' l1 l2 hd',
    put_loop fuel s i alloc x prev p = Some (true, s') /\
    l = l1 ++ c :: l2 /\
    amap s' = set_allocs (<[i := hd']> (allocs (amap s))) (amap s) /\
    chain (heap s') hd' (pre ++ l1 ++ alloc :: l2) /\
    (forall a, a ∉ alloc :: pre ++ l -> heap s' !! a = heap s !! a) /\
    fields (heap s') = fields (heap s) /\
    length (heap s') = length (heap s) /\
    ptr_at (heap s) c = p /\
    (forall b, b ∈ l1 -> ptr_at (heap s) b <> p).
Proof.
  induction l as [|a l IH]; intros fuel s x prev pre hd c Hhd Hpre Hc Hprev Hnd Hal Hc0 Hf Hfind.
  - discriminate.
  - inversion Hc as [| a' r l' y' Ha Hl]; subst.
    destruct fuel as [|fuel]; [simpl in Hf; lia|].
    simpl. rewrite (read_live _ _ _ _ Ha). simpl.
    unfold lookup_chain in Hfind. simpl in Hfind.
    rewrite (ptr_at_lookup _ _ _ _ Ha) in Hfind.
    destruct (ptr r =? p) eqn:E.
    + (* the key is found at [a] *)
      injection Hfind as <-.
      assert (Haa : alloc <> a).
      { intros ->. apply Hal. apply elem_of_app. right. left. }
      assert (Hal2 : forall b, b ∈ l -> b <> alloc /\ b <> a).
      { intros b Hb. split.
        - intros ->. apply Hal. apply elem_of_app. right. right. exact Hb.
        - intros ->. apply NoDup_app in Hnd as (_ & _ & Hnd).
          apply NoDup_cons in Hnd as [Hnd _]. contradiction. }
      assert (Hpre2 : forall b, b ∈ pre -> b <> alloc /\ b <> a).
      { intros b Hb. split.
        - intros ->. apply Hal. apply elem_of_app. left. exact Hb.
        - intros ->. apply NoDup_app in Hnd as (_ & Hd & _).
          apply (Hd a Hb). left. }
      rewrite (write_live _ _ _ _ _ Hc0). simpl.
      set (h := heap s) in *.
      set (h2 := <[alloc := Cell true (set_next (next r) c0)]> h).
      assert (Htl : forall h', (forall b, b ∈ l -> h' !! b = h !! b) ->
                 h' !! alloc = Some (Cell true (set_next (next r) c0)) ->
                 chain h' (Some alloc) (alloc :: l)).
      { intros h' Hfr Hx. econstructor; [exact Hx|]. simpl.
        eapply lseg_frame; [exact Hl | exact Hfr]. }
      destruct (last pre) as [pv|] eqn:Elast.
      * (* in the list *)
        apply last_Some in Elast as [pre0 ->].
        destruct (lseg_live _ _ _ _ pv Hpre) as [cpv Hpv];
          [apply elem_of_app; right; left|].
        destruct (Hpre2 pv) as [Hpva Hpvc]; [apply elem_of_app; right; left|].
        assert (Hpv2 : h2 !! pv = Some (Cell true cpv)).
        { unfold h2. rewrite list_lookup_insert_ne by congruence. exact Hpv. }
        rewrite (write_live _ (set_heap h2 s) pv cpv _ Hpv2). simpl.
        set (h3 := <[pv := Cell true (set_next (Some alloc) cpv)]> h2).
        assert (Ha3 : h3 !! a = Some (Cell true r)).
        { unfold h3, h2. rewrite !list_lookup_insert_ne by congruence. exact Ha. }
        unfold gc_allocation_delete. simpl. rewrite Ha3. simpl.
        set (h4 := <[a := Cell false r]> h3).
        exists (set_heap h4 (set_heap h3 (set_heap h2 s))), [], l, hd.
        split; [reflexivity|]. split; [reflexivity|].
        split; [simpl; symmetry; apply set_allocs_id; exact Hhd|].
        assert (Hlen : length h4 = length h).
        { unfold h4, h3, h2. rewrite !length_insert. reflexivity. }
        split; [|split; [|split; [|split; [exact Hlen|]]]].
        -- simpl. eapply lseg_app.
           ++ eapply lseg_frame with (h := h3).
              ** unfold h3. apply (lseg_snoc_set h2 hd pre0 pv cpv (Some a) (Some alloc)).
                 --- eapply lseg_frame; [exact Hpre|]. intros b Hb.
                     unfold h2. apply list_lookup_insert_ne.
                     destruct (Hpre2 b Hb). congruence.
                 --- apply NoDup_app in Hnd as (Hnd & _ & _).
                     apply NoDup_app in Hnd as (_ & Hd & _).
                     intros Hin. apply (Hd pv Hin). left.
                 --- exact Hpv2.
              ** intros b Hb. unfold h4. apply list_lookup_insert_ne.
                 destruct (Hpre2 b Hb). congruence.
           ++ apply Htl.
              ** intros b Hb. destruct (Hal2 b Hb).
                 unfold h4, h3, h2.
                 rewrite !list_lookup_insert_ne; [reflexivity | congruence | | congruence].
                 intros ->. apply NoDup_app in Hnd as (_ & Hd & _).
                 apply (Hd b); [apply elem_of_app; right; left | right; exact Hb].
              ** unfold h4, h3, h2.
                 rewrite !list_lookup_insert_ne by congruence.
                 apply list_lookup_insert_eq. eapply lookup_lt_Some; eauto.
        -- intros b Hb. simpl. unfold h4, h3, h2.
           rewrite !list_lookup_insert_ne; [reflexivity | | | ].
           ++ intros ->. apply Hb. left.
           ++ intros ->. apply Hb. right. apply elem_of_app. left.
              apply elem_of_app. right. left.
           ++ intros ->. apply Hb. right. apply elem_of_app. right. left.
        -- simpl. unfold h4.
           rewrite (fields_insert_live _ _ _ _ _ Ha3). unfold h3.
           rewrite (fields_insert_next _ _ _ _ _ Hpv2).
           apply (fields_insert_next _ _ _ _ _ Hc0).
        -- split; [|intros b Hb; inversion Hb].
           rewrite (ptr_at_lookup _ _ _ _ Ha). apply Z.eqb_eq; exact E.
      * (* position 0 *)
        apply last_None in Elast. subst pre. inversion Hpre; subst.
        assert (Ha2 : h2 !! a = Some (Cell true r)).
        { unfold h2. rewrite list_lookup_insert_ne by congruence. exact Ha. }
        unfold gc_allocation_delete. simpl. rewrite Ha2. simpl.
        set (h4 := <[a := Cell false r]> h2).
        eexists _, [], l, (Some alloc).
        split; [reflexivity|]. split; [reflexivity|].
        split; [reflexivity|].
        split; [|split; [|split; [|split; [|split]]]]; simpl.
        -- apply Htl.
           ++ intros b Hb. destruct (Hal2 b Hb). unfold h4, h2.
              rewrite !list_lookup_insert_ne by congruence. reflexivity.
           ++ unfold h4, h2. rewrite list_lookup_insert_ne by congruence.
              apply list_lookup_insert_eq. eapply lookup_lt_Some; eauto.
        -- intros b Hb. unfold h4, h2.
           rewrite !list_lookup_insert_ne; [reflexivity | | ].
           ++ intros ->. apply Hb. left.
           ++ intros ->. apply Hb. right. left.
        -- unfold h4. rewrite (fields_insert_live _ _ _ _ _ Ha2).
           apply (fields_insert_next _ _ _ _ _ Hc0).
        -- unfold h4, h2. rewrite !length_insert. reflexivity.
        -- rewrite (ptr_at_lookup _ _ _ _ Ha). apply Z.eqb_eq; exact E.
        -- intros b Hb; inversion Hb.
    + (* move on *)
      destruct (IH fuel s (next r) (Some a) (pre ++ [a]) hd c) as
        (s' & l1 & l2 & hd' & Hrun & Hl12 & Ham & Hch & Hfr & Hfl & Hlen & Hp & Hn).
      * exact Hhd.
      * eapply lseg_app; [exact Hpre|]. econstructor; [exact Ha | constructor].
      * exact Hl.
      * rewrite last_snoc. reflexivity.
      * rewrite <- app_assoc. exact Hnd.
      * rewrite <- app_assoc. exact Hal.
      * exact Hc0.
      * simpl in Hf. lia.
      * exact Hfind.
      * exists s', (a :: l1), l2, hd'. rewrite Hrun.
        split; [reflexivity|]. split; [simpl; congruence|].
        split; [exact Ham|].
        split; [rewrite <- app_assoc in Hch; exact Hch|].
        split; [intros b Hb; apply Hfr; rewrite <- app_assoc; exact Hb|].
        split; [exact Hfl|]. split; [exact Hlen|]. split; [exact Hp|].
        intros b Hb. apply elem_of_cons in Hb as [-> | Hb]; [|auto].
        rewrite (ptr_at_lookup _ _ _ _ Ha). apply Z.eqb_neq. exact E.
Qed.

(** ** gc_allocation_map_resize *)

Lemma alter_lookup_insert {A} (f : A -> A) (l : list A) i x :
  l !! i = Some x -> alter f i l = <[i := f x]> l.
Proof.
  revert i. induction l as [|y l IH]; intros [|i] H; simpl in *; try discriminate.
  - injection H as ->. reflexivity.
  - f_equal. apply IH. exact H.
Qed.

Lemma Forall2_chain_frame h h' (A : list (option addr)) G :
  Forall2 (chain h) A G ->
  (forall a, a ∈ concat G -> h' !! a = h !! a) ->
  Forall2 (chain h') A G.
Proof.
  induction 1 as [|x l A G Hxl HAG IH]; intros Hfr; constructor.
  - eapply lseg_frame; [exact Hxl|]. intros a Ha. apply Hfr.
    simpl. apply elem_of_app. left. exact Ha.
  - apply IH. intros a Ha. apply Hfr. simpl. apply elem_of_app. right. exact Ha.
Qed.

Lemma rehash_fields n h h' l N :
  fields h = fields h' -> rehash n h l N = rehash n h' l N.
Proof.
  intros Hf. unfold rehash. revert N. induction l as [|a l IH]; intros N; simpl.
  - reflexivity.
  - unfold push at 2 4. rewrite (ptr_at_fields h h' a Hf). apply IH.
Qed.

Lemma push_length n h N a : length (push n h N a) = length N.
Proof. unfold push. apply length_alter. Qed.

Lemma rehash_length n h l : forall N, length (rehash n h l N) = length N.
Proof.
  unfold rehash. induction l as [|a l IH]; intros N; simpl; [reflexivity|].
  rewrite IH. apply push_length.
Qed.

Lemma push_perm n h N a :
  0 < n -> length N = Z.to_nat n ->
  concat (push n h N a) ≡ₚ a :: concat N.
Proof.
  intros Hn Hlen. unfold push.
  set (i := Z.to_nat (gc_hash (ptr_at h a) mod n)).
  assert (Hi : (i < length N)%nat).
  { unfold i. pose proof (Z.mod_pos_bound (gc_hash (ptr_at h a)) n Hn). lia. }
  apply lookup_lt_is_Some in Hi as [l Hl].
  rewrite (alter_lookup_insert _ _ _ _ Hl).
  destruct (concat_insert_perm N i l (a :: l) Hl) as (rest & Hp & Hp').
  rewrite Hp', Hp. reflexivity.
Qed.

Lemma rehash_perm n h l : forall N,
  0 < n -> length N = Z.to_nat n ->
  concat (rehash n h l N) ≡ₚ l ++ concat N.
Proof.
  unfold rehash. induction l as [|a l IH]; intros N Hn Hlen; simpl; [reflexivity|].
  rewrite IH; [|exact Hn | rewrite push_length; exact Hlen].
  rewrite push_perm by assumption. symmetry. apply Permutation_middle.
Qed.

Lemma push_placed n h N a : placed n h N -> placed n h (push n h N a).
Proof.
  intros Hpl j lj b Hj Hb. unfold push in Hj.
  set (i := Z.to_nat (gc_hash (ptr_at h a) mod n)) in *.
  destruct (decide (i = j)) as [<- | Hne].
  - rewrite list_lookup_alter_eq in Hj.
    destruct (N !! i) as [l|] eqn:El; simpl in Hj; [|discriminate].
    injection Hj as <-. apply elem_of_cons in Hb as [-> | Hb]; [reflexivity|].
    eapply Hpl; eauto.
  - rewrite list_lookup_alter_ne in Hj by exact Hne. eapply Hpl; eauto.
Qed.

Lemma rehash_placed n h l : forall N, placed n h N -> placed n h (rehash n h l N).
Proof.
  unfold rehash. induction l as [|a l IH]; intros N Hpl; simpl; [exact Hpl|].
  apply IH. apply push_placed. exact Hpl.
Qed.

Lemma resize_chain_spec n : forall l fuel s R N x,
  0 < n -> length R = Z.to_nat n ->
  Forall2 (chain (heap s)) R N ->
  chain (heap s) x l -> NoDup (l ++ concat N) ->
  (length l <= fuel)%nat ->
  exists s' R',
    resize_chain fuel n s R x = Some (s', R') /\
    Forall2 (chain (heap s')) R' (rehash n (heap s) l N) /\
    length R' = Z.to_nat n /\
    amap s' = amap s /\
    (forall a, a ∉ l -> heap s' !! a = heap s !! a) /\
    fields (heap s') = fields (heap s) /\
    length (heap s') = length (heap s).
Proof.
  induction l as [|a l IH]; intros fuel s R N x Hn HlenR HRN Hc Hnd Hf.
  - inversion Hc; subst. exists s, R. destruct fuel; simpl; auto 10.
  - inversion Hc as [| a' r l' y' Ha Hl]; subst.
    destruct fuel as [|fuel]; [simpl in Hf; lia|].
    simpl. rewrite (read_live _ _ _ _ Ha). simpl.
    set (ni := Z.to_nat (gc_hash (ptr r) mod n)).
    assert (Hni : (ni < length R)%nat).
    { unfold ni. pose proof (Z.mod_pos_bound (gc_hash (ptr r)) n Hn). lia. }
    apply lookup_lt_is_Some in Hni as [hdN HhdN]. rewrite HhdN. simpl.
    destruct (Forall2_lookup_l _ _ _ _ _ HRN HhdN) as (lN & HlN & HchN).
    rewrite (write_live _ _ _ _ _ Ha). simpl.
    set (h := heap s) in *.
    set (h' := <[a := Cell true (set_next hdN r)]> h).
    simpl in Hnd. apply NoDup_cons in Hnd as [Hani Hnd].
    assert (Hfr : forall b, b <> a -> h' !! b = h !! b).
    { intros b Hb. unfold h'. apply list_lookup_insert_ne. congruence. }
    assert (Hfl : fields h' = fields h).
    { apply (fields_insert_next _ _ _ _ _ Ha). }
    assert (Hpush : push n h N a = <[ni := a :: lN]> N).
    { unfold push. rewrite (ptr_at_lookup _ _ _ _ Ha). fold ni.
      apply alter_lookup_insert. exact HlN. }
    destruct (IH fuel (set_heap h' s) (<[ni := Some a]> R) (push n h N a) (next r))
      as (s' & R' & Hrun & HF & HlenR' & Ham & Hfr' & Hfl' & Hlen').
    + exact Hn.
    + rewrite length_insert. exact HlenR.
    + simpl. fold h'. rewrite Hpush. apply Forall2_insert.
      * eapply Forall2_chain_frame; [exact HRN|]. intros b Hb. apply Hfr.
        intros ->. apply Hani. apply elem_of_app. right. exact Hb.
      * econstructor.
        -- unfold h'. apply list_lookup_insert_eq. eapply lookup_lt_Some; eauto.
        -- simpl. eapply lseg_frame; [exact HchN|]. intros b Hb. apply Hfr.
           intros ->. apply Hani. apply elem_of_app. right.
           eapply elem_of_concat_lookup; eauto.
    + simpl. fold h'. eapply lseg_frame; [exact Hl|]. intros b Hb. apply Hfr.
      intros ->. apply Hani. apply elem_of_app. left. exact Hb.
    + rewrite push_perm by (try assumption; rewrite <- (Forall2_length _ _ _ HRN); assumption).
      apply NoDup_app in Hnd as (Hnd1 & Hdis & Hnd2).
      apply NoDup_app. split; [exact Hnd1|]. split.
      * intros b Hb Hb'. apply elem_of_cons in Hb' as [-> | Hb'].
        -- apply Hani. apply elem_of_app. left. exact Hb.
        -- apply (Hdis b Hb Hb').
      * apply NoDup_cons. split; [|exact Hnd2].
        intros Hb. apply Hani. apply elem_of_app. right. exact Hb.
    + simpl in Hf. lia.
    + exists s', R'. rewrite Hrun. split; [reflexivity|].
      simpl in *. fold h' in HF, Hfr', Hfl', Hlen'.
      split.
      { change (rehash n h (a :: l) N) with (rehash n h l (push n h N a)).
        rewrite (rehash_fields n h h' l _ (eq_sym Hfl)). exact HF. }
      split; [exact HlenR'|]. split; [exact Ham|].
      split.
      { intros b Hb. rewrite Hfr'.
        - apply Hfr. intros ->. apply Hb. left.
        - intros Hbl. apply Hb. right. exact Hbl. }
      split; [congruence|]. rewrite Hlen'. unfold h'. apply length_insert.
Qed.

Lemma rehash_app n h l1 l2 N :
  rehash n h (l1 ++ l2) N = rehash n h l2 (rehash n h l1 N).
Proof. unfold rehash. apply foldl_app. Qed.

Lemma resize_buckets_spec n : forall k i s R N Grem,
  0 < n -> length R = Z.to_nat n ->
  Forall2 (chain (heap s)) R N ->
  Forall2 (chain (heap s)) (drop i (allocs (amap s))) Grem ->
  length Grem = k ->
  NoDup (concat Grem ++ concat N) ->
  exists s' R',
    resize_buckets k i n s R = Some (s', R') /\
    Forall2 (chain (heap s')) R' (rehash n (heap s) (concat Grem) N) /\
    length R' = Z.to_nat n /\
    amap s' = amap s /\
    fields (heap s') = fields (heap s) /\
    length (heap s') = length (heap s).
Proof.
  induction k as [|k IH]; intros i s R N Grem Hn HlenR HRN HG Hk Hnd.
  - destruct Grem; [|discriminate]. exists s, R. simpl. auto 10.
  - destruct Grem as [|l Grem]; [discriminate|]. simpl in Hk.
    assert (Hlt : (i < length (allocs (amap s)))%nat).
    { apply Forall2_length in HG. rewrite length_drop in HG. simpl in HG. lia. }
    apply lookup_lt_is_Some in Hlt as [x Hi].
    rewrite (drop_S _ _ _ Hi) in HG.
    apply Forall2_cons in HG as [Hxl Hrest].
    simpl. rewrite Hi. simpl.
    simpl in Hnd. rewrite <- app_assoc in Hnd.
    assert (HndlN : NoDup (l ++ concat N)).
    { apply NoDup_app in Hnd as (H1' & H2' & H3').
      apply NoDup_app in H3' as (_ & _ & H3').
      apply NoDup_app. split; [exact H1'|]. split; [|exact H3'].
      intros b Hb Hb'. apply (H2' b Hb). apply elem_of_app. right. exact Hb'. }
    destruct (resize_chain_spec n l (length (heap s)) s R N x)
      as (s1 & R1 & Hrun & HF1 & HlenR1 & Ham1 & Hfr1 & Hfl1 & Hlen1); try assumption.
    { eapply chain_length; [exact Hxl|]. apply NoDup_app in Hnd. tauto. }
    rewrite Hrun. simpl.
    destruct (IH (S i) s1 R1 (rehash n (heap s) l N) Grem)
      as (s' & R' & Hrun' & HF' & HlenR' & Ham' & Hfl' & Hlen'); try assumption.
    + rewrite Ham1.
      eapply Forall2_chain_frame; [exact Hrest|]. intros b Hb. apply Hfr1.
      intros Hbl. apply NoDup_app in Hnd as (_ & Hd & _).
      apply (Hd b Hbl). apply elem_of_app. left. exact Hb.
    + lia.
    + rewrite rehash_perm; [| exact Hn | rewrite <- (Forall2_length _ _ _ HRN); exact HlenR].
      rewrite Permutation_app_swap_app. exact Hnd.
    + exists s', R'. rewrite Hrun'. split; [reflexivity|].
      split.
      { rewrite rehash_app. rewrite (rehash_fields n (heap s) (heap s1)) by congruence.
        exact HF'. }
      split; [exact HlenR'|]. split; [congruence|]. split; congruence.
Qed.

Lemma Forall2_chain_nil h n :
  Forall2 (chain h) (replicate n None) (replicate n []).
Proof.
  induction n as [|n IH]; simpl; constructor; [constructor | exact IH].
Qed.

Lemma concat_replicate_nil {A} n : concat (replicate n (@nil A)) = [].
Proof. induction n as [|n IH]; simpl; auto. Qed.

Lemma resize_noop s n :
  n <= min_capacity (amap s) -> gc_allocation_map_resize s n = Some s.
Proof.
  intros H. unfold gc_allocation_map_resize.
  destruct (Z.leb_spec n (min_capacity (amap s))); [reflexivity | lia].
Qed.

Lemma resize_spec s G n :
  rep s G -> min_capacity (amap s) < n -> 0 < n ->
  exists s' G',
    gc_allocation_map_resize s n = Some s' /\
    rep s' G' /\ index_ok s' G' /\
    concat G' ≡ₚ concat G /\
    fields (heap s') = fields (heap s) /\
    capacity (amap s') = n /\
    min_capacity (amap s') = min_capacity (amap s) /\
    am_size (amap s') = am_size (amap s) /\
    downsize_factor (amap s') = downsize_factor (amap s) /\
    upsize_factor (amap s') = upsize_factor (amap s) /\
    sweep_factor (amap s') = sweep_factor (amap s).
Proof.
  intros [Hch Hnd Hlen Hcap] Hmin Hn.
  unfold gc_allocation_map_resize.
  destruct (Z.leb_spec n (min_capacity (amap s))); [lia|].
  destruct (resize_buckets_spec n (Z.to_nat (capacity (amap s))) 0 s
              (replicate (Z.to_nat n) None) (replicate (Z.to_nat n) []) G)
    as (s' & R' & Hrun & HF & HlenR & Ham & Hfl & Hlenh).
  - exact Hn.
  - apply length_replicate.
  - apply Forall2_chain_nil.
  - rewrite drop_0. exact Hch.
  - rewrite <- (Forall2_length _ _ _ Hch). exact Hlen.
  - rewrite concat_replicate_nil, app_nil_r. exact Hnd.
  - rewrite Hrun. simpl.
    set (G' := rehash n (heap s) (concat G) (replicate (Z.to_nat n) [])) in *.
    assert (Hperm : concat G' ≡ₚ concat G).
    { unfold G'. rewrite rehash_perm; [| exact Hn | apply length_replicate].
      rewrite concat_replicate_nil, app_nil_r. reflexivity. }
    eexists _, G'. split; [reflexivity|].
    split; [|split; [|split; [exact Hperm|]]].
    + constructor; simpl.
      * exact HF.
      * rewrite Hperm. exact Hnd.
      * exact HlenR.
      * exact Hn.
    + intros j lj a Hj Ha. unfold bucket_index. simpl.
      rewrite (ptr_at_fields _ _ a Hfl).
      eapply (rehash_placed n (heap s) (concat G)); [|exact Hj | exact Ha].
      intros j' lj' a' Hj' Ha'. apply lookup_replicate in Hj' as [-> _].
      inversion Ha'.
    + simpl. rewrite Ham. auto 10.
Qed.

(** ** gc_allocation_map_put on well-formed registries *)

Lemma ptr_at_app h k a : (a < length h)%nat -> ptr_at (h ++ k) a = ptr_at h a.
Proof.
  intros Ha. unfold ptr_at, rec_at. rewrite lookup_app_l by exact Ha. reflexivity.
Qed.

Lemma rep_addr_lt s G a : rep s G -> a ∈ concat G -> (a < length (heap s))%nat.
Proof.
  intros Hrep Ha. apply elem_of_concat_inv in Ha as (i & l & Hi & Ha).
  destruct (Forall2_lookup_r _ _ _ _ _ (rep_chains _ _ Hrep) Hi) as (x & _ & Hc).
  eapply lseg_lt; eauto.
Qed.

Lemma rep_addr_live s G a :
  rep s G -> a ∈ concat G -> exists c, heap s !! a = Some (Cell true c).
Proof.
  intros Hrep Ha. apply elem_of_concat_inv in Ha as (i & l & Hi & Ha).
  destruct (Forall2_lookup_r _ _ _ _ _ (rep_chains _ _ Hrep) Hi) as (x & _ & Hc).
  eapply lseg_live; eauto.
Qed.

Lemma NoDup_fmap_inj {A B} (f : A -> B) (l : list A) x y :
  NoDup (f <$> l) -> x ∈ l -> y ∈ l -> f x = f y -> x = y.
Proof.
  induction l as [|z l IH]; intros Hnd Hx Hy Hf; [inversion Hx|].
  simpl in Hnd. apply NoDup_cons in Hnd as [Hz Hnd].
  apply elem_of_cons in Hx as [-> | Hx]; apply elem_of_cons in Hy as [-> | Hy].
  - reflexivity.
  - exfalso. apply Hz. rewrite Hf. apply list_elem_of_fmap. eauto.
  - exfalso. apply Hz. rewrite <- Hf. apply list_elem_of_fmap. eauto.
  - auto.
Qed.

Lemma fmap_ext_in {A B} (f g : A -> B) (l : list A) :
  (forall x, x ∈ l -> f x = g x) -> f <$> l = g <$> l.
Proof.
  induction l as [|x l IH]; intros H; simpl; [reflexivity|].
  f_equal; [apply H; left | apply IH; intros y Hy; apply H; right; exact Hy].
Qed.

Lemma fields_app_new h c :
  fields (h ++ [Cell true c]) = fields h ++ [set_next None c].
Proof. unfold fields. rewrite fmap_app. reflexivity. Qed.

Lemma ptr_at_new h h' c :
  fields h' = fields h ++ [set_next None c] -> ptr_at h' (length h) = ptr c.
Proof.
  intros Hf. unfold ptr_at, rec_at.
  assert (H : fields h' !! length h = Some (set_next None c)).
  { rewrite Hf. apply list_lookup_middle. unfold fields. rewrite length_fmap. reflexivity. }
  unfold fields in H. rewrite list_lookup_fmap in H.
  destruct (h' !! length h) as [[lv c']|]; simpl in H; [|discriminate].
  injection H as H. simpl. unfold set_next in H. inversion H. reflexivity.
Qed.

Lemma ptr_at_old h h' c a :
  fields h' = fields h ++ [set_next None c] -> (a < length h)%nat ->
  ptr_at h' a = ptr_at h a.
Proof.
  intros Hf Ha. rewrite <- (ptr_at_app h [Cell true c] a Ha).
  apply ptr_at_fields. rewrite Hf. symmetry. apply fields_app_new.
Qed.

Lemma put_upsert s G p sz d l c :
  wf s G ->
  G !! bucket_index (amap s) p = Some l ->
  lookup_chain (heap s) p l = Some c ->
  exists s' l1 l2,
    gc_allocation_map_put s p sz d = Some (length (heap s), s') /\
    l = l1 ++ c :: l2 /\
    wf s' (<[bucket_index (amap s) p := l1 ++ length (heap s) :: l2]> G) /\
    fields (heap s') = fields (heap s) ++ [mkAllocation p sz GC_TAG_NONE d None] /\
    capacity (amap s') = capacity (amap s) /\
    am_size (amap s') = am_size (amap s) /\
    same_config (amap s) (amap s').
Proof.
  intros (Hrep & Hix & Hkeys) Hl Hfind.
  set (i := bucket_index (amap s) p) in *.
  set (h := heap s) in *. set (alloc := length h).
  set (new := mkAllocation p sz GC_TAG_NONE d None).
  destruct (rep_bucket s G p Hrep) as (x & l' & Hx & Hl' & Hc & Hndl & Hlenl).
  fold i in Hx, Hl'. fold h in Hlenl, Hc. rewrite Hl in Hl'. injection Hl' as <-.
  pose proof (rep_cap _ _ Hrep) as Hcap.
  assert (Hlt : forall a, a ∈ l -> (a < length h)%nat).
  { intros a Ha. eapply lseg_lt; eauto. }
  set (s0 := set_heap (h ++ [Cell true new]) s).
  assert (Hfind0 : lookup_chain (heap s0) p l = Some c).
  { rewrite <- Hfind. unfold lookup_chain. simpl.
    clear -Hlt. induction l as [|a l IH]; simpl; [reflexivity|].
    rewrite ptr_at_app by (apply Hlt; left).
    destruct (ptr_at h a =? p); [reflexivity|].
    apply IH. intros b Hb. apply Hlt. right. exact Hb. }
  destruct (put_loop_some p i alloc new l (length (heap s0)) s0 x None [] x c)
    as (s1 & l1 & l2 & hd' & Hrun & Hl12 & Ham & Hch & Hfr & Hfl & Hlen & Hp & Hn).
  { exact Hx. }
  { constructor. }
  { simpl. eapply lseg_frame; [exact Hc|]. intros a Ha.
    apply lookup_app_l. apply Hlt. exact Ha. }
  { reflexivity. }
  { exact Hndl. }
  { simpl. intros Ha. apply Hlt in Ha. unfold alloc in Ha. lia. }
  { simpl. apply list_lookup_middle. reflexivity. }
  { simpl. rewrite length_app. simpl. lia. }
  { exact Hfind0. }
  exists s1, l1, l2.
  unfold gc_allocation_map_put.
  destruct (Z.leb_spec (capacity (amap s)) 0); [lia|].
  unfold gc_allocation_new. fold h. fold new. fold s0. fold alloc. fold i.
  change (allocs (amap s0)) with (allocs (amap s)). rewrite Hx. simpl.
  change (length (h ++ [Cell true new])) with (length (heap s0)).
  rewrite Hrun. simpl.
  split; [reflexivity|]. split; [exact Hl12|].
  assert (Hfl' : fields (heap s1) = fields h ++ [new]).
  { rewrite Hfl. simpl. apply fields_app_new. }
  assert (Hc_in : c ∈ l) by (rewrite Hl12; apply elem_of_app; right; left).
  destruct (concat_insert_perm G i l (l1 ++ alloc :: l2) Hl) as (rest & Hp1 & Hp2).
  assert (Hfresh : alloc ∉ concat G).
  { intros Ha. apply (rep_addr_lt s G alloc Hrep) in Ha. unfold alloc, h in Ha. lia. }
  assert (Hptr : forall a, a ∈ concat G -> ptr_at (heap s1) a = ptr_at h a).
  { intros a Ha. apply (ptr_at_old h (heap s1) new a Hfl'). eapply rep_addr_lt; eauto. }
  assert (Hptr_new : ptr_at (heap s1) alloc = p).
  { apply (ptr_at_new h (heap s1) new Hfl'). }
  split; [|split; [exact Hfl'|]].
  - split; [|split].
    + (* rep *)
      constructor.
      * rewrite Ham. simpl.
        eapply (rep_frame h (heap s1)); [exact (rep_chains _ _ Hrep) | exact (rep_nodup _ _ Hrep) | exact Hl | | exact Hch].
        intros a Ha Hni. rewrite Hfr.
        -- simpl. apply lookup_app_l. exact Ha.
        -- simpl. intros Hin. apply elem_of_cons in Hin as [-> | Hin];
             [unfold alloc in Ha; lia | contradiction].
      * rewrite Hp2. pose proof (rep_nodup _ _ Hrep) as Hnd.
        rewrite Hp1, Hl12 in Hnd.
        rewrite <- app_assoc in Hnd. rewrite <- app_assoc. simpl in *.
        apply NoDup_app in Hnd as (Hnd1 & Hd1 & Hnd2).
        apply NoDup_cons in Hnd2 as [Hc2 Hnd2].
        assert (Hal : alloc ∉ l1 ++ l2 ++ rest).
        { intros Ha. apply Hfresh. rewrite Hp1, Hl12, <- app_assoc. simpl.
          apply elem_of_app in Ha as [Ha | Ha].
          - apply elem_of_app. left. exact Ha.
          - apply elem_of_app. right. right. exact Ha. }
        apply NoDup_app. split; [exact Hnd1|]. split.
        -- intros b Hb Hb'. apply elem_of_cons in Hb' as [-> | Hb'].
           ++ apply Hal. apply elem_of_app. left. exact Hb.
           ++ apply (Hd1 b Hb). right. exact Hb'.
        -- apply NoDup_cons. split; [|exact Hnd2].
           intros Hb. apply Hal. apply elem_of_app. right. exact Hb.
      * rewrite Ham. simpl. rewrite length_insert. exact (rep_len _ _ Hrep).
      * rewrite Ham. simpl. exact Hcap.
    + (* index_ok *)
      intros j lj a Hj Ha.
      assert (Hbi : forall q, bucket_index (amap s1) q = bucket_index (amap s) q).
      { intros q. unfold bucket_index. rewrite Ham. reflexivity. }
      rewrite Hbi.
      destruct (decide (i = j)) as [<- | Hne].
      * rewrite list_lookup_insert_eq in Hj by (eapply lookup_lt_Some; eauto).
        injection Hj as <-.
        apply elem_of_app in Ha as [Ha | Ha].
        -- rewrite Hptr by (eapply elem_of_concat_lookup; [exact Hl|]; rewrite Hl12; apply elem_of_app; left; exact Ha).
           apply (Hix i l a Hl). rewrite Hl12. apply elem_of_app. left. exact Ha.
        -- apply elem_of_cons in Ha as [-> | Ha].
           ++ rewrite Hptr_new. reflexivity.
           ++ rewrite Hptr by (eapply elem_of_concat_lookup; [exact Hl|]; rewrite Hl12; apply elem_of_app; right; right; exact Ha).
              apply (Hix i l a Hl). rewrite Hl12. apply elem_of_app. right. right. exact Ha.
      * rewrite list_lookup_insert_ne in Hj by exact Hne.
        rewrite Hptr by (eapply elem_of_concat_lookup; eauto).
        eapply Hix; eauto.
    + (* keys_ok *)
      unfold keys_ok in *. rewrite Hp2. rewrite Hp1 in Hkeys.
      rewrite Hl12 in Hkeys. rewrite <- app_assoc in *. simpl in *.
      assert (Heq : ptr_at (heap s1) <$> l1 ++ alloc :: l2 ++ rest =
                    ptr_at (heap s) <$> l1 ++ c :: l2 ++ rest).
      { assert (Hsub : forall a, a ∈ l1 ++ l2 ++ rest -> a ∈ concat G).
        { intros a Ha. rewrite Hp1, Hl12, <- app_assoc. simpl.
          apply elem_of_app in Ha as [Ha | Ha].
          - apply elem_of_app. left. exact Ha.
          - apply elem_of_app. right. right. exact Ha. }
        rewrite !fmap_app, !fmap_cons. f_equal; [|f_equal].
        - apply fmap_ext_in. intros a Ha. apply Hptr. apply Hsub.
          apply elem_of_app. left. exact Ha.
        - rewrite Hptr_new. symmetry.
          change (heap s) with h.
          rewrite <- (ptr_at_app h [Cell true new] c) by (apply Hlt; exact Hc_in).
          exact Hp.
        - apply fmap_ext_in. intros a Ha. apply Hptr. apply Hsub.
          apply elem_of_app. right. exact Ha. }
      rewrite Heq. exact Hkeys.
  - rewrite Ham. simpl. repeat split; reflexivity.
Qed.

Lemma keys_ok_perm s s' G G' :
  keys_ok s G -> concat G' ≡ₚ concat G -> fields (heap s') = fields (heap s) ->
  keys_ok s' G'.
Proof.
  unfold keys_ok. intros Hk Hp Hf. rewrite Hp.
  rewrite (fmap_ext_in (ptr_at (heap s')) (ptr_at (heap s))); [exact Hk|].
  intros a _. apply ptr_at_fields. exact Hf.
Qed.

Lemma resize_wf s G n :
  wf s G -> 0 < n ->
  exists s' G',
    gc_allocation_map_resize s n = Some s' /\
    wf s' G' /\
    concat G' ≡ₚ concat G /\
    fields (heap s') = fields (heap s) /\
    am_size (amap s') = am_size (amap s) /\
    same_config (amap s) (amap s') /\
    capacity (amap s') = (if min_capacity (amap s) <? n then n else capacity (amap s)) /\
    (n <= min_capacity (amap s) -> s' = s).
Proof.
  intros (Hrep & Hix & Hkeys) Hn.
  destruct (Z.ltb_spec (min_capacity (amap s)) n) as [Hlt | Hge].
  - destruct (resize_spec s G n Hrep Hlt Hn)
      as (s' & G' & Hrun & Hrep' & Hix' & Hperm & Hfl & Hcap & Hmin & Hsz & Hdf & Huf & Hsf).
    exists s', G'. split; [exact Hrun|].
    split; [split; [exact Hrep' | split; [exact Hix' | eapply keys_ok_perm; eauto]]|].
    split; [exact Hperm|]. split; [exact Hfl|]. split; [exact Hsz|].
    split; [repeat split; assumption|]. split; [exact Hcap | lia].
  - exists s, G. split; [apply resize_noop; exact Hge|].
    split; [split; [exact Hrep | split; assumption]|].
    split; [reflexivity|]. split; [reflexivity|]. split; [reflexivity|].
    split; [repeat split; reflexivity|]. split; reflexivity.
Qed.

Lemma put_insert s G p sz d l :
  wf s G ->
  G !! bucket_index (amap s) p = Some l ->
  lookup_chain (heap s) p l = None ->
  exists s' G',
    gc_allocation_map_put s p sz d = Some (length (heap s), s') /\
    wf s' G' /\
    concat G' ≡ₚ length (heap s) :: concat G /\
    fields (heap s') = fields (heap s) ++ [mkAllocation p sz GC_TAG_NONE d None] /\
    am_size (amap s') = wrap (am_size (amap s) + 1) /\
    same_config (amap s) (amap s') /\
    capacity (amap s') = put_capacity (amap s).
Proof.
  intros (Hrep & Hix & Hkeys) Hl Hfind.
  set (i := bucket_index (amap s) p) in *.
  set (h := heap s) in *. set (alloc := length h).
  set (new := mkAllocation p sz GC_TAG_NONE d None).
  destruct (rep_bucket s G p Hrep) as (x & l' & Hx & Hl' & Hc & Hndl & Hlenl).
  fold i in Hx, Hl'. fold h in Hlenl, Hc. rewrite Hl in Hl'. injection Hl' as <-.
  pose proof (rep_cap _ _ Hrep) as Hcap.
  assert (Hlt : forall a, a ∈ l -> (a < length h)%nat).
  { intros a Ha. eapply lseg_lt; eauto. }
  set (s0 := set_heap (h ++ [Cell true new]) s).
  assert (Hc0 : chain (heap s0) x l).
  { simpl. eapply lseg_frame; [exact Hc|]. intros a Ha.
    apply lookup_app_l. apply Hlt. exact Ha. }
  assert (Hfind0 : lookup_chain (heap s0) p l = None).
  { rewrite <- Hfind. unfold lookup_chain. simpl.
    clear -Hlt. induction l as [|a l IH]; simpl; [reflexivity|].
    rewrite ptr_at_app by (apply Hlt; left).
    destruct (ptr_at h a =? p); [reflexivity|].
    apply IH. intros b Hb. apply Hlt. right. exact Hb. }
  (* the registry once the record is linked and counted *)
  set (h2 := <[alloc := Cell true (set_next x new)]> (h ++ [Cell true new])).
  set (m4 := set_am_size (wrap (am_size (amap s) + 1))
               (set_allocs (<[i := Some alloc]> (allocs (amap s))) (amap s))).
  set (s4 := mkStore h2 m4 (uaf s)).
  set (G4 := <[i := alloc :: l]> G).
  assert (Hnew0 : (h ++ [Cell true new]) !! alloc = Some (Cell true new)).
  { apply list_lookup_middle. reflexivity. }
  assert (Hfl4 : fields (heap s4) = fields h ++ [new]).
  { simpl. unfold h2. rewrite (fields_insert_next _ _ _ _ _ Hnew0).
    apply fields_app_new. }
  destruct (concat_insert_perm G i l (alloc :: l) Hl) as (rest & Hp1 & Hp2).
  assert (Hfresh : alloc ∉ concat G).
  { intros Ha. apply (rep_addr_lt s G alloc Hrep) in Ha. unfold alloc, h in Ha. lia. }
  assert (Hperm4 : concat G4 ≡ₚ alloc :: concat G).
  { unfold G4. rewrite Hp2, Hp1. reflexivity. }
  assert (Hptr : forall a, a ∈ concat G -> ptr_at (heap s4) a = ptr_at h a).
  { intros a Ha. apply (ptr_at_old h (heap s4) new a Hfl4). eapply rep_addr_lt; eauto. }
  assert (Hptr_new : ptr_at (heap s4) alloc = p).
  { apply (ptr_at_new h (heap s4) new Hfl4). }
  assert (Hnokey : forall a, a ∈ concat G -> ptr_at h a <> p).
  { intros a Ha Hpa. apply elem_of_concat_inv in Ha as (j & lj & Hj & Ha).
    pose proof (Hix j lj a Hj Ha) as Hb. fold h in Hb. rewrite Hpa in Hb. fold i in Hb.
    subst j. rewrite Hl in Hj. injection Hj as <-.
    exact (lookup_chain_None h p l a Hfind Ha Hpa). }
  assert (Hwf4 : wf s4 G4).
  { split; [|split].
    - constructor; simpl.
      + unfold G4.
        eapply (rep_frame h h2); [exact (rep_chains _ _ Hrep) | exact (rep_nodup _ _ Hrep) | exact Hl | |].
        * intros a Ha _. unfold h2. rewrite list_lookup_insert_ne by (unfold alloc; lia).
          apply lookup_app_l. exact Ha.
        * econstructor.
          -- unfold h2. apply list_lookup_insert_eq. rewrite length_app. simpl. unfold alloc. lia.
          -- simpl. eapply lseg_frame; [exact Hc|]. intros a Ha. unfold h2.
             rewrite list_lookup_insert_ne by (apply Hlt in Ha; unfold alloc; lia).
             apply lookup_app_l. apply Hlt. exact Ha.
      + rewrite Hperm4. apply NoDup_cons. split; [exact Hfresh | exact (rep_nodup _ _ Hrep)].
      + rewrite length_insert. exact (rep_len _ _ Hrep).
      + exact Hcap.
    - intros j lj a Hj Ha.
      change (bucket_index (amap s4) (ptr_at (heap s4) a))
        with (bucket_index (amap s) (ptr_at (heap s4) a)).
      unfold G4 in Hj. destruct (decide (i = j)) as [<- | Hne].
      + rewrite list_lookup_insert_eq in Hj by (eapply lookup_lt_Some; eauto).
        injection Hj as <-. apply elem_of_cons in Ha as [-> | Ha].
        * rewrite Hptr_new. reflexivity.
        * rewrite Hptr by (eapply elem_of_concat_lookup; eauto). eapply Hix; eauto.
      + rewrite list_lookup_insert_ne in Hj by exact Hne.
        rewrite Hptr by (eapply elem_of_concat_lookup; eauto). eapply Hix; eauto.
    - unfold keys_ok. rewrite Hperm4. rewrite fmap_cons. apply NoDup_cons. split.
      + rewrite Hptr_new. intros Hin. apply list_elem_of_fmap in Hin as (a & Hpa & Ha).
        rewrite Hptr in Hpa by exact Ha. eapply Hnokey; eauto.
      + rewrite (fmap_ext_in (ptr_at (heap s4)) (ptr_at h)); [exact Hkeys | exact Hptr]. }
  unfold gc_allocation_map_put.
  destruct (Z.leb_spec (capacity (amap s)) 0); [lia|].
  unfold gc_allocation_new. fold h. fold new. fold s0. fold alloc. fold i.
  change (allocs (amap s0)) with (allocs (amap s)). rewrite Hx. simpl.
  change (length (h ++ [Cell true new])) with (length (heap s0)).
  pose proof (put_loop_none p i alloc l (length (heap s0)) s0 x None Hc0) as Hrun.
  rewrite Hrun; [| simpl; rewrite length_app; simpl; lia | exact Hfind0].
  simpl. rewrite Hx. simpl.
  unfold write. simpl. rewrite Hnew0. simpl.
  fold h2. unfold set_bucket. simpl. fold m4.
  change (set_amap m4 _) with s4.
  unfold put_capacity.
  change (gc_allocation_map_load_factor m4)
    with (inject_Z (wrap (am_size (amap s) + 1)) / inject_Z (capacity (amap s)))%Q.
  destruct (Qgtb _ (upsize_factor (amap s))) eqn:Eload; simpl.
  - destruct (resize_wf s4 G4 (next_prime (wrap (capacity (amap s) * 2))) Hwf4 (next_prime_pos _))
      as (s' & G' & Hrun' & Hwf' & Hperm' & Hfl' & Hsz' & Hcfg' & Hcap' & _).
    rewrite Hrun'. simpl. exists s', G'.
    split; [reflexivity|]. split; [exact Hwf'|].
    split; [rewrite Hperm'; exact Hperm4|].
    split; [rewrite Hfl'; exact Hfl4|].
    split; [rewrite Hsz'; reflexivity|].
    split; [exact Hcfg'|]. rewrite Hcap'. reflexivity.
  - exists s4, G4. split; [reflexivity|]. split; [exact Hwf4|].
    split; [exact Hperm4|]. split; [exact Hfl4|].
    split; [reflexivity|]. split; [repeat split; reflexivity | reflexivity].
Qed.

(** ** gc_allocation_map_remove *)

Lemma keep_fields h h' p l : fields h = fields h' -> keep h p l = keep h' p l.
Proof.
  intros Hf. unfold keep. induction l as [|a l IH]; [reflexivity|].
  rewrite !filter_cons, IH, (ptr_at_fields h h' a Hf). reflexivity.
Qed.

Lemma keep_length h p l : (length (keep h p l) <= length l)%nat.
Proof. apply length_filter. Qed.

Lemma decr_succ k n : decr (S k) n = decr k (wrap (n - 1)).
Proof. unfold decr. rewrite Nat.iter_succ_r. reflexivity. Qed.

Lemma remove_loop_spec p i : forall l fuel s x prev pre hd,
  allocs (amap s) !! i = Some hd ->
  lseg (heap s) hd pre x -> chain (heap s) x l ->
  prev = last pre -> NoDup (pre ++ l) ->
  (length l <= fuel)%nat ->
  exists s' hd',
    remove_loop fuel s i x prev p = Some s' /\
    chain (heap s') hd' (pre ++ keep (heap s) p l) /\
    allocs (amap s') = <[i := hd']> (allocs (amap s)) /\
    am_size (amap s') =
      decr (length l - length (keep (heap s) p l)) (am_size (amap s)) /\
    capacity (amap s') = capacity (amap s) /\
    same_config (amap s) (amap s') /\
    (forall a, a ∉ pre ++ l -> heap s' !! a = heap s !! a) /\
    fields (heap s') = fields (heap s) /\
    length (heap s') = length (heap s).
Proof.
  induction l as [|a l IH]; intros fuel s x prev pre hd Hhd Hpre Hc Hprev Hnd Hf.
  - inversion Hc; subst. exists s, hd.
    split; [destruct fuel; reflexivity|].
    split; [rewrite app_nil_r; exact Hpre|].
    split; [symmetry; apply list_insert_id; exact Hhd|].
    split; [reflexivity|]. split; [reflexivity|].
    split; [repeat split; reflexivity|]. auto.
  - inversion Hc as [| a' r l' y' Ha Hl]; subst.
    destruct fuel as [|fuel]; [simpl in Hf; lia|].
    simpl remove_loop. rewrite (read_live _ _ _ _ Ha). simpl.
    set (h := heap s) in *.
    assert (Hal : a ∉ l).
    { apply NoDup_app in Hnd as (_ & _ & Hnd). apply NoDup_cons in Hnd. tauto. }
    assert (Hapre : a ∉ pre).
    { intros Hin. apply NoDup_app in Hnd as (_ & Hd & _). apply (Hd a Hin). left. }
    assert (Hprel : forall b, b ∈ pre -> b ∉ l).
    { intros b Hb Hbl. apply NoDup_app in Hnd as (_ & Hd & _). apply (Hd b Hb). right. exact Hbl. }
    destruct (ptr r =? p) eqn:E.
    + (* found it *)
      assert (Hkeep : forall h', fields h' = fields h -> keep h p (a :: l) = keep h' p l).
      { intros h' Hf'. unfold keep at 1. rewrite filter_cons_False.
        - apply keep_fields. congruence.
        - rewrite (ptr_at_lookup _ _ _ _ Ha). apply Z.eqb_eq in E. intros Hne. contradiction. }
      assert (Hcount : forall h', fields h' = fields h ->
                (length (a :: l) - length (keep h p (a :: l)) =
                 S (length l - length (keep h' p l)))%nat).
      { intros h' Hf'. rewrite (Hkeep h' Hf'). pose proof (keep_length h' p l). simpl. lia. }
      destruct (last pre) as [pv|] eqn:Elast.
      * (* not the first item in the list *)
        apply last_Some in Elast as [pre0 ->].
        destruct (lseg_live _ _ _ _ pv Hpre) as [cpv Hpv]; [apply elem_of_app; right; left|].
        assert (Hpva : pv <> a).
        { intros ->. apply Hapre. apply elem_of_app. right. left. }
        rewrite (write_live _ _ _ _ _ Hpv). simpl. fold h.
        set (h1 := <[pv := Cell true (set_next (next r) cpv)]> h).
        assert (Ha1 : h1 !! a = Some (Cell true r)).
        { unfold h1. rewrite list_lookup_insert_ne by exact Hpva. exact Ha. }
        unfold gc_allocation_delete. simpl. rewrite Ha1. simpl.
        set (h2 := <[a := Cell false r]> h1).
        assert (Ha2 : h2 !! a = Some (Cell false r)).
        { unfold h2. apply list_lookup_insert_eq. eapply lookup_lt_Some; eauto. }
        unfold read. simpl. rewrite Ha2. simpl.
        assert (Hfl2 : fields h2 = fields h).
        { unfold h2. rewrite (fields_insert_live _ _ _ _ _ Ha1). unfold h1.
          apply (fields_insert_next _ _ _ _ _ Hpv). }
        match goal with |- context [remove_loop fuel ?t _ _ _ _] => set (s3 := t) end.
        destruct (IH fuel s3 (next r) (Some pv) (pre0 ++ [pv]) hd)
          as (s' & hd' & Hrun & Hch & Hall & Hsz & Hcp & Hcfg & Hfr & Hfl & Hlen).
        -- exact Hhd.
        -- simpl. eapply lseg_frame with (h := h1).
           ++ unfold h1. apply (lseg_snoc_set h hd pre0 pv cpv (Some a) (next r)); [exact Hpre | | exact Hpv].
              apply NoDup_app in Hnd as (Hnd & _ & _).
              apply NoDup_app in Hnd as (_ & Hd & _).
              intros Hin. apply (Hd pv Hin). left.
           ++ intros b Hb. unfold h2. apply list_lookup_insert_ne. intros ->. contradiction.
        -- simpl. eapply lseg_frame; [exact Hl|]. intros b Hb. unfold h2, h1.
           rewrite !list_lookup_insert_ne; [reflexivity | | ].
           ++ intros <-. apply (Hprel pv); [apply elem_of_app; right; left | exact Hb].
           ++ intros <-. contradiction.
        -- rewrite last_snoc. reflexivity.
        -- apply NoDup_app in Hnd as (Hnd1 & Hd & Hnd2). apply NoDup_cons in Hnd2 as [_ Hnd2].
           apply NoDup_app. split; [exact Hnd1|]. split; [|exact Hnd2].
           intros b Hb Hbl. apply (Hd b Hb). right. exact Hbl.
        -- simpl in Hf. lia.
        -- exists s', hd'. rewrite Hrun. split; [reflexivity|].
           simpl in *.
           split; [rewrite (Hkeep h2 Hfl2); exact Hch|].
           split; [exact Hall|].
           split; [rewrite (Hcount h2 Hfl2), decr_succ; exact Hsz|].
           split; [exact Hcp|]. split; [exact Hcfg|].
           split.
           { intros b Hb. rewrite Hfr.
             - unfold h2, h1. rewrite !list_lookup_insert_ne; [reflexivity | | ].
               + intros ->. apply Hb. apply elem_of_app. left. apply elem_of_app. right. left.
               + intros ->. apply Hb. apply elem_of_app. right. left.
             - intros Hin. apply Hb. apply elem_of_app in Hin as [Hin | Hin];
                 apply elem_of_app; [left | right; right]; exact Hin. }
           split; [congruence|].
           rewrite Hlen. unfold h2, h1. rewrite !length_insert. reflexivity.
      * (* first item in list *)
        apply last_None in Elast. subst pre. inversion Hpre; subst.
        unfold gc_allocation_delete. simpl. fold h. rewrite Ha. simpl.
        set (h2 := <[a := Cell false r]> h).
        assert (Ha2 : h2 !! a = Some (Cell false r)).
        { unfold h2. apply list_lookup_insert_eq. eapply lookup_lt_Some; eauto. }
        unfold read. simpl. rewrite Ha2. simpl.
        assert (Hfl2 : fields h2 = fields h).
        { unfold h2. apply (fields_insert_live _ _ _ _ _ Ha). }
        match goal with |- context [remove_loop fuel ?t _ _ _ _] => set (s3 := t) end.
        destruct (IH fuel s3 (next r) None [] (next r))
          as (s' & hd' & Hrun & Hch & Hall & Hsz & Hcp & Hcfg & Hfr & Hfl & Hlen).
        -- simpl. apply list_lookup_insert_eq. eapply lookup_lt_Some; eauto.
        -- constructor.
        -- simpl. eapply lseg_frame; [exact Hl|]. intros b Hb. unfold h2.
           apply list_lookup_insert_ne. intros ->. contradiction.
        -- reflexivity.
        -- simpl in *. apply NoDup_cons in Hnd. tauto.
        -- simpl in Hf. lia.
        -- exists s', hd'. rewrite Hrun. split; [reflexivity|].
           simpl in *.
           split; [rewrite (Hkeep h2 Hfl2); exact Hch|].
           split; [rewrite Hall; apply list_insert_insert_eq|].
           split; [rewrite (Hcount h2 Hfl2), decr_succ; exact Hsz|].
           split; [exact Hcp|]. split; [exact Hcfg|].
           split.
           { intros b Hb. rewrite Hfr.
             - unfold h2. apply list_lookup_insert_ne. intros ->. apply Hb. left.
             - intros Hin. apply Hb. right. exact Hin. }
           split; [congruence|].
           rewrite Hlen. unfold h2. rewrite length_insert. reflexivity.
    + (* move on *)
      unfold read. simpl. fold h. rewrite Ha. simpl.
      assert (Hkeep : keep h p (a :: l) = a :: keep h p l).
      { unfold keep. rewrite filter_cons_True; [reflexivity|].
        rewrite (ptr_at_lookup _ _ _ _ Ha). apply Z.eqb_neq. exact E. }
      destruct (IH fuel s (next r) (Some a) (pre ++ [a]) hd)
        as (s' & hd' & Hrun & Hch & Hall & Hsz & Hcp & Hcfg & Hfr & Hfl & Hlen).
      * exact Hhd.
      * eapply lseg_app; [exact Hpre|]. econstructor; [exact Ha | constructor].
      * exact Hl.
      * rewrite last_snoc. reflexivity.
      * rewrite <- app_assoc. exact Hnd.
      * simpl in Hf. lia.
      * exists s', hd'. rewrite Hrun. split; [reflexivity|]. fold h in Hch, Hsz, Hfr, Hfl, Hlen.
        split; [rewrite Hkeep; rewrite <- app_assoc in Hch; exact Hch|].
        split; [exact Hall|].
        split; [rewrite Hkeep; simpl; exact Hsz|].
        split; [exact Hcp|]. split; [exact Hcfg|].
        split; [intros b Hb; apply Hfr; rewrite <- app_assoc; exact Hb|].
        split; assumption.
Qed.

Lemma filter_all {A} (P : A -> Prop) `{forall x, Decision (P x)} (l : list A) :
  (forall x, x ∈ l -> P x) -> filter P l = l.
Proof.
  induction l as [|x l IH]; intros Hall; [reflexivity|].
  rewrite filter_cons_True by (apply Hall; left).
  f_equal. apply IH. intros y Hy. apply Hall. right. exact Hy.
Qed.

Lemma keep_none h p l : lookup_chain h p l = None -> keep h p l = l.
Proof.
  intros Hn. unfold keep. apply filter_all.
  intros a Ha. eapply lookup_chain_None; eauto.
Qed.

Lemma keep_some h p l c :
  NoDup (ptr_at h <$> l) -> lookup_chain h p l = Some c ->
  exists l1 l2, l = l1 ++ c :: l2 /\ keep h p l = l1 ++ l2.
Proof.
  intros Hnd Hf. destruct (lookup_chain_split h p l c Hf) as (l1 & l2 & -> & Hp & Hn).
  exists l1, l2. split; [reflexivity|].
  unfold keep. rewrite filter_app, filter_cons_False by (intros Hne; contradiction).
  rewrite !filter_all; [reflexivity | | exact Hn].
  intros b Hb Hpb.
  rewrite fmap_app, fmap_cons in Hnd.
  apply NoDup_app in Hnd as (_ & _ & Hnd). apply NoDup_cons in Hnd as [Hc _].
  apply Hc. rewrite Hp, <- Hpb. apply list_elem_of_fmap. eauto.
Qed.

Lemma remove_spec s G p l :
  wf s G ->
  G !! bucket_index (amap s) p = Some l ->
  exists s' G',
    gc_allocation_map_remove s p = Some s' /\
    wf s' G' /\
    fields (heap s') = fields (heap s) /\
    same_config (amap s) (amap s') /\
    match lookup_chain (heap s) p l with
    | Some c =>
        concat G ≡ₚ c :: concat G' /\
        am_size (amap s') = wrap (am_size (amap s) - 1) /\
        capacity (amap s') =
          remove_capacity (amap s) (wrap (am_size (amap s) - 1))
    | None =>
        concat G' ≡ₚ concat G /\
        am_size (amap s') = am_size (amap s) /\
        capacity (amap s') = remove_capacity (amap s) (am_size (amap s))
    end.
Proof.
  intros (Hrep & Hix & Hkeys) Hl.
  set (i := bucket_index (amap s) p) in *.
  set (h := heap s) in *.
  destruct (rep_bucket s G p Hrep) as (x & l' & Hx & Hl' & Hc & Hndl & Hlenl).
  fold i in Hx, Hl'. fold h in Hlenl, Hc. rewrite Hl in Hl'. injection Hl' as <-.
  pose proof (rep_cap _ _ Hrep) as Hcap.
  destruct (remove_loop_spec p i l (length h) s x None [] x)
    as (s1 & hd' & Hrun & Hch & Hall & Hsz & Hcp & Hcfg & Hfr & Hfl & Hlen);
    [exact Hx | constructor | exact Hc | reflexivity | exact Hndl | exact Hlenl |].
  fold h in Hch, Hsz, Hfr, Hfl, Hlen. simpl in Hch, Hfr.
  set (G1 := <[i := keep h p l]> G).
  destruct (concat_insert_perm G i l (keep h p l) Hl) as (rest & Hp1 & Hp2).
  fold G1 in Hp2.
  assert (Hin1 : forall a, a ∈ concat G1 -> a ∈ concat G).
  { intros a. rewrite Hp1, Hp2. intros Ha. apply elem_of_app in Ha as [Ha | Ha];
      apply elem_of_app; [left | right; exact Ha].
    unfold keep in Ha. apply list_elem_of_filter in Ha. tauto. }
  assert (Hptr : forall a, ptr_at (heap s1) a = ptr_at h a).
  { intros a. apply ptr_at_fields. exact Hfl. }
  assert (Hwf1 : wf s1 G1).
  { split; [|split].
    - constructor.
      + rewrite Hall. unfold G1.
        eapply (rep_frame h (heap s1)); [exact (rep_chains _ _ Hrep) | exact (rep_nodup _ _ Hrep) | exact Hl | | exact Hch].
        intros a _ Ha. apply Hfr. exact Ha.
      + rewrite Hp2. pose proof (rep_nodup _ _ Hrep) as Hnd. rewrite Hp1 in Hnd.
        apply NoDup_app in Hnd as (Hnd1 & Hd & Hnd2).
        apply NoDup_app. split; [apply NoDup_filter; exact Hnd1|]. split; [|exact Hnd2].
        intros a Ha. apply Hd. unfold keep in Ha. apply list_elem_of_filter in Ha. tauto.
      + rewrite Hall, length_insert, Hcp. exact (rep_len _ _ Hrep).
      + rewrite Hcp. exact Hcap.
    - intros j lj a Hj Ha. unfold bucket_index. rewrite Hcp, Hptr.
      unfold G1 in Hj. destruct (decide (i = j)) as [<- | Hne].
      + rewrite list_lookup_insert_eq in Hj by (eapply lookup_lt_Some; eauto).
        injection Hj as <-. unfold keep in Ha. apply list_elem_of_filter in Ha as [_ Ha].
        apply (Hix i l a Hl Ha).
      + rewrite list_lookup_insert_ne in Hj by exact Hne. apply (Hix j lj a Hj Ha).
    - unfold keys_ok in *. rewrite Hp2. rewrite Hp1 in Hkeys.
      rewrite (fmap_ext_in (ptr_at (heap s1)) (ptr_at h)) by (intros; apply Hptr).
      eapply sublist_NoDup; [exact Hkeys|].
      apply fmap_sublist. apply sublist_app; [apply sublist_filter | reflexivity]. }
  unfold gc_allocation_map_remove.
  destruct (Z.leb_spec (capacity (amap s)) 0); [lia|].
  fold i. rewrite Hx. simpl. fold h. rewrite Hrun. simpl.
  unfold gc_allocation_map_load_factor. rewrite Hcp.
  destruct Hcfg as (Hmin & Hdf & Huf & Hsf). rewrite Hdf.
  assert (Hkeysl : NoDup (ptr_at h <$> l)).
  { unfold keys_ok in Hkeys. rewrite Hp1, fmap_app in Hkeys.
    apply NoDup_app in Hkeys. tauto. }
  assert (Hcase :
    match lookup_chain h p l with
    | Some c => concat G ≡ₚ c :: concat G1 /\ am_size (amap s1) = wrap (am_size (amap s) - 1)
    | None => concat G1 ≡ₚ concat G /\ am_size (amap s1) = am_size (amap s)
    end).
  { destruct (lookup_chain h p l) as [c|] eqn:Ef.
    - destruct (keep_some h p l c Hkeysl Ef) as (l1 & l2 & Hl12 & Hk).
      split.
      + rewrite Hp1, Hp2, Hk, Hl12, <- !app_assoc. simpl.
        symmetry. apply Permutation_middle.
      + rewrite Hsz, Hk, Hl12, !length_app. simpl.
        replace (length l1 + S (length l2) - (length l1 + length l2))%nat with 1%nat by lia.
        reflexivity.
    - rewrite (keep_none h p l Ef) in *. split.
      + rewrite Hp1, Hp2. reflexivity.
      + rewrite Hsz, Nat.sub_diag. reflexivity. }
  assert (Hres : forall n, am_size (amap s1) = n ->
    exists s' G',
      (if Qltb (inject_Z (am_size (amap s1)) / inject_Z (capacity (amap s))) (downsize_factor (amap s))
       then gc_allocation_map_resize s1 (next_prime (capacity (amap s) / 2))
       else Some s1) = Some s' /\
      wf s' G' /\ concat G' ≡ₚ concat G1 /\
      fields (heap s') = fields h /\
      same_config (amap s) (amap s') /\
      am_size (amap s') = n /\
      capacity (amap s') = remove_capacity (amap s) n).
  { intros n Hn. unfold remove_capacity. rewrite Hn.
    destruct (Qltb _ (downsize_factor (amap s))) eqn:Eload; simpl.
    - destruct (resize_wf s1 G1 (next_prime (capacity (amap s) / 2)) Hwf1 (next_prime_pos _))
        as (s' & G' & Hrun' & Hwf' & Hperm' & Hfl' & Hsz' & Hcfg' & Hcap' & _).
      exists s', G'. split; [exact Hrun'|]. split; [exact Hwf'|].
      split; [exact Hperm'|]. split; [congruence|].
      destruct Hcfg' as (H1' & H2' & H3' & H4').
      split; [repeat split; congruence|]. split; [congruence|].
      rewrite Hcap', Hmin, Hcp. reflexivity.
    - exists s1, G1. split; [reflexivity|]. split; [exact Hwf1|].
      split; [reflexivity|]. split; [exact Hfl|].
      split; [repeat split; assumption|]. split; [exact Hn | exact Hcp]. }
  destruct (lookup_chain h p l) as [c|] eqn:Ef; destruct Hcase as [Hperm Hsize].
  - destruct (Hres _ Hsize) as (s' & G' & Hrun' & Hwf' & Hperm' & Hfl' & Hcfg' & Hsz' & Hcap').
    exists s', G'. split; [exact Hrun'|]. split; [exact Hwf'|].
    split; [exact Hfl'|]. split; [exact Hcfg'|].
    split; [rewrite Hperm, Hperm'; reflexivity|]. split; assumption.
  - destruct (Hres _ Hsize) as (s' & G' & Hrun' & Hwf' & Hperm' & Hfl' & Hcfg' & Hsz' & Hcap').
    exists s', G'. split; [exact Hrun'|]. split; [exact Hwf'|].
    split; [exact Hfl'|]. split; [exact Hcfg'|].
    split; [rewrite Hperm'; exact Hperm|]. split; assumption.
Qed.

(** ** Looking up a key of a well-formed registry *)

Lemma lookup_found s G a p :
  wf s G -> a ∈ concat G -> ptr_at (heap s) a = p ->
  exists l, G !! bucket_index (amap s) p = Some l /\
            lookup_chain (heap s) p l = Some a.
Proof.
  intros (Hrep & Hix & Hkeys) Ha Hp.
  destruct (elem_of_concat_inv _ _ Ha) as (j & lj & Hj & Halj).
  pose proof (Hix j lj a Hj Halj) as Hb. rewrite Hp in Hb. subst j.
  exists lj. split; [exact Hj|].
  destruct (lookup_chain (heap s) p lj) as [a'|] eqn:Ef.
  - destruct (lookup_chain_Some _ _ _ _ Ef) as [Ha' Hp'].
    f_equal. eapply (NoDup_fmap_inj (ptr_at (heap s)) (concat G)); eauto.
    + eapply elem_of_concat_lookup; eauto.
    + congruence.
  - exfalso. exact (lookup_chain_None _ _ _ _ Ef Halj Hp).
Qed.

Lemma get_found s G a p :
  wf s G -> a ∈ concat G -> ptr_at (heap s) a = p ->
  gc_allocation_map_get s p = Some (Some a, s).
Proof.
  intros Hwf Ha Hp.
  destruct (lookup_found s G a p Hwf Ha Hp) as (l & Hl & Hf).
  destruct (get_spec s G p (proj1 Hwf)) as (l' & Hl' & Hget).
  rewrite Hl in Hl'. injection Hl' as <-. rewrite Hget, Hf. reflexivity.
Qed.

Lemma get_absent s G p :
  wf s G -> (forall a, a ∈ concat G -> ptr_at (heap s) a <> p) ->
  gc_allocation_map_get s p = Some (None, s).
Proof.
  intros Hwf Hno.
  destruct (get_spec s G p (proj1 Hwf)) as (l & Hl & Hget).
  rewrite Hget. destruct (lookup_chain (heap s) p l) as [a|] eqn:Ef; [|reflexivity].
  exfalso. destruct (lookup_chain_Some _ _ _ _ Ef) as [Ha Hp].
  eapply Hno; [|exact Hp]. eapply elem_of_concat_lookup; eauto.
Qed.

Lemma get_total s G p :
  rep s G -> exists r, gc_allocation_map_get s p = Some (r, s).
Proof.
  intros Hrep. destruct (get_spec s G p Hrep) as (l & _ & Hget). eauto.
Qed.

Lemma get_Some_inv s G p a :
  rep s G -> gc_allocation_map_get s p = Some (Some a, s) ->
  a ∈ concat G /\ ptr_at (heap s) a = p.
Proof.
  intros Hrep Hget. destruct (get_spec s G p Hrep) as (l & Hl & Hget').
  rewrite Hget' in Hget. injection Hget as Hf.
  destruct (lookup_chain_Some _ _ _ _ Hf) as [Ha Hp].
  split; [eapply elem_of_concat_lookup; eauto | exact Hp].
Qed.

Lemma get_None_inv s G p a :
  wf s G -> gc_allocation_map_get s p = Some (None, s) ->
  a ∈ concat G -> ptr_at (heap s) a <> p.
Proof.
  intros Hwf Hget Ha Hp. rewrite (get_found s G a p Hwf Ha Hp) in Hget. discriminate.
Qed.

(** ** gc_allocation_map_put keeps the registry well formed *)

Lemma fields_new_lookup h h' new lv c :
  fields h' = fields h ++ [new] -> h' !! length h = Some (Cell lv c) ->
  set_next None c = new.
Proof.
  intros Hf Hc.
  assert (H : fields h' !! length h = Some new).
  { rewrite Hf. apply list_lookup_middle. unfold fields. rewrite length_fmap. reflexivity. }
  unfold fields in H. rewrite list_lookup_fmap, Hc in H. simpl in H. congruence.
Qed.

Lemma put_wf s G p sz d :
  wf s G ->
  exists s1 G1,
    gc_allocation_map_put s p sz d = Some (length (heap s), s1) /\
    wf s1 G1 /\
    length (heap s) ∈ concat G1 /\
    fields (heap s1) = fields (heap s) ++ [mkAllocation p sz GC_TAG_NONE d None] /\
    same_config (amap s) (amap s1) /\
    (forall a, gc_allocation_map_get s p = Some (Some a, s) ->
       am_size (amap s1) = am_size (amap s) /\
       capacity (amap s1) = capacity (amap s) /\
       concat G ≡ₚ a :: filter (fun b => b <> length (heap s)) (concat G1) /\
       length (concat G1) = length (concat G)) /\
    (gc_allocation_map_get s p = Some (None, s) ->
       am_size (amap s1) = wrap (am_size (amap s) + 1) /\
       capacity (amap s1) = put_capacity (amap s) /\
       concat G1 ≡ₚ length (heap s) :: concat G).
Proof.
  intros Hwf. pose proof Hwf as (Hrep & Hix & Hkeys).
  destruct (get_spec s G p Hrep) as (l & Hl & Hget).
  destruct (lookup_chain (heap s) p l) as [c|] eqn:Ef.
  - destruct (put_upsert s G p sz d l c Hwf Hl Ef)
      as (s1 & l1 & l2 & Hrun & Hl12 & Hwf1 & Hfl & Hcap & Hsz & Hcfg).
    exists s1, (<[bucket_index (amap s) p := l1 ++ length (heap s) :: l2]> G).
    destruct (concat_insert_perm G _ l (l1 ++ length (heap s) :: l2) Hl) as (rest & Hp1 & Hp2).
    split; [exact Hrun|]. split; [exact Hwf1|].
    split.
    { rewrite Hp2. apply elem_of_app. left. apply elem_of_app. right. left. }
    split; [exact Hfl|]. split; [exact Hcfg|]. split.
    + intros a Hga. rewrite Hget in Hga. injection Hga as <-.
      split; [exact Hsz|]. split; [exact Hcap|].
      assert (Hfresh : forall b, b ∈ concat G -> b <> length (heap s)).
      { intros b Hb. apply (rep_addr_lt s G b Hrep) in Hb. lia. }
      split.
      * rewrite Hp2, Hp1, Hl12. rewrite <- !app_assoc. simpl.
        rewrite !filter_app, filter_cons_False by (intros Hne; apply Hne; reflexivity).
        assert (Hsub : forall b, b ∈ l1 \/ b ∈ l2 \/ b ∈ rest -> b <> length (heap s)).
        { intros b Hb. apply Hfresh. rewrite Hp1, Hl12, <- !app_assoc. simpl.
          rewrite !elem_of_app, elem_of_cons, elem_of_app. tauto. }
        rewrite !filter_all;
          try (intros b Hb; apply Hsub; rewrite ?elem_of_app in Hb; tauto).
        symmetry. apply Permutation_middle.
      * rewrite Hp2, Hp1, Hl12. repeat (progress (rewrite ?length_app; simpl)). lia.
    + intros Hga. rewrite Hget in Hga. discriminate.
  - destruct (put_insert s G p sz d l Hwf Hl Ef)
      as (s1 & G1 & Hrun & Hwf1 & Hperm & Hfl & Hsz & Hcfg & Hcap).
    exists s1, G1. split; [exact Hrun|]. split; [exact Hwf1|].
    split; [rewrite Hperm; left|]. split; [exact Hfl|]. split; [exact Hcfg|]. split.
    + intros a Hga. rewrite Hget in Hga. discriminate.
    + intros _. auto.
Qed.

Lemma put_new_record s s1 G1 p sz d :
  wf s1 G1 -> length (heap s) ∈ concat G1 ->
  fields (heap s1) = fields (heap s) ++ [mkAllocation p sz GC_TAG_NONE d None] ->
  exists c, heap s1 !! length (heap s) = Some (Cell true c) /\
    ptr c = p /\ size c = sz /\ tag c = GC_TAG_NONE /\ dtor c = d /\
    gc_allocation_map_get s1 p = Some (Some (length (heap s)), s1).
Proof.
  intros Hwf1 Hin Hfl.
  destruct (rep_addr_live s1 G1 _ (proj1 Hwf1) Hin) as (c & Hc).
  pose proof (fields_new_lookup _ _ _ _ _ Hfl Hc) as Hnew.
  exists c. split; [exact Hc|].
  unfold set_next in Hnew. inversion Hnew. repeat (split; [reflexivity|]).
  apply (get_found s1 G1); [exact Hwf1 | exact Hin |].
  rewrite (ptr_at_lookup _ _ _ _ Hc). reflexivity.
Qed.

(** ** gc_mark_alloc comes to an end *)

Lemma mark_bit_set t : Z.land (Z.lor t GC_TAG_MARK) GC_TAG_MARK <> 0.
Proof.
  rewrite Z.land_lor_distr_l. intros H. apply Z.lor_eq_0_iff in H as [_ H].
  discriminate H.
Qed.

Lemma rec_at_insert_eq h a c :
  (a < length h)%nat -> rec_at (<[a := c]> h) a = content c.
Proof. intros H. unfold rec_at. rewrite list_lookup_insert_eq by exact H. reflexivity. Qed.

Lemma rec_at_insert_ne h a b c : a <> b -> rec_at (<[a := c]> h) b = rec_at h b.
Proof. intros H. unfold rec_at. rewrite list_lookup_insert_ne by exact H. reflexivity. Qed.

Lemma unmarked_frame h a c l :
  a ∉ l -> unmarked (<[a := c]> h) l = unmarked h l.
Proof.
  unfold unmarked. induction l as [|b l IH]; intros Hni; [reflexivity|].
  rewrite !filter_cons, rec_at_insert_ne by (intros ->; apply Hni; left).
  assert (Hl : a ∉ l) by (intros Hin; apply Hni; right; exact Hin).
  destruct (decide _); simpl; rewrite (IH Hl); reflexivity.
Qed.

Lemma unmarked_mark h a c l :
  NoDup l -> a ∈ l -> h !! a = Some (Cell true c) ->
  Z.land (tag c) GC_TAG_MARK = 0 ->
  S (unmarked (<[a := Cell true (set_tag (Z.lor (tag c) GC_TAG_MARK) c)]> h) l)
  = unmarked h l.
Proof.
  intros Hnd Ha Hc Hun. induction l as [|b l IH]; [inversion Ha|].
  apply NoDup_cons in Hnd as [Hb Hnd].
  unfold unmarked in *. rewrite !filter_cons.
  destruct (decide (a = b)) as [<- | Hne].
  - assert (Hr : rec_at h a = c) by (unfold rec_at; rewrite Hc; reflexivity).
    rewrite rec_at_insert_eq by (eapply lookup_lt_Some; eauto). rewrite Hr. simpl.
    destruct (decide (Z.land (Z.lor (tag c) GC_TAG_MARK) GC_TAG_MARK = 0)) as [Hz | _];
      [exfalso; exact (mark_bit_set _ Hz)|].
    destruct (decide (Z.land (tag c) GC_TAG_MARK = 0)) as [_ | Hnz]; [|contradiction].
    simpl. f_equal. apply (unmarked_frame h a _ l Hb).
  - apply elem_of_cons in Ha as [-> | Ha]; [contradiction|].
    rewrite rec_at_insert_ne by exact Hne.
    destruct (decide _); simpl; rewrite <- (IH Hnd Ha); reflexivity.
Qed.

Lemma rep_set_tag s G a c t :
  rep s G -> heap s !! a = Some (Cell true c) ->
  rep (set_heap (<[a := Cell true (set_tag t c)]> (heap s)) s) G.
Proof.
  intros [Hch Hnd Hlen Hcap] Hc. constructor; simpl; try assumption.
  clear -Hch Hc. induction Hch as [|x l A G Hxl HAG IH]; constructor; [|exact IH].
  eapply lseg_ext; [exact Hxl|]. intros b cb _ Hb.
  destruct (decide (a = b)) as [<- | Hne].
  - rewrite Hc in Hb. injection Hb as <-.
    exists (set_tag t c). split; [|reflexivity].
    apply list_lookup_insert_eq. eapply lookup_lt_Some; eauto.
  - exists cb. rewrite list_lookup_insert_ne by exact Hne. auto.
Qed.

Lemma scan_total (mark : Store -> Z -> option Store) (P : Store -> Prop) m :
  (forall s q, P s -> exists s', mark s q = Some s' /\ P s') ->
  forall n p s, P s -> exists s', scan mark m n p s = Some s' /\ P s'.
Proof.
  intros Hmark. induction n as [|n IH]; intros p s Hs; simpl.
  - eauto.
  - destruct (Hmark s (m p) Hs) as (s1 & -> & Hs1). simpl. apply IH. exact Hs1.
Qed.

Lemma gc_mark_alloc_total m G : forall depth s p,
  rep s G -> (unmarked (heap s) (concat G) <= depth)%nat ->
  exists s',
    gc_mark_alloc depth m s p = Some s' /\
    rep s' G /\
    (unmarked (heap s') (concat G) <= unmarked (heap s) (concat G))%nat /\
    amap s' = amap s /\ length (heap s') = length (heap s).
Proof.
  induction depth as [|d IH]; intros s p Hrep Hu.
  - destruct (get_spec s G p Hrep) as (l & Hl & Hget).
    simpl. rewrite Hget. simpl.
    destruct (lookup_chain (heap s) p l) as [a|] eqn:Ef; [|exists s; auto].
    destruct (lookup_chain_Some _ _ _ _ Ef) as [Hal _].
    assert (Ha : a ∈ concat G) by (eapply elem_of_concat_lookup; eauto).
    destruct (rep_addr_live s G a Hrep Ha) as (c & Hc).
    rewrite (read_live _ _ _ _ Hc). simpl.
    destruct (Z.land (tag c) GC_TAG_MARK =? 0) eqn:E; [|exists s; auto].
    exfalso. apply Z.eqb_eq in E.
    pose proof (unmarked_mark (heap s) a c (concat G) (rep_nodup _ _ Hrep) Ha Hc E). lia.
  - destruct (get_spec s G p Hrep) as (l & Hl & Hget).
    simpl. rewrite Hget. simpl.
    destruct (lookup_chain (heap s) p l) as [a|] eqn:Ef; [|exists s; auto].
    destruct (lookup_chain_Some _ _ _ _ Ef) as [Hal _].
    assert (Ha : a ∈ concat G) by (eapply elem_of_concat_lookup; eauto).
    destruct (rep_addr_live s G a Hrep Ha) as (c & Hc).
    rewrite (read_live _ _ _ _ Hc). simpl.
    destruct (Z.land (tag c) GC_TAG_MARK =? 0) eqn:E; [|exists s; auto].
    apply Z.eqb_eq in E.
    rewrite (write_live _ _ _ _ _ Hc). simpl.
    set (s3 := set_heap _ s).
    pose proof (unmarked_mark (heap s) a c (concat G) (rep_nodup _ _ Hrep) Ha Hc E) as Hdec.
    assert (Hrep3 : rep s3 G) by (apply rep_set_tag; assumption).
    destruct (scan_total (gc_mark_alloc d m)
                (fun s' => rep s' G /\
                           (unmarked (heap s') (concat G) <= unmarked (heap s3) (concat G))%nat /\
                           amap s' = amap s /\ length (heap s') = length (heap s)) m)
      with (n := Z.to_nat (size c)) (p := ptr c) (s := s3) as (s' & Hrun & Hrep' & Hu' & Ham' & Hlen').
    + intros s1 q (Hrep1 & Hu1 & Ham1 & Hlen1).
      destruct (IH s1 q Hrep1) as (s2 & Hrun2 & Hrep2 & Hu2 & Ham2 & Hlen2).
      { simpl in Hu1. unfold s3 in Hu1. simpl in Hu1. lia. }
      exists s2. split; [exact Hrun2|]. split; [exact Hrep2|].
      split; [lia|]. split; congruence.
    + split; [exact Hrep3|]. split; [lia|]. split; [reflexivity|].
      simpl. apply length_insert.
    + exists s'. split; [exact Hrun|]. split; [exact Hrep'|].
      split; [|split; assumption]. unfold s3 in Hu'. simpl in Hu'. lia.
Qed.

Lemma unmarked_le h l : (unmarked h l <= length l)%nat.
Proof. unfold unmarked. apply length_filter. Qed.

(** ** The invariant along puts and removes *)

Lemma wrap_small z : 0 <= z < 2 ^ 64 -> wrap z = z.
Proof. intros H. unfold wrap. apply Z.mod_small. exact H. Qed.

Lemma Qdiv_le_1 a b :
  0 < b -> (inject_Z a / inject_Z b <= 1)%Q -> a <= b.
Proof.
  intros Hb H. destruct b as [|b|b]; try lia.
  unfold Qdiv, Qmult, Qinv, Qle, inject_Z in H. simpl in H. lia.
Qed.

Lemma Qdiv_lt_half a b q :
  0 < b -> (inject_Z a / inject_Z b < q)%Q -> (q <= 1 # 2)%Q -> 2 * a < b.
Proof.
  intros Hb H Hq. pose proof (Qlt_le_trans _ _ _ H Hq) as H'.
  destruct b as [|b|b]; try lia.
  unfold Qdiv, Qmult, Qinv, Qlt, inject_Z in H'. simpl in H'. lia.
Qed.

Lemma Qgtb_false a b : Qgtb a b = false -> (a <= b)%Q.
Proof.
  unfold Qgtb. intros H. apply negb_false_iff in H. apply Qle_bool_iff. exact H.
Qed.

Lemma Qltb_true a b : Qltb a b = true -> (a < b)%Q.
Proof.
  unfold Qltb. intros H. apply negb_true_iff in H.
  apply Qnot_le_lt. intros Hle. apply Qle_bool_iff in Hle. congruence.
Qed.

Lemma wf_new h u min_cap cap sweep_f downsize_f upsize_f :
  Inv (mkStore h (gc_allocation_map_new min_cap cap sweep_f downsize_f upsize_f) u).
Proof.
  set (m := gc_allocation_map_new min_cap cap sweep_f downsize_f upsize_f).
  assert (Hcap : prime (capacity m) /\ min_capacity m <= capacity m).
  { unfold m, gc_allocation_map_new. simpl.
    destruct (Z.ltb_spec (next_prime cap) (next_prime min_cap)).
    - split; [apply next_prime_spec | lia].
    - split; [apply next_prime_spec | lia]. }
  destruct Hcap as [Hp Hmin].
  assert (Hpos : 0 < capacity m) by (destruct Hp; lia).
  exists (replicate (Z.to_nat (capacity m)) []).
  rewrite concat_replicate_nil.
  split; [|split; [reflexivity | split; [simpl; lia | split; assumption]]].
  split; [|split].
  - constructor; simpl.
    + apply Forall2_chain_nil.
    + rewrite concat_replicate_nil. constructor.
    + apply length_replicate.
    + exact Hpos.
  - intros i l a Hi Ha. apply lookup_replicate in Hi as [-> _]. inversion Ha.
  - unfold keys_ok. rewrite concat_replicate_nil. constructor.
Qed.

Lemma put_capacity_cases m :
  put_capacity m = capacity m \/
  (put_capacity m = next_prime (wrap (capacity m * 2)) /\
   min_capacity m < put_capacity m).
Proof.
  unfold put_capacity.
  destruct (Qgtb _ _); simpl; [|left; reflexivity].
  destruct (Z.ltb_spec (min_capacity m) (next_prime (wrap (capacity m * 2))));
    [right; split; [reflexivity | assumption] | left; reflexivity].
Qed.

Lemma remove_capacity_cases m n :
  remove_capacity m n = capacity m \/
  (remove_capacity m n = next_prime (capacity m / 2) /\
   min_capacity m < remove_capacity m n).
Proof.
  unfold remove_capacity.
  destruct (Qltb _ _); simpl; [|left; reflexivity].
  destruct (Z.ltb_spec (min_capacity m) (next_prime (capacity m / 2)));
    [right; split; [reflexivity | assumption] | left; reflexivity].
Qed.

Lemma Inv_put s p sz d a s' :
  Inv s -> am_size (amap s) + 1 < 2 ^ 64 ->
  gc_allocation_map_put s p sz d = Some (a, s') -> Inv s'.
Proof.
  intros (G & Hwf & Hsz & Hlt & Hpr & Hmin) Hfit Hput.
  destruct (put_wf s G p sz d Hwf)
    as (s1 & G1 & Hrun & Hwf1 & Hin & Hfl & Hcfg & Hpres & Habs).
  rewrite Hrun in Hput. injection Hput as <- <-.
  destruct Hcfg as (Hmin' & _).
  exists G1. split; [exact Hwf1|].
  destruct (get_total s G p (proj1 Hwf)) as ([c|] & Hget).
  - destruct (Hpres c Hget) as (Hsz1 & Hcap1 & _ & Hlen1).
    rewrite Hsz1, Hcap1, Hlen1, Hmin'. auto.
  - destruct (Habs Hget) as (Hsz1 & Hcap1 & Hperm).
    rewrite Hsz1, Hperm, Hmin'. simpl length.
    rewrite wrap_small by lia.
    split; [lia|]. split; [lia|]. rewrite Hcap1.
    destruct (put_capacity_cases (amap s)) as [-> | [He Hl]]; [auto|].
    split; [rewrite He; apply next_prime_spec | lia].
Qed.

Lemma Inv_remove s p s' :
  Inv s -> gc_allocation_map_remove s p = Some s' -> Inv s'.
Proof.
  intros (G & Hwf & Hsz & Hlt & Hpr & Hmin) Hrem.
  destruct (get_spec s G p (proj1 Hwf)) as (l & Hl & _).
  destruct (remove_spec s G p l Hwf Hl)
    as (s1 & G1 & Hrun & Hwf1 & Hfl & Hcfg & Hcase).
  rewrite Hrun in Hrem. injection Hrem as <-.
  destruct Hcfg as (Hmin' & _).
  exists G1. split; [exact Hwf1|]. rewrite Hmin'.
  assert (Hcapok : forall n, prime (remove_capacity (amap s) n) /\
                             min_capacity (amap s) <= remove_capacity (amap s) n).
  { intros n. destruct (remove_capacity_cases (amap s) n) as [-> | [He Hlt']]; [auto|].
    split; [rewrite He; apply next_prime_spec | lia]. }
  destruct (lookup_chain (heap s) p l) as [c|].
  - destruct Hcase as (Hperm & Hsz1 & Hcap1).
    rewrite Hsz1, Hcap1. rewrite Hperm in Hsz. simpl length in Hsz.
    rewrite wrap_small by lia.
    split; [lia|]. split; [lia|]. apply Hcapok.
  - destruct Hcase as (Hperm & Hsz1 & Hcap1).
    rewrite Hsz1, Hcap1, Hperm. split; [exact Hsz|]. split; [exact Hlt|]. apply Hcapok.
Qed.

Lemma reachable_Inv s : reachable s -> Inv s.
Proof.
  induction 1 as [h u minc cap sf df uf | s p sz d a s' _ IH Hfit _ Hput | s p s' _ IH Hrem].
  - apply wf_new.
  - eapply Inv_put; eauto.
  - eapply Inv_remove; eauto.
Qed.

Lemma put_total s p sz d :
  well_formed s -> exists a s', gc_allocation_map_put s p sz d = Some (a, s').
Proof.
  intros (G & Hwf). destruct (put_wf s G p sz d Hwf) as (s1 & G1 & Hrun & _). eauto.
Qed.

Lemma remove_total s p :
  well_formed s -> exists s', gc_allocation_map_remove s p = Some s'.
Proof.
  intros (G & Hwf). destruct (get_spec s G p (proj1 Hwf)) as (l & Hl & _).
  destruct (remove_spec s G p l Hwf Hl) as (s1 & G1 & Hrun & _). eauto.
Qed.

Lemma Inv_well_formed s : Inv s -> well_formed s.
Proof. intros (G & Hwf & _). exists G. exact Hwf. Qed.

(** ** [size <= capacity] for factors that keep the table sparse *)

Lemma put_bounded s p sz d a s' :
  Inv s -> am_size (amap s) <= capacity (amap s) ->
  (upsize_factor (amap s) <= 1)%Q ->
  capacity (amap s) * 2 < 2 ^ 64 ->
  gc_allocation_map_put s p sz d = Some (a, s') ->
  am_size (amap s') <= capacity (amap s') /\ same_config (amap s) (amap s').
Proof.
  intros (G & Hwf & Hsz & Hlt & Hpr & Hmin) Hb Huf Hfit Hput.
  destruct (put_wf s G p sz d Hwf)
    as (s1 & G1 & Hrun & Hwf1 & Hin & Hfl & Hcfg & Hpres & Habs).
  rewrite Hrun in Hput. injection Hput as <- <-.
  split; [|exact Hcfg].
  assert (Hpos : 1 < capacity (amap s)) by (destruct Hpr; assumption).
  destruct (get_total s G p (proj1 Hwf)) as ([c|] & Hget).
  - destruct (Hpres c Hget) as (Hsz1 & Hcap1 & _). lia.
  - destruct (Habs Hget) as (Hsz1 & Hcap1 & _).
    rewrite Hsz1, Hcap1. unfold put_capacity.
    rewrite (wrap_small (am_size (amap s) + 1)) by lia.
    rewrite (wrap_small (capacity (amap s) * 2)) by lia.
    pose proof (proj2 (next_prime_spec (capacity (amap s) * 2))) as Hnp.
    destruct (Qgtb _ _) eqn:Eload; simpl.
    + destruct (Z.ltb_spec (min_capacity (amap s)) (next_prime (capacity (amap s) * 2))); lia.
    + apply Qgtb_false in Eload. apply Qdiv_le_1; [lia|].
      eapply Qle_trans; eauto.
Qed.

Lemma remove_bounded s p s' :
  Inv s -> am_size (amap s) <= capacity (amap s) ->
  (downsize_factor (amap s) <= 1 # 2)%Q ->
  gc_allocation_map_remove s p = Some s' ->
  am_size (amap s') <= capacity (amap s') /\ same_config (amap s) (amap s').
Proof.
  intros (G & Hwf & Hsz & Hlt & Hpr & Hmin) Hb Hdf Hrem.
  destruct (get_spec s G p (proj1 Hwf)) as (l & Hl & _).
  destruct (remove_spec s G p l Hwf Hl)
    as (s1 & G1 & Hrun & Hwf1 & Hfl & Hcfg & Hcase).
  rewrite Hrun in Hrem. injection Hrem as <-.
  split; [|exact Hcfg].
  assert (Hpos : 1 < capacity (amap s)) by (destruct Hpr; assumption).
  assert (Hgen : forall n, 0 <= n <= am_size (amap s) ->
                 n <= remove_capacity (amap s) n).
  { intros n Hn. unfold remove_capacity.
    pose proof (proj2 (next_prime_spec (capacity (amap s) / 2))) as Hnp.
    destruct (Qltb _ _) eqn:Eload; simpl; [|lia].
    destruct (Z.ltb_spec (min_capacity (amap s)) (next_prime (capacity (amap s) / 2))); [|lia].
    apply Qltb_true in Eload.
    assert (Hc0 : 0 < capacity (amap s)) by lia.
    pose proof (Qdiv_lt_half n (capacity (amap s)) _ Hc0 Eload Hdf) as H2.
    assert (n <= capacity (amap s) / 2) by (apply Z.div_le_lower_bound; lia).
    lia. }
  destruct (lookup_chain (heap s) p l) as [c|].
  - destruct Hcase as (Hperm & Hsz1 & Hcap1).
    rewrite Hsz1, Hcap1. rewrite Hperm in Hsz. simpl length in Hsz.
    rewrite wrap_small by lia. apply Hgen. lia.
  - destruct Hcase as (Hperm & Hsz1 & Hcap1).
    rewrite Hsz1, Hcap1. apply Hgen. lia.
Qed.

Lemma put_same_config s p sz d a s' :
  well_formed s -> gc_allocation_map_put s p sz d = Some (a, s') ->
  same_config (amap s) (amap s').
Proof.
  intros (G & Hwf) Hput.
  destruct (put_wf s G p sz d Hwf) as (s1 & G1 & Hrun & _ & _ & _ & Hcfg & _).
  rewrite Hrun in Hput. injection Hput as <- <-. exact Hcfg.
Qed.

Lemma remove_same_config s p s' :
  well_formed s -> gc_allocation_map_remove s p = Some s' ->
  same_config (amap s) (amap s').
Proof.
  intros (G & Hwf) Hrem.
  destruct (get_spec s G p (proj1 Hwf)) as (l & Hl & _).
  destruct (remove_spec s G p l Hwf Hl) as (s1 & G1 & Hrun & _ & _ & Hcfg & _).
  rewrite Hrun in Hrem. injection Hrem as <-. exact Hcfg.
Qed.

(* ===================================================================== *)
(** * The claims about the allocation map *)

Lemma two_records_wf : wf two_records two_records_chains.
Proof.
  split; [|split].
  - constructor.
    + unfold two_records, two_records_chains. simpl.
      repeat (apply Forall2_cons; split); try apply Forall2_nil; try constructor.
      econstructor; [reflexivity|]. simpl.
      econstructor; [reflexivity|]. simpl. constructor.
    + simpl. apply NoDup_cons. split; [intros H; apply elem_of_cons in H as [H|H]; [discriminate | inversion H]|].
      apply NoDup_cons. split; [intros H; inversion H | constructor].
    + reflexivity.
    + simpl. lia.
  - intros i l a Hi Ha.
    destruct i as [|[|i]]; simpl in Hi.
    + injection Hi as <-. inversion Ha.
    + injection Hi as <-.
      apply elem_of_cons in Ha as [-> | Ha]; [reflexivity|].
      apply elem_of_cons in Ha as [-> | Ha]; [reflexivity | inversion Ha].
    + do 9 (destruct i as [|i]; simpl in Hi; [injection Hi as <-; inversion Ha|]).
      discriminate.
  - unfold keys_ok. simpl.
    apply NoDup_cons. split; [intros H; apply elem_of_cons in H as [H|H]; [discriminate | inversion H]|].
    apply NoDup_cons. split; [intros H; inversion H | constructor].
Qed.

Lemma two_records_Inv : Inv two_records.
Proof.
  exists two_records_chains. split; [exact two_records_wf|].
  split; [reflexivity|]. split; [reflexivity|].
  split; [apply is_prime_sound; reflexivity | simpl; lia].
Qed.

(** C8.  After [put(p, s, d)] on a well-formed registry, [get(p)] returns
    the record just installed, whose size is [s] and whose finalizer is
    [d]; a second [put(p, s, d)] is an upsert that leaves the [size] field
    of the registry as the first call left it. *)
Theorem put_get_round_trip s p sz d :
  well_formed s ->
  exists a s1 c,
    gc_allocation_map_put s p sz d = Some (a, s1) /\
    gc_allocation_map_get s1 p = Some (Some a, s1) /\
    heap s1 !! a = Some (Cell true c) /\
    ptr c = p /\ size c = sz /\ dtor c = d /\
    exists a2 s2,
      gc_allocation_map_put s1 p sz d = Some (a2, s2) /\
      am_size (amap s2) = am_size (amap s1).
Proof.
  intros (G & Hwf).
  destruct (put_wf s G p sz d Hwf)
    as (s1 & G1 & Hrun & Hwf1 & Hin & Hfl & _).
  destruct (put_new_record s s1 G1 p sz d Hwf1 Hin Hfl)
    as (c & Hc & Hp & Hs & _ & Hd & Hget).
  exists (length (heap s)), s1, c.
  repeat (split; [assumption|]).
  destruct (put_wf s1 G1 p sz d Hwf1)
    as (s2 & G2 & Hrun2 & _ & _ & _ & _ & Hpres & _).
  exists (length (heap s1)), s2. split; [exact Hrun2|].
  destruct (Hpres _ Hget) as (Hsz & _). exact Hsz.
Qed.

Lemma put_get_round_trip_witness :
  well_formed two_records /\
  exists a s1 c,
    gc_allocation_map_put two_records 96 24 (Some 4096) = Some (a, s1) /\
    gc_allocation_map_get s1 96 = Some (Some a, s1) /\
    heap s1 !! a = Some (Cell true c) /\
    ptr c = 96 /\ size c = 24 /\ dtor c = Some 4096 /\
    exists a2 s2,
      gc_allocation_map_put s1 96 24 (Some 4096) = Some (a2, s2) /\
      am_size (amap s2) = am_size (amap s1).
Proof.
  assert (H : well_formed two_records) by (exists two_records_chains; exact two_records_wf).
  split; [exact H | exact (put_get_round_trip two_records 96 24 (Some 4096) H)].
Defined.

(** C5, the part that fails: with an upsize factor above 1 (here 3, which
    [gc_start_ext] accepts) three puts on a map of capacity 2 leave
    [size = 3 > capacity = 2]. *)
Lemma size_exceeds_capacity :
  gc_allocation_map_put loose_map 8 1 None = Some (0%nat, loose_1) /\
  gc_allocation_map_put loose_1 16 1 None = Some (1%nat, loose_2) /\
  gc_allocation_map_put loose_2 24 1 None = Some (2%nat, loose_3) /\
  reachable loose_3 /\
  ~ (am_size (amap loose_3) <= capacity (amap loose_3)).
Proof.
  assert (E1 : gc_allocation_map_put loose_map 8 1 None = Some (0%nat, loose_1))
    by (vm_compute; reflexivity).
  assert (E2 : gc_allocation_map_put loose_1 16 1 None = Some (1%nat, loose_2))
    by (vm_compute; reflexivity).
  assert (E3 : gc_allocation_map_put loose_2 24 1 None = Some (2%nat, loose_3))
    by (vm_compute; reflexivity).
  repeat (split; [assumption|]). split.
  - apply (reach_put loose_2 24 1 None 2%nat loose_3); [| reflexivity | reflexivity | exact E3].
    apply (reach_put loose_1 16 1 None 1%nat loose_2); [| reflexivity | reflexivity | exact E2].
    apply (reach_put loose_map 8 1 None 0%nat loose_1); [| reflexivity | reflexivity | exact E1].
    apply reach_new.
  - vm_compute. intros H. apply H. reflexivity.
Qed.

(** C5, as the code has it.  Along every sequence of puts and removes on a
    fresh map (with the resizes they trigger), as long as [size + 1] and
    [capacity * 2] stay within [size_t]: the bucket array heads
    null-terminated chains that share no record; every record sits in the
    bucket [hash(ptr) mod capacity]; no two records share a [ptr]; [size]
    is the number of records linked from the bucket array; [capacity] is
    prime and at least [min_capacity].  [size <= capacity] holds when the
    map was created with [upsize_factor <= 1] and [downsize_factor <= 1/2],
    as with the defaults 0.8 and 0.2. *)
Theorem registry_invariant s :
  reachable s ->
  Inv s /\
  ((upsize_factor (amap s) <= 1)%Q -> (downsize_factor (amap s) <= 1 # 2)%Q ->
   am_size (amap s) <= capacity (amap s)).
Proof.
  induction 1 as [h u minc cap sf df uf
                 | s p sz d a s' Hr [IHinv IHb] Hfit Hcap Hput
                 | s p s' Hr [IHinv IHb] Hrem].
  - split; [apply wf_new|]. intros _ _. simpl.
    pose proof (next_prime_pos cap). pose proof (next_prime_pos minc).
    destruct (next_prime cap <? next_prime minc); lia.
  - split; [eapply Inv_put; eauto|]. intros Huf Hdf.
    destruct (put_same_config s p sz d a s' (Inv_well_formed s IHinv) Hput)
      as (_ & Hd & Hu & _).
    rewrite Hu in Huf. rewrite Hd in Hdf.
    eapply put_bounded; eauto.
  - split; [eapply Inv_remove; eauto|]. intros Huf Hdf.
    destruct (remove_same_config s p s' (Inv_well_formed s IHinv) Hrem)
      as (_ & Hd & Hu & _).
    rewrite Hu in Huf. rewrite Hd in Hdf.
    eapply remove_bounded; eauto.
Qed.

Lemma two_records_reachable : reachable two_records.
Proof.
  apply (reach_put one_record 272 8 None 1%nat two_records);
    [| reflexivity | reflexivity | vm_compute; reflexivity].
  apply (reach_put small_map 184 8 None 0%nat one_record);
    [| reflexivity | reflexivity | vm_compute; reflexivity].
  apply reach_new.
Qed.

Lemma registry_invariant_witness :
  reachable two_records /\
  (Inv two_records /\
   ((upsize_factor (amap two_records) <= 1)%Q ->
    (downsize_factor (amap two_records) <= 1 # 2)%Q ->
    am_size (amap two_records) <= capacity (amap two_records))).
Proof.
  split; [exact two_records_reachable|].
  exact (registry_invariant two_records two_records_reachable).
Defined.

(** C7, the part that fails: on a map of capacity 11 with minimal capacity
    5, removing the only record leaves a load factor of 0 < 0.2, and
    [next_prime(11 / 2) = 5] is not below [min_capacity]; the claim asks
    for a resize to 5, the capacity stays 11. *)
Lemma downsize_to_min_capacity_skipped :
  exists a s1 s2,
    gc_allocation_map_put floor_map 8 1 None = Some (a, s1) /\
    gc_allocation_map_remove s1 8 = Some s2 /\
    Qltb (gc_allocation_map_load_factor (amap s2)) (downsize_factor (amap s2)) = true /\
    min_capacity (amap s1) <= next_prime (capacity (amap s1) / 2) /\
    capacity (amap s2) <> next_prime (capacity (amap s1) / 2).
Proof.
  do 3 eexists.
  split; [vm_compute; reflexivity|].
  split; [vm_compute; reflexivity|].
  split; [vm_compute; reflexivity|].
  split; vm_compute; intros H; discriminate H.
Qed.

(** C7, as the code has it.  [remove] on a well-formed registry returns
    a well-formed registry; with [n] the number of records it leaves: if [n / capacity] is below
    [downsize_factor] and [next_prime(capacity / 2)] is strictly above
    [min_capacity], the capacity becomes [next_prime(capacity / 2)];
    otherwise it is unchanged.  A resize request for a capacity that is
    not above [min_capacity] leaves the whole registry as it is. *)
Theorem remove_downsize s p :
  well_formed s ->
  exists s',
    gc_allocation_map_remove s p = Some s' /\
    well_formed s' /\
    let n := size_after_remove s p in
    let c' := next_prime (capacity (amap s) / 2) in
    am_size (amap s') = n /\
    (Qltb (inject_Z n / inject_Z (capacity (amap s))) (downsize_factor (amap s)) = true ->
     min_capacity (amap s) < c' -> capacity (amap s') = c') /\
    (Qltb (inject_Z n / inject_Z (capacity (amap s))) (downsize_factor (amap s)) = false \/
     c' <= min_capacity (amap s) -> capacity (amap s') = capacity (amap s)) /\
    (forall t k, k <= min_capacity (amap t) -> gc_allocation_map_resize t k = Some t).
Proof.
  intros (G & Hwf).
  destruct (get_spec s G p (proj1 Hwf)) as (l & Hl & Hget).
  destruct (remove_spec s G p l Hwf Hl)
    as (s1 & G1 & Hrun & Hwf1 & Hfl & Hcfg & Hcase).
  exists s1. split; [exact Hrun|]. split; [exists G1; exact Hwf1|].
  unfold size_after_remove. rewrite Hget.
  assert (Hgen : forall n,
    capacity (amap s1) = remove_capacity (amap s) n ->
    (Qltb (inject_Z n / inject_Z (capacity (amap s))) (downsize_factor (amap s)) = true ->
     min_capacity (amap s) < next_prime (capacity (amap s) / 2) ->
     capacity (amap s1) = next_prime (capacity (amap s) / 2)) /\
    (Qltb (inject_Z n / inject_Z (capacity (amap s))) (downsize_factor (amap s)) = false \/
     next_prime (capacity (amap s) / 2) <= min_capacity (amap s) ->
     capacity (amap s1) = capacity (amap s))).
  { intros n ->. unfold remove_capacity. split.
    - intros -> Hlt. simpl. apply Z.ltb_lt in Hlt. rewrite Hlt. reflexivity.
    - intros [-> | Hle]; [reflexivity|].
      destruct (Qltb _ _); [|reflexivity]. simpl.
      destruct (Z.ltb_spec (min_capacity (amap s)) (next_prime (capacity (amap s) / 2))); [lia | reflexivity]. }
  destruct (lookup_chain (heap s) p l) as [c|]; destruct Hcase as (_ & Hsz & Hcap); simpl.
  - split; [exact Hsz|]. destruct (Hgen _ Hcap) as [H1 H2].
    split; [exact H1|]. split; [exact H2 | exact (fun t k => resize_noop t k)].
  - split; [exact Hsz|]. destruct (Hgen _ Hcap) as [H1 H2].
    split; [exact H1|]. split; [exact H2 | exact (fun t k => resize_noop t k)].
Qed.

Lemma remove_downsize_witness :
  well_formed two_records /\
  exists s',
    gc_allocation_map_remove two_records 184 = Some s' /\
    well_formed s' /\
    let n := size_after_remove two_records 184 in
    let c' := next_prime (capacity (amap two_records) / 2) in
    am_size (amap s') = n /\
    (Qltb (inject_Z n / inject_Z (capacity (amap two_records)))
       (downsize_factor (amap two_records)) = true ->
     min_capacity (amap two_records) < c' -> capacity (amap s') = c') /\
    (Qltb (inject_Z n / inject_Z (capacity (amap two_records)))
       (downsize_factor (amap two_records)) = false \/
     c' <= min_capacity (amap two_records) ->
     capacity (amap s') = capacity (amap two_records)) /\
    (forall t k, k <= min_capacity (amap t) -> gc_allocation_map_resize t k = Some t).
Proof.
  assert (H : well_formed two_records) by (exists two_records_chains; exact two_records_wf).
  split; [exact H | exact (remove_downsize two_records 184 H)].
Defined.

(** C9.  On a registry that satisfies the invariant, whatever the memory
    contents (cyclic pointer graphs included), [gc_mark_alloc] returns as
    soon as its nesting is allowed to reach the number of records: an
    activation on an absent or an already marked candidate returns at once
    and leaves the registry alone; an activation on an unmarked record
    sets its MARK bit first and only then walks its bytes, so that at most
    one activation per record gets past the test on the bit. *)
Theorem gc_mark_alloc_terminates m s p :
  Inv s ->
  (forall depth, (Z.to_nat (am_size (amap s)) <= depth)%nat ->
     exists s', gc_mark_alloc depth m s p = Some s') /\
  (gc_allocation_map_get s p = Some (None, s) ->
     forall depth, gc_mark_alloc depth m s p = Some s) /\
  (forall a c, gc_allocation_map_get s p = Some (Some a, s) ->
     heap s !! a = Some (Cell true c) ->
     Z.land (tag c) GC_TAG_MARK <> 0 ->
     forall depth, gc_mark_alloc depth m s p = Some s) /\
  (forall a c depth, gc_allocation_map_get s p = Some (Some a, s) ->
     heap s !! a = Some (Cell true c) ->
     Z.land (tag c) GC_TAG_MARK = 0 ->
     gc_mark_alloc (S depth) m s p =
     scan (gc_mark_alloc depth m) m (Z.to_nat (size c)) (ptr c)
       (set_heap (<[a := Cell true (set_tag (Z.lor (tag c) GC_TAG_MARK) c)]> (heap s)) s)).
Proof.
  intros (G & Hwf & Hsz & Hlt & _). split; [|split; [|split]].
  - intros depth Hd.
    destruct (gc_mark_alloc_total m G depth s p (proj1 Hwf)) as (s' & Hrun & _); [|eauto].
    pose proof (unmarked_le (heap s) (concat G)). lia.
  - intros Hget depth. destruct depth; simpl; rewrite Hget; reflexivity.
  - intros a c Hget Hc Hm depth.
    apply Z.eqb_neq in Hm.
    destruct depth; simpl; rewrite Hget; simpl; rewrite (read_live _ _ _ _ Hc); simpl;
      rewrite Hm; reflexivity.
  - intros a c depth Hget Hc Hm. apply Z.eqb_eq in Hm.
    simpl. rewrite Hget. simpl. rewrite (read_live _ _ _ _ Hc). simpl. rewrite Hm.
    rewrite (write_live _ _ _ _ _ Hc). reflexivity.
Qed.

(** ** The paused flag is not read *)

Lemma store_paused b w : store (set_paused b w) = store w.
Proof. reflexivity. Qed.
Lemma mem_paused b w : mem (set_paused b w) = mem w.
Proof. reflexivity. Qed.
Lemma errno_paused b w : errno (set_paused b w) = errno w.
Proof. reflexivity. Qed.
Lemma set_store_paused s b w : set_store s (set_paused b w) = set_paused b (set_store s w).
Proof. reflexivity. Qed.
Lemma add_event_paused e b w : add_event e (set_paused b w) = set_paused b (add_event e w).
Proof. reflexivity. Qed.

Ltac push_paused :=
  rewrite ?set_store_paused, ?add_event_paused, ?store_paused, ?mem_paused,
    ?errno_paused.

Lemma sys_alloc_paused b w :
  sys_alloc (set_paused b w) = (fst (sys_alloc w), set_paused b (snd (sys_alloc w))).
Proof.
  unfold sys_alloc. cbn [sys set_paused].
  destruct (sys w) as [|[p e] rest]; [reflexivity|].
  destruct (p =? 0); reflexivity.
Qed.

Lemma gc_mark_paused b w :
  gc_mark (set_paused b w) = set_paused b <$> gc_mark w.
Proof.
  unfold gc_mark, gc_mark_roots. push_paused.
  destruct (mark_roots_buckets _ 0 (mem w) (store w)) as [s|]; [|reflexivity].
  cbn [mbind option_bind]. push_paused.
  unfold gc_mark_stack. push_paused.
  change (tos (set_paused b (set_store s w))) with (tos (set_store s w)).
  change (bos (gc (set_paused b (set_store s w)))) with (bos (gc (set_store s w))).
  destruct (tos (set_store s w) >? bos (gc (set_store s w)));
    match goal with |- context [scan ?f ?m ?n ?p ?s] => destruct (scan f m n p s) end;
    reflexivity.
Qed.

Lemma sweep_chain_paused b : forall fuel w total chunk,
  sweep_chain fuel (set_paused b w) total chunk
  = with_paused_l b (sweep_chain fuel w total chunk).
Proof.
  induction fuel as [|fuel IH]; intros w total chunk;
    destruct chunk as [a|]; try reflexivity.
  cbn [sweep_chain]. push_paused.
  destruct (read InSweep (store w) a) as [[c s1]|]; [|reflexivity].
  cbn [mbind option_bind].
  destruct (Z.land (tag c) GC_TAG_MARK =? 0).
  - cbv zeta.
    destruct (dtor c) as [f|]; push_paused;
      match goal with |- context [gc_allocation_map_remove ?s ?p] =>
        destruct (gc_allocation_map_remove s p) as [s2|]; [|reflexivity] end;
      cbn [mbind option_bind]; push_paused;
      match goal with |- context [read SweepAdvance ?s ?x] =>
        destruct (read SweepAdvance s x) as [[c1 s3]|]; [|reflexivity] end;
      cbn [mbind option_bind]; push_paused; apply IH.
  - destruct (write InSweep s1 a _) as [s2|]; [|reflexivity].
    cbn [mbind option_bind]. push_paused.
    match goal with |- context [read SweepAdvance ?s ?x] =>
      destruct (read SweepAdvance s x) as [[c1 s3]|]; [|reflexivity] end.
    cbn [mbind option_bind]. push_paused. apply IH.
Qed.

Lemma sweep_buckets_paused b : forall fuel i w total,
  sweep_buckets fuel i (set_paused b w) total
  = with_paused_l b (sweep_buckets fuel i w total).
Proof.
  induction fuel as [|fuel IH]; intros i w total;
    cbn [sweep_buckets]; push_paused;
    destruct (Z.of_nat i <? capacity (amap (store w))); try reflexivity.
  destruct (allocs (amap (store w)) !! i) as [chunk|]; [|reflexivity].
  cbn [mbind option_bind]. rewrite sweep_chain_paused.
  destruct (sweep_chain _ w total chunk) as [[w1 total1]|]; [|reflexivity].
  cbn [with_paused_l fmap option_fmap option_map mbind option_bind fst snd].
  apply IH.
Qed.

Lemma gc_run_paused b w :
  gc_run (set_paused b w) = with_paused_l b (gc_run w).
Proof.
  unfold gc_run. push_paused. rewrite gc_mark_paused.
  destruct (gc_mark (add_event EvRun w)) as [w1|]; [|reflexivity].
  cbn [fmap option_fmap option_map mbind option_bind].
  unfold gc_sweep. push_paused. apply sweep_buckets_paused.
Qed.

(** [gc_allocate] after its calls to the system allocator. *)
Lemma gc_allocate_tail_paused b w p asz d :
  (if p =? 0 then Some (p, set_paused b w)
   else
     '(alloc, s1) ← gc_allocation_map_put (store (set_paused b w)) p asz d;
     let w3 := set_store s1 (set_paused b w) in
     w4 ← (if am_size (amap (store w3)) >? sweep_limit (amap (store w3))
           then '(w', _) ← gc_run w3; Some w' else Some w3);
     '(c, s2) ← read InAllocate (store w4) alloc;
     Some (ptr c, set_store s2 w4))
  = with_paused b
      (if p =? 0 then Some (p, w)
       else
         '(alloc, s1) ← gc_allocation_map_put (store w) p asz d;
         let w3 := set_store s1 w in
         w4 ← (if am_size (amap (store w3)) >? sweep_limit (amap (store w3))
               then '(w', _) ← gc_run w3; Some w' else Some w3);
         '(c, s2) ← read InAllocate (store w4) alloc;
         Some (ptr c, set_store s2 w4)).
Proof.
  destruct (p =? 0); [reflexivity|]. push_paused.
  destruct (gc_allocation_map_put (store w) p asz d) as [[alloc s1]|]; [|reflexivity].
  cbn [mbind option_bind]. cbv zeta. push_paused.
  destruct (am_size (amap (store (set_store s1 w))) >? sweep_limit (amap (store (set_store s1 w)))).
  - rewrite gc_run_paused.
    destruct (gc_run (set_store s1 w)) as [[w2 t2]|]; [|reflexivity].
    cbn [with_paused_l fmap option_fmap option_map mbind option_bind fst snd].
    push_paused.
    destruct (read InAllocate (store w2) alloc) as [[c s2]|]; reflexivity.
  - cbn [mbind option_bind]. push_paused.
    destruct (read InAllocate (store (set_store s1 w)) alloc) as [[c s2]|]; reflexivity.
Qed.

Lemma gc_allocate_paused b w count sz d :
  gc_allocate (set_paused b w) count sz d
  = with_paused b (gc_allocate w count sz d).
Proof.
  unfold gc_allocate, gc_mcalloc. rewrite sys_alloc_paused.
  destruct (sys_alloc w) as [p w1]. cbn [fst snd]. push_paused.
  destruct ((p =? 0) && ((errno w1 =? EAGAIN) || (errno w1 =? ENOMEM))).
  - rewrite gc_run_paused.
    destruct (gc_run w1) as [[w2 t2]|]; [|reflexivity].
    cbn [with_paused_l fmap option_fmap option_map mbind option_bind fst snd].
    rewrite sys_alloc_paused. destruct (sys_alloc w2) as [p2 w3]. cbn [fst snd].
    apply gc_allocate_tail_paused.
  - cbn [mbind option_bind]. apply gc_allocate_tail_paused.
Qed.

(* ===================================================================== *)
(** * The claims about the collector *)

(** Conjunctions of closed facts are settled by evaluation. *)
Ltac evaluate :=
  repeat match goal with |- _ /\ _ => split end; vm_compute; reflexivity.

Lemma gc_mark_alloc_terminates_witness :
  Inv two_records /\
  ((forall depth, (Z.to_nat (am_size (amap two_records)) <= depth)%nat ->
      exists s', gc_mark_alloc depth cyclic_mem two_records 184 = Some s') /\
   (gc_allocation_map_get two_records 184 = Some (None, two_records) ->
      forall depth, gc_mark_alloc depth cyclic_mem two_records 184 = Some two_records) /\
   (forall a c, gc_allocation_map_get two_records 184 = Some (Some a, two_records) ->
      heap two_records !! a = Some (Cell true c) ->
      Z.land (tag c) GC_TAG_MARK <> 0 ->
      forall depth, gc_mark_alloc depth cyclic_mem two_records 184 = Some two_records) /\
   (forall a c depth, gc_allocation_map_get two_records 184 = Some (Some a, two_records) ->
      heap two_records !! a = Some (Cell true c) ->
      Z.land (tag c) GC_TAG_MARK = 0 ->
      gc_mark_alloc (S depth) cyclic_mem two_records 184 =
      scan (gc_mark_alloc depth cyclic_mem) cyclic_mem (Z.to_nat (size c)) (ptr c)
        (set_heap (<[a := Cell true (set_tag (Z.lor (tag c) GC_TAG_MARK) c)]> (heap two_records))
           two_records))).
Proof.
  split; [exact two_records_Inv|].
  exact (gc_mark_alloc_terminates cyclic_mem two_records 184 two_records_Inv).
Defined.

(** On the two blocks that point at each other, two nested activations
    mark both records. *)
Example mark_cycle :
  (fun s => map (fun c => tag (content c)) (heap s)) <$>
    gc_mark_alloc 2 cyclic_mem two_records 184
  = Some [GC_TAG_MARK; GC_TAG_MARK].
Proof. vm_compute. reflexivity. Qed.

(** C1 (defect of the code).  [one_alloc] manages the block 184 (size 8,
    finalizer 7777).  [gc_realloc(gc, 184, 16)], the system reallocator
    answering 48, returns 48; afterwards [get(48)] is absent and [get(184)]
    is present, with size 16 and the finalizer: the new record was put
    under the old key.  The finalizer was read from the old record after
    [gc_allocation_map_remove] had released it. *)
Theorem realloc_moved_reinserts_old_key :
  gc_realloc one_alloc 184 16 = Some (48, one_realloc) /\
  fst <$> gc_allocation_map_get (store one_realloc) 48 = Some None /\
  fst <$> gc_allocation_map_get (store one_realloc) 184 = Some (Some 1%nat) /\
  heap (store one_realloc) !! 1%nat
    = Some (Cell true (mkAllocation 184 16 GC_TAG_NONE (Some 7777) None)) /\
  uaf (store one_realloc) = [(RemoveAdvance, 0%nat); (ReallocDtor, 0%nat)].
Proof. evaluate. Qed.

(** C2 (defect of the code).  In [three_allocs] the stack slots 1000 and
    1008, between [tos] and [bos], hold 184 and 48, and the mark phase
    marks both records.  The sweep clears the mark of 184 in bucket 1,
    removes the unmarked 16 in bucket 2, which brings the load factor
    under 0.2 and resizes the map from 11 to 5 buckets in the middle of
    the sweep; 184 now sits in bucket 3, is met a second time, found
    unmarked, and freed. *)
Theorem sweep_frees_reachable_record :
  mem three_allocs 1000 = 184 /\
  tos three_allocs = 1000 /\ bos (gc three_allocs) = 1016 /\
  gc_mark (add_event EvRun three_allocs) = Some three_marked /\
  heap (store three_marked) !! 0%nat
    = Some (Cell true (mkAllocation 184 8 GC_TAG_MARK None None)) /\
  gc_sweep three_marked = Some (three_swept, 16) /\
  gc_run three_allocs = Some (three_swept, 16) /\
  events three_swept = [EvRun; EvFree 16; EvFree 184] /\
  fst <$> gc_allocation_map_get (store three_swept) 184 = Some None.
Proof. evaluate. Qed.

(** C4 (defect of the code).  In the same sweep the record of 48, marked
    and never visited because its new bucket 1 lies behind the cursor,
    stays in the registry with its MARK bit set; and the record of 184,
    marked when the sweep started, is removed. *)
Theorem sweep_leaves_mark_set :
  heap (store three_marked) !! 2%nat
    = Some (Cell true (mkAllocation 48 8 GC_TAG_MARK None None)) /\
  gc_sweep three_marked = Some (three_swept, 16) /\
  fst <$> gc_allocation_map_get (store three_swept) 48 = Some (Some 2%nat) /\
  heap (store three_swept) !! 2%nat
    = Some (Cell true (mkAllocation 48 8 GC_TAG_MARK None None)) /\
  capacity (amap (store three_marked)) = 11 /\
  capacity (amap (store three_swept)) = 5.
Proof. evaluate. Qed.

(** C6 (defect of the code).  Sweeping [one_garbage], whose only record
    is unmarked: the record at address 0 is released by
    [gc_allocation_map_remove] (which itself reads its [next] once more),
    and [gc_sweep] then reads [chunk->next] from it. *)
Theorem sweep_reads_released_chunk :
  exists w',
    gc_sweep one_garbage = Some (w', 8) /\
    heap (store w') !! 0%nat
      = Some (Cell false (mkAllocation 184 8 GC_TAG_NONE None None)) /\
    uaf (store one_garbage) = [] /\
    uaf (store w') = [(RemoveAdvance, 0%nat); (SweepAdvance, 0%nat)].
Proof. eexists. evaluate. Qed.

(** C3 (defect of the code).  [gc_pause] sets the flag, and nothing reads
    it: in every process, [gc_allocate] after [gc_pause] does what it does
    without it.  With the collector paused, an allocation that takes
    [size] over the sweep limit runs a collection (which frees 184), and
    so does an allocation whose first request to the system allocator
    fails with ENOMEM. *)
Theorem paused_allocation_collects :
  (forall w count sz d,
     gc_allocate (gc_pause w) count sz d
     = with_paused true (gc_allocate w count sz d)) /\
  paused (gc paused_one) = true /\
  paused (gc paused_oom) = true /\
  (exists w', gc_malloc paused_one 8 = Some (16, w') /\
              events paused_one = [] /\
              events w' = [EvRun; EvFree 184]) /\
  (exists w', gc_malloc paused_oom 8 = Some (16, w') /\
              events paused_oom = [] /\
              events w' = [EvRun]).
Proof.
  split; [intros w count sz d; apply gc_allocate_paused|].
  split; [evaluate|]. split; [evaluate|].
  split; eexists; evaluate.
Qed.

(** For comparison, a collection during which the map cannot shrink
    (capacity 11 is the minimal capacity): of the chain 360, 272, 184 the
    unmarked middle record is finalized, freed and unlinked, the other two
    survive with their marks cleared. *)
Example sweep_at_minimal_capacity :
  map (fun c => (live c, ptr (content c), tag (content c), next (content c)))
      (heap (store one_chain))
  = [(true, 184, 0, None); (true, 272, 0, Some 0%nat); (true, 360, 0, Some 1%nat)] /\
  (fun r => (snd r, events (fst r), am_size (amap (store (fst r))),
             map (fun c => (live c, ptr (content c), tag (content c), next (content c)))
                 (heap (store (fst r))))) <$> gc_run one_chain
  = Some (8, [EvRun; EvDtor 7777 272; EvFree 272], 2,
          [(true, 184, 0, None); (false, 272, 0, Some 0%nat); (true, 360, 0, Some 0%nat)]).
Proof. evaluate. Qed.

(** ** gc_realloc *)

Lemma set_store_id w : set_store (store w) w = w.
Proof. destruct w as [[s pz b] e m t q ev]. reflexivity. Qed.

Lemma sys_alloc_gc w : gc (snd (sys_alloc w)) = gc w.
Proof.
  unfold sys_alloc. destruct (sys w) as [|[q e] rest]; [reflexivity|].
  simpl. destruct (q =? 0); reflexivity.
Qed.

Lemma sys_alloc_events w : events (snd (sys_alloc w)) = events w.
Proof.
  unfold sys_alloc. destruct (sys w) as [|[q e] rest]; [reflexivity|].
  simpl. destruct (q =? 0); reflexivity.
Qed.

Lemma sys_alloc_store w : store (snd (sys_alloc w)) = store w.
Proof. unfold store. rewrite sys_alloc_gc. reflexivity. Qed.

Lemma wf_log_uaf k a s G : wf s G -> wf (log_uaf k a s) G.
Proof.
  intros ([Hch Hnd Hlen Hcap] & Hix & Hkeys).
  split; [constructor; assumption | split; assumption].
Qed.

Lemma read_wf k s G a :
  wf s G -> (a < length (heap s))%nat ->
  exists c s', read k s a = Some (c, s') /\ wf s' G.
Proof.
  intros Hwf Ha. apply lookup_lt_is_Some in Ha as [[lv c] Hc].
  exists c. unfold read. rewrite Hc. simpl.
  destruct lv; eexists; (split; [reflexivity|]).
  - exact Hwf.
  - apply wf_log_uaf. exact Hwf.
Qed.

Lemma fields_length h h' : fields h = fields h' -> length h = length h'.
Proof.
  intros H. apply (f_equal length) in H. unfold fields in H.
  rewrite !length_fmap in H. exact H.
Qed.

(** C10.  [gc_realloc] on a well-formed registry returns and never starts
    a collection: the events of the process (collections, finalizer calls,
    frees) are those it started with.  When the system reallocator fails
    (for a null or a known [p]), the result is null and the process is as
    the system call left it: [errno] is not written by the collector, the
    registry and its records are unchanged.  For a null [p] and a
    successful system call, the new pointer is registered by a single
    [put] with no finalizer and returned. *)
Theorem gc_realloc_never_collects w p sz :
  well_formed (store w) ->
  (exists q w', gc_realloc w p sz = Some (q, w') /\ events w' = events w) /\
  (fst (sys_alloc w) = 0 ->
   p = 0 \/ (exists a, gc_allocation_map_get (store w) p = Some (Some a, store w)) ->
   gc_realloc w p sz = Some (0, snd (sys_alloc w)) /\
   gc (snd (sys_alloc w)) = gc w) /\
  (p = 0 -> fst (sys_alloc w) <> 0 ->
   exists a s1,
     gc_allocation_map_put (store w) (fst (sys_alloc w)) sz None = Some (a, s1) /\
     gc_realloc w p sz = Some (fst (sys_alloc w), set_store s1 (snd (sys_alloc w)))).
Proof.
  intros (G & Hwf).
  destruct (get_total (store w) G p (proj1 Hwf)) as (r & Hget).
  pose proof (sys_alloc_store w) as Hst.
  pose proof (sys_alloc_events w) as Hev.
  assert (Hfresh : forall q, q <> 0 ->
    exists a s1 , gc_allocation_map_put (store w) q sz None = Some (a, s1) /\
      ('(a, s1) ← gc_allocation_map_put (store (snd (sys_alloc w))) q sz None;
       '(c, s2) ← read InRealloc s1 a;
       Some (ptr c, set_store s2 (snd (sys_alloc w))))
      = Some (q, set_store s1 (snd (sys_alloc w)))).
  { intros q Hq. rewrite Hst.
    destruct (put_wf (store w) G q sz None Hwf)
      as (s1 & G1 & Hrun & Hwf1 & Hin & Hfl & _).
    destruct (put_new_record (store w) s1 G1 q sz None Hwf1 Hin Hfl)
      as (c & Hc & Hp & _).
    exists (length (heap (store w))), s1. split; [exact Hrun|].
    rewrite Hrun. simpl. rewrite (read_live _ _ _ _ Hc). simpl. rewrite Hp. reflexivity. }
  unfold gc_realloc. rewrite Hget. simpl. rewrite set_store_id.
  destruct (sys_alloc w) as [q w1] eqn:Esys. simpl in *.
  split; [|split].
  - destruct (negb (p =? 0) && negb (bool_decide (is_Some r))) eqn:Ecase.
    { eexists _, _. split; reflexivity. }
    destruct (Z.eqb_spec q 0) as [-> | Hq].
    { eexists _, _. split; [reflexivity | exact Hev]. }
    destruct (Z.eqb_spec p 0) as [-> | Hp].
    { destruct (Hfresh q Hq) as (a & s1 & _ & ->).
      eexists _, _. split; [reflexivity | exact Hev]. }
    destruct r as [a|]; [|simpl in Ecase; destruct (p =? 0) eqn:E0; [apply Z.eqb_eq in E0; contradiction | discriminate]].
    simpl.
    destruct (get_Some_inv (store w) G p a (proj1 Hwf) Hget) as [Ha Hpa].
    destruct (rep_addr_live _ _ _ (proj1 Hwf) Ha) as (c & Hc).
    rewrite Hst.
    destruct (Z.eqb_spec p q) as [-> | Hpq].
    + rewrite (write_live _ _ _ _ _ Hc). simpl.
      eexists _, _. split; [reflexivity | exact Hev].
    + destruct (get_spec (store w) G p (proj1 Hwf)) as (l & Hl & _).
      destruct (remove_spec (store w) G p l Hwf Hl)
        as (s1 & G1 & Hrun & Hwf1 & Hfl & _).
      rewrite Hrun. simpl.
      destruct (read_wf ReallocDtor s1 G1 a Hwf1) as (c1 & s2 & Hread & Hwf2).
      { rewrite (fields_length _ _ Hfl). eapply lookup_lt_Some; eauto. }
      rewrite Hread. simpl.
      destruct (put_total s2 p sz (dtor c1)) as (a2 & s3 & Hput); [exists G1; exact Hwf2|].
      rewrite Hput. simpl.
      eexists _, _. split; [reflexivity | exact Hev].
  - intros -> Hknown.
    assert (Ecase : negb (p =? 0) && negb (bool_decide (is_Some r)) = false).
    { destruct Hknown as [-> | (a & Hga)]; [reflexivity|].
      assert (Hr : r = Some a) by congruence. subst r. simpl.
      rewrite andb_false_r. reflexivity. }
    rewrite Ecase. simpl. split; [reflexivity|].
    pose proof (sys_alloc_gc w) as Hgc. rewrite Esys in Hgc. exact Hgc.
  - intros -> Hq. simpl.
    destruct (Z.eqb_spec q 0) as [-> | _]; [contradiction|].
    destruct (Hfresh q Hq) as (a & s1 & Hput & ->).
    exists a, s1. split; [exact Hput | reflexivity].
Qed.

Lemma gc_realloc_never_collects_witness :
  well_formed (store two_world) /\
  ((exists q w', gc_realloc two_world 184 64 = Some (q, w') /\
                 events w' = events two_world) /\
   (fst (sys_alloc two_world) = 0 ->
    184 = 0 \/ (exists a, gc_allocation_map_get (store two_world) 184
                          = Some (Some a, store two_world)) ->
    gc_realloc two_world 184 64 = Some (0, snd (sys_alloc two_world)) /\
    gc (snd (sys_alloc two_world)) = gc two_world) /\
   (184 = 0 -> fst (sys_alloc two_world) <> 0 ->
    exists a s1,
      gc_allocation_map_put (store two_world) (fst (sys_alloc two_world)) 64 None
        = Some (a, s1) /\
      gc_realloc two_world 184 64
        = Some (fst (sys_alloc two_world), set_store s1 (snd (sys_alloc two_world))))).
Proof.
  assert (H : well_formed (store two_world))
    by (exists two_records_chains; exact two_records_wf).
  split; [exact H | exact (gc_realloc_never_collects two_world 184 64 H)].
Defined.

(** The system reallocator being exhausted, [gc_realloc] of the managed
    block 184 returns null, sets no event and leaves the registry alone,
    while [gc_malloc] in the same situation starts a collection. *)
Example realloc_failure_vs_malloc_failure :
  (fun r => (fst r, gc (snd r), errno (snd r), events (snd r))) <$>
    gc_realloc two_world 184 64
  = Some (0, gc two_world, ENOMEM, []) /\
  (fun r => (fst r, events (snd r))) <$> gc_malloc two_world 64
  = Some (0, [EvRun; EvFree 272; EvFree 184]).
Proof. evaluate. Qed.

(* ===================================================================== *)
(** * Lookups in a well-formed registry *)

Lemma fields_lookup h a :
  (a < length h)%nat -> fields h !! a = Some (set_next None (rec_at h a)).
Proof.
  intros Hlt. unfold fields, rec_at. rewrite list_lookup_fmap.
  destruct (lookup_lt_is_Some_2 h a Hlt) as [c ->]. reflexivity.
Qed.

Lemma rec_fields h h' a :
  (a < length h)%nat -> fields h' !! a = fields h !! a ->
  set_next None (rec_at h' a) = set_next None (rec_at h a).
Proof.
  intros Hlt He.
  assert (Hlt' : (a < length h')%nat).
  { apply lookup_lt_is_Some. unfold fields in He. rewrite !list_lookup_fmap in He.
    destruct (lookup_lt_is_Some_2 h a Hlt) as [c Hc]. rewrite Hc in He.
    destruct (h' !! a); [eauto | discriminate]. }
  rewrite (fields_lookup h a Hlt), (fields_lookup h' a Hlt') in He. congruence.
Qed.

Lemma rec_fields_eq h h' a :
  (a < length h)%nat -> fields h' = fields h ->
  set_next None (rec_at h' a) = set_next None (rec_at h a).
Proof. intros Hlt He. apply rec_fields; [exact Hlt | rewrite He; reflexivity]. Qed.

Lemma rec_fields_app h h' new a :
  (a < length h)%nat -> fields h' = fields h ++ [new] ->
  set_next None (rec_at h' a) = set_next None (rec_at h a).
Proof.
  intros Hlt He. apply rec_fields; [exact Hlt|].
  rewrite He. apply lookup_app_l. unfold fields. rewrite length_fmap. exact Hlt.
Qed.

Lemma entry_found s G a :
  wf s G -> a ∈ concat G ->
  entry s (ptr_at (heap s) a) = Some (Some (set_next None (rec_at (heap s) a))).
Proof.
  intros Hwf Ha. unfold entry.
  rewrite (get_found s G a _ Hwf Ha eq_refl). simpl.
  destruct (rep_addr_live s G a (proj1 Hwf) Ha) as (c & Hc).
  unfold rec_at. rewrite Hc. reflexivity.
Qed.

Lemma entry_missing s G p :
  wf s G -> (forall a, a ∈ concat G -> ptr_at (heap s) a <> p) ->
  entry s p = Some None.
Proof.
  intros Hwf Hno. unfold entry. rewrite (get_absent s G p Hwf Hno). reflexivity.
Qed.

Lemma key_cases s G p :
  wf s G ->
  (exists a, a ∈ concat G /\ ptr_at (heap s) a = p) \/
  (forall a, a ∈ concat G -> ptr_at (heap s) a <> p).
Proof.
  intros Hwf.
  destruct (get_total s G p (proj1 Hwf)) as ([a|] & Hget).
  - left. exists a. apply (get_Some_inv s G p a (proj1 Hwf) Hget).
  - right. intros a. apply (get_None_inv s G p a Hwf Hget).
Qed.

Lemma entry_Some_inv s G p r :
  wf s G -> entry s p = Some (Some r) ->
  exists a, a ∈ concat G /\ ptr_at (heap s) a = p /\
            r = set_next None (rec_at (heap s) a) /\
            gc_allocation_map_get s p = Some (Some a, s).
Proof.
  intros Hwf He.
  destruct (key_cases s G p Hwf) as [(a & Ha & Hp) | Hno].
  - exists a. split; [exact Ha|]. split; [exact Hp|].
    pose proof (entry_found s G a Hwf Ha) as Hf. rewrite Hp in Hf.
    split; [congruence|]. apply (get_found s G a p Hwf Ha Hp).
  - rewrite (entry_missing s G p Hwf Hno) in He. discriminate.
Qed.

Lemma entry_None_inv s G p :
  wf s G -> entry s p = Some None ->
  (forall a, a ∈ concat G -> ptr_at (heap s) a <> p) /\
  gc_allocation_map_get s p = Some (None, s).
Proof.
  intros Hwf He.
  destruct (key_cases s G p Hwf) as [(a & Ha & Hp) | Hno].
  - pose proof (entry_found s G a Hwf Ha) as Hf. rewrite Hp in Hf. congruence.
  - split; [exact Hno|]. apply (get_absent s G p Hwf Hno).
Qed.

Lemma entry_total s G p : wf s G -> exists r, entry s p = Some r.
Proof.
  intros Hwf.
  destruct (key_cases s G p Hwf) as [(a & Ha & Hp) | Hno].
  - eexists. rewrite <- Hp. apply (entry_found s G a Hwf Ha).
  - eexists. apply (entry_missing s G p Hwf Hno).
Qed.

(** Two registries that link the same records, with the same fields, give
    the same answer to every lookup of [q]. *)
Lemma entry_transfer s G s' G' q :
  wf s G -> wf s' G' ->
  (forall a, a ∈ concat G -> ptr_at (heap s) a = q ->
     a ∈ concat G' /\
     set_next None (rec_at (heap s') a) = set_next None (rec_at (heap s) a)) ->
  (forall a, a ∈ concat G' -> ptr_at (heap s') a = q ->
     a ∈ concat G /\ ptr_at (heap s) a = q) ->
  entry s' q = entry s q.
Proof.
  intros Hwf Hwf' Hto Hfrom.
  destruct (key_cases s G q Hwf) as [(a & Ha & Hp) | Hno].
  - destruct (Hto a Ha Hp) as [Ha' Hr].
    assert (Hp' : ptr_at (heap s') a = q).
    { unfold ptr_at. apply (f_equal ptr) in Hr. simpl in Hr.
      rewrite Hr. exact Hp. }
    pose proof (entry_found s G a Hwf Ha) as H1.
    pose proof (entry_found s' G' a Hwf' Ha') as H2.
    rewrite Hp in H1. rewrite Hp' in H2. congruence.
  - rewrite (entry_missing s G q Hwf Hno).
    apply (entry_missing s' G' q Hwf').
    intros a Ha' Hp'. destruct (Hfrom a Ha' Hp') as [Ha Hp].
    exact (Hno a Ha Hp).
Qed.

(* ===================================================================== *)
(** * Lookups across put and remove *)

Lemma find_key_unique s G p a :
  wf s G -> a ∈ concat G -> ptr_at (heap s) a = p ->
  find (fun b => ptr_at (heap s) b =? p) (concat G) = Some a.
Proof.
  intros Hwf Ha Hp.
  destruct (find _ (concat G)) as [b|] eqn:Ef.
  - apply find_some in Ef as [Hb Hpb].
    apply list_elem_of_In in Hb. apply Z.eqb_eq in Hpb.
    f_equal. destruct Hwf as (_ & _ & Hkeys).
    apply (NoDup_fmap_inj (ptr_at (heap s)) (concat G) b a Hkeys Hb Ha). congruence.
  - exfalso. apply list_elem_of_In in Ha.
    pose proof (find_none _ _ Ef a Ha) as Hf. simpl in Hf.
    apply Z.eqb_neq in Hf. contradiction.
Qed.

Lemma find_key_none s G p :
  (forall a, a ∈ concat G -> ptr_at (heap s) a <> p) ->
  find (fun b => ptr_at (heap s) b =? p) (concat G) = None.
Proof.
  intros Hno. destruct (find _ (concat G)) as [b|] eqn:Ef; [|reflexivity].
  apply find_some in Ef as [Hb Hpb].
  apply list_elem_of_In in Hb. apply Z.eqb_eq in Hpb.
  exfalso. exact (Hno b Hb Hpb).
Qed.

Lemma put_frame s G p sz d q :
  wf s G -> q <> p ->
  exists s1 G1,
    gc_allocation_map_put s p sz d = Some (length (heap s), s1) /\
    wf s1 G1 /\
    entry s1 q = entry s q /\
    entry s1 p = Some (Some (mkAllocation p sz GC_TAG_NONE d None)).
Proof.
  intros Hwf Hne.
  destruct (put_wf s G p sz d Hwf)
    as (s1 & G1 & Hrun & Hwf1 & Hin & Hfl & Hcfg & Hups & Hins).
  exists s1, G1. split; [exact Hrun|]. split; [exact Hwf1|].
  assert (Hnew : ptr_at (heap s1) (length (heap s)) = p)
    by (apply (ptr_at_new (heap s) (heap s1) (mkAllocation p sz GC_TAG_NONE d None) Hfl)).
  assert (Hold : forall a, a ∈ concat G ->
            ptr_at (heap s1) a = ptr_at (heap s) a /\
            set_next None (rec_at (heap s1) a) = set_next None (rec_at (heap s) a)).
  { intros a Ha. pose proof (rep_addr_lt s G a (proj1 Hwf) Ha) as Hlt.
    split; [|eapply rec_fields_app; eauto].
    apply (ptr_at_old (heap s) (heap s1) (mkAllocation p sz GC_TAG_NONE d None) a Hfl Hlt). }
  split.
  - destruct (get_total s G p (proj1 Hwf)) as ([a0|] & Hget).
    + destruct (Hups a0 Hget) as (_ & _ & Hperm & _).
      destruct (get_Some_inv s G p a0 (proj1 Hwf) Hget) as [Ha0 Hp0].
      apply (entry_transfer s G s1 G1 q Hwf Hwf1).
      * intros a Ha Hq. split; [|apply Hold; exact Ha].
        rewrite Hperm in Ha. apply elem_of_cons in Ha as [-> | Ha]; [congruence|].
        apply list_elem_of_filter in Ha as [_ Ha]. exact Ha.
      * intros a Ha Hq.
        assert (Hna : a <> length (heap s)) by (intros ->; congruence).
        assert (Ha' : a ∈ concat G).
        { rewrite Hperm. right. apply list_elem_of_filter. split; assumption. }
        split; [exact Ha'|]. rewrite <- (proj1 (Hold a Ha')). exact Hq.
    + destruct (Hins Hget) as (_ & _ & Hperm).
      apply (entry_transfer s G s1 G1 q Hwf Hwf1).
      * intros a Ha Hq. split; [|apply Hold; exact Ha].
        rewrite Hperm. right. exact Ha.
      * intros a Ha Hq. rewrite Hperm in Ha.
        apply elem_of_cons in Ha as [-> | Ha]; [congruence|].
        split; [exact Ha|]. rewrite <- (proj1 (Hold a Ha)). exact Hq.
  - pose proof (entry_found s1 G1 _ Hwf1 Hin) as He. rewrite Hnew in He.
    rewrite He. do 2 f_equal.
    assert (Hlt : (length (heap s) < length (heap s1))%nat).
    { apply (f_equal length) in Hfl. unfold fields in Hfl.
      rewrite length_app, !length_fmap in Hfl. simpl in Hfl. lia. }
    pose proof (fields_lookup (heap s1) _ Hlt) as Hf.
    rewrite Hfl in Hf. rewrite lookup_app_r in Hf
      by (unfold fields; rewrite length_fmap; lia).
    unfold fields in Hf at 1. rewrite length_fmap, Nat.sub_diag in Hf.
    simpl in Hf. congruence.
Qed.

Lemma remove_frame s G p :
  wf s G ->
  exists s' G',
    gc_allocation_map_remove s p = Some s' /\
    wf s' G' /\
    fields (heap s') = fields (heap s) /\
    entry s' p = Some None /\
    (forall q, q <> p -> entry s' q = entry s q) /\
    (forall a, a ∈ concat G' -> a ∈ concat G /\ ptr_at (heap s) a <> p) /\
    (forall a, a ∈ concat G -> ptr_at (heap s) a <> p -> a ∈ concat G').
Proof.
  intros Hwf.
  destruct (rep_bucket s G p (proj1 Hwf)) as (x & l & _ & Hl & _).
  destruct (remove_spec s G p l Hwf Hl) as (s' & G' & Hrun & Hwf' & Hfl & _ & Hm).
  exists s', G'. split; [exact Hrun|]. split; [exact Hwf'|]. split; [exact Hfl|].
  assert (Hptr : forall a, ptr_at (heap s') a = ptr_at (heap s) a)
    by (intros a; apply ptr_at_fields; exact Hfl).
  assert (Hsub : forall a, a ∈ concat G' -> a ∈ concat G /\ ptr_at (heap s) a <> p).
  { destruct (lookup_chain (heap s) p l) as [c|] eqn:Ef.
    - destruct Hm as (Hperm & _).
      destruct (lookup_chain_Some _ _ _ _ Ef) as [_ Hpc].
      destruct Hwf as (_ & _ & Hkeys). unfold keys_ok in Hkeys.
      rewrite Hperm in Hkeys. rewrite fmap_cons in Hkeys.
      apply NoDup_cons in Hkeys as [Hni _].
      intros a Ha. split; [rewrite Hperm; right; exact Ha|].
      intros Hp. apply Hni. rewrite Hpc, <- Hp.
      apply list_elem_of_fmap. exists a. split; [reflexivity | exact Ha].
    - destruct Hm as (Hperm & _).
      intros a Ha. rewrite Hperm in Ha. split; [exact Ha|].
      intros Hp. destruct (elem_of_concat_inv G a Ha) as (i & li & Hi & Hai).
      destruct Hwf as (_ & Hix & _).
      pose proof (Hix i li a Hi Hai) as Hbi. rewrite Hp in Hbi.
      rewrite Hbi in Hl. rewrite Hl in Hi. injection Hi as <-.
      exact (lookup_chain_None _ _ _ a Ef Hai Hp). }
  assert (Hsup : forall a, a ∈ concat G -> ptr_at (heap s) a <> p -> a ∈ concat G').
  { destruct (lookup_chain (heap s) p l) as [c|] eqn:Ef.
    - destruct Hm as (Hperm & _).
      destruct (lookup_chain_Some _ _ _ _ Ef) as [_ Hpc].
      intros a Ha Hp. rewrite Hperm in Ha.
      apply elem_of_cons in Ha as [-> | Ha]; [contradiction | exact Ha].
    - destruct Hm as (Hperm & _). intros a Ha _. rewrite Hperm. exact Ha. }
  split; [|split; [|split; assumption]].
  - apply (entry_missing s' G' p Hwf').
    intros a Ha. rewrite Hptr. apply (Hsub a Ha).
  - intros q Hq. apply (entry_transfer s G s' G' q Hwf Hwf').
    + intros a Ha Hpa. split; [apply Hsup; [exact Ha | congruence]|].
      apply rec_fields_eq; [eapply rep_addr_lt; [exact (proj1 Hwf) | exact Ha] | exact Hfl].
    + intros a Ha Hpa. split; [apply (Hsub a Ha)|]. rewrite <- Hptr. exact Hpa.
Qed.

Lemma put_loop_released p i alloc : forall l fuel s x prev c s',
  chain (heap s) x l ->
  lookup_chain (heap s) p l = Some c ->
  put_loop fuel s i alloc x prev p = Some (true, s') ->
  exists r, heap s' !! c = Some (Cell false r).
Proof.
  induction l as [|a l IH]; intros fuel s x prev c s' Hch Hf Hrun.
  - discriminate.
  - inversion Hch as [|a' ca l' y Ha Hrest]; subst.
    destruct fuel as [|fuel]; [discriminate|].
    simpl in Hrun. rewrite (read_live _ _ _ _ Ha) in Hrun. simpl in Hrun.
    unfold lookup_chain in Hf. simpl in Hf.
    rewrite (ptr_at_lookup _ _ _ _ Ha) in Hf.
    destruct (ptr ca =? p) eqn:E.
    + injection Hf as <-.
      destruct (write InPut s alloc _) as [s2|]; [|discriminate]. simpl in Hrun.
      destruct (match prev with
                | Some pv => write InPut s2 pv (set_next (Some alloc))
                | None => Some (set_bucket i (Some alloc) s2)
                end) as [s3|]; [|discriminate].
      simpl in Hrun.
      unfold gc_allocation_delete in Hrun.
      destruct (heap s3 !! a) as [ca3|] eqn:E3; [|discriminate].
      simpl in Hrun. injection Hrun as <-. simpl.
      exists (content ca3). apply list_lookup_insert_eq.
      eapply lookup_lt_Some; eauto.
    + apply (IH fuel s (next ca) (Some a) c s' Hrest Hf Hrun).
Qed.

(* ===================================================================== *)
(** * The allocation map as a finite map *)

(** [gc_allocation_map_get] on a well-formed registry returns the one
    linked record whose [ptr] is the key, or null when no linked record
    has it, and leaves the registry, its records and the log of accesses
    to released records as they were. *)
Theorem get_finds_linked_record s G p :
  wf s G ->
  gc_allocation_map_get s p =
    Some (find (fun a => ptr_at (heap s) a =? p) (concat G), s).
Proof.
  intros Hwf.
  destruct (key_cases s G p Hwf) as [(a & Ha & Hp) | Hno].
  - rewrite (find_key_unique s G p a Hwf Ha Hp).
    apply (get_found s G a p Hwf Ha Hp).
  - rewrite (find_key_none s G p Hno).
    apply (get_absent s G p Hwf Hno).
Qed.

Lemma get_finds_linked_record_witness :
  wf two_records two_records_chains /\
  gc_allocation_map_get two_records 272 =
    Some (find (fun a => ptr_at (heap two_records) a =? 272)
            (concat two_records_chains), two_records).
Proof.
  split; [exact two_records_wf|].
  exact (get_finds_linked_record two_records two_records_chains 272 two_records_wf).
Defined.

(** [gc_allocation_map_put] of the key [p] leaves the answer to the lookup
    of every other key as it was, whether [p] was present or not and
    whether the map grows or not; the entry of [p] itself is replaced as a
    whole: size and finalizer as given, tag back to [GC_TAG_NONE]. *)
Theorem put_keeps_other_keys s p sz d q :
  well_formed s -> q <> p ->
  exists a s',
    gc_allocation_map_put s p sz d = Some (a, s') /\
    well_formed s' /\
    entry s' q = entry s q /\
    entry s' p = Some (Some (mkAllocation p sz GC_TAG_NONE d None)).
Proof.
  intros (G & Hwf) Hne.
  destruct (put_frame s G p sz d q Hwf Hne) as (s1 & G1 & Hrun & Hwf1 & Hq & Hp).
  exists (length (heap s)), s1. split; [exact Hrun|].
  split; [exists G1; exact Hwf1|]. split; assumption.
Qed.

Lemma put_keeps_other_keys_witness :
  well_formed two_records /\ 184 <> 272 /\
  exists a s',
    gc_allocation_map_put two_records 272 64 (Some 4096) = Some (a, s') /\
    well_formed s' /\
    entry s' 184 = entry two_records 184 /\
    entry s' 272 = Some (Some (mkAllocation 272 64 GC_TAG_NONE (Some 4096) None)).
Proof.
  assert (H : well_formed two_records) by (exists two_records_chains; exact two_records_wf).
  split; [exact H|]. split; [lia|].
  exact (put_keeps_other_keys two_records 272 64 (Some 4096) 184 H ltac:(lia)).
Defined.

(** After [gc_allocation_map_remove] of the key [p] a lookup of [p] finds
    nothing, and the lookup of every other key answers as before, whether
    the map shrinks or not.  A key that is not present is ignored. *)
Theorem remove_forgets_key s p :
  well_formed s ->
  exists s',
    gc_allocation_map_remove s p = Some s' /\
    well_formed s' /\
    entry s' p = Some None /\
    (forall q, q <> p -> entry s' q = entry s q) /\
    (entry s p = Some None -> forall q, entry s' q = entry s q).
Proof.
  intros (G & Hwf).
  destruct (remove_frame s G p Hwf) as (s' & G' & Hrun & Hwf' & _ & Hp & Hq & _).
  exists s'. split; [exact Hrun|]. split; [exists G'; exact Hwf'|].
  split; [exact Hp|]. split; [exact Hq|].
  intros Hnone q. destruct (decide (q = p)) as [-> | Hne]; [congruence|].
  apply Hq. exact Hne.
Qed.

Lemma remove_forgets_key_witness :
  well_formed two_records /\
  exists s',
    gc_allocation_map_remove two_records 184 = Some s' /\
    well_formed s' /\
    entry s' 184 = Some None /\
    (forall q, q <> 184 -> entry s' q = entry two_records q) /\
    (entry two_records 184 = Some None -> forall q, entry s' q = entry two_records q).
Proof.
  assert (H : well_formed two_records) by (exists two_records_chains; exact two_records_wf).
  split; [exact H | exact (remove_forgets_key two_records 184 H)].
Defined.

(** An upsert releases the record it replaces: when [get(p)] finds the
    record [a0], [put(p, ...)] links a new record in its place and hands
    [a0] to [gc_allocation_delete]; the number of records and the capacity
    stay as they are. *)
Theorem upsert_releases_replaced_record s p sz d a0 :
  well_formed s ->
  gc_allocation_map_get s p = Some (Some a0, s) ->
  exists a s' r,
    gc_allocation_map_put s p sz d = Some (a, s') /\
    a <> a0 /\
    heap s' !! a0 = Some (Cell false r) /\
    gc_allocation_map_get s' p = Some (Some a, s') /\
    am_size (amap s') = am_size (amap s) /\
    capacity (amap s') = capacity (amap s).
Proof.
  intros (G & Hwf) Hget.
  destruct (get_Some_inv s G p a0 (proj1 Hwf) Hget) as [Ha0 Hp0].
  destruct (lookup_found s G a0 p Hwf Ha0 Hp0) as (l & Hl & Hfind).
  destruct (put_upsert s G p sz d l a0 Hwf Hl Hfind)
    as (s' & l1 & l2 & Hrun & Hl12 & Hwf' & Hfl & Hcap & Hsz & _).
  pose proof (rep_addr_lt s G a0 (proj1 Hwf) Ha0) as Hlt0.
  assert (Hrel : exists r, heap s' !! a0 = Some (Cell false r)).
  { destruct (rep_bucket s G p (proj1 Hwf)) as (x & l' & Hx & Hl' & Hc & Hndl & Hlenl).
    rewrite Hl in Hl'. injection Hl' as <-.
    assert (Hlt : forall a, a ∈ l -> (a < length (heap s))%nat)
      by (intros a Ha; eapply lseg_lt; eauto).
    revert Hrun. unfold gc_allocation_map_put.
    destruct (Z.leb_spec (capacity (amap s)) 0);
      [pose proof (rep_cap _ _ (proj1 Hwf)); lia|].
    unfold gc_allocation_new.
    set (new := mkAllocation p sz GC_TAG_NONE d None).
    set (s0 := set_heap (heap s ++ [Cell true new]) s).
    change (allocs (amap s0)) with (allocs (amap s)). rewrite Hx. simpl.
    destruct (put_loop _ s0 _ _ x None p) as [[found s1]|] eqn:Eloop; [|discriminate].
    simpl.
    assert (Hch0 : chain (heap s0) x l).
    { simpl. eapply lseg_frame; [exact Hc|]. intros a Ha.
      apply lookup_app_l. apply Hlt. exact Ha. }
    assert (Hfind0 : lookup_chain (heap s0) p l = Some a0).
    { rewrite <- Hfind. unfold lookup_chain. simpl.
      clear -Hlt. induction l as [|a l IH]; simpl; [reflexivity|].
      rewrite ptr_at_app by (apply Hlt; left).
      destruct (ptr_at (heap s) a =? p); [reflexivity|].
      apply IH. intros b Hb. apply Hlt. right. exact Hb. }
    destruct found.
    - intros Hrun. injection Hrun as <-.
      apply (put_loop_released p _ _ l _ s0 x None a0 s1 Hch0 Hfind0 Eloop).
    - intros _.
      destruct (put_loop_some p (bucket_index (amap s) p) (length (heap s)) new l
                  (length (heap s0)) s0 x None [] x a0)
        as (s1' & _ & _ & _ & Hrun' & _); try assumption.
      + constructor.
      + reflexivity.
      + simpl. intros Ha. apply Hlt in Ha. lia.
      + simpl. apply list_lookup_middle. reflexivity.
      + simpl. rewrite length_app. simpl. lia.
      + simpl in Hrun', Eloop. rewrite Hrun' in Eloop. discriminate. }
  destruct Hrel as (r & Hr).
  exists (length (heap s)), s', r.
  split; [exact Hrun|]. split; [lia|]. split; [exact Hr|].
  split; [|split; assumption].
  apply (get_found s' _ (length (heap s)) p Hwf').
  - eapply elem_of_concat_lookup.
    + apply list_lookup_insert_eq. eapply lookup_lt_Some; exact Hl.
    + apply elem_of_app. right. left.
  - apply (ptr_at_new (heap s) (heap s') (mkAllocation p sz GC_TAG_NONE d None) Hfl).
Qed.

Lemma upsert_releases_replaced_record_witness :
  well_formed two_records /\
  gc_allocation_map_get two_records 272 = Some (Some 1%nat, two_records) /\
  exists a s' r,
    gc_allocation_map_put two_records 272 64 None = Some (a, s') /\
    a <> 1%nat /\
    heap s' !! 1%nat = Some (Cell false r) /\
    gc_allocation_map_get s' 272 = Some (Some a, s') /\
    am_size (amap s') = am_size (amap two_records) /\
    capacity (amap s') = capacity (amap two_records).
Proof.
  assert (H : well_formed two_records) by (exists two_records_chains; exact two_records_wf).
  split; [exact H|]. split; [reflexivity|].
  exact (upsert_releases_replaced_record two_records 272 64 None 1%nat H eq_refl).
Defined.

(* ===================================================================== *)
(** * The interface of the collector: free, realloc, allocate, start *)

Lemma ptr_at_insert h a c c' lv :
  h !! a = Some (Cell lv c) -> ptr c' = ptr c ->
  forall b, ptr_at (<[a := Cell lv c']> h) b = ptr_at h b.
Proof.
  intros Hc Hp b. unfold ptr_at, rec_at.
  destruct (decide (a = b)) as [<- | Hne].
  - rewrite list_lookup_insert_eq by (eapply lookup_lt_Some; eauto).
    rewrite Hc. exact Hp.
  - rewrite list_lookup_insert_ne by exact Hne. reflexivity.
Qed.

(** Assigning to fields other than [ptr] and [next] of a linked record
    keeps the registry well formed, with the same chains. *)
Lemma wf_set_fields s G a c c' :
  wf s G -> heap s !! a = Some (Cell true c) ->
  ptr c' = ptr c -> next c' = next c ->
  wf (set_heap (<[a := Cell true c']> (heap s)) s) G.
Proof.
  intros (Hrep & Hix & Hkeys) Hc Hp Hn.
  pose proof (ptr_at_insert (heap s) a c c' true Hc Hp) as Hptr.
  split; [|split].
  - destruct Hrep as [Hch Hnd Hlen Hcap]. constructor; simpl; try assumption.
    clear -Hch Hc Hn. induction Hch as [|x l A G Hxl HAG IH]; constructor; [|exact IH].
    eapply lseg_ext; [exact Hxl|]. intros b cb _ Hb.
    destruct (decide (a = b)) as [<- | Hne].
    + rewrite Hc in Hb. injection Hb as <-.
      exists c'. split; [|exact Hn].
      apply list_lookup_insert_eq. eapply lookup_lt_Some; eauto.
    + exists cb. rewrite list_lookup_insert_ne by exact Hne. auto.
  - intros i l b Hi Hb. simpl. rewrite Hptr.
    change (amap (set_heap (<[a := Cell true c']> (heap s)) s)) with (amap s).
    eapply Hix; eauto.
  - unfold keys_ok. simpl.
    rewrite (fmap_ext_in _ (ptr_at (heap s)) (concat G)); [exact Hkeys|].
    intros b _. apply Hptr.
Qed.

Lemma entry_set_fields s G a c c' q :
  wf s G -> a ∈ concat G -> heap s !! a = Some (Cell true c) ->
  ptr c' = ptr c -> next c' = next c -> q <> ptr c ->
  entry (set_heap (<[a := Cell true c']> (heap s)) s) q = entry s q.
Proof.
  intros Hwf Ha Hc Hp Hn Hq.
  pose proof (wf_set_fields s G a c c' Hwf Hc Hp Hn) as Hwf'.
  pose proof (ptr_at_insert (heap s) a c c' true Hc Hp) as Hptr.
  apply (entry_transfer s G _ G q Hwf Hwf').
  - intros b Hb Hpb. split; [exact Hb|]. simpl.
    rewrite rec_at_insert_ne; [reflexivity|].
    intros <-. apply Hq. rewrite <- Hpb. eapply ptr_at_lookup; eauto.
  - intros b Hb Hpb. split; [exact Hb|]. simpl in Hpb. rewrite Hptr in Hpb. exact Hpb.
Qed.

Lemma entry_set_fields_eq s G a c c' :
  wf s G -> a ∈ concat G -> heap s !! a = Some (Cell true c) ->
  ptr c' = ptr c -> next c' = next c ->
  entry (set_heap (<[a := Cell true c']> (heap s)) s) (ptr c) = Some (Some (set_next None c')).
Proof.
  intros Hwf Ha Hc Hp Hn.
  pose proof (wf_set_fields s G a c c' Hwf Hc Hp Hn) as Hwf'.
  pose proof (entry_found _ G a Hwf' Ha) as He. simpl in He.
  rewrite (ptr_at_insert (heap s) a c c' true Hc Hp) in He.
  rewrite (ptr_at_lookup _ _ _ _ Hc) in He.
  rewrite rec_at_insert_eq in He by (eapply lookup_lt_Some; eauto).
  exact He.
Qed.

Lemma gc_free_known w G p r :
  wf (store w) G -> entry (store w) p = Some (Some r) ->
  exists w' G',
    gc_free w p = Some w' /\
    wf (store w') G' /\
    events w' = events w ++ release_events r /\
    ptr r = p /\
    entry (store w') p = Some None /\
    (forall q, q <> p -> entry (store w') q = entry (store w) q) /\
    errno w' = errno w /\ sys w' = sys w /\ mem w' = mem w /\
    paused (gc w') = paused (gc w) /\ bos (gc w') = bos (gc w).
Proof.
  intros Hwf He.
  destruct (entry_Some_inv _ G p r Hwf He) as (a & Ha & Hp & Hr & Hget).
  destruct (rep_addr_live _ G a (proj1 Hwf) Ha) as (c & Hc).
  destruct (remove_frame _ G p Hwf) as (s' & G' & Hrun & Hwf' & _ & Hpn & Hq & _).
  assert (Hrc : rec_at (heap (store w)) a = c) by (unfold rec_at; rewrite Hc; reflexivity).
  assert (Hd : dtor r = dtor c) by (rewrite Hr, Hrc; reflexivity).
  assert (Hpr : ptr r = p).
  { rewrite Hr. simpl. exact Hp. }
  unfold gc_free. rewrite Hget. simpl. rewrite set_store_id.
  rewrite (read_live _ _ _ _ Hc). simpl. rewrite set_store_id.
  unfold release_events. rewrite Hd, Hpr.
  destruct w as [[s pz b] e m t sy ev]. unfold store in *. simpl in *.
  destruct (dtor c) as [f|]; simpl; rewrite Hrun; simpl;
    eexists; exists G'; (split; [reflexivity|]); simpl;
    (split; [exact Hwf'|]); rewrite <- ?app_assoc; simpl; auto 12.
Qed.

Lemma gc_free_unknown w G p :
  wf (store w) G -> entry (store w) p = Some None ->
  gc_free w p = Some (add_event (EvWarn p) w).
Proof.
  intros Hwf He.
  destruct (entry_None_inv _ G p Hwf He) as (_ & Hget).
  unfold gc_free. rewrite Hget. simpl. rewrite set_store_id. reflexivity.
Qed.

(** [gc_free] of a registered pointer calls the finalizer of its record,
    if there is one, then [free], and removes the record: a lookup of the
    pointer finds nothing afterwards and every other entry is as before.
    No collection is run. *)
Theorem gc_free_releases_block w p r :
  well_formed (store w) -> entry (store w) p = Some (Some r) ->
  exists w',
    gc_free w p = Some w' /\
    well_formed (store w') /\
    events w' = events w ++ release_events r /\
    ptr r = p /\
    entry (store w') p = Some None /\
    (forall q, q <> p -> entry (store w') q = entry (store w) q) /\
    errno w' = errno w /\ sys w' = sys w /\ mem w' = mem w /\
    paused (gc w') = paused (gc w) /\ bos (gc w') = bos (gc w).
Proof.
  intros (G & Hwf) He.
  destruct (gc_free_known w G p r Hwf He) as (w' & G' & Hrun & Hwf' & Hrest).
  exists w'. split; [exact Hrun|]. split; [exists G'; exact Hwf' | exact Hrest].
Qed.

Lemma gc_free_releases_block_witness :
  well_formed (store two_world) /\
  entry (store two_world) 184
    = Some (Some (mkAllocation 184 8 GC_TAG_NONE None None)) /\
  exists w',
    gc_free two_world 184 = Some w' /\
    well_formed (store w') /\
    events w' = events two_world
                ++ release_events (mkAllocation 184 8 GC_TAG_NONE None None) /\
    ptr (mkAllocation 184 8 GC_TAG_NONE None None) = 184 /\
    entry (store w') 184 = Some None /\
    (forall q, q <> 184 -> entry (store w') q = entry (store two_world) q) /\
    errno w' = errno two_world /\ sys w' = sys two_world /\ mem w' = mem two_world /\
    paused (gc w') = paused (gc two_world) /\ bos (gc w') = bos (gc two_world).
Proof.
  assert (H : well_formed (store two_world))
    by (exists two_records_chains; exact two_records_wf).
  split; [exact H|]. split; [reflexivity|].
  exact (gc_free_releases_block two_world 184 _ H eq_refl).
Defined.

(** [gc_free] of a pointer that is not registered, the null pointer
    included, calls neither a finalizer nor [free] and changes nothing but
    for the warning it logs.  A second [gc_free] of the same pointer is
    such a call. *)
Theorem gc_free_ignores_unknown w p :
  well_formed (store w) ->
  (entry (store w) p = Some None ->
   gc_free w p = Some (add_event (EvWarn p) w)) /\
  (forall r, entry (store w) p = Some (Some r) ->
   exists w', gc_free w p = Some w' /\
              gc_free w' p = Some (add_event (EvWarn p) w')).
Proof.
  intros (G & Hwf). split.
  - apply (gc_free_unknown w G p Hwf).
  - intros r He.
    destruct (gc_free_known w G p r Hwf He) as (w' & G' & Hrun & Hwf' & _ & _ & Hp & _).
    exists w'. split; [exact Hrun|]. apply (gc_free_unknown w' G' p Hwf' Hp).
Qed.

Lemma gc_free_ignores_unknown_witness :
  well_formed (store two_world) /\
  ((entry (store two_world) 0 = Some None ->
    gc_free two_world 0 = Some (add_event (EvWarn 0) two_world)) /\
   (forall r, entry (store two_world) 0 = Some (Some r) ->
    exists w', gc_free two_world 0 = Some w' /\
               gc_free w' 0 = Some (add_event (EvWarn 0) w'))).
Proof.
  assert (H : well_formed (store two_world))
    by (exists two_records_chains; exact two_records_wf).
  split; [exact H | exact (gc_free_ignores_unknown two_world 0 H)].
Defined.

(** [gc_realloc] of a non-null pointer that is not registered fails with
    [EINVAL] before the system [realloc] is called: the result is null,
    and nothing but [errno] changes. *)
Theorem gc_realloc_rejects_unknown w p sz :
  well_formed (store w) -> p <> 0 -> entry (store w) p = Some None ->
  gc_realloc w p sz = Some (0, set_errno EINVAL w).
Proof.
  intros (G & Hwf) Hp He.
  destruct (entry_None_inv _ G p Hwf He) as (_ & Hget).
  unfold gc_realloc. rewrite Hget. simpl. rewrite set_store_id.
  destruct (Z.eqb_spec p 0); [contradiction|]. reflexivity.
Qed.

Lemma gc_realloc_rejects_unknown_witness :
  well_formed (store two_world) /\ 96 <> 0 /\
  entry (store two_world) 96 = Some None /\
  gc_realloc two_world 96 64 = Some (0, set_errno EINVAL two_world).
Proof.
  assert (H : well_formed (store two_world))
    by (exists two_records_chains; exact two_records_wf).
  split; [exact H|]. split; [lia|]. split; [reflexivity|].
  exact (gc_realloc_rejects_unknown two_world 96 64 H ltac:(lia) eq_refl).
Defined.

(** When the system [realloc] returns the block where it was, [gc_realloc]
    updates the size of its record in place: tag and finalizer stay, every
    other entry stays, and the map, the event trace and [errno] are
    untouched. *)
Theorem gc_realloc_in_place w p sz r e rest :
  well_formed (store w) -> p <> 0 ->
  entry (store w) p = Some (Some r) ->
  sys w = (p, e) :: rest ->
  exists w',
    gc_realloc w p sz = Some (p, w') /\
    well_formed (store w') /\
    entry (store w') p = Some (Some (set_size sz r)) /\
    (forall q, q <> p -> entry (store w') q = entry (store w) q) /\
    amap (store w') = amap (store w) /\
    events w' = events w /\ errno w' = errno w /\ sys w' = rest.
Proof.
  intros (G & Hwf) Hp He Hsys.
  destruct (entry_Some_inv _ G p r Hwf He) as (a & Ha & Hpa & Hr & Hget).
  destruct (rep_addr_live _ G a (proj1 Hwf) Ha) as (c & Hc).
  assert (Hrc : rec_at (heap (store w)) a = c) by (unfold rec_at; rewrite Hc; reflexivity).
  assert (Hpc : ptr c = p) by (rewrite <- Hpa; symmetry; eapply ptr_at_lookup; eauto).
  unfold gc_realloc. rewrite Hget. simpl. rewrite set_store_id.
  destruct (Z.eqb_spec p 0); [contradiction|]. simpl.
  unfold sys_alloc. rewrite Hsys.
  destruct (Z.eqb_spec p 0); [contradiction|].
  rewrite Z.eqb_refl.
  change (store (set_sys rest w)) with (store w).
  rewrite (write_live _ _ _ _ _ Hc). simpl.
  eexists. split; [reflexivity|].
  destruct w as [[s pz b] ev m t sy evs]. unfold store in *. simpl in *.
  split; [exists G; apply (wf_set_fields s G a c (set_size sz c) Hwf Hc); reflexivity|].
  split.
  - pose proof (entry_set_fields_eq s G a c (set_size sz c) Hwf Ha Hc eq_refl eq_refl) as H1.
    rewrite Hpc in H1. rewrite H1, Hr, Hrc. reflexivity.
  - split; [|auto].
    intros q Hq.
    apply (entry_set_fields s G a c (set_size sz c) q Hwf Ha Hc); [reflexivity..|congruence].
Qed.

Lemma gc_realloc_in_place_witness :
  well_formed (store (two_world_with [(184, 0)])) /\ 184 <> 0 /\
  entry (store (two_world_with [(184, 0)])) 184
    = Some (Some (mkAllocation 184 8 GC_TAG_NONE None None)) /\
  sys (two_world_with [(184, 0)]) = (184, 0) :: [] /\
  exists w',
    gc_realloc (two_world_with [(184, 0)]) 184 64 = Some (184, w') /\
    well_formed (store w') /\
    entry (store w') 184
      = Some (Some (set_size 64 (mkAllocation 184 8 GC_TAG_NONE None None))) /\
    (forall q, q <> 184 ->
       entry (store w') q = entry (store (two_world_with [(184, 0)])) q) /\
    amap (store w') = amap (store (two_world_with [(184, 0)])) /\
    events w' = events (two_world_with [(184, 0)]) /\
    errno w' = errno (two_world_with [(184, 0)]) /\ sys w' = [].
Proof.
  assert (H : well_formed (store (two_world_with [(184, 0)])))
    by (exists two_records_chains; exact two_records_wf).
  split; [exact H|]. split; [lia|]. split; [reflexivity|]. split; [reflexivity|].
  exact (gc_realloc_in_place (two_world_with [(184, 0)]) 184 64 _ 0 [] H
           ltac:(lia) eq_refl eq_refl).
Defined.

Lemma Qgtb_true a b : Qgtb a b = true -> (b < a)%Q.
Proof. intros H. apply Qltb_true. exact H. Qed.

Lemma Inv_empty s :
  Inv s -> am_size (amap s) = 0 -> forall q, entry s q = Some None.
Proof.
  intros (G & Hwf & Hsz & _) H0 q.
  apply (entry_missing s G q Hwf). intros a Ha.
  rewrite H0 in Hsz. destruct (concat G); [inversion Ha | discriminate].
Qed.

(** [gc_start_ext] always leaves a collector that is not paused, with the
    given bottom of stack and an empty, well-formed map: every lookup
    finds nothing, the capacity is a prime that is neither below the
    requested initial capacity nor below the minimal capacity, and the
    three factors are positive whatever was passed.  Blocks that the
    collector managed before are neither finalized nor freed. *)
Theorem gc_start_ext_fresh w b ic mc df uf sf :
  let w' := gc_start_ext w b ic mc df uf sf in
  Inv (store w') /\
  (forall q, entry (store w') q = Some None) /\
  am_size (amap (store w')) = 0 /\
  paused (gc w') = false /\ bos (gc w') = b /\
  (0 < downsize_factor (amap (store w')))%Q /\
  (0 < upsize_factor (amap (store w')))%Q /\
  (0 < sweep_factor (amap (store w')))%Q /\
  ic <= capacity (amap (store w')) /\
  mc <= min_capacity (amap (store w')) /\
  events w' = events w.
Proof.
  intros w'.
  assert (HI : Inv (store w')) by apply wf_new.
  split; [exact HI|]. split; [apply Inv_empty; [exact HI | reflexivity]|].
  split; [reflexivity|]. split; [reflexivity|]. split; [reflexivity|].
  unfold w', gc_start_ext, store; simpl.
  split; [|split; [|split]].
  - destruct (Qgtb df 0) eqn:E; [apply Qgtb_true; exact E | reflexivity].
  - destruct (Qgtb uf 0) eqn:E; [apply Qgtb_true; exact E | reflexivity].
  - destruct (Qgtb sf 0) eqn:E; [apply Qgtb_true; exact E | reflexivity].
  - split; [|split; [|reflexivity]].
    + set (ic' := if ic <? mc then mc else ic).
      assert (Hic : ic <= ic') by (unfold ic'; destruct (Z.ltb_spec ic mc); lia).
      pose proof (proj2 (next_prime_spec ic')) as H1.
      pose proof (proj2 (next_prime_spec mc)) as H2.
      destruct (Z.ltb_spec (next_prime ic') (next_prime mc)); lia.
    + apply (proj2 (next_prime_spec mc)).
Qed.



(* ===================================================================== *)
(** * The mark phase *)

Lemma mark_bit_root t :
  Z.land (Z.lor t GC_TAG_MARK) GC_TAG_ROOT = Z.land t GC_TAG_ROOT.
Proof.
  unfold GC_TAG_MARK, GC_TAG_ROOT. rewrite Z.land_lor_distr_l.
  change (Z.land 2 1) with 0. apply Z.lor_0_r.
Qed.

Lemma mark_bit_idem t :
  Z.lor (Z.lor t GC_TAG_MARK) GC_TAG_MARK = Z.lor t GC_TAG_MARK.
Proof. rewrite <- Z.lor_assoc. rewrite Z.lor_diag. reflexivity. Qed.

Lemma only_marks_refl h : only_marks h h.
Proof.
  split; [reflexivity|]. intros a lv c Hc. exists (tag c).
  split; [|left; reflexivity]. rewrite Hc. destruct c; reflexivity.
Qed.

Lemma only_marks_trans h1 h2 h3 :
  only_marks h1 h2 -> only_marks h2 h3 -> only_marks h1 h3.
Proof.
  intros [Hl1 H1] [Hl2 H2]. split; [congruence|].
  intros a lv c Hc.
  destruct (H1 a lv c Hc) as (t1 & Hc1 & Ht1).
  destruct (H2 a lv _ Hc1) as (t2 & Hc2 & Ht2).
  exists t2. split; [exact Hc2|]. simpl in Ht2.
  destruct Ht1 as [-> | ->]; destruct Ht2 as [-> | ->]; auto.
  right. apply mark_bit_idem.
Qed.

Lemma only_marks_rec h h' a :
  only_marks h h' ->
  exists t, rec_at h' a = set_tag t (rec_at h a) /\
            (t = tag (rec_at h a) \/ t = Z.lor (tag (rec_at h a)) GC_TAG_MARK).
Proof.
  intros [Hlen H]. unfold rec_at.
  destruct (h !! a) as [[lv c]|] eqn:E.
  - destruct (H a lv c E) as (t & -> & Ht). exists t. auto.
  - assert (h' !! a = None) as ->.
    { apply lookup_ge_None. rewrite Hlen. apply lookup_ge_None. exact E. }
    exists 0. auto.
Qed.

Lemma only_marks_ptr h h' a : only_marks h h' -> ptr_at h' a = ptr_at h a.
Proof.
  intros H. destruct (only_marks_rec h h' a H) as (t & Hr & _).
  unfold ptr_at. rewrite Hr. reflexivity.
Qed.

Lemma only_marks_size h h' a :
  only_marks h h' -> size (rec_at h' a) = size (rec_at h a).
Proof.
  intros H. destruct (only_marks_rec h h' a H) as (t & Hr & _).
  rewrite Hr. reflexivity.
Qed.

Lemma only_marks_marked h h' a : only_marks h h' -> marked h a -> marked h' a.
Proof.
  intros H Hm. destruct (only_marks_rec h h' a H) as (t & Hr & Ht).
  unfold marked in *. rewrite Hr. simpl.
  destruct Ht as [-> | ->]; [exact Hm | apply mark_bit_set].
Qed.

Lemma only_marks_points m h h' a b :
  only_marks h h' -> points m h' a b <-> points m h a b.
Proof.
  intros H. unfold points.
  rewrite (only_marks_size h h' a H), !(only_marks_ptr h h' _ H). reflexivity.
Qed.

Lemma only_marks_wf s s' G :
  wf s G -> only_marks (heap s) (heap s') -> amap s' = amap s -> wf s' G.
Proof.
  intros (Hrep & Hix & Hkeys) Hom Ham.
  split; [|split].
  - destruct Hrep as [Hch Hnd Hlen Hcap]. constructor; rewrite ?Ham; try assumption.
    clear -Hch Hom. induction Hch as [|x l A G Hxl HAG IH]; constructor; [|exact IH].
    eapply lseg_ext; [exact Hxl|]. intros b cb _ Hb.
    destruct (proj2 Hom b true cb Hb) as (t & Hb' & _).
    exists (set_tag t cb). split; [exact Hb' | reflexivity].
  - intros i l b Hi Hb. rewrite Ham, (only_marks_ptr _ _ _ Hom). eapply Hix; eauto.
  - unfold keys_ok.
    rewrite (fmap_ext_in _ (ptr_at (heap s)) (concat G)); [exact Hkeys|].
    intros b _. apply only_marks_ptr. exact Hom.
Qed.

Lemma marked_dec h a : {marked h a} + {~ marked h a}.
Proof.
  unfold marked. destruct (Z.eq_dec (Z.land (tag (rec_at h a)) GC_TAG_MARK) 0); auto.
Qed.

Lemma only_marks_unmarked h h' l :
  only_marks h h' -> (unmarked h' l <= unmarked h l)%nat.
Proof.
  intros H. unfold unmarked. induction l as [|a l IH]; simpl; [lia|].
  rewrite !filter_cons.
  destruct (decide (Z.land (tag (rec_at h' a)) GC_TAG_MARK = 0)) as [E'|E'];
  destruct (decide (Z.land (tag (rec_at h a)) GC_TAG_MARK = 0)) as [E|E]; simpl; try lia.
  exfalso. apply (only_marks_marked h h' a H E). exact E'.
Qed.

Lemma reach_from_transfer m h h' L (ps ps' : Z -> Prop) a :
  only_marks h h' ->
  (forall b, b ∈ L -> ps (ptr_at h' b) -> reach_from m h L ps' b) ->
  reach_from m h' L ps a -> reach_from m h L ps' a.
Proof.
  intros Hom Hps Hr. induction Hr as [a Ha Hroot | a b _ IH Hb Hpt].
  - apply Hps; assumption.
  - eapply rf_step; [exact IH | exact Hb|].
    apply (only_marks_points m h h' a b Hom). exact Hpt.
Qed.

Lemma reach_from_mono m h L (ps ps' : Z -> Prop) a :
  (forall p, ps p -> ps' p) -> reach_from m h L ps a -> reach_from m h L ps' a.
Proof.
  intros Hps. apply (reach_from_transfer m h h L ps ps' a (only_marks_refl h)).
  intros b Hb Hp. apply rf_root; [exact Hb | apply Hps; exact Hp].
Qed.

Lemma mark_spec_nothing m G (ps : Z -> Prop) s :
  (forall a, a ∈ concat G -> ps (ptr_at (heap s) a) -> marked (heap s) a) ->
  mark_spec m G ps s s.
Proof.
  intros H. split; [reflexivity|]. split; [reflexivity|].
  split; [apply only_marks_refl|]. split; [exact H|].
  intros a _ Hm Hn. contradiction.
Qed.

Lemma mark_spec_trans m G (ps1 ps2 : Z -> Prop) s s1 s2 :
  mark_spec m G ps1 s s1 -> mark_spec m G ps2 s1 s2 ->
  mark_spec m G (fun p => ps1 p \/ ps2 p) s s2.
Proof.
  intros (Ham1 & Hu1 & Hom1 & Hr1 & Hn1) (Ham2 & Hu2 & Hom2 & Hr2 & Hn2).
  split; [congruence|]. split; [congruence|].
  split; [eapply only_marks_trans; eauto|]. split.
  - intros a Ha [Hp | Hp].
    + apply (only_marks_marked _ _ _ Hom2). apply Hr1; assumption.
    + apply Hr2; [exact Ha|]. rewrite (only_marks_ptr _ _ _ Hom1). exact Hp.
  - intros a Ha Hm2 Hn.
    destruct (marked_dec (heap s1) a) as [Hm1 | Hnm1].
    + destruct (Hn1 a Ha Hm1 Hn) as [Hcl Hre]. split.
      * intros b Hb Hpt. apply (only_marks_marked _ _ _ Hom2). apply Hcl; assumption.
      * eapply reach_from_mono; [|exact Hre]. intros p Hp. left. exact Hp.
    + destruct (Hn2 a Ha Hm2 Hnm1) as [Hcl Hre]. split.
      * intros b Hb Hpt. apply Hcl; [exact Hb|].
        apply (only_marks_points m _ _ a b Hom1). exact Hpt.
      * apply (reach_from_transfer m (heap s) (heap s1) (concat G) ps2
                 (fun p => ps1 p \/ ps2 p) a Hom1); [|exact Hre].
        intros b Hb Hp. apply rf_root; [exact Hb|]. right.
        rewrite <- (only_marks_ptr _ _ _ Hom1). exact Hp.
Qed.

Lemma mark_spec_equiv m G (ps ps' : Z -> Prop) s s' :
  (forall p, ps p <-> ps' p) -> mark_spec m G ps s s' -> mark_spec m G ps' s s'.
Proof.
  intros He (Ham & Hu & Hom & Hr & Hn).
  split; [exact Ham|]. split; [exact Hu|]. split; [exact Hom|]. split.
  - intros a Ha Hp. apply Hr; [exact Ha | apply He; exact Hp].
  - intros a Ha Hm Hnm. destruct (Hn a Ha Hm Hnm) as [Hcl Hre].
    split; [exact Hcl|]. eapply reach_from_mono; [|exact Hre].
    intros p. apply He.
Qed.

Lemma mark_spec_wf m G ps s s' : wf s G -> mark_spec m G ps s s' -> wf s' G.
Proof.
  intros Hwf (Ham & _ & Hom & _). eapply only_marks_wf; eauto.
Qed.

Lemma mark_spec_unmarked m G ps s s' :
  mark_spec m G ps s s' ->
  (unmarked (heap s') (concat G) <= unmarked (heap s) (concat G))%nat.
Proof. intros (_ & _ & Hom & _). apply only_marks_unmarked. exact Hom. Qed.

Lemma mark_list_spec m G d :
  (forall s p, wf s G -> (unmarked (heap s) (concat G) <= d)%nat ->
     exists s', gc_mark_alloc d m s p = Some s' /\ mark_spec m G (eq p) s s') ->
  forall ps s, wf s G -> (unmarked (heap s) (concat G) <= d)%nat ->
    exists s', mark_list d m s ps = Some s' /\ mark_spec m G (fun p => p ∈ ps) s s'.
Proof.
  intros Hone. induction ps as [|p ps IH]; intros s Hwf Hd; simpl.
  - exists s. split; [reflexivity|]. apply mark_spec_nothing.
    intros a _ Hp. inversion Hp.
  - destruct (Hone s p Hwf Hd) as (s1 & -> & Hs1). simpl.
    pose proof (mark_spec_wf _ _ _ _ _ Hwf Hs1) as Hwf1.
    pose proof (mark_spec_unmarked _ _ _ _ _ Hs1) as Hu1.
    destruct (IH s1 Hwf1 ltac:(lia)) as (s' & Hrun & Hs').
    exists s'. split; [exact Hrun|].
    eapply mark_spec_equiv; [|eapply mark_spec_trans; [exact Hs1 | exact Hs']].
    intros q. simpl. rewrite elem_of_cons. split; intros [H | H]; auto.
Qed.

Lemma scan_words d m : forall n p s,
  scan (gc_mark_alloc d m) m n p s = mark_list d m s (words m p n).
Proof.
  unfold words.
  assert (H : forall n j p s,
     scan (gc_mark_alloc d m) m n (p + Z.of_nat j) s =
     mark_list d m s ((fun k => m (p + Z.of_nat k)) <$> seq j n)).
  { induction n as [|n IH]; intros j p s; [reflexivity|].
    change (seq j (S n)) with (j :: seq (S j) n). rewrite fmap_cons.
    change (scan (gc_mark_alloc d m) m (S n) (p + Z.of_nat j) s)
      with (s1 ← gc_mark_alloc d m s (m (p + Z.of_nat j));
            scan (gc_mark_alloc d m) m n (p + Z.of_nat j + 1) s1).
    change (mark_list d m s (m (p + Z.of_nat j) :: ((fun k => m (p + Z.of_nat k)) <$> seq (S j) n)))
      with (s1 ← gc_mark_alloc d m s (m (p + Z.of_nat j));
            mark_list d m s1 ((fun k => m (p + Z.of_nat k)) <$> seq (S j) n)).
    destruct (gc_mark_alloc d m s (m (p + Z.of_nat j))) as [s1|]; [|reflexivity].
    change (scan (gc_mark_alloc d m) m n (p + Z.of_nat j + 1) s1 =
            mark_list d m s1 ((fun k => m (p + Z.of_nat k)) <$> seq (S j) n)).
    rewrite <- (IH (S j) p s1). f_equal. lia. }
  intros n p s. rewrite <- (H n 0%nat p s). f_equal. simpl. lia.
Qed.

Lemma elem_of_words m p n q :
  q ∈ words m p n <-> exists k, 0 <= k < Z.of_nat n /\ q = m (p + k).
Proof.
  unfold words. rewrite list_elem_of_fmap. split.
  - intros (j & -> & Hj). apply elem_of_seq in Hj. exists (Z.of_nat j). split; [lia | reflexivity].
  - intros (k & Hk & ->). exists (Z.to_nat k). split; [f_equal; lia|].
    apply elem_of_seq. lia.
Qed.

Lemma gc_mark_alloc_spec m G : forall d s p,
  wf s G -> (unmarked (heap s) (concat G) <= d)%nat ->
  exists s', gc_mark_alloc d m s p = Some s' /\ mark_spec m G (eq p) s s'.
Proof.
  induction d as [|d IH]; intros s p Hwf Hu;
    pose proof Hwf as (Hrep & Hix & Hkeys);
    destruct (get_total s G p Hrep) as (r & Hget);
    simpl; rewrite Hget; simpl;
    (destruct r as [a|];
     [|exists s; split; [reflexivity|]; apply mark_spec_nothing;
       intros a Ha Hp; exfalso;
       exact (get_None_inv s G p a Hwf Hget Ha (eq_sym Hp))]);
    destruct (get_Some_inv s G p a Hrep Hget) as [Ha Hpa];
    destruct (rep_addr_live s G a Hrep Ha) as (c & Hc);
    rewrite (read_live _ _ _ _ Hc); simpl;
    assert (Hrc : rec_at (heap s) a = c) by (unfold rec_at; rewrite Hc; reflexivity);
    assert (Huniq : forall a', a' ∈ concat G -> p = ptr_at (heap s) a' -> a' = a)
      by (intros a' Ha' Hp';
          apply (NoDup_fmap_inj (ptr_at (heap s)) (concat G) a' a Hkeys Ha' Ha); congruence);
    (destruct (Z.land (tag c) GC_TAG_MARK =? 0) eqn:E;
     [apply Z.eqb_eq in E
     |exists s; split; [reflexivity|]; apply mark_spec_nothing;
      intros a' Ha' Hp'; rewrite (Huniq a' Ha' Hp');
      unfold marked; rewrite Hrc; apply Z.eqb_neq; exact E]);
    pose proof (unmarked_mark (heap s) a c (concat G) (rep_nodup _ _ Hrep) Ha Hc E) as Hdec.
  - exfalso. lia.
  - rewrite (write_live _ _ _ _ _ Hc). simpl.
    set (c3 := set_tag (Z.lor (tag c) GC_TAG_MARK) c).
    set (s3 := set_heap (<[a := Cell true c3]> (heap s)) s).
    assert (Hwf3 : wf s3 G) by (apply (wf_set_fields s G a c c3 Hwf Hc); reflexivity).
    assert (Hom3 : only_marks (heap s) (heap s3)).
    { split; [simpl; apply length_insert|]. intros b lv cb Hb. simpl.
      destruct (decide (a = b)) as [<- | Hne].
      - rewrite Hc in Hb. injection Hb as <- <-.
        exists (Z.lor (tag c) GC_TAG_MARK).
        split; [|right; reflexivity].
        apply list_lookup_insert_eq. eapply lookup_lt_Some; eauto.
      - exists (tag cb). rewrite list_lookup_insert_ne by exact Hne.
        split; [rewrite Hb; destruct cb; reflexivity | left; reflexivity]. }
    assert (Hm3 : marked (heap s3) a).
    { unfold marked. simpl. rewrite rec_at_insert_eq by (eapply lookup_lt_Some; eauto).
      apply mark_bit_set. }
    assert (Hu3 : (unmarked (heap s3) (concat G) <= d)%nat).
    { simpl. unfold c3. lia. }
    rewrite scan_words.
    destruct (mark_list_spec m G d IH (words m (ptr c) (Z.to_nat (size c))) s3 Hwf3 Hu3)
      as (s' & Hrun & Ham & Huaf & Hom & Hroots & Hnew).
    exists s'. split; [exact Hrun|].
    split; [exact Ham|]. split; [exact Huaf|].
    split; [eapply only_marks_trans; eauto|]. split.
    + intros a' Ha' Hp'. rewrite (Huniq a' Ha' Hp').
      apply (only_marks_marked _ _ _ Hom). exact Hm3.
    + intros a' Ha' Hm' Hnm.
      assert (Hpts : forall b, b ∈ concat G -> points m (heap s) a b -> marked (heap s') b).
      { intros b Hb (k & Hk & Hpb). apply Hroots; [exact Hb|].
        rewrite (only_marks_ptr _ _ _ Hom3), Hpb. apply elem_of_words.
        rewrite Hrc in Hk. exists k. split; [lia|].
        unfold ptr_at. rewrite Hrc. reflexivity. }
      assert (Hra : reach_from m (heap s) (concat G) (eq p) a)
        by (apply rf_root; [exact Ha | symmetry; exact Hpa]).
      destruct (decide (a' = a)) as [-> | Hne].
      * split; [exact Hpts | exact Hra].
      * assert (Hnm3 : ~ marked (heap s3) a').
        { unfold marked. simpl. rewrite rec_at_insert_ne by congruence. exact Hnm. }
        destruct (Hnew a' Ha' Hm' Hnm3) as [Hcl Hre]. split.
        -- intros b Hb Hpt. apply Hcl; [exact Hb|].
           apply (only_marks_points m _ _ a' b Hom3). exact Hpt.
        -- apply (reach_from_transfer m (heap s) (heap s3) (concat G)
                    (fun q => q ∈ words m (ptr c) (Z.to_nat (size c))) (eq p) a' Hom3);
             [|exact Hre].
           intros b Hb Hw. apply elem_of_words in Hw as (k & Hk & Hpb).
           eapply rf_step; [exact Hra | exact Hb|].
           exists k. rewrite Hrc. split; [lia|].
           rewrite <- (only_marks_ptr _ _ _ Hom3), Hpb.
           unfold ptr_at. rewrite Hrc. reflexivity.
Qed.

Lemma only_marks_rooted h h' a : only_marks h h' -> (rooted h' a <-> rooted h a).
Proof.
  intros H. destruct (only_marks_rec h h' a H) as (t & Hr & Ht).
  unfold rooted. rewrite Hr. simpl.
  destruct Ht as [-> | ->]; [reflexivity | rewrite mark_bit_root; reflexivity].
Qed.

Lemma only_marks_lseg h h' x l y : only_marks h h' -> lseg h x l y -> lseg h' x l y.
Proof.
  intros Hom Hl. eapply lseg_ext; [exact Hl|]. intros b cb _ Hb.
  destruct (proj2 Hom b true cb Hb) as (t & Hb' & _).
  exists (set_tag t cb). split; [exact Hb' | reflexivity].
Qed.

Lemma unmarked_heap s G : rep s G -> (unmarked (heap s) (concat G) <= length (heap s))%nat.
Proof.
  intros Hrep. etransitivity; [apply unmarked_le|].
  apply NoDup_bounded_length; [exact (rep_nodup _ _ Hrep)|].
  intros a Ha. eapply rep_addr_lt; eauto.
Qed.

Lemma gc_mark_alloc_heap m G s p :
  wf s G ->
  exists s', gc_mark_alloc (length (heap s)) m s p = Some s' /\
             mark_spec m G (eq p) s s'.
Proof.
  intros Hwf. apply gc_mark_alloc_spec; [exact Hwf|].
  apply unmarked_heap. exact (proj1 Hwf).
Qed.

Lemma mark_roots_chain_spec m G s0 : forall l fuel (ps : Z -> Prop) s x,
  wf s0 G -> mark_spec m G ps s0 s ->
  chain (heap s0) x l -> (forall a, a ∈ l -> a ∈ concat G) ->
  (length l <= fuel)%nat ->
  exists s',
    mark_roots_chain fuel m s x = Some s' /\
    mark_spec m G (fun p => ps p \/ root_ptrs (heap s0) l p) s0 s'.
Proof.
  induction l as [|a l IH]; intros fuel ps s x Hwf0 Hsp Hch Hsub Hfuel.
  - inversion Hch; subst. exists s. split; [destruct fuel; reflexivity|].
    eapply mark_spec_equiv; [|exact Hsp].
    intros p. split; [auto|]. intros [H | (a & Ha & _)]; [exact H | inversion Ha].
  - inversion Hch as [|a' c l' y Hc Hrest]; subst.
    destruct fuel as [|fuel]; [simpl in Hfuel; lia|].
    pose proof Hsp as (Ham & Huaf & Hom & _).
    pose proof (mark_spec_wf _ _ _ _ _ Hwf0 Hsp) as Hwf.
    destruct (proj2 Hom a true c Hc) as (t & Hc' & Ht).
    assert (Hrc0 : rec_at (heap s0) a = c) by (unfold rec_at; rewrite Hc; reflexivity).
    simpl. rewrite (read_live _ _ _ _ Hc'). simpl.
    assert (Hroot : Z.land t GC_TAG_ROOT = Z.land (tag c) GC_TAG_ROOT).
    { destruct Ht as [-> | ->]; [reflexivity | apply mark_bit_root]. }
    rewrite Hroot.
    destruct (Z.land (tag c) GC_TAG_ROOT =? 0) eqn:E.
    + apply Z.eqb_eq in E. simpl.
      rewrite (read_live _ _ _ _ Hc'). simpl.
      destruct (IH fuel ps s (next c) Hwf0 Hsp Hrest) as (s' & Hrun & Hs').
      { intros b Hb. apply Hsub. right. exact Hb. }
      { simpl in Hfuel. lia. }
      exists s'. split; [exact Hrun|].
      eapply mark_spec_equiv; [|exact Hs'].
      intros p. split; intros [H | (b & Hb & Hrb & Hpb)]; auto.
      * right. exists b. split; [right; exact Hb | auto].
      * apply elem_of_cons in Hb as [-> | Hb].
        -- exfalso. apply Hrb. unfold rooted. rewrite Hrc0. exact E.
        -- right. exists b. auto.
    + apply Z.eqb_neq in E.
      destruct (gc_mark_alloc_heap m G s (ptr c) Hwf) as (s2 & Hrun2 & Hs2).
      simpl. rewrite Hrun2. simpl.
      pose proof (mark_spec_trans m G _ _ _ _ _ Hsp Hs2) as Hsp2.
      pose proof Hsp2 as (_ & _ & Hom2 & _).
      destruct (proj2 Hom2 a true c Hc) as (t2 & Hc2 & _).
      rewrite (read_live _ _ _ _ Hc2). simpl.
      destruct (IH fuel _ s2 (next c) Hwf0 Hsp2 Hrest) as (s' & Hrun & Hs').
      { intros b Hb. apply Hsub. right. exact Hb. }
      { simpl in Hfuel. lia. }
      exists s'. split; [exact Hrun|].
      eapply mark_spec_equiv; [|exact Hs'].
      assert (Hpa : ptr_at (heap s0) a = ptr c) by (eapply ptr_at_lookup; eauto).
      intros p. split.
      * intros [[H | <-] | (b & Hb & Hrb & Hpb)]; auto.
        -- right. exists a. split; [left|]. split; [|congruence].
           unfold rooted. rewrite Hrc0. exact E.
        -- right. exists b. split; [right; exact Hb | auto].
      * intros [H | (b & Hb & Hrb & Hpb)]; auto.
        apply elem_of_cons in Hb as [-> | Hb].
        -- left. right. congruence.
        -- right. exists b. auto.
Qed.

Lemma mark_roots_buckets_spec m G s0 : forall n i (ps : Z -> Prop) s,
  wf s0 G -> mark_spec m G ps s0 s ->
  (i + n = length G)%nat ->
  exists s',
    mark_roots_buckets n i m s = Some s' /\
    mark_spec m G (fun p => ps p \/ root_ptrs (heap s0) (concat (drop i G)) p) s0 s'.
Proof.
  induction n as [|n IH]; intros i ps s Hwf0 Hsp Hin.
  - exists s. split; [reflexivity|].
    eapply mark_spec_equiv; [|exact Hsp].
    rewrite drop_ge by lia. simpl.
    intros p. split; [auto|]. intros [H | (a & Ha & _)]; [exact H | inversion Ha].
  - pose proof Hsp as (Ham & _ & Hom & _).
    pose proof (rep_chains _ _ (proj1 Hwf0)) as Hch.
    destruct (lookup_lt_is_Some_2 G i ltac:(lia)) as [l Hl].
    destruct (Forall2_lookup_r _ _ _ _ _ Hch Hl) as (x & Hx & Hxl).
    simpl. rewrite Ham, Hx. simpl.
    destruct (mark_roots_chain_spec m G s0 l (length (heap s)) ps s x Hwf0 Hsp Hxl)
      as (s1 & Hrun1 & Hs1).
    { intros a Ha. eapply elem_of_concat_lookup; eauto. }
    { rewrite (proj1 Hom).
      apply (chain_length (heap s0) x l Hxl).
      eapply NoDup_concat_lookup; [exact (rep_nodup _ _ (proj1 Hwf0)) | exact Hl]. }
    rewrite Hrun1. simpl.
    destruct (IH (S i) _ s1 Hwf0 Hs1 ltac:(lia)) as (s' & Hrun & Hs').
    exists s'. split; [exact Hrun|].
    eapply mark_spec_equiv; [|exact Hs'].
    rewrite (drop_S G l i Hl). simpl.
    intros p. split.
    + intros [[H | (a & Ha & Hr)] | (a & Ha & Hr)]; auto.
      * right. exists a. split; [apply elem_of_app; left; exact Ha | exact Hr].
      * right. exists a. split; [apply elem_of_app; right; exact Ha | exact Hr].
    + intros [H | (a & Ha & Hr)]; auto.
      apply elem_of_app in Ha as [Ha | Ha].
      * left. right. exists a. auto.
      * right. exists a. auto.
Qed.

Lemma gc_mark_roots_spec w G :
  wf (store w) G ->
  exists s',
    gc_mark_roots w = Some (set_store s' w) /\
    mark_spec (mem w) G (root_ptrs (heap (store w)) (concat G)) (store w) s'.
Proof.
  intros Hwf.
  destruct (mark_roots_buckets_spec (mem w) G (store w)
              (Z.to_nat (capacity (amap (store w)))) 0 (fun _ => False) (store w) Hwf)
    as (s' & Hrun & Hs').
  - apply mark_spec_nothing. intros a _ [].
  - pose proof (Forall2_length _ _ _ (rep_chains _ _ (proj1 Hwf))) as Hlen.
    rewrite (rep_len _ _ (proj1 Hwf)) in Hlen. lia.
  - exists s'. unfold gc_mark_roots. rewrite Hrun. split; [reflexivity|].
    eapply mark_spec_equiv; [|exact Hs']. rewrite drop_0.
    intros p. split; [intros [[] | H]; exact H | auto].
Qed.

Lemma gc_mark_stack_spec w G :
  wf (store w) G ->
  exists s',
    gc_mark_stack w = Some (set_store s' w) /\
    mark_spec (mem w) G (stack_word w) (store w) s'.
Proof.
  intros Hwf. unfold gc_mark_stack.
  set (lo := Z.min (tos w) (bos (gc w))).
  set (hi := Z.max (tos w) (bos (gc w))).
  assert (Hscan : (let '(t, b) := if tos w >? bos (gc w)
                     then (bos (gc w), tos w) else (tos w, bos (gc w)) in
           s ← scan (gc_mark_alloc (length (heap (store w))) (mem w)) (mem w)
                 (Z.to_nat (b - t)) t (store w);
           Some (set_store s w)) =
          (s ← mark_list (length (heap (store w))) (mem w) (store w)
                 (words (mem w) lo (Z.to_nat (hi - lo)));
           Some (set_store s w))).
  { unfold lo, hi. destruct (Z.gtb_spec (tos w) (bos (gc w))).
    - rewrite Z.min_r, Z.max_l by lia. rewrite scan_words. reflexivity.
    - rewrite Z.min_l, Z.max_r by lia. rewrite scan_words. reflexivity. }
  rewrite Hscan.
  destruct (mark_list_spec (mem w) G (length (heap (store w)))
              (fun s p Hs Hu => gc_mark_alloc_spec (mem w) G _ s p Hs Hu)
              (words (mem w) lo (Z.to_nat (hi - lo))) (store w) Hwf
              (unmarked_heap _ _ (proj1 Hwf)))
    as (s' & Hrun & Hs').
  exists s'. rewrite Hrun. split; [reflexivity|].
  eapply mark_spec_equiv; [|exact Hs'].
  intros p. rewrite elem_of_words. unfold stack_word. fold lo hi. split.
  - intros (k & Hk & ->). exists (lo + k). split; [lia | reflexivity].
  - intros (k & Hk & ->). exists (k - lo). split; [lia | f_equal; lia].
Qed.

Lemma gc_mark_spec w G :
  wf (store w) G ->
  exists s',
    gc_mark w = Some (set_store s' w) /\
    mark_spec (mem w) G
      (fun p => root_ptrs (heap (store w)) (concat G) p \/ stack_word w p)
      (store w) s'.
Proof.
  intros Hwf.
  destruct (gc_mark_roots_spec w G Hwf) as (s1 & Hrun1 & Hs1).
  pose proof (mark_spec_wf _ _ _ _ _ Hwf Hs1) as Hwf1.
  destruct (gc_mark_stack_spec (set_store s1 w) G Hwf1) as (s2 & Hrun2 & Hs2).
  exists s2. unfold gc_mark. rewrite Hrun1. simpl. rewrite Hrun2.
  split; [destruct w as [[s pz b] e m t q ev]; reflexivity|].
  exact (mark_spec_trans _ _ _ _ _ _ _ Hs1 Hs2).
Qed.

Lemma entry_content s q r :
  entry s q = Some (Some r) ->
  exists a c, heap s !! a = Some c /\ r = set_next None (content c).
Proof.
  unfold entry. intros H.
  destruct (gc_allocation_map_get s q) as [[[a|] s1]|]; simpl in H; try discriminate.
  destruct (heap s !! a) as [c|] eqn:E; simpl in H; [|discriminate].
  exists a, c. split; [exact E | congruence].
Qed.

Lemma clean_heap_unmarked s :
  Forall (fun c => Z.land (tag (content c)) GC_TAG_MARK = 0) (heap s) ->
  forall q, ~ marked_key s q.
Proof.
  intros Hall q (r & He & Hm).
  destruct (entry_content s q r He) as (a & c & Hc & ->).
  rewrite Forall_lookup in Hall. apply Hm. simpl. exact (Hall a c Hc).
Qed.

Lemma marked_key_iff s G q :
  wf s G ->
  marked_key s q <->
  exists a, a ∈ concat G /\ ptr_at (heap s) a = q /\ marked (heap s) a.
Proof.
  intros Hwf. split.
  - intros (r & He & Hm).
    destruct (entry_Some_inv s G q r Hwf He) as (a & Ha & Hp & -> & _).
    exists a. auto.
  - intros (a & Ha & Hp & Hm).
    exists (set_next None (rec_at (heap s) a)).
    split; [rewrite <- Hp; apply (entry_found s G a Hwf Ha) | exact Hm].
Qed.

Lemma root_key_iff s G q :
  wf s G -> root_key s q <-> root_ptrs (heap s) (concat G) q.
Proof.
  intros Hwf. split.
  - intros (r & He & Hm).
    destruct (entry_Some_inv s G q r Hwf He) as (a & Ha & Hp & -> & _).
    exists a. auto.
  - intros (a & Ha & Hm & ->).
    exists (set_next None (rec_at (heap s) a)).
    split; [apply (entry_found s G a Hwf Ha) | exact Hm].
Qed.

Lemma reaches_iff m s G (roots : Z -> Prop) q :
  wf s G ->
  reaches m s roots q <->
  exists a, a ∈ concat G /\ ptr_at (heap s) a = q /\
            reach_from m (heap s) (concat G) roots a.
Proof.
  intros Hwf. split.
  - intros Hr. induction Hr as [q r Hroot He | q r k r' _ IH He Hk He'].
    + destruct (entry_Some_inv s G q r Hwf He) as (a & Ha & Hp & _).
      exists a. split; [exact Ha|]. split; [exact Hp|].
      apply rf_root; [exact Ha | rewrite Hp; exact Hroot].
    + destruct IH as (a & Ha & Hp & Hra).
      destruct (entry_Some_inv s G _ r' Hwf He') as (b & Hb & Hpb & _).
      exists b. split; [exact Hb|]. split; [exact Hpb|].
      eapply rf_step; [exact Hra | exact Hb|].
      exists k. rewrite Hp, Hpb. split; [|reflexivity].
      pose proof (entry_found s G a Hwf Ha) as Hf. rewrite Hp, He in Hf.
      injection Hf as ->. exact Hk.
  - intros (a & Ha & Hp & Hra). subst q. clear Ha.
    induction Hra as [a Ha Hroot | a b Hra IH Hb (k & Hk & Hpt)].
    + eapply reaches_root; [exact Hroot | apply (entry_found s G a Hwf Ha)].
    + assert (Ha : a ∈ concat G) by (destruct Hra; assumption).
      rewrite Hpt.
      eapply (reaches_word m s roots _ _ k).
      * exact IH.
      * apply (entry_found s G a Hwf Ha).
      * exact Hk.
      * rewrite <- Hpt. apply (entry_found s G b Hwf Hb).
Qed.

Lemma entry_only_marks s s' G q :
  wf s G -> only_marks (heap s) (heap s') -> amap s' = amap s ->
  match entry s q with
  | Some (Some r) =>
      exists t, entry s' q = Some (Some (set_tag t r)) /\
                (t = tag r \/ t = Z.lor (tag r) GC_TAG_MARK)
  | _ => entry s' q = entry s q
  end.
Proof.
  intros Hwf Hom Ham.
  pose proof (only_marks_wf s s' G Hwf Hom Ham) as Hwf'.
  destruct (key_cases s G q Hwf) as [(a & Ha & Hp) | Hno].
  - pose proof (entry_found s G a Hwf Ha) as He. rewrite Hp in He. rewrite He.
    destruct (only_marks_rec _ _ a Hom) as (t & Hr & Ht).
    exists t. split; [|exact Ht].
    pose proof (entry_found s' G a Hwf' Ha) as He'.
    rewrite (only_marks_ptr _ _ _ Hom), Hp, Hr in He'. exact He'.
  - rewrite (entry_missing s G q Hwf Hno).
    apply (entry_missing s' G q Hwf').
    intros a Ha. rewrite (only_marks_ptr _ _ _ Hom). apply Hno. exact Ha.
Qed.

Lemma gc_mark_keys w :
  well_formed (store w) ->
  exists s',
    gc_mark w = Some (set_store s' w) /\
    well_formed s' /\
    amap s' = amap (store w) /\ uaf s' = uaf (store w) /\
    (forall q, entry (store w) q = Some None -> entry s' q = Some None) /\
    (forall q r, entry (store w) q = Some (Some r) ->
       exists t, entry s' q = Some (Some (set_tag t r)) /\
                 (t = tag r \/ t = Z.lor (tag r) GC_TAG_MARK)) /\
    ((forall q, ~ marked_key (store w) q) ->
     forall q, marked_key s' q <-> reaches (mem w) (store w) (gc_roots w) q).
Proof.
  intros (G & Hwf).
  destruct (gc_mark_spec w G Hwf) as (s' & Hrun & Hs').
  pose proof Hs' as (Ham & Huaf & Hom & Hroots & Hnew).
  pose proof (mark_spec_wf _ _ _ _ _ Hwf Hs') as Hwf'.
  exists s'. split; [exact Hrun|].
  split; [exists G; exact Hwf'|].
  split; [exact Ham|]. split; [exact Huaf|]. split; [|split].
  - intros q Hq. pose proof (entry_only_marks _ s' G q Hwf Hom Ham) as H.
    rewrite Hq in H. exact H.
  - intros q r Hq. pose proof (entry_only_marks _ s' G q Hwf Hom Ham) as H.
    rewrite Hq in H. exact H.
  - intros Hclean.
    assert (Hnm : forall a, a ∈ concat G -> ~ marked (heap (store w)) a).
    { intros a Ha Hm. apply (Hclean (ptr_at (heap (store w)) a)).
      apply (marked_key_iff _ G _ Hwf). exists a. auto. }
    set (rs := fun p => root_ptrs (heap (store w)) (concat G) p \/ stack_word w p) in *.
    assert (Hrs : forall p, rs p <-> gc_roots w p).
    { intros p. unfold rs, gc_roots. rewrite (root_key_iff _ G p Hwf). tauto. }
    intros q. rewrite (marked_key_iff s' G q Hwf').
    rewrite (reaches_iff (mem w) (store w) G (gc_roots w) q Hwf).
    split.
    + intros (a & Ha & Hp & Hm). exists a. split; [exact Ha|].
      split; [rewrite <- (only_marks_ptr _ _ _ Hom); exact Hp|].
      eapply reach_from_mono; [|exact (proj2 (Hnew a Ha Hm (Hnm a Ha)))].
      intros p. apply Hrs.
    + intros (a & Ha & Hp & Hr). exists a. split; [exact Ha|].
      split; [rewrite (only_marks_ptr _ _ _ Hom); exact Hp|].
      clear Hp Ha. induction Hr as [a Ha Hroot | a b Hra IH Hb Hpt].
      * apply Hroots; [exact Ha | apply Hrs; exact Hroot].
      * assert (Ha : a ∈ concat G) by (destruct Hra; assumption).
        exact (proj1 (Hnew a Ha IH (Hnm a Ha)) b Hb Hpt).
Qed.

(** The mark phase sets MARK bits and does nothing else: the map, the
    links, the log of accesses to released records, the trace of events
    and the state of the system allocator are as before, every key that
    was absent is absent, and the record of every other key differs at
    most by a MARK bit that has been set (its ROOT bit included, nothing
    else has changed).  The phase ends on every well-formed registry. *)
Theorem gc_mark_only_sets_marks w :
  well_formed (store w) ->
  exists s',
    gc_mark w = Some (set_store s' w) /\
    well_formed s' /\
    amap s' = amap (store w) /\ uaf s' = uaf (store w) /\
    (forall q, entry (store w) q = Some None -> entry s' q = Some None) /\
    (forall q r, entry (store w) q = Some (Some r) ->
       exists t, entry s' q = Some (Some (set_tag t r)) /\
                 (t = tag r \/ t = Z.lor (tag r) GC_TAG_MARK)).
Proof.
  intros Hwf.
  destruct (gc_mark_keys w Hwf) as (s' & Hrun & Hwf' & Ham & Hu & Hn & Hs & _).
  exists s'. auto 8.
Qed.

Lemma gc_mark_only_sets_marks_witness :
  well_formed (store two_on_stack) /\
  exists s',
    gc_mark two_on_stack = Some (set_store s' two_on_stack) /\
    well_formed s' /\
    amap s' = amap (store two_on_stack) /\ uaf s' = uaf (store two_on_stack) /\
    (forall q, entry (store two_on_stack) q = Some None -> entry s' q = Some None) /\
    (forall q r, entry (store two_on_stack) q = Some (Some r) ->
       exists t, entry s' q = Some (Some (set_tag t r)) /\
                 (t = tag r \/ t = Z.lor (tag r) GC_TAG_MARK)).
Proof.
  assert (H : well_formed (store two_on_stack))
    by (exists two_records_chains; exact two_records_wf).
  split; [exact H | exact (gc_mark_only_sets_marks two_on_stack H)].
Defined.

(** Started on a registry in which no record is marked, the mark phase
    marks exactly the registered pointers that are reached from a word of
    the stack between its top and the recorded bottom, or from a record
    tagged ROOT, through the words found at the byte offsets of the
    registered blocks. *)
Theorem gc_mark_marks_reachable w :
  well_formed (store w) ->
  (forall q, ~ marked_key (store w) q) ->
  exists w',
    gc_mark w = Some w' /\
    forall q, marked_key (store w') q <-> reaches (mem w) (store w) (gc_roots w) q.
Proof.
  intros Hwf Hclean.
  destruct (gc_mark_keys w Hwf) as (s' & Hrun & _ & _ & _ & _ & _ & Hiff).
  exists (set_store s' w). split; [exact Hrun | exact (Hiff Hclean)].
Qed.

Lemma gc_mark_marks_reachable_witness :
  well_formed (store two_on_stack) /\
  (forall q, ~ marked_key (store two_on_stack) q) /\
  exists w',
    gc_mark two_on_stack = Some w' /\
    forall q, marked_key (store w') q <->
              reaches (mem two_on_stack) (store two_on_stack) (gc_roots two_on_stack) q.
Proof.
  assert (H : well_formed (store two_on_stack))
    by (exists two_records_chains; exact two_records_wf).
  assert (Hc : forall q, ~ marked_key (store two_on_stack) q).
  { apply clean_heap_unmarked. repeat constructor. }
  split; [exact H|]. split; [exact Hc|].
  exact (gc_mark_marks_reachable two_on_stack H Hc).
Defined.

(* ===================================================================== *)
(** * The sweep phase on a map at its floor *)

Lemma clear_mark_unmarked r :
  Z.land (tag r) GC_TAG_MARK = 0 -> clear_mark r = r.
Proof.
  intros H. unfold clear_mark.
  assert (Z.land (tag r) (Z.lnot GC_TAG_MARK) = tag r) as ->.
  { rewrite <- Z.ldiff_land.
    rewrite <- (Z.lor_ldiff_and (tag r) GC_TAG_MARK) at 2.
    rewrite H, Z.lor_0_r. reflexivity. }
  destruct r; reflexivity.
Qed.

Lemma clear_mark_lor t :
  Z.land t GC_TAG_MARK = 0 ->
  Z.land (Z.lor t GC_TAG_MARK) (Z.lnot GC_TAG_MARK) = t.
Proof.
  intros H. rewrite Z.land_lor_distr_l.
  change (Z.land GC_TAG_MARK (Z.lnot GC_TAG_MARK)) with 0. rewrite Z.lor_0_r.
  rewrite <- Z.ldiff_land.
  rewrite <- (Z.lor_ldiff_and t GC_TAG_MARK) at 2.
  rewrite H, Z.lor_0_r. reflexivity.
Qed.

Lemma read_inv k s a r s1 :
  read k s a = Some (r, s1) ->
  heap s1 = heap s /\ amap s1 = amap s /\
  exists lv, heap s !! a = Some (Cell lv r).
Proof.
  unfold read. destruct (heap s !! a) as [[lv c]|]; simpl; [|discriminate].
  intros H. injection H as <- <-.
  destruct lv; simpl; eauto.
Qed.

Lemma write_inv k s a f s1 :
  write k s a f = Some s1 ->
  amap s1 = amap s /\
  exists lv c, heap s !! a = Some (Cell lv c) /\
               heap s1 = <[a := Cell lv (f c)]> (heap s).
Proof.
  unfold write. destruct (heap s !! a) as [[lv c]|]; simpl; [|discriminate].
  intros H. injection H as <-.
  destruct lv; simpl; eauto.
Qed.

Lemma delete_inv s a s1 :
  gc_allocation_delete s a = Some s1 ->
  amap s1 = amap s /\
  exists lv c, heap s !! a = Some (Cell lv c) /\
               heap s1 = <[a := Cell false c]> (heap s).
Proof.
  unfold gc_allocation_delete. destruct (heap s !! a) as [[lv c]|]; simpl; [|discriminate].
  intros H. injection H as <-. simpl. eauto.
Qed.

Lemma ptr_at_insert_any h a c c' lv lv' :
  h !! a = Some (Cell lv c) -> ptr c' = ptr c ->
  forall b, ptr_at (<[a := Cell lv' c']> h) b = ptr_at h b.
Proof.
  intros Hc Hp b. unfold ptr_at, rec_at.
  destruct (decide (a = b)) as [<- | Hne].
  - rewrite list_lookup_insert_eq by (eapply lookup_lt_Some; eauto).
    rewrite Hc. exact Hp.
  - rewrite list_lookup_insert_ne by exact Hne. reflexivity.
Qed.

(** [gc_allocation_map_remove] leaves the contents of the records whose
    key it removes as they are: [next] included. *)
Lemma remove_loop_stale p i : forall fuel s cur prev s',
  remove_loop fuel s i cur prev p = Some s' ->
  (forall pv, prev = Some pv -> ptr_at (heap s) pv <> p) ->
  forall a lv c, heap s !! a = Some (Cell lv c) -> ptr c = p ->
    exists lv', heap s' !! a = Some (Cell lv' c).
Proof.
  induction fuel as [|fuel IH]; intros s cur prev s' Hrun Hprev a lv c Ha Hp.
  - destruct cur; simpl in Hrun; [discriminate|]. injection Hrun as <-. eauto.
  - destruct cur as [cu|]; simpl in Hrun; [|injection Hrun as <-; eauto].
    destruct (read InRemove s cu) as [[r s1]|] eqn:Er; simpl in Hrun; [|discriminate].
    destruct (read_inv _ _ _ _ _ Er) as (Hh1 & Ham1 & lvr & Hcu).
    destruct (ptr r =? p) eqn:E.
    + apply Z.eqb_eq in E.
      destruct (match prev with
                | Some pv => write InRemove s1 pv (set_next (next r))
                | None => Some (set_bucket i (next r) s1)
                end) as [s2|] eqn:E2; simpl in Hrun; [|discriminate].
      assert (H2 : exists lv2, heap s2 !! a = Some (Cell lv2 c) /\
                (forall b, ptr_at (heap s2) b = ptr_at (heap s) b) /\
                exists lvc, heap s2 !! cu = Some (Cell lvc r)).
      { destruct prev as [pv|].
        - destruct (write_inv _ _ _ _ _ E2) as (_ & lvp & cp & Hpv & Hh2).
          rewrite Hh1 in Hpv.
          assert (Hne : forall b cb lb, heap s !! b = Some (Cell lb cb) -> ptr cb = p -> pv <> b).
          { intros b cb lb Hb Hpb ->. apply (Hprev b eq_refl).
            rewrite (ptr_at_lookup _ _ _ _ Hb). exact Hpb. }
          exists lv. rewrite Hh2, Hh1.
          split; [rewrite list_lookup_insert_ne by (eapply Hne; eauto); exact Ha|].
          split; [intros b; apply (ptr_at_insert _ _ _ _ _ Hpv); reflexivity|].
          exists lvr. rewrite list_lookup_insert_ne by (eapply Hne; eauto). exact Hcu.
        - injection E2 as <-. simpl. rewrite Hh1. eauto. }
      destruct H2 as (lv2 & Ha2 & Hptr2 & lvc & Hcu2).
      destruct (gc_allocation_delete s2 cu) as [s3|] eqn:E3; simpl in Hrun; [|discriminate].
      destruct (delete_inv _ _ _ E3) as (_ & lv3 & c3 & Hcu3 & Hh3).
      rewrite Hcu2 in Hcu3. injection Hcu3 as <- <-.
      set (s4 := set_amap _ s3) in Hrun.
      destruct (read RemoveAdvance s4 cu) as [[r1 s5]|] eqn:Er5; simpl in Hrun; [|discriminate].
      destruct (read_inv _ _ _ _ _ Er5) as (Hh5 & _ & _).
      assert (Hh53 : heap s5 = <[cu := Cell false r]> (heap s2))
        by (rewrite Hh5; unfold s4; simpl; exact Hh3).
      assert (Ha5 : exists lv5, heap s5 !! a = Some (Cell lv5 c)).
      { rewrite Hh53. destruct (decide (cu = a)) as [-> | Hne].
        - rewrite Ha2 in Hcu2. injection Hcu2 as _ <-.
          exists false. apply list_lookup_insert_eq. eapply lookup_lt_Some; eauto.
        - exists lv2. rewrite list_lookup_insert_ne by exact Hne. exact Ha2. }
      destruct Ha5 as (lv5 & Ha5).
      apply (IH s5 (next r1) prev s' Hrun) with (lv := lv5); [|exact Ha5 | exact Hp].
      intros pv Hpv. rewrite Hh53.
      rewrite (ptr_at_insert_any _ _ _ r lvc false Hcu2 eq_refl), Hptr2.
      apply Hprev. exact Hpv.
    + apply Z.eqb_neq in E. simpl in Hrun.
      destruct (read RemoveAdvance s1 cu) as [[r1 s5]|] eqn:Er5; simpl in Hrun; [|discriminate].
      destruct (read_inv _ _ _ _ _ Er5) as (Hh5 & _ & _).
      apply (IH s5 (next r1) (Some cu) s' Hrun) with (lv := lv).
      * intros pv Hpv. injection Hpv as <-. rewrite Hh5, Hh1.
        rewrite (ptr_at_lookup _ _ _ _ Hcu). exact E.
      * rewrite Hh5, Hh1. exact Ha.
      * exact Hp.
Qed.

Lemma remove_at_floor s G i l p :
  wf s G -> at_floor (amap s) ->
  G !! i = Some l -> bucket_index (amap s) p = i ->
  exists s',
    gc_allocation_map_remove s p = Some s' /\
    wf s' (<[i := keep (heap s) p l]> G) /\
    fields (heap s') = fields (heap s) /\
    capacity (amap s') = capacity (amap s) /\
    same_config (amap s) (amap s') /\
    am_size (amap s') =
      decr (length l - length (keep (heap s) p l)) (am_size (amap s)) /\
    (forall a lv c, heap s !! a = Some (Cell lv c) -> ptr c = p ->
       exists lv', heap s' !! a = Some (Cell lv' c)).
Proof.
  intros (Hrep & Hix & Hkeys) Hfloor Hl Hi. subst i.
  set (i := bucket_index (amap s) p) in *.
  set (h := heap s) in *.
  destruct (rep_bucket s G p Hrep) as (x & l' & Hx & Hl' & Hc & Hndl & Hlenl).
  fold i in Hx, Hl'. fold h in Hlenl, Hc. rewrite Hl in Hl'. injection Hl' as <-.
  pose proof (rep_cap _ _ Hrep) as Hcap.
  destruct (remove_loop_spec p i l (length h) s x None [] x)
    as (s1 & hd' & Hrun & Hch & Hall & Hsz & Hcp & Hcfg & Hfr & Hfl & Hlen);
    [exact Hx | constructor | exact Hc | reflexivity | exact Hndl | exact Hlenl |].
  fold h in Hch, Hsz, Hfr, Hfl, Hlen. simpl in Hch, Hfr.
  set (G1 := <[i := keep h p l]> G).
  destruct (concat_insert_perm G i l (keep h p l) Hl) as (rest & Hp1 & Hp2).
  fold G1 in Hp2.
  assert (Hptr : forall a, ptr_at (heap s1) a = ptr_at h a).
  { intros a. apply ptr_at_fields. exact Hfl. }
  assert (Hwf1 : wf s1 G1).
  { split; [|split].
    - constructor.
      + rewrite Hall. unfold G1.
        eapply (rep_frame h (heap s1)); [exact (rep_chains _ _ Hrep) | exact (rep_nodup _ _ Hrep) | exact Hl | | exact Hch].
        intros a _ Ha. apply Hfr. exact Ha.
      + rewrite Hp2. pose proof (rep_nodup _ _ Hrep) as Hnd. rewrite Hp1 in Hnd.
        apply NoDup_app in Hnd as (Hnd1 & Hd & Hnd2).
        apply NoDup_app. split; [apply NoDup_filter; exact Hnd1|]. split; [|exact Hnd2].
        intros a Ha. apply Hd. unfold keep in Ha. apply list_elem_of_filter in Ha. tauto.
      + rewrite Hall, length_insert, Hcp. exact (rep_len _ _ Hrep).
      + rewrite Hcp. exact Hcap.
    - intros j lj a Hj Ha. unfold bucket_index. rewrite Hcp, Hptr.
      unfold G1 in Hj. destruct (decide (i = j)) as [<- | Hne].
      + rewrite list_lookup_insert_eq in Hj by (eapply lookup_lt_Some; eauto).
        injection Hj as <-. unfold keep in Ha. apply list_elem_of_filter in Ha as [_ Ha].
        apply (Hix i l a Hl Ha).
      + rewrite list_lookup_insert_ne in Hj by exact Hne. apply (Hix j lj a Hj Ha).
    - unfold keys_ok in *. rewrite Hp2. rewrite Hp1 in Hkeys.
      rewrite (fmap_ext_in (ptr_at (heap s1)) (ptr_at h)) by (intros; apply Hptr).
      eapply sublist_NoDup; [exact Hkeys|].
      apply fmap_sublist. apply sublist_app; [apply sublist_filter | reflexivity]. }
  exists s1.
  assert (Hrun1 : gc_allocation_map_remove s p = Some s1).
  { unfold gc_allocation_map_remove.
    destruct (Z.leb_spec (capacity (amap s)) 0); [lia|].
    fold i. rewrite Hx. simpl. fold h. rewrite Hrun. simpl.
    destruct (Qltb _ _); [|reflexivity].
    apply resize_noop. destruct Hcfg as (Hmin & _).
    rewrite Hcp, Hmin. exact Hfloor. }
  split; [exact Hrun1|]. split; [exact Hwf1|]. split; [exact Hfl|].
  split; [exact Hcp|]. split; [exact Hcfg|]. split; [exact Hsz|].
  intros a lv c Ha Hp.
  apply (remove_loop_stale p i (length h) s x None s1 Hrun) with (lv := lv);
    [discriminate | exact Ha | exact Hp].
Qed.

Lemma emit_nil w : emit [] w = w.
Proof. destruct w. unfold emit. simpl. rewrite app_nil_r. reflexivity. Qed.

Lemma emit_emit l1 l2 w : emit l2 (emit l1 w) = emit (l1 ++ l2) w.
Proof. unfold emit. simpl. rewrite app_assoc. reflexivity. Qed.

Lemma set_store_emit s l w : set_store s (emit l w) = emit l (set_store s w).
Proof. reflexivity. Qed.

Lemma set_store_set_store s s' w : set_store s (set_store s' w) = set_store s w.
Proof. reflexivity. Qed.

Lemma store_emit l w : store (emit l w) = store w.
Proof. reflexivity. Qed.

Lemma store_set_store s w : store (set_store s w) = s.
Proof. reflexivity. Qed.

Lemma release_emit c w :
  add_event (EvFree (ptr c))
    match dtor c with
    | Some f => add_event (EvDtor f (ptr c)) w
    | None => w
    end = emit (release_events c) w.
Proof.
  unfold release_events, emit, add_event.
  destruct (dtor c); simpl; rewrite <- ?app_assoc; reflexivity.
Qed.

Lemma read_any k s a lv c :
  heap s !! a = Some (Cell lv c) ->
  exists s', read k s a = Some (c, s') /\ heap s' = heap s /\ amap s' = amap s /\
             forall G, wf s G -> wf s' G.
Proof.
  intros Hc. unfold read. rewrite Hc. simpl. destruct lv.
  - exists s. auto.
  - exists (log_uaf k a s). split; [reflexivity|]. split; [reflexivity|].
    split; [reflexivity|]. intros G. apply wf_log_uaf.
Qed.

Lemma fields_rec_all h h' :
  fields h' = fields h ->
  forall a, set_next None (rec_at h' a) = set_next None (rec_at h a).
Proof.
  intros He a. apply (f_equal (fun l => l !! a)) in He.
  unfold fields in He. rewrite !list_lookup_fmap in He. unfold rec_at.
  destruct (h' !! a); destruct (h !! a); simpl in He; congruence.
Qed.

Lemma lseg_head h h' l : forall y y',
  lseg h y l None -> lseg h' y' l None -> y = y'.
Proof.
  intros y y' H H'. destruct l.
  - inversion H; inversion H'; congruence.
  - inversion H; inversion H'; congruence.
Qed.

Lemma keep_unique h l1 a l2 :
  NoDup (ptr_at h <$> l1 ++ a :: l2) ->
  keep h (ptr_at h a) (l1 ++ a :: l2) = l1 ++ l2.
Proof.
  intros Hnd. unfold keep. rewrite filter_app, filter_cons.
  destruct (decide (ptr_at h a <> ptr_at h a)) as [Hne | _]; [contradiction|].
  rewrite fmap_app, fmap_cons in Hnd.
  apply NoDup_app in Hnd as (_ & Hd & Hnd2). apply NoDup_cons in Hnd2 as [Hni _].
  f_equal; apply filter_all.
  - intros b Hb Heq. apply (Hd (ptr_at h b)).
    + apply list_elem_of_fmap. eauto.
    + rewrite Heq. left.
  - intros b Hb Heq. apply Hni. rewrite <- Heq.
    apply list_elem_of_fmap. eauto.
Qed.

Lemma dead_cons_dead h a l :
  Z.land (tag (rec_at h a)) GC_TAG_MARK = 0 ->
  dead h (a :: l) = a :: dead h l /\ alive h (a :: l) = alive h l.
Proof.
  intros H. unfold dead, alive. rewrite !filter_cons.
  destruct (decide (Z.land (tag (rec_at h a)) GC_TAG_MARK = 0)); [|contradiction].
  destruct (decide (Z.land (tag (rec_at h a)) GC_TAG_MARK <> 0)); [contradiction|].
  auto.
Qed.

Lemma dead_cons_alive h a l :
  Z.land (tag (rec_at h a)) GC_TAG_MARK <> 0 ->
  dead h (a :: l) = dead h l /\ alive h (a :: l) = a :: alive h l.
Proof.
  intros H. unfold dead, alive. rewrite !filter_cons.
  destruct (decide (Z.land (tag (rec_at h a)) GC_TAG_MARK = 0)); [contradiction|].
  destruct (decide (Z.land (tag (rec_at h a)) GC_TAG_MARK <> 0)); [|contradiction].
  auto.
Qed.

Lemma clear_mark_fields r r' :
  set_next None r = set_next None r' ->
  set_next None (clear_mark r) = set_next None (clear_mark r').
Proof.
  destruct r, r'. unfold clear_mark, set_next, set_tag. simpl.
  intros H. injection H as -> -> -> ->. reflexivity.
Qed.

Lemma swept_to_visit h0 h h' D a :
  swept_to h0 h D -> a ∉ D ->
  length h' = length h ->
  (forall b, b <> a -> set_next None (rec_at h' b) = set_next None (rec_at h b)) ->
  set_next None (rec_at h' a) = set_next None (clear_mark (rec_at h a)) ->
  swept_to h0 h' (D ++ [a]).
Proof.
  intros [Hlen Hsw] Hni Hlen' Hoth Ha. split; [congruence|].
  intros b. destruct (decide (b = a)) as [-> | Hne].
  - rewrite Ha. pose proof (Hsw a) as H0.
    destruct (decide (a ∈ D)); [contradiction|].
    destruct (decide (a ∈ D ++ [a])) as [_ | Hn];
      [|exfalso; apply Hn; apply elem_of_app; right; left].
    apply clear_mark_fields. exact H0.
  - rewrite (Hoth b Hne), (Hsw b).
    destruct (decide (b ∈ D)) as [Hb | Hb];
      destruct (decide (b ∈ D ++ [a])) as [Hb' | Hb']; try reflexivity.
    + exfalso. apply Hb'. apply elem_of_app. left. exact Hb.
    + exfalso. apply elem_of_app in Hb' as [Hb' | Hb']; [contradiction|].
      apply elem_of_cons in Hb' as [-> | Hb']; [contradiction | inversion Hb'].
Qed.

Lemma sweep_chain_marked fuel w total a c :
  heap (store w) !! a = Some (Cell true c) ->
  Z.land (tag c) GC_TAG_MARK <> 0 ->
  sweep_chain (S fuel) w total (Some a) =
  sweep_chain fuel
    (set_store (set_heap (<[a := Cell true (clear_mark c)]> (heap (store w))) (store w)) w)
    total (next c).
Proof.
  intros Hc Hm. apply Z.eqb_neq in Hm.
  destruct w as [[s pz b] e m t q ev]. unfold store in *. simpl in *.
  unfold store. simpl. rewrite (read_live _ _ _ _ Hc). simpl. rewrite Hm.
  rewrite (write_live _ _ _ _ _ Hc). simpl. unfold store. simpl.
  erewrite read_live
    by (simpl; apply list_lookup_insert_eq; eapply lookup_lt_Some; eauto).
  reflexivity.
Qed.

Lemma sweep_chain_unmarked fuel w total a c s2 lv' :
  heap (store w) !! a = Some (Cell true c) ->
  Z.land (tag c) GC_TAG_MARK = 0 ->
  gc_allocation_map_remove (store w) (ptr c) = Some s2 ->
  heap s2 !! a = Some (Cell lv' c) ->
  exists s3,
    heap s3 = heap s2 /\ amap s3 = amap s2 /\
    (forall G, wf s2 G -> wf s3 G) /\
    sweep_chain (S fuel) w total (Some a) =
    sweep_chain fuel (emit (release_events c) (set_store s3 w))
      (wrap (total + size c)) (next c).
Proof.
  intros Hc Hm Hrm Hc2. apply Z.eqb_eq in Hm.
  destruct (read_any SweepAdvance s2 a lv' c Hc2) as (s3 & Hrd & Hh & Ham & Hwf).
  exists s3. split; [exact Hh|]. split; [exact Ham|]. split; [exact Hwf|].
  destruct w as [[s pz b] e m t q ev]. unfold store in *. simpl in *.
  unfold store. simpl. rewrite (read_live _ _ _ _ Hc). simpl. rewrite Hm.
  unfold release_events, emit.
  destruct (dtor c) as [f|]; simpl; unfold store; simpl; rewrite Hrm; simpl;
    unfold store; simpl; rewrite Hrd; simpl;
    unfold set_store, add_event; simpl; rewrite <- ?app_assoc; reflexivity.
Qed.

Lemma bucket_keys s G i l :
  wf s G -> G !! i = Some l -> NoDup (ptr_at (heap s) <$> l).
Proof.
  intros (_ & _ & Hkeys) Hl.
  destruct (concat_insert_perm G i l l Hl) as (rest & Hp1 & _).
  unfold keys_ok in Hkeys. rewrite Hp1, fmap_app in Hkeys.
  apply NoDup_app in Hkeys. tauto.
Qed.

Lemma sweep_chain_spec h0 i : forall rest fuel w total kept D chunk Gc,
  wf (store w) Gc -> at_floor (amap (store w)) ->
  Gc !! i = Some (kept ++ rest) -> chain (heap (store w)) chunk rest ->
  swept_to h0 (heap (store w)) D -> (forall a, a ∈ rest -> a ∉ D) ->
  (length rest <= fuel)%nat ->
  exists s',
    sweep_chain fuel w total chunk
      = Some (emit (freed_events h0 (dead h0 rest)) (set_store s' w),
              freed_bytes h0 total (dead h0 rest)) /\
    wf s' (<[i := kept ++ alive h0 rest]> Gc) /\
    at_floor (amap s') /\
    capacity (amap s') = capacity (amap (store w)) /\
    swept_to h0 (heap s') (D ++ rest) /\
    am_size (amap s') = decr (length (dead h0 rest)) (am_size (amap (store w))).
Proof.
  induction rest as [|a rest IH];
    intros fuel w total kept D chunk Gc Hwf Hfloor Hi Hch Hsw Hdis Hfuel.
  - inversion Hch; subst. exists (store w). split.
    { destruct fuel; simpl; rewrite set_store_id; unfold freed_events; simpl;
        rewrite emit_nil; reflexivity. }
    unfold alive. simpl. rewrite !app_nil_r in *.
    rewrite list_insert_id by exact Hi.
    split; [exact Hwf|]. split; [exact Hfloor|]. split; [reflexivity|].
    split; [exact Hsw | reflexivity].
  - inversion Hch as [|a' c l' y Hc Hrest]; subst.
    destruct fuel as [|fuel]; [simpl in Hfuel; lia|].
    pose proof Hwf as (Hrep & Hix & Hkeys).
    assert (Hnd : NoDup (kept ++ a :: rest))
      by (eapply NoDup_concat_lookup; [exact (rep_nodup _ _ Hrep) | exact Hi]).
    assert (Hnda : a ∉ rest).
    { apply NoDup_app in Hnd as (_ & _ & Hnd2). apply NoDup_cons in Hnd2. tauto. }
    assert (HaD : a ∉ D) by (apply Hdis; left).
    assert (Hrc : rec_at (heap (store w)) a = c) by (unfold rec_at; rewrite Hc; reflexivity).
    pose proof (proj2 Hsw a) as H0. rewrite Hrc in H0.
    destruct (decide (a ∈ D)) as [|_]; [contradiction|].
    assert (Htag : tag (rec_at h0 a) = tag c)
      by (apply (f_equal tag) in H0; simpl in H0; congruence).
    assert (Hsize : size (rec_at h0 a) = size c)
      by (apply (f_equal size) in H0; simpl in H0; congruence).
    assert (Hrel : release_events (rec_at h0 a) = release_events c).
    { unfold release_events.
      apply (f_equal dtor) in H0 as Hd. apply (f_equal ptr) in H0 as Hp.
      simpl in Hd, Hp. rewrite Hd, Hp. reflexivity. }
    assert (Hfuel' : (length rest <= fuel)%nat) by (simpl in Hfuel; lia).
    assert (Hdis' : forall b, b ∈ rest -> b ∉ D ++ [a]).
    { intros b Hb Hin. apply elem_of_app in Hin as [Hin | Hin].
      - apply (Hdis b); [right; exact Hb | exact Hin].
      - apply elem_of_cons in Hin as [-> | Hin]; [contradiction | inversion Hin]. }
    destruct (Z.eq_dec (Z.land (tag c) GC_TAG_MARK) 0) as [Hm | Hm].
    + assert (Hai : a ∈ kept ++ a :: rest) by (apply elem_of_app; right; left).
      assert (Hbi : bucket_index (amap (store w)) (ptr c) = i).
      { rewrite <- (ptr_at_lookup _ _ _ _ Hc). apply (Hix i _ a Hi Hai). }
      destruct (remove_at_floor (store w) Gc i (kept ++ a :: rest) (ptr c) Hwf Hfloor Hi Hbi)
        as (s2 & Hrm & Hwf2 & Hfl2 & Hcap2 & Hcfg2 & Hsz2 & Hstale).
      destruct (Hstale a true c Hc eq_refl) as (lv' & Hc2).
      destruct (sweep_chain_unmarked fuel w total a c s2 lv' Hc Hm Hrm Hc2)
        as (s3 & Hh3 & Ham3 & Hwf3 & Hstep).
      assert (Hkeep : keep (heap (store w)) (ptr c) (kept ++ a :: rest) = kept ++ rest).
      { rewrite <- (ptr_at_lookup _ _ _ _ Hc). apply keep_unique.
        apply (bucket_keys (store w) Gc i _ Hwf Hi). }
      rewrite Hkeep in Hwf2, Hsz2.
      set (Gc2 := <[i := kept ++ rest]> Gc) in *.
      assert (HG2 : Gc2 !! i = Some (kept ++ rest))
        by (unfold Gc2; apply list_lookup_insert_eq; eapply lookup_lt_Some; exact Hi).
      set (w2 := emit (release_events c) (set_store s3 w)).
      assert (Hst2 : store w2 = s3) by reflexivity.
      destruct (IH fuel w2 (wrap (total + size c)) kept (D ++ [a]) (next c) Gc2)
        as (s' & Hrun & Hwf' & Hfloor' & Hcap' & Hsw' & Hsz').
      * rewrite Hst2. apply Hwf3. exact Hwf2.
      * rewrite Hst2. unfold at_floor. rewrite Ham3, Hcap2.
        destruct Hcfg2 as (Hmin & _). rewrite Hmin. exact Hfloor.
      * exact HG2.
      * rewrite Hst2, Hh3.
        pose proof (rep_chains _ _ (proj1 Hwf2)) as Hch2.
        destruct (Forall2_lookup_r _ _ _ _ _ Hch2 HG2) as (x2 & _ & Hx2).
        apply lseg_app_inv in Hx2 as (y & _ & Hy).
        rewrite (lseg_head _ _ rest _ _ Hrest Hy). exact Hy.
      * rewrite Hst2, Hh3.
        apply (swept_to_visit h0 (heap (store w)) (heap s2) D a Hsw HaD).
        -- apply fields_length. exact Hfl2.
        -- intros b _. apply fields_rec_all. exact Hfl2.
        -- rewrite (fields_rec_all _ _ Hfl2 a), Hrc, (clear_mark_unmarked c Hm).
           reflexivity.
      * exact Hdis'.
      * exact Hfuel'.
      * exists s'.
        destruct (dead_cons_dead h0 a rest) as [Hd Hal]; [rewrite Htag; exact Hm|].
        rewrite Hd, Hal. split.
        { rewrite Hstep. unfold w2 in Hrun. rewrite Hrun.
          unfold freed_events, freed_bytes. simpl.
          rewrite Hrel, Hsize.
          rewrite set_store_emit, set_store_set_store, emit_emit. reflexivity. }
        split.
        { unfold Gc2 in Hwf'. rewrite list_insert_insert_eq in Hwf'. exact Hwf'. }
        split; [exact Hfloor'|].
        split. { rewrite Hcap', Hst2, Ham3. exact Hcap2. }
        split. { rewrite <- app_assoc in Hsw'. exact Hsw'. }
        rewrite Hsz', Hst2, Ham3, Hsz2. simpl length. rewrite decr_succ.
        f_equal. rewrite !length_app. simpl.
        replace (length kept + S (length rest) - (length kept + length rest))%nat
          with 1%nat by lia.
        reflexivity.
    + set (s2 := set_heap (<[a := Cell true (clear_mark c)]> (heap (store w))) (store w)).
      pose proof (sweep_chain_marked fuel w total a c Hc Hm) as Hstep. fold s2 in Hstep.
      assert (Hwf2 : wf s2 Gc)
        by (apply (wf_set_fields (store w) Gc a c (clear_mark c) Hwf Hc); reflexivity).
      destruct (IH fuel (set_store s2 w) total (kept ++ [a]) (D ++ [a]) (next c) Gc)
        as (s' & Hrun & Hwf' & Hfloor' & Hcap' & Hsw' & Hsz').
      * exact Hwf2.
      * exact Hfloor.
      * rewrite <- app_assoc. exact Hi.
      * simpl. eapply lseg_frame; [exact Hrest|]. intros b Hb.
        apply list_lookup_insert_ne. intros ->. contradiction.
      * simpl. apply (swept_to_visit h0 (heap (store w)) _ D a Hsw HaD).
        -- apply length_insert.
        -- intros b Hne. rewrite rec_at_insert_ne by congruence. reflexivity.
        -- rewrite rec_at_insert_eq by (eapply lookup_lt_Some; eauto).
           simpl. rewrite Hrc. reflexivity.
      * exact Hdis'.
      * exact Hfuel'.
      * exists s'.
        destruct (dead_cons_alive h0 a rest) as [Hd Hal]; [rewrite Htag; exact Hm|].
        rewrite Hd, Hal. split.
        { rewrite Hstep, Hrun. rewrite set_store_set_store. reflexivity. }
        split. { rewrite <- app_assoc in Hwf'. exact Hwf'. }
        split; [exact Hfloor'|]. split; [exact Hcap'|].
        split. { rewrite <- app_assoc in Hsw'. exact Hsw'. }
        exact Hsz'.
Qed.

Lemma dead_app h l1 l2 : dead h (l1 ++ l2) = dead h l1 ++ dead h l2.
Proof. unfold dead. apply filter_app. Qed.

Lemma freed_events_app h l1 l2 :
  freed_events h (l1 ++ l2) = freed_events h l1 ++ freed_events h l2.
Proof. unfold freed_events. apply bind_app. Qed.

Lemma freed_bytes_app h t l1 l2 :
  freed_bytes h t (l1 ++ l2) = freed_bytes h (freed_bytes h t l1) l2.
Proof. unfold freed_bytes. apply foldl_app. Qed.

Lemma decr_add a b n : decr (a + b) n = decr b (decr a n).
Proof.
  unfold decr. rewrite Nat.add_comm. apply Nat.iter_add.
Qed.

Lemma swept_to_start h : swept_to h h [].
Proof.
  split; [reflexivity|]. intros a.
  destruct (decide (a ∈ [])) as [H|_]; [inversion H | reflexivity].
Qed.

Lemma insert_swept_bucket {A} (f : list A -> list A) (G : list (list A)) i l :
  G !! i = Some l ->
  <[i := f l]> ((f <$> take i G) ++ drop i G) = (f <$> take (S i) G) ++ drop (S i) G.
Proof.
  intros Hl.
  pose proof (lookup_lt_Some _ _ _ Hl) as Hlt.
  rewrite (take_S_r G i l Hl), (drop_S G l i Hl), fmap_app. simpl.
  rewrite <- app_assoc. simpl.
  rewrite insert_app_r_alt by (rewrite length_fmap, length_take; lia).
  rewrite length_fmap, length_take.
  replace (i - i `min` length G)%nat with 0%nat by lia.
  reflexivity.
Qed.

Lemma lookup_swept_bucket {A} (f : list A -> list A) (G : list (list A)) i l :
  G !! i = Some l -> ((f <$> take i G) ++ drop i G) !! i = Some l.
Proof.
  intros Hl.
  pose proof (lookup_lt_Some _ _ _ Hl) as Hlt.
  rewrite lookup_app_r by (rewrite length_fmap, length_take; lia).
  rewrite length_fmap, length_take.
  replace (i - i `min` length G)%nat with 0%nat by lia.
  rewrite lookup_drop. rewrite Nat.add_0_r. exact Hl.
Qed.

Lemma sweep_buckets_spec h0 G : forall n fuel i w total,
  wf (store w) ((alive h0 <$> take i G) ++ drop i G) ->
  at_floor (amap (store w)) ->
  swept_to h0 (heap (store w)) (concat (take i G)) ->
  NoDup (concat G) ->
  (i + n = length G)%nat ->
  length G = Z.to_nat (capacity (amap (store w))) ->
  (n <= fuel)%nat ->
  exists s',
    sweep_buckets fuel i w total
      = Some (emit (freed_events h0 (dead h0 (concat (drop i G)))) (set_store s' w),
              freed_bytes h0 total (dead h0 (concat (drop i G)))) /\
    wf s' (alive h0 <$> G) /\
    at_floor (amap s') /\
    capacity (amap s') = capacity (amap (store w)) /\
    swept_to h0 (heap s') (concat G) /\
    am_size (amap s') =
      decr (length (dead h0 (concat (drop i G)))) (am_size (amap (store w))).
Proof.
  induction n as [|n IH]; intros fuel i w total Hwf Hfloor Hsw Hnd Hin Hlen Hfuel;
    pose proof (rep_cap _ _ (proj1 Hwf)) as Hcap.
  - assert (Hi : i = length G) by lia.
    rewrite Hi in *. rewrite drop_all, firstn_all in *. simpl in *.
    rewrite app_nil_r in Hwf.
    exists (store w). split.
    { destruct fuel; simpl;
        (destruct (Z.ltb_spec (Z.of_nat (length G)) (capacity (amap (store w)))); [lia|]);
        rewrite set_store_id; unfold freed_events; simpl; rewrite emit_nil; reflexivity. }
    split; [exact Hwf|]. split; [exact Hfloor|]. split; [reflexivity|].
    split; [exact Hsw | reflexivity].
  - destruct fuel as [|fuel]; [lia|].
    destruct (lookup_lt_is_Some_2 G i ltac:(lia)) as [l Hl].
    set (Gc := (alive h0 <$> take i G) ++ drop i G) in *.
    assert (HGc : Gc !! i = Some ([] ++ l)) by (apply lookup_swept_bucket; exact Hl).
    pose proof (rep_chains _ _ (proj1 Hwf)) as Hch.
    destruct (Forall2_lookup_r _ _ _ _ _ Hch HGc) as (chunk & Hchunk & Hcl).
    simpl in Hcl.
    assert (Hndl : NoDup l) by (eapply NoDup_concat_lookup; eauto).
    destruct (sweep_chain_spec h0 i l (2 * length (heap (store w))) w total []
                (concat (take i G)) chunk Gc Hwf Hfloor HGc Hcl Hsw)
      as (s1 & Hrun1 & Hwf1 & Hfloor1 & Hcap1 & Hsw1 & Hsz1).
    { intros a Ha Hin'.
      destruct (elem_of_concat_inv _ a Hin') as (j & lj & Hj & Haj).
      apply lookup_take_Some in Hj as [Hj Hji].
      pose proof (NoDup_concat_disjoint G j i lj l a Hnd Hj Hl Haj Ha). lia. }
    { pose proof (chain_length _ _ _ Hcl Hndl). lia. }
    simpl in Hwf1. unfold Gc in Hwf1.
    rewrite (insert_swept_bucket (alive h0) G i l Hl) in Hwf1.
    set (w1 := emit (freed_events h0 (dead h0 l)) (set_store s1 w)).
    assert (Hsw1' : swept_to h0 (heap (store w1)) (concat (take (S i) G))).
    { rewrite (take_S_r G i l Hl), concat_app. simpl. rewrite app_nil_r. exact Hsw1. }
    destruct (IH fuel (S i) w1 (freed_bytes h0 total (dead h0 l)) Hwf1 Hfloor1 Hsw1' Hnd)
      as (s' & Hrun & Hwf' & Hfloor' & Hcap' & Hsw' & Hsz'); [lia | | lia |].
    { change (store w1) with s1. rewrite Hcap1. exact Hlen. }
    exists s'.
    rewrite (drop_S G l i Hl). simpl.
    rewrite dead_app, freed_events_app, freed_bytes_app, length_app, decr_add.
    split.
    { simpl.
      destruct (Z.ltb_spec (Z.of_nat i) (capacity (amap (store w)))); [|lia].
      rewrite Hchunk. simpl. simpl in Hrun1. rewrite Hrun1. simpl. fold w1. rewrite Hrun.
      unfold w1. rewrite set_store_emit, set_store_set_store, emit_emit. reflexivity. }
    split; [exact Hwf'|]. split; [exact Hfloor'|].
    split. { rewrite Hcap'. exact Hcap1. }
    split; [exact Hsw'|].
    rewrite Hsz'. change (store w1) with s1. rewrite Hsz1. reflexivity.
Qed.

Lemma gc_sweep_spec w G :
  wf (store w) G -> at_floor (amap (store w)) ->
  exists s',
    gc_sweep w
      = Some (emit (freed_events (heap (store w)) (dead (heap (store w)) (concat G)))
                (set_store s' w),
              freed_bytes (heap (store w)) 0 (dead (heap (store w)) (concat G))) /\
    wf s' (alive (heap (store w)) <$> G) /\
    at_floor (amap s') /\
    capacity (amap s') = capacity (amap (store w)) /\
    swept_to (heap (store w)) (heap s') (concat G) /\
    am_size (amap s') =
      decr (length (dead (heap (store w)) (concat G))) (am_size (amap (store w))).
Proof.
  intros Hwf Hfloor.
  pose proof (Forall2_length _ _ _ (rep_chains _ _ (proj1 Hwf))) as Hlen.
  rewrite (rep_len _ _ (proj1 Hwf)) in Hlen.
  destruct (sweep_buckets_spec (heap (store w)) G (length G)
              (Z.to_nat (capacity (amap (store w)))) 0 w 0)
    as (s' & Hrun & Hrest); try (simpl; rewrite ?drop_0; assumption || lia).
  - apply swept_to_start.
  - exact (rep_nodup _ _ (proj1 Hwf)).
  - rewrite drop_0 in Hrun, Hrest. exists s'. split; [exact Hrun | exact Hrest].
Qed.

Lemma concat_filter {A} (P : A -> Prop) `{forall x, Decision (P x)} (G : list (list A)) :
  concat (filter P <$> G) = filter P (concat G).
Proof.
  induction G as [|l G IH]; simpl; [reflexivity|].
  rewrite filter_app, <- IH. reflexivity.
Qed.

Lemma bind_fmap_list {A B C} (f : A -> B) (g : B -> list C) (l : list A) :
  (f <$> l) ≫= g = l ≫= (fun a => g (f a)).
Proof.
  induction l as [|a l IH]; [reflexivity|].
  rewrite fmap_cons, !bind_cons, IH. reflexivity.
Qed.

Lemma foldl_fmap_list {A B C} (f : A -> B) (g : C -> B -> C) (l : list A) : forall t,
  foldl g t (f <$> l) = foldl (fun t a => g t (f a)) t l.
Proof. induction l as [|a l IH]; intros t; simpl; [reflexivity | apply IH]. Qed.

Lemma clear_mark_set_next r : clear_mark (set_next None r) = set_next None (clear_mark r).
Proof. destruct r; reflexivity. Qed.

Lemma gc_sweep_keys w :
  well_formed (store w) -> at_floor (amap (store w)) ->
  exists s' (freed : list Allocation),
    gc_sweep w = Some (emit (freed ≫= release_events) (set_store s' w),
                       foldl (fun t r => wrap (t + size r)) 0 freed) /\
    well_formed s' /\ at_floor (amap s') /\
    capacity (amap s') = capacity (amap (store w)) /\
    am_size (amap s') = decr (length freed) (am_size (amap (store w))) /\
    (forall q r, entry (store w) q = Some (Some r) ->
       Z.land (tag r) GC_TAG_MARK <> 0 ->
       entry s' q = Some (Some (clear_mark r))) /\
    (forall q r, entry (store w) q = Some (Some r) ->
       Z.land (tag r) GC_TAG_MARK = 0 ->
       entry s' q = Some None /\ r ∈ freed) /\
    (forall q, entry (store w) q = Some None -> entry s' q = Some None) /\
    (forall r, r ∈ freed ->
       entry (store w) (ptr r) = Some (Some r) /\ Z.land (tag r) GC_TAG_MARK = 0) /\
    NoDup (ptr <$> freed) /\
    (forall q, ~ marked_key s' q).
Proof.
  intros (G & Hwf) Hfloor.
  set (h := heap (store w)).
  destruct (gc_sweep_spec w G Hwf Hfloor)
    as (s' & Hrun & Hwf' & Hfloor' & Hcap' & Hsw & Hsz).
  fold h in Hrun, Hwf', Hsw, Hsz.
  set (f := fun a => set_next None (rec_at h a)).
  exists s', (f <$> dead h (concat G)).
  assert (Hrec' : forall a, a ∈ concat G ->
            set_next None (rec_at (heap s') a) = set_next None (clear_mark (rec_at h a))).
  { intros a Ha. rewrite (proj2 Hsw a).
    destruct (decide (a ∈ concat G)); [reflexivity | contradiction]. }
  assert (Hptr' : forall a, a ∈ concat G -> ptr_at (heap s') a = ptr_at h a).
  { intros a Ha. pose proof (Hrec' a Ha) as Hr.
    apply (f_equal ptr) in Hr. exact Hr. }
  assert (HG' : forall a, a ∈ concat (alive h <$> G) <->
                          a ∈ concat G /\ Z.land (tag (rec_at h a)) GC_TAG_MARK <> 0).
  { intros a. unfold alive. rewrite concat_filter. rewrite list_elem_of_filter. tauto. }
  assert (Hmiss : forall q,
            (forall a, a ∈ concat G -> ptr_at h a = q ->
                       Z.land (tag (rec_at h a)) GC_TAG_MARK = 0) ->
            entry s' q = Some None).
  { intros q Hq. apply (entry_missing s' _ q Hwf').
    intros a Ha Hp. apply HG' in Ha as [Ha Hm].
    rewrite (Hptr' a Ha) in Hp. exact (Hm (Hq a Ha Hp)). }
  split.
  { rewrite Hrun. unfold freed_events, freed_bytes.
    rewrite bind_fmap_list, foldl_fmap_list. reflexivity. }
  split; [exists (alive h <$> G); exact Hwf'|].
  split; [exact Hfloor'|]. split; [exact Hcap'|].
  split; [rewrite length_fmap; exact Hsz|].
  assert (Hkept : forall q r, entry (store w) q = Some (Some r) ->
            Z.land (tag r) GC_TAG_MARK <> 0 ->
            entry s' q = Some (Some (clear_mark r))).
  { intros q r He Hm.
    destruct (entry_Some_inv _ G q r Hwf He) as (a & Ha & Hp & -> & _).
    fold h in Hp, Hm |- *. simpl in Hm.
    assert (Ha' : a ∈ concat (alive h <$> G)) by (apply HG'; auto).
    pose proof (entry_found s' _ a Hwf' Ha') as Hf.
    rewrite (Hptr' a Ha), Hp, (Hrec' a Ha) in Hf.
    rewrite Hf, clear_mark_set_next. reflexivity. }
  assert (Hgone : forall q r, entry (store w) q = Some (Some r) ->
            Z.land (tag r) GC_TAG_MARK = 0 -> entry s' q = Some None).
  { intros q r He Hm.
    destruct (entry_Some_inv _ G q r Hwf He) as (a & Ha & Hp & -> & _).
    fold h in Hp, Hm |- *. simpl in Hm.
    apply Hmiss. intros b Hb Hpb.
    destruct Hwf as (_ & _ & Hkeys).
    rewrite (NoDup_fmap_inj (ptr_at h) (concat G) b a Hkeys Hb Ha); [exact Hm | congruence]. }
  assert (Hnone : forall q, entry (store w) q = Some None -> entry s' q = Some None).
  { intros q He. destruct (entry_None_inv _ G q Hwf He) as (Hno & _).
    apply Hmiss. intros a Ha Hp. exfalso. exact (Hno a Ha Hp). }
  split; [exact Hkept|]. split; [|split; [exact Hnone|split; [|split]]].
  - intros q r He Hm. split; [exact (Hgone q r He Hm)|].
    destruct (entry_Some_inv _ G q r Hwf He) as (a & Ha & Hp & -> & _).
    apply list_elem_of_fmap. exists a. split; [reflexivity|].
    apply list_elem_of_filter. auto.
  - intros r Hr. apply list_elem_of_fmap in Hr as (a & -> & Ha).
    apply list_elem_of_filter in Ha as [Hm Ha].
    split; [|exact Hm]. apply (entry_found _ G a Hwf Ha).
  - rewrite <- list_fmap_compose.
    destruct Hwf as (_ & _ & Hkeys). unfold keys_ok in Hkeys.
    eapply sublist_NoDup; [exact Hkeys|].
    apply fmap_sublist. apply sublist_filter.
  - intros q (r' & He' & Hm').
    destruct (entry_total _ G q Hwf) as ([r|] & He).
    + destruct (Z.eq_dec (Z.land (tag r) GC_TAG_MARK) 0) as [Hm | Hm].
      * rewrite (Hgone q r He Hm) in He'. discriminate.
      * rewrite (Hkept q r He Hm) in He'. injection He' as <-.
        apply Hm'. simpl. rewrite <- Z.land_assoc.
        change (Z.land (Z.lnot GC_TAG_MARK) GC_TAG_MARK) with 0. apply Z.land_0_r.
    + rewrite (Hnone q He) in He'. discriminate.
Qed.

Lemma well_formed_put s p sz d a s' :
  well_formed s -> gc_allocation_map_put s p sz d = Some (a, s') -> well_formed s'.
Proof.
  intros (G & Hwf) Hrun.
  destruct (put_wf s G p sz d Hwf) as (s1 & G1 & Hrun1 & Hwf1 & _).
  rewrite Hrun in Hrun1. injection Hrun1 as _ <-. exists G1. exact Hwf1.
Qed.

Lemma one_chain_wf : well_formed (store one_chain).
Proof.
  apply (well_formed_put chain_2 360 8 None 2%nat); [|vm_compute; reflexivity].
  apply (well_formed_put chain_1 272 8 (Some 7777) 1%nat); [|vm_compute; reflexivity].
  apply (well_formed_put chain_0 184 8 None 0%nat); [|vm_compute; reflexivity].
  apply Inv_well_formed. apply wf_new.
Qed.

Lemma one_chain_floor : at_floor (amap (store one_chain)).
Proof. apply Z.leb_le. vm_compute. reflexivity. Qed.

Lemma one_chain_clean : forall q, ~ marked_key (store one_chain) q.
Proof. apply clean_heap_unmarked. repeat constructor. Qed.

Lemma one_chain_marked_wf : well_formed (store one_chain_marked).
Proof.
  destruct (gc_mark_keys one_chain one_chain_wf) as (s' & Hrun & Hwf' & _).
  assert (H : gc_mark one_chain = Some one_chain_marked) by (vm_compute; reflexivity).
  rewrite H in Hrun.
  assert (E : store one_chain_marked = s').
  { apply (f_equal (fun o => match o with Some x => store x | None => s' end)) in Hrun.
    exact Hrun. }
  rewrite E. exact Hwf'.
Qed.

Lemma one_chain_marked_floor : at_floor (amap (store one_chain_marked)).
Proof. apply Z.leb_le. vm_compute. reflexivity. Qed.

(** On a map at its floor, where no removal can shrink the bucket array,
    [gc_sweep] does what a sweep is to do.  Every record that carries the
    MARK bit survives and loses that bit, its other fields being kept.
    Every record that does not is finalized, if it has a finalizer, then
    its block is freed and the record removed, each exactly once.  Absent
    keys stay absent.  The result is the sum of the sizes of the records
    removed, reduced modulo [2^64] as the sum is formed.  After the
    sweep no record of the registry carries the MARK bit. *)
Theorem gc_sweep_at_floor w :
  well_formed (store w) -> at_floor (amap (store w)) ->
  exists s' (freed : list Allocation),
    gc_sweep w = Some (emit (freed ≫= release_events) (set_store s' w),
                       foldl (fun t r => wrap (t + size r)) 0 freed) /\
    well_formed s' /\ at_floor (amap s') /\
    capacity (amap s') = capacity (amap (store w)) /\
    am_size (amap s') = decr (length freed) (am_size (amap (store w))) /\
    (forall q r, entry (store w) q = Some (Some r) ->
       Z.land (tag r) GC_TAG_MARK <> 0 ->
       entry s' q = Some (Some (clear_mark r))) /\
    (forall q r, entry (store w) q = Some (Some r) ->
       Z.land (tag r) GC_TAG_MARK = 0 ->
       entry s' q = Some None /\ r ∈ freed) /\
    (forall q, entry (store w) q = Some None -> entry s' q = Some None) /\
    (forall r, r ∈ freed ->
       entry (store w) (ptr r) = Some (Some r) /\ Z.land (tag r) GC_TAG_MARK = 0) /\
    NoDup (ptr <$> freed) /\
    (forall q, ~ marked_key s' q).
Proof. exact (gc_sweep_keys w). Qed.

Lemma gc_sweep_at_floor_witness :
  well_formed (store one_chain_marked) /\ at_floor (amap (store one_chain_marked)) /\
  exists s' (freed : list Allocation),
    gc_sweep one_chain_marked
      = Some (emit (freed ≫= release_events) (set_store s' one_chain_marked),
              foldl (fun t r => wrap (t + size r)) 0 freed) /\
    well_formed s' /\ at_floor (amap s') /\
    capacity (amap s') = capacity (amap (store one_chain_marked)) /\
    am_size (amap s') = decr (length freed) (am_size (amap (store one_chain_marked))) /\
    (forall q r, entry (store one_chain_marked) q = Some (Some r) ->
       Z.land (tag r) GC_TAG_MARK <> 0 ->
       entry s' q = Some (Some (clear_mark r))) /\
    (forall q r, entry (store one_chain_marked) q = Some (Some r) ->
       Z.land (tag r) GC_TAG_MARK = 0 ->
       entry s' q = Some None /\ r ∈ freed) /\
    (forall q, entry (store one_chain_marked) q = Some None -> entry s' q = Some None) /\
    (forall r, r ∈ freed ->
       entry (store one_chain_marked) (ptr r) = Some (Some r) /\
       Z.land (tag r) GC_TAG_MARK = 0) /\
    NoDup (ptr <$> freed) /\
    (forall q, ~ marked_key s' q).
Proof.
  split; [exact one_chain_marked_wf|]. split; [exact one_chain_marked_floor|].
  exact (gc_sweep_at_floor one_chain_marked one_chain_marked_wf one_chain_marked_floor).
Defined.

Lemma set_tag_same r : set_tag (tag r) r = r.
Proof. destruct r; reflexivity. Qed.

Lemma clear_mark_marked r :
  Z.land (tag r) GC_TAG_MARK = 0 ->
  clear_mark (set_tag (Z.lor (tag r) GC_TAG_MARK) r) = r.
Proof.
  intros H. unfold clear_mark. simpl. rewrite (clear_mark_lor _ H).
  destruct r; reflexivity.
Qed.

Lemma gc_run_keys w :
  well_formed (store w) -> at_floor (amap (store w)) ->
  (forall q, ~ marked_key (store w) q) ->
  exists s' (freed : list Allocation),
    gc_run w = Some (emit (EvRun :: (freed ≫= release_events)) (set_store s' w),
                     foldl (fun t r => wrap (t + size r)) 0 freed) /\
    well_formed s' /\ at_floor (amap s') /\
    capacity (amap s') = capacity (amap (store w)) /\
    am_size (amap s') = decr (length freed) (am_size (amap (store w))) /\
    (forall q r, entry (store w) q = Some (Some r) ->
       reaches (mem w) (store w) (gc_roots w) q ->
       entry s' q = Some (Some r)) /\
    (forall q r, entry (store w) q = Some (Some r) ->
       ~ reaches (mem w) (store w) (gc_roots w) q ->
       entry s' q = Some None /\ r ∈ freed) /\
    (forall q, entry (store w) q = Some None -> entry s' q = Some None) /\
    (forall r, r ∈ freed ->
       entry (store w) (ptr r) = Some (Some r) /\
       ~ reaches (mem w) (store w) (gc_roots w) (ptr r)) /\
    NoDup (ptr <$> freed) /\
    (forall q, ~ marked_key s' q).
Proof.
  intros Hwf Hfloor Hclean.
  set (w0 := add_event EvRun w).
  destruct (gc_mark_keys w0 Hwf) as (s1 & Hmark & Hwf1 & Ham1 & _ & Hnone1 & Hsome1 & Hiff).
  change (store w0) with (store w) in *.
  change (mem w0) with (mem w) in *.
  change (gc_roots w0) with (gc_roots w) in *.
  specialize (Hiff Hclean).
  set (w1 := set_store s1 w0) in *.
  assert (Hfloor1 : at_floor (amap (store w1))).
  { change (store w1) with s1. unfold at_floor. rewrite Ham1. exact Hfloor. }
  destruct (gc_sweep_keys w1 Hwf1 Hfloor1)
    as (s2 & freed & Hsweep & Hwf2 & Hfloor2 & Hcap2 & Hsz2 & Hkept & Hgone & Hnone2
        & Hfreed & Hnd & Hclean2).
  change (store w1) with s1 in *.
  assert (Hunm : forall q r, entry (store w) q = Some (Some r) ->
            Z.land (tag r) GC_TAG_MARK = 0).
  { intros q r He. destruct (Z.eq_dec (Z.land (tag r) GC_TAG_MARK) 0) as [H | H]; [exact H|].
    exfalso. apply (Hclean q). exists r. auto. }
  assert (HA : forall q r, entry (store w) q = Some (Some r) ->
            reaches (mem w) (store w) (gc_roots w) q ->
            entry s1 q = Some (Some (set_tag (Z.lor (tag r) GC_TAG_MARK) r))).
  { intros q r He Hr. destruct (Hsome1 q r He) as (t & He1 & Ht).
    destruct Ht as [-> | ->]; [|exact He1].
    exfalso. apply Hiff in Hr as (r1 & He1' & Hm1).
    rewrite He1 in He1'. injection He1' as <-. apply Hm1. simpl.
    apply (Hunm q r He). }
  assert (HB : forall q r, entry (store w) q = Some (Some r) ->
            ~ reaches (mem w) (store w) (gc_roots w) q ->
            entry s1 q = Some (Some r)).
  { intros q r He Hr. destruct (Hsome1 q r He) as (t & He1 & Ht).
    destruct Ht as [-> | ->]; [rewrite set_tag_same in He1; exact He1|].
    exfalso. apply Hr. apply Hiff. eexists. split; [exact He1|].
    simpl. apply mark_bit_set. }
  exists s2, freed. split.
  { unfold gc_run. fold w0. rewrite Hmark. simpl. fold w1. rewrite Hsweep.
    unfold w1, w0. destruct w as [[s pz b] e m t q ev].
    unfold emit, set_store, add_event. simpl. rewrite <- app_assoc. reflexivity. }
  split; [exact Hwf2|]. split; [exact Hfloor2|].
  split; [rewrite Hcap2, Ham1; reflexivity|].
  split; [rewrite Hsz2, Ham1; reflexivity|].
  split; [|split; [|split; [|split; [|split; [exact Hnd | exact Hclean2]]]]].
  - intros q r He Hr.
    rewrite (Hkept q _ (HA q r He Hr)) by (simpl; apply mark_bit_set).
    rewrite (clear_mark_marked r (Hunm q r He)). reflexivity.
  - intros q r He Hr. apply (Hgone q r (HB q r He Hr) (Hunm q r He)).
  - intros q He. apply Hnone2. apply Hnone1. exact He.
  - intros r Hr. destruct (Hfreed r Hr) as [He1 Hm].
    destruct Hwf as (G & Hwf).
    destruct (entry_total _ G (ptr r) Hwf) as ([r0|] & He).
    + assert (Hnr : ~ reaches (mem w) (store w) (gc_roots w) (ptr r)).
      { intros Hre. rewrite (HA _ r0 He Hre) in He1. injection He1 as <-.
        simpl in Hm. exact (mark_bit_set _ Hm). }
      rewrite (HB _ r0 He Hnr) in He1. injection He1 as ->. auto.
    + rewrite (Hnone1 _ He) in He1. discriminate.
Qed.

(** A collection on a map at its floor, started with no record marked:
    every registered pointer that is reached from the stack or from a
    record tagged ROOT keeps its record, with all its fields; every other
    registered pointer is finalized (if it has a finalizer), freed and
    removed, exactly once; absent keys stay absent; the result is the sum
    of the sizes freed; and no record is left marked, so that the next
    collection starts from the same condition. *)
Theorem gc_run_collects_unreachable w :
  well_formed (store w) -> at_floor (amap (store w)) ->
  (forall q, ~ marked_key (store w) q) ->
  exists s' (freed : list Allocation),
    gc_run w = Some (emit (EvRun :: (freed ≫= release_events)) (set_store s' w),
                     foldl (fun t r => wrap (t + size r)) 0 freed) /\
    well_formed s' /\ at_floor (amap s') /\
    capacity (amap s') = capacity (amap (store w)) /\
    am_size (amap s') = decr (length freed) (am_size (amap (store w))) /\
    (forall q r, entry (store w) q = Some (Some r) ->
       reaches (mem w) (store w) (gc_roots w) q ->
       entry s' q = Some (Some r)) /\
    (forall q r, entry (store w) q = Some (Some r) ->
       ~ reaches (mem w) (store w) (gc_roots w) q ->
       entry s' q = Some None /\ r ∈ freed) /\
    (forall q, entry (store w) q = Some None -> entry s' q = Some None) /\
    (forall r, r ∈ freed ->
       entry (store w) (ptr r) = Some (Some r) /\
       ~ reaches (mem w) (store w) (gc_roots w) (ptr r)) /\
    NoDup (ptr <$> freed) /\
    (forall q, ~ marked_key s' q).
Proof. exact (gc_run_keys w). Qed.

Lemma gc_run_collects_unreachable_witness :
  well_formed (store one_chain) /\ at_floor (amap (store one_chain)) /\
  (forall q, ~ marked_key (store one_chain) q) /\
  exists s' (freed : list Allocation),
    gc_run one_chain
      = Some (emit (EvRun :: (freed ≫= release_events)) (set_store s' one_chain),
              foldl (fun t r => wrap (t + size r)) 0 freed) /\
    well_formed s' /\ at_floor (amap s') /\
    capacity (amap s') = capacity (amap (store one_chain)) /\
    am_size (amap s') = decr (length freed) (am_size (amap (store one_chain))) /\
    (forall q r, entry (store one_chain) q = Some (Some r) ->
       reaches (mem one_chain) (store one_chain) (gc_roots one_chain) q ->
       entry s' q = Some (Some r)) /\
    (forall q r, entry (store one_chain) q = Some (Some r) ->
       ~ reaches (mem one_chain) (store one_chain) (gc_roots one_chain) q ->
       entry s' q = Some None /\ r ∈ freed) /\
    (forall q, entry (store one_chain) q = Some None -> entry s' q = Some None) /\
    (forall r, r ∈ freed ->
       entry (store one_chain) (ptr r) = Some (Some r) /\
       ~ reaches (mem one_chain) (store one_chain) (gc_roots one_chain) (ptr r)) /\
    NoDup (ptr <$> freed) /\
    (forall q, ~ marked_key s' q).
Proof.
  split; [exact one_chain_wf|]. split; [exact one_chain_floor|].
  split; [exact one_chain_clean|].
  exact (gc_run_collects_unreachable one_chain one_chain_wf one_chain_floor one_chain_clean).
Defined.

(* ===================================================================== *)
(** * Stopping the collector *)

Lemma delete_chain_spec : forall l fuel s x,
  chain (heap s) x l -> NoDup l -> (length l <= fuel)%nat ->
  exists s',
    delete_chain fuel s x = Some s' /\
    amap s' = amap s /\ uaf s' = uaf s /\
    length (heap s') = length (heap s) /\
    (forall a, a ∈ l ->
       exists c, heap s !! a = Some (Cell true c) /\ heap s' !! a = Some (Cell false c)) /\
    (forall a, a ∉ l -> heap s' !! a = heap s !! a).
Proof.
  induction l as [|a l IH]; intros fuel s x Hch Hnd Hfuel.
  - inversion Hch; subst. exists s. split; [destruct fuel; reflexivity|].
    repeat split; try reflexivity. intros a Ha. inversion Ha.
  - inversion Hch as [|a' c l' y Hc Hrest]; subst.
    destruct fuel as [|fuel]; [simpl in Hfuel; lia|].
    apply NoDup_cons in Hnd as [Hni Hnd].
    simpl. rewrite Hc. simpl. rewrite (delete_live _ _ _ Hc). simpl.
    set (s1 := set_heap (<[a := Cell false c]> (heap s)) s).
    destruct (IH fuel s1 (next c)) as (s' & Hrun & Ham & Hu & Hlen & Hin & Hout).
    { simpl. eapply lseg_frame; [exact Hrest|]. intros b Hb.
      apply list_lookup_insert_ne. intros ->. contradiction. }
    { exact Hnd. }
    { simpl in Hfuel. lia. }
    exists s'. split; [exact Hrun|]. split; [exact Ham|]. split; [exact Hu|].
    split; [rewrite Hlen; simpl; apply length_insert|]. split.
    + intros b Hb. apply elem_of_cons in Hb as [-> | Hb].
      * exists c. split; [exact Hc|]. rewrite (Hout a Hni). simpl.
        apply list_lookup_insert_eq. eapply lookup_lt_Some; eauto.
      * destruct (Hin b Hb) as (cb & Hb1 & Hb2). exists cb. split; [|exact Hb2].
        simpl in Hb1. rewrite list_lookup_insert_ne in Hb1; [exact Hb1|].
        intros ->. contradiction.
    + intros b Hb. rewrite Hout by (intros H; apply Hb; right; exact H).
      simpl. apply list_lookup_insert_ne. intros ->. apply Hb. left.
Qed.

Lemma delete_buckets_spec G : forall n i s,
  Forall2 (chain (heap s)) (drop i (allocs (amap s))) (drop i G) ->
  NoDup (concat (drop i G)) ->
  (i + n = length G)%nat ->
  exists s',
    delete_buckets n i s = Some s' /\
    amap s' = amap s /\ uaf s' = uaf s /\
    length (heap s') = length (heap s) /\
    (forall a, a ∈ concat (drop i G) ->
       exists c, heap s !! a = Some (Cell true c) /\ heap s' !! a = Some (Cell false c)) /\
    (forall a, a ∉ concat (drop i G) -> heap s' !! a = heap s !! a).
Proof.
  induction n as [|n IH]; intros i s Hch Hnd Hin.
  - exists s. split; [reflexivity|]. rewrite drop_ge by lia.
    repeat split; try reflexivity. intros a Ha. inversion Ha.
  - destruct (lookup_lt_is_Some_2 G i ltac:(lia)) as [l Hl].
    rewrite (drop_S G l i Hl) in Hch, Hnd |- *.
    simpl in Hnd. apply NoDup_app in Hnd as (Hndl & Hdisj & Hndr).
    pose proof (Forall2_length _ _ _ Hch) as Hlen. simpl in Hlen.
    destruct (drop i (allocs (amap s))) as [|x A] eqn:EA; [discriminate|].
    apply Forall2_cons in Hch as [Hxl HA].
    assert (Hx : allocs (amap s) !! i = Some x).
    { rewrite <- (Nat.add_0_r i), <- lookup_drop, EA. reflexivity. }
    assert (HA' : A = drop (S i) (allocs (amap s))).
    { replace (S i) with (i + 1)%nat by lia.
      rewrite <- (drop_drop (allocs (amap s)) 1 i). rewrite EA. reflexivity. }
    simpl. rewrite Hx. simpl.
    destruct (delete_chain_spec l (length (heap s)) s x Hxl Hndl
                (chain_length _ _ _ Hxl Hndl))
      as (s1 & Hrun1 & Ham1 & Hu1 & Hlen1 & Hin1 & Hout1).
    rewrite Hrun1. simpl.
    destruct (IH (S i) s1) as (s' & Hrun & Ham & Hu & Hlen' & Hin' & Hout').
    { rewrite Ham1, <- HA'.
      eapply Forall2_chain_frame; [exact HA|].
      intros a Ha. apply Hout1. intros Hal. exact (Hdisj a Hal Ha). }
    { exact Hndr. }
    { lia. }
    exists s'. split; [exact Hrun|].
    split; [congruence|]. split; [congruence|]. split; [congruence|].
    simpl. split.
    + intros a Ha. apply elem_of_app in Ha as [Ha | Ha].
      * destruct (Hin1 a Ha) as (c & Hc & Hc1). exists c. split; [exact Hc|].
        rewrite Hout'; [exact Hc1|]. intros Har. exact (Hdisj a Ha Har).
      * destruct (Hin' a Ha) as (c & Hc & Hc'). exists c. split; [|exact Hc'].
        rewrite <- Hout1; [exact Hc|]. intros Hal. exact (Hdisj a Hal Ha).
    + intros a Ha. rewrite Hout', Hout1; [reflexivity| |];
        intros H; apply Ha; apply elem_of_app; auto.
Qed.

Lemma gc_allocation_map_delete_spec s G :
  wf s G ->
  exists h',
    gc_allocation_map_delete s = Some (h', uaf s) /\
    length h' = length (heap s) /\
    (forall a, a ∈ concat G ->
       exists c, heap s !! a = Some (Cell true c) /\ h' !! a = Some (Cell false c)) /\
    (forall a, a ∉ concat G -> h' !! a = heap s !! a).
Proof.
  intros (Hrep & _).
  pose proof (Forall2_length _ _ _ (rep_chains _ _ Hrep)) as Hlen.
  destruct (delete_buckets_spec G (length G) 0 s)
    as (s' & Hrun & Ham & Hu & Hlen' & Hin & Hout).
  - rewrite !drop_0. exact (rep_chains _ _ Hrep).
  - rewrite drop_0. exact (rep_nodup _ _ Hrep).
  - reflexivity.
  - rewrite drop_0 in Hin, Hout.
    exists (heap s'). unfold gc_allocation_map_delete.
    rewrite <- (rep_len _ _ Hrep), Hlen, Hrun. simpl. rewrite Hu.
    auto.
Qed.

(** [gc_allocation_map_delete] releases every record that the map links,
    each once and with its [next] read before the release, so that no
    released record is read (the log of such accesses is as before); it
    releases nothing else and changes the contents of no record.  It
    calls no finalizer and frees no block of the client. *)
Theorem map_delete_releases_records s :
  well_formed s ->
  exists h',
    gc_allocation_map_delete s = Some (h', uaf s) /\
    length h' = length (heap s) /\
    (forall q a, gc_allocation_map_get s q = Some (Some a, s) ->
       exists c, heap s !! a = Some (Cell true c) /\ h' !! a = Some (Cell false c)) /\
    (forall a lv c, heap s !! a = Some (Cell lv c) ->
       exists lv', h' !! a = Some (Cell lv' c) /\ (lv = false -> lv' = false)).
Proof.
  intros (G & Hwf).
  destruct (gc_allocation_map_delete_spec s G Hwf) as (h' & Hrun & Hlen & Hin & Hout).
  exists h'. split; [exact Hrun|]. split; [exact Hlen|]. split.
  - intros q a Hget. apply Hin.
    apply (get_Some_inv s G q a (proj1 Hwf) Hget).
  - intros a lv c Hc.
    destruct (decide (a ∈ concat G)) as [Ha | Ha].
    + destruct (Hin a Ha) as (c' & Hc' & Hh'). rewrite Hc in Hc'.
      injection Hc' as -> ->. exists false. auto.
    + exists lv. rewrite (Hout a Ha). auto.
Qed.

Lemma map_delete_releases_records_witness :
  well_formed two_records /\
  exists h',
    gc_allocation_map_delete two_records = Some (h', uaf two_records) /\
    length h' = length (heap two_records) /\
    (forall q a, gc_allocation_map_get two_records q = Some (Some a, two_records) ->
       exists c, heap two_records !! a = Some (Cell true c) /\
                 h' !! a = Some (Cell false c)) /\
    (forall a lv c, heap two_records !! a = Some (Cell lv c) ->
       exists lv', h' !! a = Some (Cell lv' c) /\ (lv = false -> lv' = false)).
Proof.
  assert (H : well_formed two_records) by (exists two_records_chains; exact two_records_wf).
  split; [exact H | exact (map_delete_releases_records two_records H)].
Defined.

(** [gc_stop] on a map at its floor, with no record marked: it runs one
    collection, which finalizes and frees the blocks that are not reached
    from the stack or from a record tagged ROOT, and then releases the
    records of the map.  The record of every block that is reached is
    released as well, but that block is neither finalized nor freed. *)
Theorem gc_stop_leaves_reached_blocks w :
  well_formed (store w) -> at_floor (amap (store w)) ->
  (forall q, ~ marked_key (store w) q) ->
  exists st (freed : list Allocation),
    gc_stop w = Some st /\
    calls st = events w ++ EvRun :: (freed ≫= release_events) /\
    (forall r, r ∈ freed ->
       entry (store w) (ptr r) = Some (Some r) /\
       ~ reaches (mem w) (store w) (gc_roots w) (ptr r)) /\
    (forall q r, entry (store w) q = Some (Some r) ->
       ~ reaches (mem w) (store w) (gc_roots w) q -> r ∈ freed) /\
    (forall q r, entry (store w) q = Some (Some r) ->
       reaches (mem w) (store w) (gc_roots w) q ->
       (exists a c, records st !! a = Some (Cell false c) /\ set_next None c = r) /\
       (forall e, e ∈ freed ≫= release_events -> e <> EvFree q /\
                  forall f, e <> EvDtor f q)).
Proof.
  intros Hwf Hfloor Hclean.
  destruct (gc_run_keys w Hwf Hfloor Hclean)
    as (s' & freed & Hrun & (G' & Hwf') & _ & _ & _ & Hkept & Hgone & _ & Hfreed & _).
  destruct (gc_allocation_map_delete_spec s' G' Hwf') as (h & Hdel & _ & Hin & _).
  exists (mkStopped h (uaf s') (events w ++ EvRun :: (freed ≫= release_events))), freed.
  split.
  { unfold gc_stop. rewrite Hrun. simpl.
    change (store (emit (EvRun :: freed ≫= release_events) (set_store s' w))) with s'.
    rewrite Hdel. reflexivity. }
  split; [reflexivity|]. split; [exact Hfreed|]. split.
  - intros q r He Hr. apply (Hgone q r He Hr).
  - intros q r He Hr. split.
    + destruct (entry_Some_inv s' G' q r Hwf' (Hkept q r He Hr)) as (a & Ha & _ & Hra & _).
      destruct (Hin a Ha) as (c & Hc & Hh).
      exists a, c. split; [exact Hh|].
      rewrite Hra. unfold rec_at. rewrite Hc. reflexivity.
    + intros e He'. apply list_elem_of_bind in He' as (r' & Her & Hr').
      destruct (Hfreed r' Hr') as [_ Hnr].
      unfold release_events in Her.
      split; [|intros f]; intros ->;
        (destruct (dtor r');
         repeat (apply elem_of_cons in Her as [Her | Her];
                 [try discriminate; injection Her as ?; subst; contradiction|]);
         inversion Her).
Qed.

Lemma gc_stop_leaves_reached_blocks_witness :
  well_formed (store one_chain) /\ at_floor (amap (store one_chain)) /\
  (forall q, ~ marked_key (store one_chain) q) /\
  exists st (freed : list Allocation),
    gc_stop one_chain = Some st /\
    calls st = events one_chain ++ EvRun :: (freed ≫= release_events) /\
    (forall r, r ∈ freed ->
       entry (store one_chain) (ptr r) = Some (Some r) /\
       ~ reaches (mem one_chain) (store one_chain) (gc_roots one_chain) (ptr r)) /\
    (forall q r, entry (store one_chain) q = Some (Some r) ->
       ~ reaches (mem one_chain) (store one_chain) (gc_roots one_chain) q -> r ∈ freed) /\
    (forall q r, entry (store one_chain) q = Some (Some r) ->
       reaches (mem one_chain) (store one_chain) (gc_roots one_chain) q ->
       (exists a c, records st !! a = Some (Cell false c) /\ set_next None c = r) /\
       (forall e, e ∈ freed ≫= release_events -> e <> EvFree q /\
                  forall f, e <> EvDtor f q)).
Proof.
  split; [exact one_chain_wf|]. split; [exact one_chain_floor|].
  split; [exact one_chain_clean|].
  exact (gc_stop_leaves_reached_blocks one_chain one_chain_wf one_chain_floor one_chain_clean).
Defined.

(* ===================================================================== *)
(** * Resizing, growth and allocator failure *)

(** [gc_allocation_map_resize] moves records between buckets and changes
    nothing that a lookup can see: every key answers as before, the number
    of records is as before, and the capacity is the one asked for unless
    that is not above the minimal capacity, in which case nothing
    changes. *)
Theorem resize_keeps_entries s n :
  well_formed s -> 0 < n ->
  exists s',
    gc_allocation_map_resize s n = Some s' /\
    well_formed s' /\
    (forall q, entry s' q = entry s q) /\
    am_size (amap s') = am_size (amap s) /\
    capacity (amap s') = (if min_capacity (amap s) <? n then n else capacity (amap s)) /\
    (n <= min_capacity (amap s) -> s' = s).
Proof.
  intros (G & Hwf) Hn.
  destruct (resize_wf s G n Hwf Hn)
    as (s' & G' & Hrun & Hwf' & Hperm & Hfl & Hsz & _ & Hcap & Hnoop).
  exists s'. split; [exact Hrun|]. split; [exists G'; exact Hwf'|].
  split; [|auto].
  intros q. apply (entry_transfer s G s' G' q Hwf Hwf').
  - intros a Ha _. split; [rewrite Hperm; exact Ha|].
    apply rec_fields_eq; [eapply rep_addr_lt; [exact (proj1 Hwf) | exact Ha] | exact Hfl].
  - intros a Ha Hp. split; [rewrite <- Hperm; exact Ha|].
    rewrite <- (ptr_at_fields _ _ a Hfl). exact Hp.
Qed.

Lemma resize_keeps_entries_witness :
  well_formed two_records /\ 0 < 5 /\
  exists s',
    gc_allocation_map_resize two_records 5 = Some s' /\
    well_formed s' /\
    (forall q, entry s' q = entry two_records q) /\
    am_size (amap s') = am_size (amap two_records) /\
    capacity (amap s')
      = (if min_capacity (amap two_records) <? 5 then 5
         else capacity (amap two_records)) /\
    (5 <= min_capacity (amap two_records) -> s' = two_records).
Proof.
  assert (H : well_formed two_records) by (exists two_records_chains; exact two_records_wf).
  split; [exact H|]. split; [lia|].
  exact (resize_keeps_entries two_records 5 H ltac:(lia)).
Defined.

(** [gc_allocation_map_put] of a key that is not present adds one to the
    number of records and then grows the map to
    [next_prime(capacity * 2)] exactly when the new load factor exceeds
    the upsize factor and that capacity is above the minimal capacity;
    otherwise the capacity stays. *)
Theorem put_new_key_grows s p sz d :
  well_formed s -> entry s p = Some None ->
  exists a s',
    gc_allocation_map_put s p sz d = Some (a, s') /\
    am_size (amap s') = wrap (am_size (amap s) + 1) /\
    let c' := next_prime (wrap (capacity (amap s) * 2)) in
    let load := (inject_Z (wrap (am_size (amap s) + 1)) / inject_Z (capacity (amap s)))%Q in
    (Qgtb load (upsize_factor (amap s)) = true -> min_capacity (amap s) < c' ->
     capacity (amap s') = c') /\
    (Qgtb load (upsize_factor (amap s)) = false \/ c' <= min_capacity (amap s) ->
     capacity (amap s') = capacity (amap s)).
Proof.
  intros (G & Hwf) He.
  destruct (entry_None_inv s G p Hwf He) as (_ & Hget).
  destruct (put_wf s G p sz d Hwf) as (s1 & G1 & Hrun & _ & _ & _ & _ & _ & Hins).
  destruct (Hins Hget) as (Hsz & Hcap & _).
  exists (length (heap s)), s1. split; [exact Hrun|]. split; [exact Hsz|].
  simpl. rewrite Hcap. unfold put_capacity. split.
  - intros Hload Hmin. rewrite Hload.
    destruct (Z.ltb_spec (min_capacity (amap s)) (next_prime (wrap (capacity (amap s) * 2))));
      [reflexivity | lia].
  - intros [Hload | Hmin].
    + rewrite Hload. reflexivity.
    + destruct (Z.ltb_spec (min_capacity (amap s)) (next_prime (wrap (capacity (amap s) * 2))));
        [lia|]. rewrite andb_false_r. reflexivity.
Qed.

Lemma put_new_key_grows_witness :
  well_formed two_records /\ entry two_records 96 = Some None /\
  exists a s',
    gc_allocation_map_put two_records 96 8 None = Some (a, s') /\
    am_size (amap s') = wrap (am_size (amap two_records) + 1) /\
    let c' := next_prime (wrap (capacity (amap two_records) * 2)) in
    let load := (inject_Z (wrap (am_size (amap two_records) + 1))
                 / inject_Z (capacity (amap two_records)))%Q in
    (Qgtb load (upsize_factor (amap two_records)) = true ->
     min_capacity (amap two_records) < c' ->
     capacity (amap s') = c') /\
    (Qgtb load (upsize_factor (amap two_records)) = false \/
     c' <= min_capacity (amap two_records) ->
     capacity (amap s') = capacity (amap two_records)).
Proof.
  assert (H : well_formed two_records) by (exists two_records_chains; exact two_records_wf).
  split; [exact H|]. split; [reflexivity|].
  exact (put_new_key_grows two_records 96 8 None H eq_refl).
Defined.

(** When the system allocator fails with [ENOMEM] or [EAGAIN] and fails
    again after the collection, [gc_allocate] returns null having run
    exactly one collection: on a map at its floor with no record marked,
    the blocks that are not reached are finalized and freed, every block
    that is reached keeps its record, and [errno] is that of the second
    failure. *)
Theorem gc_allocate_out_of_memory w count sz d e e2 rest :
  well_formed (store w) -> at_floor (amap (store w)) ->
  (forall q, ~ marked_key (store w) q) ->
  sys w = (0, e) :: (0, e2) :: rest ->
  e = EAGAIN \/ e = ENOMEM ->
  exists s' (freed : list Allocation),
    gc_allocate w count sz d
      = Some (0, set_errno e2 (set_sys rest
                   (emit (EvRun :: (freed ≫= release_events)) (set_store s' w)))) /\
    well_formed s' /\
    (forall q r, entry (store w) q = Some (Some r) ->
       reaches (mem w) (store w) (gc_roots w) q -> entry s' q = Some (Some r)) /\
    (forall q r, entry (store w) q = Some (Some r) ->
       ~ reaches (mem w) (store w) (gc_roots w) q ->
       entry s' q = Some None /\ r ∈ freed) /\
    (forall r, r ∈ freed ->
       entry (store w) (ptr r) = Some (Some r) /\
       ~ reaches (mem w) (store w) (gc_roots w) (ptr r)).
Proof.
  intros Hwf Hfloor Hclean Hsys He.
  set (w1 := set_errno e (set_sys ((0, e2) :: rest) w)).
  destruct (gc_run_keys w1 Hwf Hfloor Hclean)
    as (s' & freed & Hrun & Hwf' & _ & _ & _ & Hkept & Hgone & _ & Hfreed & _).
  exists s', freed.
  split; [|split; [exact Hwf' | split; [exact Hkept | split; [exact Hgone | exact Hfreed]]]].
  unfold gc_allocate, gc_mcalloc.
  assert (H1 : sys_alloc w = (0, w1)) by (unfold sys_alloc; rewrite Hsys; reflexivity).
  rewrite H1.
  assert (Hchk : (0 =? 0) && ((errno w1 =? EAGAIN) || (errno w1 =? ENOMEM)) = true).
  { unfold w1. simpl. destruct He as [-> | ->]; reflexivity. }
  rewrite Hchk, Hrun.
  unfold w1. destruct w as [[s pz b] er m t q ev]. reflexivity.
Qed.

Lemma gc_allocate_out_of_memory_witness :
  well_formed (store one_chain_oom) /\ at_floor (amap (store one_chain_oom)) /\
  (forall q, ~ marked_key (store one_chain_oom) q) /\
  sys one_chain_oom = (0, ENOMEM) :: (0, EAGAIN) :: [] /\
  (ENOMEM = EAGAIN \/ ENOMEM = ENOMEM) /\
  exists s' (freed : list Allocation),
    gc_allocate one_chain_oom 0 64 None
      = Some (0, set_errno EAGAIN (set_sys []
                   (emit (EvRun :: (freed ≫= release_events))
                      (set_store s' one_chain_oom)))) /\
    well_formed s' /\
    (forall q r, entry (store one_chain_oom) q = Some (Some r) ->
       reaches (mem one_chain_oom) (store one_chain_oom) (gc_roots one_chain_oom) q ->
       entry s' q = Some (Some r)) /\
    (forall q r, entry (store one_chain_oom) q = Some (Some r) ->
       ~ reaches (mem one_chain_oom) (store one_chain_oom) (gc_roots one_chain_oom) q ->
       entry s' q = Some None /\ r ∈ freed) /\
    (forall r, r ∈ freed ->
       entry (store one_chain_oom) (ptr r) = Some (Some r) /\
       ~ reaches (mem one_chain_oom) (store one_chain_oom) (gc_roots one_chain_oom) (ptr r)).
Proof.
  split; [exact one_chain_wf|]. split; [exact one_chain_floor|].
  split; [exact one_chain_clean|]. split; [reflexivity|].
  split; [right; reflexivity|].
  exact (gc_allocate_out_of_memory one_chain_oom 0 64 None ENOMEM EAGAIN []
           one_chain_wf one_chain_floor one_chain_clean eq_refl (or_intror eq_refl)).
Defined.

(* ===================================================================== *)
(** * Reallocation that moves the block *)





(* ===================================================================== *)
(** * The tokenizer *)

Ltac chars :=
  repeat match goal with
         | |- context [ch ?x] =>
             let v := eval vm_compute in (ch x) in change (ch x) with v
         | H : context [ch ?x] |- _ =>
             let v := eval vm_compute in (ch x) in change (ch x) with v in H
         end.

Ltac char_tests :=
  unfold ends_number_kept in *;
  unfold is_digit, is_letter, is_paren, is_blank, NEWLINE in *;
  chars;
  repeat match goal with
         | H : context [?a =? ?b] |- _ => destruct (Z.eqb_spec a b); simpl in H
         | H : context [?a <=? ?b] |- _ => destruct (Z.leb_spec a b); simpl in H
         | |- context [?a =? ?b] => destruct (Z.eqb_spec a b); simpl
         | |- context [?a <=? ?b] => destruct (Z.leb_spec a b); simpl
         end;
  try discriminate; try lia.

Lemma c_string_nonzero l : Forall (fun c => c <> 0) l -> c_string l = l.
Proof.
  induction 1 as [|c l Hc _ IH]; simpl; [reflexivity|].
  destruct (Z.eqb_spec c 0); [contradiction|]. rewrite IH. reflexivity.
Qed.

Lemma make_token_short t buf :
  Z.of_nat (length buf) < BUFSIZE ->
  lexer_make_token t buf = Some (token t (c_string buf)).
Proof.
  intros H. unfold lexer_make_token.
  destruct (Z.ltb_spec (Z.of_nat (length buf)) BUFSIZE); [reflexivity | lia].
Qed.

Lemma put_char_short buf c :
  Z.of_nat (length buf) < BUFSIZE -> put_char buf c = Some (buf ++ [c]).
Proof.
  intros H. unfold put_char.
  destruct (Z.ltb_spec (Z.of_nat (length buf)) BUFSIZE); [reflexivity | lia].
Qed.

Lemma ret_short t buf input st line :
  Z.of_nat (length buf) < BUFSIZE ->
  ret t buf input st line = Some (Some (token t (c_string buf)), (input, st, line)).
Proof. intros H. unfold ret. rewrite (make_token_short t buf H). reflexivity. Qed.

Lemma newlines_cons_nl l : newlines (NEWLINE :: l) = newlines l + 1.
Proof.
  unfold newlines. rewrite filter_cons.
  destruct (decide (NEWLINE = NEWLINE)); [|contradiction]. simpl length. lia.
Qed.

Lemma newlines_cons_other c l : c <> NEWLINE -> newlines (c :: l) = newlines l.
Proof.
  intros H. unfold newlines. rewrite filter_cons.
  destruct (decide (c = NEWLINE)); [contradiction | reflexivity].
Qed.

(** Blanks and newlines before a token are skipped, and each newline adds
    one to [line_no]: the lexer started on [ws ++ rest] does what it does
    on [rest] at the line reached. *)
Theorem lexer_skips_blanks ws rest line cn :
  Forall (fun c => is_blank c = true \/ c = NEWLINE) ws ->
  lexer_get_token (mkLexer (ws ++ rest) LEXER_STATE_ZERO line cn)
  = lexer_get_token (mkLexer rest LEXER_STATE_ZERO (line + newlines ws) cn).
Proof.
  intros Hws. revert line. induction Hws as [|c ws Hc _ IH]; intros line.
  - unfold newlines. simpl. rewrite Z.add_0_r. reflexivity.
  - unfold lexer_get_token in *. simpl fp in *. simpl state in *. simpl line_no in *.
    simpl char_no in *.
    destruct Hc as [Hc | ->].
    + assert (Hcases : c = 32 \/ c = 13 \/ c = 9) by char_tests.
      assert (Hnl : c <> NEWLINE) by (unfold NEWLINE; lia).
      rewrite (newlines_cons_other c ws Hnl).
      destruct Hcases as [-> | [-> | ->]]; simpl; apply IH.
    + rewrite newlines_cons_nl. simpl.
      rewrite IH.
      replace (line + 1 + newlines ws) with (line + (newlines ws + 1)) by lia.
      reflexivity.
Qed.

Lemma lexer_skips_blanks_witness :
  Forall (fun c => is_blank c = true \/ c = NEWLINE) [32; 10; 9; 10] /\
  lexer_get_token (mkLexer ([32; 10; 9; 10] ++ [40; 41]) LEXER_STATE_ZERO 1 0)
  = lexer_get_token (mkLexer [40; 41] LEXER_STATE_ZERO (1 + newlines [32; 10; 9; 10]) 0).
Proof.
  assert (H : Forall (fun c => is_blank c = true \/ c = NEWLINE) [32; 10; 9; 10]).
  { repeat constructor; (left; reflexivity) || (right; reflexivity). }
  split; [exact H | exact (lexer_skips_blanks [32; 10; 9; 10] [40; 41] 1 0 H)].
Defined.

Ltac step_tests :=
  repeat (match goal with
          | |- context [?a =? ?b] => destruct (Z.eqb_spec a b)
          | |- context [?a <=? ?b] => destruct (Z.leb_spec a b)
          end; try lia; simpl).

Lemma digit_range c : is_digit c = true <-> 48 <= c <= 57.
Proof.
  unfold is_digit. chars.
  destruct (Z.leb_spec 48 c); destruct (Z.leb_spec c 57); simpl; split;
    intros; try discriminate; try lia; reflexivity.
Qed.

Lemma letter_range c : is_letter c = true <-> 97 <= c <= 122 \/ 65 <= c <= 90.
Proof.
  unfold is_letter. chars.
  destruct (Z.leb_spec 97 c); destruct (Z.leb_spec c 122);
    destruct (Z.leb_spec 65 c); destruct (Z.leb_spec c 90); simpl; split;
    intros; try discriminate; try lia; reflexivity.
Qed.

Lemma zero_digit c rest line buf :
  is_digit c = true ->
  lexer_loop (c :: rest) LEXER_STATE_ZERO line buf
  = (buf1 ← put_char buf c; lexer_loop rest LEXER_STATE_NUMBER line buf1).
Proof.
  intros H. apply digit_range in H.
  cbn [lexer_loop]. unfold is_digit, is_letter, is_blank, NEWLINE. chars.
  step_tests. reflexivity.
Qed.

Lemma zero_letter c rest line buf :
  is_letter c = true ->
  lexer_loop (c :: rest) LEXER_STATE_ZERO line buf
  = (buf1 ← put_char buf c; lexer_loop rest LEXER_STATE_SYMBOL line buf1).
Proof.
  intros H. apply letter_range in H.
  cbn [lexer_loop]. unfold is_digit, is_letter, is_blank, NEWLINE. chars.
  destruct H; step_tests; reflexivity.
Qed.

Lemma number_digit c rest line buf :
  is_digit c = true ->
  lexer_loop (c :: rest) LEXER_STATE_NUMBER line buf
  = (buf1 ← put_char buf c; lexer_loop rest LEXER_STATE_NUMBER line buf1).
Proof.
  intros H. apply digit_range in H.
  cbn [lexer_loop]. unfold is_paren, is_digit, is_blank, NEWLINE. chars.
  step_tests. reflexivity.
Qed.

Lemma float_digit c rest line buf :
  is_digit c = true ->
  lexer_loop (c :: rest) LEXER_STATE_FLOAT line buf
  = (buf1 ← put_char buf c; lexer_loop rest LEXER_STATE_FLOAT line buf1).
Proof.
  intros H. apply digit_range in H.
  cbn [lexer_loop]. unfold is_paren, is_digit, is_blank, NEWLINE. chars.
  step_tests. reflexivity.
Qed.

Lemma number_end d rest line buf st t :
  (st = LEXER_STATE_NUMBER /\ t = INT) \/ (st = LEXER_STATE_FLOAT /\ t = FLOAT) ->
  ends_number_kept d = true \/ is_blank d = true ->
  lexer_loop (d :: rest) st line buf
  = ret t buf (if is_blank d then rest else d :: rest) LEXER_STATE_ZERO line.
Proof.
  intros Hst Hd.
  assert (Hc : d = 40 \/ d = 41 \/ d = 10 \/ d = 32 \/ d = 13 \/ d = 9).
  { destruct Hd as [Hd | Hd]; char_tests. }
  destruct Hst as [[-> ->] | [-> ->]];
    destruct Hc as [-> | [-> | [-> | [-> | [-> | ->]]]]]; reflexivity.
Qed.

Lemma digits_nonzero ds :
  Forall (fun c => is_digit c = true) ds -> Forall (fun c => c <> 0) ds.
Proof.
  intros H. eapply Forall_impl; [exact H|]. intros c Hc. apply digit_range in Hc. lia.
Qed.

Lemma digits_loop st : forall ds buf tail line,
  st = LEXER_STATE_NUMBER \/ st = LEXER_STATE_FLOAT ->
  Forall (fun c => is_digit c = true) ds ->
  Z.of_nat (length (buf ++ ds)) <= BUFSIZE ->
  lexer_loop (ds ++ tail) st line buf = lexer_loop tail st line (buf ++ ds).
Proof.
  induction ds as [|c ds IH]; intros buf tail line Hst Hds Hlen.
  - rewrite app_nil_r. reflexivity.
  - apply Forall_cons in Hds as [Hc Hds].
    rewrite length_app in Hlen. simpl in Hlen.
    simpl app.
    assert (Hstep : lexer_loop (c :: ds ++ tail) st line buf
                    = (buf1 ← put_char buf c; lexer_loop (ds ++ tail) st line buf1)).
    { destruct Hst as [-> | ->]; [apply number_digit | apply float_digit]; exact Hc. }
    rewrite Hstep, put_char_short by lia. simpl.
    rewrite IH; [|exact Hst | exact Hds | rewrite !length_app; simpl; lia].
    rewrite <- app_assoc. reflexivity.
Qed.

(** A number in the input: digits, and then a character that ends it.
    The token is of type [INT] and its value is the text of the digits; a
    parenthesis or a newline that ends the number is left in the stream
    for the next call, a blank is consumed. *)
Theorem lexer_reads_integer c ds d rest line cn :
  is_digit c = true -> Forall (fun x => is_digit x = true) ds ->
  Z.of_nat (length (c :: ds)) < BUFSIZE ->
  ends_number_kept d = true \/ is_blank d = true ->
  lexer_get_token (mkLexer (c :: ds ++ d :: rest) LEXER_STATE_ZERO line cn)
  = Some (Some (token INT (c :: ds)),
          mkLexer (if is_blank d then rest else d :: rest) LEXER_STATE_ZERO line cn).
Proof.
  intros Hc Hds Hlen Hd. unfold lexer_get_token. simpl fp. simpl state. simpl line_no.
  simpl length in Hlen.
  rewrite (zero_digit c _ line [] Hc), put_char_short by (simpl; unfold BUFSIZE; lia).
  simpl.
  rewrite (digits_loop LEXER_STATE_NUMBER ds [c] (d :: rest) line (or_introl eq_refl) Hds)
    by (simpl; lia).
  rewrite (number_end d rest line _ LEXER_STATE_NUMBER INT (or_introl (conj eq_refl eq_refl)) Hd).
  rewrite ret_short by (simpl; lia).
  change ([c] ++ ds) with (c :: ds).
  rewrite (c_string_nonzero (c :: ds)); [reflexivity|].
  apply digits_nonzero. constructor; assumption.
Qed.

Lemma lexer_reads_integer_witness :
  is_digit 49 = true /\ Forall (fun x => is_digit x = true) [50; 51] /\
  Z.of_nat (length (49 :: [50; 51])) < BUFSIZE /\
  (ends_number_kept 41 = true \/ is_blank 41 = true) /\
  lexer_get_token (mkLexer (49 :: [50; 51] ++ 41 :: [32]) LEXER_STATE_ZERO 1 0)
  = Some (Some (token INT (49 :: [50; 51])),
          mkLexer (if is_blank 41 then [32] else 41 :: [32]) LEXER_STATE_ZERO 1 0).
Proof.
  assert (H1 : Forall (fun x => is_digit x = true) [50; 51]) by (repeat constructor).
  assert (H2 : Z.of_nat (length (49 :: [50; 51])) < BUFSIZE) by (vm_compute; reflexivity).
  split; [reflexivity|]. split; [exact H1|]. split; [exact H2|].
  split; [left; reflexivity|].
  exact (lexer_reads_integer 49 [50; 51] 41 [32] 1 0 eq_refl H1 H2 (or_introl eq_refl)).
Defined.

Ltac solve_len :=
  simpl; rewrite ?length_app; simpl; rewrite ?length_app; simpl;
  unfold BUFSIZE in *; lia.

(** A number with a fraction: digits, a point, digits, and a character
    that ends it.  The token is of type [FLOAT]; its value is the text. *)
Theorem lexer_reads_float c ds fs d rest line cn :
  is_digit c = true -> Forall (fun x => is_digit x = true) ds ->
  Forall (fun x => is_digit x = true) fs ->
  Z.of_nat (length (c :: ds ++ 46 :: fs)) < BUFSIZE ->
  ends_number_kept d = true \/ is_blank d = true ->
  lexer_get_token (mkLexer (c :: ds ++ 46 :: fs ++ d :: rest) LEXER_STATE_ZERO line cn)
  = Some (Some (token FLOAT (c :: ds ++ 46 :: fs)),
          mkLexer (if is_blank d then rest else d :: rest) LEXER_STATE_ZERO line cn).
Proof.
  intros Hc Hds Hfs Hlen Hd. unfold lexer_get_token. simpl fp. simpl state. simpl line_no.
  simpl length in Hlen. rewrite length_app in Hlen. simpl length in Hlen.
  rewrite (zero_digit c _ line [] Hc), put_char_short by solve_len.
  simpl.
  rewrite (digits_loop LEXER_STATE_NUMBER ds [c] _ line (or_introl eq_refl) Hds)
    by solve_len.
  assert (Hdot : forall tail buf,
            lexer_loop (46 :: tail) LEXER_STATE_NUMBER line buf
            = (buf1 ← put_char buf 46; lexer_loop tail LEXER_STATE_FLOAT line buf1))
    by reflexivity.
  rewrite Hdot, put_char_short by solve_len.
  simpl.
  rewrite (digits_loop LEXER_STATE_FLOAT fs _ _ line (or_intror eq_refl) Hfs)
    by solve_len.
  rewrite (number_end d rest line _ LEXER_STATE_FLOAT FLOAT (or_intror (conj eq_refl eq_refl)) Hd).
  rewrite ret_short by solve_len.
  replace ((c :: ds ++ [46]) ++ fs) with (c :: ds ++ 46 :: fs)
    by (simpl; rewrite <- app_assoc; reflexivity).
  rewrite c_string_nonzero; [reflexivity|].
  apply digits_nonzero in Hds. apply digits_nonzero in Hfs. apply digit_range in Hc.
  constructor; [lia|]. apply Forall_app. split; [exact Hds|].
  constructor; [lia | exact Hfs].
Qed.

Lemma lexer_reads_float_witness :
  is_digit 51 = true /\ Forall (fun x => is_digit x = true) [] /\
  Forall (fun x => is_digit x = true) [49; 52] /\
  Z.of_nat (length (51 :: [] ++ 46 :: [49; 52])) < BUFSIZE /\
  (ends_number_kept 32 = true \/ is_blank 32 = true) /\
  lexer_get_token (mkLexer (51 :: [] ++ 46 :: [49; 52] ++ 32 :: [41]) LEXER_STATE_ZERO 1 0)
  = Some (Some (token FLOAT (51 :: [] ++ 46 :: [49; 52])),
          mkLexer (if is_blank 32 then [41] else 32 :: [41]) LEXER_STATE_ZERO 1 0).
Proof.
  assert (H1 : Forall (fun x => is_digit x = true) []) by constructor.
  assert (H2 : Forall (fun x => is_digit x = true) [49; 52]) by (repeat constructor).
  assert (H3 : Z.of_nat (length (51 :: [] ++ 46 :: [49; 52])) < BUFSIZE)
    by (vm_compute; reflexivity).
  split; [reflexivity|]. split; [exact H1|]. split; [exact H2|]. split; [exact H3|].
  split; [right; reflexivity|].
  exact (lexer_reads_float 51 [] [49; 52] 32 [41] 1 0 eq_refl H1 H2 H3 (or_intror eq_refl)).
Defined.

Lemma symbol_loop : forall cs buf tail line,
  Forall (fun c => strchr symbol_chars c = true) cs ->
  Z.of_nat (length (buf ++ cs)) <= BUFSIZE ->
  lexer_loop (cs ++ tail) LEXER_STATE_SYMBOL line buf
  = lexer_loop tail LEXER_STATE_SYMBOL line (buf ++ cs).
Proof.
  induction cs as [|c cs IH]; intros buf tail line Hcs Hlen.
  - rewrite app_nil_r. reflexivity.
  - apply Forall_cons in Hcs as [Hc Hcs].
    rewrite length_app in Hlen. simpl in Hlen.
    simpl app. cbn [lexer_loop]. rewrite Hc, put_char_short by lia. simpl.
    rewrite IH; [|exact Hcs | solve_len].
    rewrite <- app_assoc. reflexivity.
Qed.

Lemma stuck_at_end l :
  fp l = [] -> state l <> LEXER_STATE_ZERO -> forall n, stuck n l (token ERROR []).
Proof.
  intros Hfp Hst. induction n as [|n IH]; simpl; [exact I|].
  split; [|exact IH].
  destruct l as [f st line cn]. simpl in *. subst f.
  unfold lexer_get_token. simpl. destruct st; try contradiction; reflexivity.
Qed.

(** A symbol: a letter, then characters of [symbol_chars], then a
    character that is not one of them, which is left in the stream.  The
    value of the token is the text up to the first zero byte, a zero byte
    being accepted as a character of a symbol. *)
Theorem lexer_reads_symbol c cs d rest line cn :
  is_letter c = true -> Forall (fun x => strchr symbol_chars x = true) cs ->
  Z.of_nat (length (c :: cs)) < BUFSIZE ->
  strchr symbol_chars d = false ->
  lexer_get_token (mkLexer (c :: cs ++ d :: rest) LEXER_STATE_ZERO line cn)
  = Some (Some (token SYMBOL (c_string (c :: cs))),
          mkLexer (d :: rest) LEXER_STATE_ZERO line cn).
Proof.
  intros Hc Hcs Hlen Hd. unfold lexer_get_token. simpl fp. simpl state. simpl line_no.
  simpl length in Hlen.
  rewrite (zero_letter c _ line [] Hc), put_char_short by solve_len.
  simpl.
  rewrite (symbol_loop cs [c] (d :: rest) line Hcs) by solve_len.
  cbn [lexer_loop]. rewrite Hd.
  rewrite ret_short by solve_len. reflexivity.
Qed.

Lemma lexer_reads_symbol_witness :
  is_letter 102 = true /\ Forall (fun x => strchr symbol_chars x = true) [111; 43; 49] /\
  Z.of_nat (length (102 :: [111; 43; 49])) < BUFSIZE /\
  strchr symbol_chars 41 = false /\
  lexer_get_token (mkLexer (102 :: [111; 43; 49] ++ 41 :: []) LEXER_STATE_ZERO 1 0)
  = Some (Some (token SYMBOL (c_string (102 :: [111; 43; 49]))),
          mkLexer (41 :: []) LEXER_STATE_ZERO 1 0).
Proof.
  assert (H1 : Forall (fun x => strchr symbol_chars x = true) [111; 43; 49])
    by (repeat constructor).
  assert (H2 : Z.of_nat (length (102 :: [111; 43; 49])) < BUFSIZE) by (vm_compute; reflexivity).
  split; [reflexivity|]. split; [exact H1|]. split; [exact H2|]. split; [reflexivity|].
  exact (lexer_reads_symbol 102 [111; 43; 49] 41 [] 1 0 eq_refl H1 H2 eq_refl).
Defined.

(** A symbol that ends the input, with no character after it, is not
    returned as a symbol: the call returns an [ERROR] token with the text
    of the symbol and leaves the lexer in the state of a symbol, and every
    later call returns an [ERROR] token with an empty text; null, the
    mark of the end of the input, is never returned. *)
Theorem lexer_symbol_at_end c cs line cn :
  is_letter c = true -> Forall (fun x => strchr symbol_chars x = true) cs ->
  Z.of_nat (length (c :: cs)) < BUFSIZE ->
  lexer_get_token (mkLexer (c :: cs) LEXER_STATE_ZERO line cn)
  = Some (Some (token ERROR (c_string (c :: cs))),
          mkLexer [] LEXER_STATE_SYMBOL line cn) /\
  forall n, stuck n (mkLexer [] LEXER_STATE_SYMBOL line cn) (token ERROR []).
Proof.
  intros Hc Hcs Hlen. split; [|apply stuck_at_end; [reflexivity | discriminate]].
  unfold lexer_get_token. simpl fp. simpl state. simpl line_no.
  simpl length in Hlen.
  rewrite (zero_letter c _ line [] Hc), put_char_short by solve_len.
  simpl.
  rewrite <- (app_nil_r cs) at 1.
  rewrite (symbol_loop cs [c] [] line Hcs) by solve_len.
  cbn [lexer_loop].
  rewrite ret_short by solve_len. reflexivity.
Qed.

Lemma lexer_symbol_at_end_witness :
  is_letter 102 = true /\ Forall (fun x => strchr symbol_chars x = true) [111; 111] /\
  Z.of_nat (length (102 :: [111; 111])) < BUFSIZE /\
  lexer_get_token (mkLexer (102 :: [111; 111]) LEXER_STATE_ZERO 1 0)
  = Some (Some (token ERROR (c_string (102 :: [111; 111]))),
          mkLexer [] LEXER_STATE_SYMBOL 1 0) /\
  forall n, stuck n (mkLexer [] LEXER_STATE_SYMBOL 1 0) (token ERROR []).
Proof.
  assert (H1 : Forall (fun x => strchr symbol_chars x = true) [111; 111])
    by (repeat constructor).
  assert (H2 : Z.of_nat (length (102 :: [111; 111])) < BUFSIZE) by (vm_compute; reflexivity).
  split; [reflexivity|]. split; [exact H1|]. split; [exact H2|].
  exact (lexer_symbol_at_end 102 [111; 111] 1 0 eq_refl H1 H2).
Defined.

Lemma newlines_app l1 l2 : newlines (l1 ++ l2) = newlines l1 + newlines l2.
Proof. unfold newlines. rewrite filter_app, length_app. lia. Qed.

Lemma string_loop : forall body buf tail line,
  Forall (fun c => c <> 34) body ->
  Z.of_nat (length (buf ++ body)) <= BUFSIZE ->
  lexer_loop (body ++ tail) LEXER_STATE_STRING line buf
  = lexer_loop tail LEXER_STATE_STRING (line + newlines body) (buf ++ body).
Proof.
  induction body as [|c body IH]; intros buf tail line Hb Hlen.
  - rewrite app_nil_r. unfold newlines. simpl. rewrite Z.add_0_r. reflexivity.
  - apply Forall_cons in Hb as [Hc Hb].
    rewrite length_app in Hlen. simpl in Hlen.
    simpl app. cbn [lexer_loop].
    destruct (Z.eqb_spec c 34); [contradiction|]. simpl negb. cbn iota.
    rewrite put_char_short by solve_len. simpl.
    rewrite IH; [|exact Hb | solve_len].
    rewrite <- app_assoc. simpl.
    destruct (Z.eqb_spec c NEWLINE) as [-> | Hn].
    + rewrite newlines_cons_nl. f_equal. lia.
    + rewrite (newlines_cons_other c body Hn). reflexivity.
Qed.

(** A string: a double quote, characters other than the double quote, and
    a double quote.  The quotes are not part of the value, which is the
    text up to the first zero byte; each newline inside the string adds
    one to [line_no]. *)
Theorem lexer_reads_string body rest line cn :
  Forall (fun c => c <> 34) body ->
  Z.of_nat (length body) < BUFSIZE ->
  lexer_get_token (mkLexer (34 :: body ++ 34 :: rest) LEXER_STATE_ZERO line cn)
  = Some (Some (token STRING (c_string body)),
          mkLexer rest LEXER_STATE_ZERO (line + newlines body) cn).
Proof.
  intros Hb Hlen. unfold lexer_get_token. simpl fp. simpl state. simpl line_no.
  assert (Hq : forall tail buf,
            lexer_loop (34 :: tail) LEXER_STATE_ZERO line buf
            = lexer_loop tail LEXER_STATE_STRING line buf) by reflexivity.
  rewrite Hq.
  rewrite (string_loop body [] (34 :: rest) line Hb) by solve_len.
  cbn [lexer_loop]. simpl negb. cbn iota. simpl app.
  rewrite ret_short by solve_len. reflexivity.
Qed.

Lemma lexer_reads_string_witness :
  Forall (fun c => c <> 34) [104; 10; 105] /\
  Z.of_nat (length [104; 10; 105]) < BUFSIZE /\
  lexer_get_token (mkLexer (34 :: [104; 10; 105] ++ 34 :: [41]) LEXER_STATE_ZERO 1 0)
  = Some (Some (token STRING (c_string [104; 10; 105])),
          mkLexer [41] LEXER_STATE_ZERO (1 + newlines [104; 10; 105]) 0).
Proof.
  assert (H1 : Forall (fun c => c <> 34) [104; 10; 105]) by (repeat constructor; lia).
  assert (H2 : Z.of_nat (length [104; 10; 105]) < BUFSIZE) by (vm_compute; reflexivity).
  split; [exact H1|]. split; [exact H2|].
  exact (lexer_reads_string [104; 10; 105] [41] 1 0 H1 H2).
Defined.

Ltac lex_step H :=
  cbn [lexer_loop] in H;
  repeat match type of H with
         | context [match ?st with LEXER_STATE_ZERO => _ | _ => _ end] => destruct st
         | context [if ?b then _ else _] => destruct b eqn:?
         end.

Lemma ret_inv t buf inp st line r inp' st' line' :
  ret t buf inp st line = Some (r, (inp', st', line')) ->
  exists tok, lexer_make_token t buf = Some tok /\ r = Some tok /\
              inp' = inp /\ st' = st /\ line' = line.
Proof.
  unfold ret. destruct (lexer_make_token t buf) as [tok|]; simpl; [|discriminate].
  intros H. inversion H; subst. exists tok. repeat split; reflexivity.
Qed.

Lemma put_inv {A} buf c (k : list Z -> option A) x :
  (buf1 ← put_char buf c; k buf1) = Some x ->
  Z.of_nat (length buf) < BUFSIZE /\ k (buf ++ [c]) = Some x.
Proof.
  unfold put_char. destruct (Z.ltb_spec (Z.of_nat (length buf)) BUFSIZE); simpl;
    [auto | discriminate].
Qed.

Ltac lex_leaf H :=
  try (apply put_inv in H; destruct H as [_ H]);
  try (apply ret_inv in H; destruct H as (? & ? & ? & ? & ? & ?); subst).

Lemma loop_suffix : forall input st line buf r input' st' line',
  lexer_loop input st line buf = Some (r, (input', st', line')) ->
  (exists pre, input = pre ++ input') /\ line <= line'.
Proof.
  induction input as [|c rest IH]; intros st line buf r input' st' line' H.
  - lex_step H; lex_leaf H; try (injection H as <- <- <- <-);
      (split; [exists []; reflexivity | lia]).
  - lex_step H; lex_leaf H;
      try (split; [first [exists [c]; reflexivity | exists []; reflexivity] | lia]);
      apply IH in H; destruct H as [(pre & ->) Hl];
      (split; [exists (c :: pre); reflexivity | lia]).
Qed.


Lemma loop_null : forall input st line buf input' st' line',
  lexer_loop input st line buf = Some (None, (input', st', line')) ->
  st = LEXER_STATE_ZERO /\ st' = LEXER_STATE_ZERO /\ input' = [] /\
  Forall (fun c => is_blank c = true \/ c = NEWLINE) input /\
  line' = line + newlines input.
Proof.
  induction input as [|c rest IH]; intros st line buf input' st' line' H.
  - lex_step H; lex_leaf H; try discriminate.
    injection H as <- <- <-. unfold newlines. simpl.
    repeat split; try constructor; lia.
  - lex_step H; lex_leaf H; try discriminate;
      apply IH in H; destruct H as (Hst & -> & -> & Hall & ->); try discriminate.
    + repeat split; [constructor; [left; assumption | exact Hall]|].
      assert (c <> NEWLINE) by (intros ->; discriminate).
      rewrite newlines_cons_other by assumption. reflexivity.
    + match goal with E : (c =? NEWLINE) = true |- _ => apply Z.eqb_eq in E; subst c end.
      repeat split; [constructor; [right; reflexivity | exact Hall]|].
      rewrite newlines_cons_nl. lia.
Qed.

Lemma loop_progress c rest line buf r input' st' line' :
  lexer_loop (c :: rest) LEXER_STATE_ZERO line buf = Some (r, (input', st', line')) ->
  (length input' <= length rest)%nat.
Proof.
  intros H. lex_step H; lex_leaf H; try lia;
    apply loop_suffix in H; destruct H as [(pre & ->) _];
    rewrite length_app; lia.
Qed.

Lemma blanks_loop ws rest buf : forall line,
  Forall (fun c => is_blank c = true \/ c = NEWLINE) ws ->
  lexer_loop (ws ++ rest) LEXER_STATE_ZERO line buf
  = lexer_loop rest LEXER_STATE_ZERO (line + newlines ws) buf.
Proof.
  intros line Hws. revert line. induction Hws as [|c ws Hc _ IH]; intros line.
  - unfold newlines. simpl. rewrite Z.add_0_r. reflexivity.
  - destruct Hc as [Hc | ->].
    + assert (Hcases : c = 32 \/ c = 13 \/ c = 9) by char_tests.
      assert (Hnl : c <> NEWLINE) by (unfold NEWLINE; lia).
      rewrite (newlines_cons_other c ws Hnl).
      destruct Hcases as [-> | [-> | ->]]; simpl; apply IH.
    + rewrite newlines_cons_nl. simpl.
      rewrite IH.
      replace (line + 1 + newlines ws) with (line + (newlines ws + 1)) by lia.
      reflexivity.
Qed.

Lemma loop_defined : forall input st line buf,
  Z.of_nat (length buf) + Z.of_nat (length input) < BUFSIZE ->
  exists r, lexer_loop input st line buf = Some r.
Proof.
  induction input as [|c rest IH]; intros st line buf Hlen; simpl length in Hlen.
  - cbn [lexer_loop]. destruct st; rewrite ?ret_short by lia; eauto.
  - assert (Hput : put_char buf c = Some (buf ++ [c])) by (apply put_char_short; lia).
    assert (Hlen1 : Z.of_nat (length (buf ++ [c])) + Z.of_nat (length rest) < BUFSIZE)
      by (rewrite length_app; simpl; lia).
    assert (Hlen2 : Z.of_nat (length buf) + Z.of_nat (length rest) < BUFSIZE) by lia.
    assert (Hb1 : Z.of_nat (length (buf ++ [c])) < BUFSIZE) by lia.
    assert (Hb : Z.of_nat (length buf) < BUFSIZE) by lia.
    cbn [lexer_loop].
    destruct st;
      repeat match goal with
             | |- context [if ?b then _ else _] => destruct b
             end;
      rewrite ?Hput; simpl; rewrite ?ret_short by assumption; eauto.
Qed.



(** A call consumes a prefix of the stream and never lowers the line
    number: what is left to read is a suffix of what there was.  A call
    that starts in the state [LEXER_STATE_ZERO] and returns a token has
    read at least one character for it. *)
Theorem lexer_consumes_input l r l' :
  lexer_get_token l = Some (r, l') ->
  (exists pre, fp l = pre ++ fp l') /\
  line_no l <= line_no l' /\
  (state l = LEXER_STATE_ZERO -> r <> None ->
   (length (fp l') < length (fp l))%nat).
Proof.
  unfold lexer_get_token. intros H.
  destruct (lexer_loop (fp l) (state l) (line_no l) [])
    as [[r0 [[input st] line]]|] eqn:Hloop; simpl in H; [|discriminate].
  injection H as -> <-. simpl.
  destruct (loop_suffix _ _ _ _ _ _ _ _ Hloop) as [Hpre Hline].
  split; [exact Hpre|]. split; [exact Hline|].
  intros Hst Hr. rewrite Hst in Hloop.
  destruct (fp l) as [|c rest].
  - simpl in Hloop. injection Hloop as <- _ _ _. contradiction.
  - apply loop_progress in Hloop. simpl. lia.
Qed.

Lemma lexer_consumes_input_witness :
  let l := mkLexer [32; 10; 52; 50; 41] LEXER_STATE_ZERO 1 0 in
  let r := Some (token INT [52; 50]) in
  let l' := mkLexer [41] LEXER_STATE_ZERO 2 0 in
  lexer_get_token l = Some (r, l') /\
  (exists pre, fp l = pre ++ fp l') /\
  line_no l <= line_no l' /\
  (state l = LEXER_STATE_ZERO -> r <> None ->
   (length (fp l') < length (fp l))%nat).
Proof.
  intros l r l'.
  assert (H : lexer_get_token l = Some (r, l')) by (vm_compute; reflexivity).
  split; [exact H | exact (lexer_consumes_input l r l' H)].
Defined.

(** The end of the input.  [lexer_get_token] returns null exactly when it
    is called in the state [LEXER_STATE_ZERO] and all that is left in the
    stream is blanks and newlines (or nothing); the stream is then empty,
    the state unchanged and the newlines counted. *)
Theorem lexer_null_at_end l l' :
  lexer_get_token l = Some (None, l') <->
  state l = LEXER_STATE_ZERO /\
  Forall (fun c => is_blank c = true \/ c = NEWLINE) (fp l) /\
  l' = mkLexer [] LEXER_STATE_ZERO (line_no l + newlines (fp l)) (char_no l).
Proof.
  unfold lexer_get_token. split.
  - intros H.
    destruct (lexer_loop (fp l) (state l) (line_no l) [])
      as [[r0 [[input st] line]]|] eqn:Hloop; simpl in H; [|discriminate].
    injection H as -> <-.
    apply loop_null in Hloop. destruct Hloop as (Hst & -> & -> & Hall & ->).
    auto.
  - intros (Hst & Hall & ->). rewrite Hst.
    rewrite <- (app_nil_r (fp l)) at 1.
    rewrite (blanks_loop (fp l) [] [] (line_no l) Hall). reflexivity.
Qed.

Lemma lexer_null_at_end_witness :
  let l := mkLexer [32; 10; 9; 10] LEXER_STATE_ZERO 1 0 in
  let l' := mkLexer [] LEXER_STATE_ZERO 3 0 in
  lexer_get_token l = Some (None, l') /\
  state l = LEXER_STATE_ZERO /\
  Forall (fun c => is_blank c = true \/ c = NEWLINE) (fp l) /\
  l' = mkLexer [] LEXER_STATE_ZERO (line_no l + newlines (fp l)) (char_no l).
Proof.
  intros l l'.
  assert (H : lexer_get_token l = Some (None, l')) by (vm_compute; reflexivity).
  split; [exact H | exact (proj1 (lexer_null_at_end l l') H)].
Defined.

(** The buffer of [lexer_get_token] holds 1024 bytes and no write to it is
    checked.  A call has no defined outcome (a write beyond the buffer, or
    a [strlen] that runs beyond it) only if at least 1024 characters were
    left in the stream; a number of 1024 digits is such an input. *)
Theorem lexer_overrun_needs_long_input l :
  lexer_get_token l = None -> BUFSIZE <= Z.of_nat (length (fp l)).
Proof.
  unfold lexer_get_token. intros H.
  destruct (Z.lt_ge_cases (Z.of_nat (length (fp l))) BUFSIZE) as [Hlt | Hge];
    [|exact Hge].
  destruct (loop_defined (fp l) (state l) (line_no l) []) as [[r [[input st] line]] Hr];
    [simpl; lia|].
  rewrite Hr in H. discriminate.
Qed.

Lemma lexer_overrun_needs_long_input_witness :
  let l := mkLexer (repeat 49 1024) LEXER_STATE_ZERO 1 0 in
  lexer_get_token l = None /\ BUFSIZE <= Z.of_nat (length (fp l)).
Proof.
  intros l.
  assert (H : lexer_get_token l = None) by (vm_compute; reflexivity).
  split; [exact H | exact (lexer_overrun_needs_long_input l H)].
Defined.
